(** * N-ary tree of c-algorithms (tree.c): shallow embedding and verification

    The C structure [struct _TreeNode] is embedded as a record stored in a
    heap of nodes addressed by [positive]; a C pointer is an [option addr]
    ([None] is [NULL]).  [unsigned int] values are integers kept in
    [0, 2^32) with the wrap-around written out.  Loops carry a fuel
    argument; a dereference of [NULL], of a released node or outside the
    allocated child array is the outcome [Fault]. *)

From stdpp Require Import gmap list.
From Stdlib Require Import ZArith Lia.

Open Scope Z_scope.

(** ** Machine integers *)

Definition UINT_MAX : Z := 4294967295.

(** Reduction of an integer to the range of [unsigned int]. *)
Definition uint (x : Z) : Z := x mod (UINT_MAX + 1).

(** ** Nodes, heap, allocator *)

Definition addr := positive.
Abbreviation ptr := (option addr).
Definition TreeNodeValue := Z.

(** [children] is the allocated array: its length is the physical size,
    cells that were never written read as [NULL]. *)
Record TreeNode := mkTreeNode {
  parent : ptr;
  children : list ptr;
  outDegree : Z;
  data : TreeNodeValue;
  _alloced : Z;
  i : Z;
  h : Z
}.

Definition set_parent (x : TreeNode) (v : ptr) : TreeNode :=
  mkTreeNode v (children x) (outDegree x) (data x) (_alloced x) (i x) (h x).
Definition set_children (x : TreeNode) (v : list ptr) : TreeNode :=
  mkTreeNode (parent x) v (outDegree x) (data x) (_alloced x) (i x) (h x).
Definition set_outDegree (x : TreeNode) (v : Z) : TreeNode :=
  mkTreeNode (parent x) (children x) v (data x) (_alloced x) (i x) (h x).
Definition set_data (x : TreeNode) (v : TreeNodeValue) : TreeNode :=
  mkTreeNode (parent x) (children x) (outDegree x) v (_alloced x) (i x) (h x).
Definition set_alloced (x : TreeNode) (v : Z) : TreeNode :=
  mkTreeNode (parent x) (children x) (outDegree x) (data x) v (i x) (h x).
Definition set_i (x : TreeNode) (v : Z) : TreeNode :=
  mkTreeNode (parent x) (children x) (outDegree x) (data x) (_alloced x) v (h x).
Definition set_h (x : TreeNode) (v : Z) : TreeNode :=
  mkTreeNode (parent x) (children x) (outDegree x) (data x) (_alloced x) (i x) v.

(** The state of the program: the live nodes, and the answers the
    allocator will give to the coming [malloc]/[realloc] calls ([true]:
    the call succeeds; an exhausted plan means every call succeeds). *)
Record state := mkState {
  heap : gmap addr TreeNode;
  plan : list bool
}.

(** ** Outcomes and the two monads *)

Inductive res (A : Type) : Type :=
| Ok (a : A)
| Fault
| Timeout.
Arguments Ok {A} a.
Arguments Fault {A}.
Arguments Timeout {A}.

(** Mutators thread the state; queries and iterators only read the heap. *)
Definition M (A : Type) : Type := state -> res (A * state).
Definition R (A : Type) : Type := gmap addr TreeNode -> res A.

Definition retM {A} (a : A) : M A := fun st => Ok (a, st).
Definition bindM {A B} (m : M A) (k : A -> M B) : M B :=
  fun st => match m st with
            | Ok (a, st') => k a st'
            | Fault => Fault
            | Timeout => Timeout
            end.
Definition faultM {A} : M A := fun _ => Fault.
Definition timeoutM {A} : M A := fun _ => Timeout.

Definition retR {A} (a : A) : R A := fun _ => Ok a.
Definition bindR {A B} (m : R A) (k : A -> R B) : R B :=
  fun hp => match m hp with
            | Ok a => k a hp
            | Fault => Fault
            | Timeout => Timeout
            end.
Definition faultR {A} : R A := fun _ => Fault.
Definition timeoutR {A} : R A := fun _ => Timeout.

Notation "'do' x <- m ; k" := (bindM m (fun x => k))
  (at level 10, x name, m at level 100, k at level 200).
Notation "'rd' x <- m ; k" := (bindR m (fun x => k))
  (at level 10, x name, m at level 100, k at level 200).

(** ** Memory accesses *)

(** [a[k]] on an array of pointers; [None] outside the allocation. *)
Definition arr_get (a : list ptr) (k : Z) : option ptr :=
  if (0 <=? k) && (k <? Z.of_nat (length a)) then a !! Z.to_nat k else None.

Definition arr_set (a : list ptr) (k : Z) (v : ptr) : option (list ptr) :=
  if (0 <=? k) && (k <? Z.of_nat (length a)) then Some (<[Z.to_nat k := v]> a)
  else None.

(** [*p] for a node pointer. *)
Definition load (p : ptr) : M TreeNode := fun st =>
  match p with
  | None => Fault
  | Some a => match heap st !! a with
              | Some x => Ok (x, st)
              | None => Fault
              end
  end.

Definition store (p : ptr) (x : TreeNode) : M unit := fun st =>
  match p with
  | None => Fault
  | Some a => match heap st !! a with
              | Some _ => Ok (tt, mkState (<[a := x]> (heap st)) (plan st))
              | None => Fault
              end
  end.

(** [p->children[k]] *)
Definition read_child (p : ptr) (k : Z) : M ptr :=
  do x <- load p;
  match arr_get (children x) k with
  | Some c => retM c
  | None => faultM
  end.

(** [p->children[k] = v] *)
Definition write_child (p : ptr) (k : Z) (v : ptr) : M unit :=
  do x <- load p;
  match arr_set (children x) k v with
  | Some a => store p (set_children x a)
  | None => faultM
  end.

Definition loadR (p : ptr) : R TreeNode := fun hp =>
  match p with
  | None => Fault
  | Some a => match hp !! a with
              | Some x => Ok x
              | None => Fault
              end
  end.

Definition read_childR (p : ptr) (k : Z) : R ptr :=
  rd x <- loadR p;
  match arr_get (children x) k with
  | Some c => retR c
  | None => faultR
  end.

(** The allocator's answer to the next request. *)
Definition alloc_ok : M bool := fun st =>
  match plan st with
  | [] => Ok (true, st)
  | b :: bs => Ok (b, mkState (heap st) bs)
  end.

(** [malloc(sizeof(struct _TreeNode))]: a fresh address, contents given by
    the caller, or [NULL]. *)
Definition malloc_node (x : TreeNode) : M ptr :=
  do ok <- alloc_ok;
  if ok : bool then
    fun st => let a := fresh (dom (heap st)) in
              Ok (Some a, mkState (<[a := x]> (heap st)) (plan st))
  else retM None.

(** [free(p)] of a node together with its child array. *)
Definition free_node (p : ptr) : M unit := fun st =>
  match p with
  | None => Fault
  | Some a => match heap st !! a with
              | Some _ => Ok (tt, mkState (delete a (heap st)) (plan st))
              | None => Fault
              end
  end.

(** ** tree.c: static helpers *)

(** The inner [for] of [tree_update_height]:
    [for (; k < n->outDegree; k++) hc = max(hc, n->children[k]->h)]. *)
Fixpoint max_child_h (fuel : nat) (n : ptr) (k hc : Z) : M Z :=
  match fuel with
  | O => timeoutM
  | S f =>
      do x <- load n;
      if k <? outDegree x then
        do c <- read_child n k;
        do y <- load c;
        max_child_h f n (uint (k + 1)) (if hc >? h y then hc else h y)
      else retM hc
  end.

Fixpoint tree_update_height_loop (fuel inner : nat) (n : ptr) : M unit :=
  match fuel with
  | O => timeoutM
  | S f =>
      match n with
      | None => retM tt
      | Some _ =>
          do hc <- max_child_h inner n 0 0;
          do x <- load n;
          do _ <- store n (set_h x hc);
          do x' <- load n;
          tree_update_height_loop f inner (parent x')
      end
  end.

Definition tree_update_height (fuel : nat) (n : ptr) : M unit :=
  tree_update_height_loop fuel fuel n.

Definition tree_children_grow_min_size (n : ptr) (s : Z) : M bool :=
  do x <- load n;
  if _alloced x >=? s then retM true
  else
    do ok <- alloc_ok;
    if ok : bool then
      do _ <- store n (set_alloced
                         (set_children x (resize (Z.to_nat s) None (children x)))
                         s);
      retM true
    else retM false.

(** [for (k = 0; k < p->outDegree && p->children[k] != c; k++);] *)
Fixpoint remove_child_find (fuel : nat) (p c : ptr) (k : Z) : M Z :=
  match fuel with
  | O => timeoutM
  | S f =>
      do x <- load p;
      if k <? outDegree x then
        do e <- read_child p k;
        if decide (e = c) then retM k
        else remove_child_find f p c (uint (k + 1))
      else retM k
  end.

(** [for (; k < p->outDegree - 1; k++) { p->children[k] = p->children[k+1];
    p->children[k]->i = k; }] *)
Fixpoint remove_child_shift (fuel : nat) (p : ptr) (k : Z) : M unit :=
  match fuel with
  | O => timeoutM
  | S f =>
      do x <- load p;
      if k <? uint (outDegree x - 1) then
        do e <- read_child p (uint (k + 1));
        do _ <- write_child p k e;
        do e' <- read_child p k;
        do y <- load e';
        do _ <- store e' (set_i y k);
        remove_child_shift f p (uint (k + 1))
      else retM tt
  end.

Definition tree_node_remove_child (fuel : nat) (c : ptr) : M unit :=
  do y <- load c;
  let p := parent y in
  do k <- remove_child_find fuel p c 0;
  do _ <- write_child p k None;
  do _ <- remove_child_shift fuel p k;
  do x <- load p;
  store p (set_outDegree x (uint (outDegree x - 1))).

(** ** tree.c: construction, destruction, queries *)

Definition tree_alloc (d : TreeNodeValue) : M ptr :=
  malloc_node (mkTreeNode None [] 0 d 0 0 0).

Definition tree_free (t : ptr) : M unit :=
  match t with
  | None => retM tt
  | Some _ => free_node t
  end.

Definition tree_root (t : ptr) : ptr := t.

Fixpoint tree_abs_root_loop (fuel : nat) (b n : ptr) : R ptr :=
  match fuel with
  | O => timeoutR
  | S f =>
      match n with
      | None => retR b
      | Some _ => rd x <- loadR n; tree_abs_root_loop f n (parent x)
      end
  end.

Definition tree_abs_root (fuel : nat) (n : ptr) : R ptr :=
  tree_abs_root_loop fuel n n.

Definition tree_subtree (n : ptr) : ptr := n.

Definition tree_data (n : ptr) : R TreeNodeValue :=
  rd x <- loadR n; retR (data x).

Definition tree_set_data (n : ptr) (d : TreeNodeValue) : M unit :=
  do x <- load n; store n (set_data x d).

Definition tree_parent (t n : ptr) : R ptr :=
  match n with
  | None => retR None
  | Some _ =>
      if decide (t = n) then retR None
      else rd x <- loadR n; retR (parent x)
  end.

Definition tree_out_degree (n : ptr) : R Z :=
  rd x <- loadR n; retR (outDegree x).

Definition tree_child (n : ptr) (k : Z) : R ptr :=
  rd od <- tree_out_degree n;
  if od >? k then read_childR n k else retR None.

Definition tree_first_child (n : ptr) : R ptr :=
  rd od <- tree_out_degree n;
  if od >? 0 then read_childR n 0 else retR None.

Definition tree_last_child (n : ptr) : R ptr :=
  rd od <- tree_out_degree n;
  if od >? 0 then read_childR n (uint (od - 1)) else retR None.

Definition tree_is_leaf (n : ptr) : R bool :=
  rd od <- tree_out_degree n; retR (od =? 0).

(** [while (d != NULL && d != n) d = d->parent; return d == n;] *)
Fixpoint tree_is_descendant_of (fuel : nat) (d n : ptr) : R bool :=
  match fuel with
  | O => timeoutR
  | S f =>
      match d with
      | None => retR (bool_decide (d = n))
      | Some _ =>
          if decide (d = n) then retR (bool_decide (d = n))
          else rd x <- loadR d; tree_is_descendant_of f (parent x) n
      end
  end.

Definition tree_is_ancestor_of (fuel : nat) (a n : ptr) : R bool :=
  tree_is_descendant_of fuel n a.

(** [while (n != NULL && n != t) { n = n->parent; d++; }] *)
Fixpoint tree_depth_loop (fuel : nat) (t n : ptr) (d : Z) : R Z :=
  match fuel with
  | O => timeoutR
  | S f =>
      match n with
      | None => retR d
      | Some _ =>
          if decide (n = t) then retR d
          else rd x <- loadR n; tree_depth_loop f t (parent x) (uint (d + 1))
      end
  end.

Definition tree_depth (fuel : nat) (t n : ptr) : R Z :=
  rd anc <- tree_is_ancestor_of fuel t n;
  if negb anc then retR 0 else tree_depth_loop fuel t n 0.

Definition tree_level (fuel : nat) (t n : ptr) : R Z :=
  rd anc <- tree_is_ancestor_of fuel t n;
  if negb anc then retR 0
  else rd d <- tree_depth fuel t n; retR (uint (d + 1)).

Definition tree_height (t : ptr) : R Z :=
  match t with
  | None => retR 0
  | Some _ => rd x <- loadR t; retR (h x)
  end.

Definition tree_height_node (n : ptr) : R Z :=
  rd x <- loadR n; retR (h x).

(** ** tree.c: structural mutators *)

Definition tree_remove (fuel : nat) (n : ptr) : M ptr :=
  do x <- load n;
  match parent x with
  | None => retM n
  | Some _ =>
      do _ <- tree_node_remove_child fuel n;
      do x1 <- load n;
      do _ <- tree_update_height fuel (parent x1);
      do x2 <- load n;
      do _ <- store n (set_parent x2 None);
      do x3 <- load n;
      do _ <- store n (set_i x3 0);
      retM n
  end.

Definition tree_delete (fuel : nat) (n : ptr) : M unit :=
  do r <- tree_remove fuel n;
  tree_free r.

(** The common tail of [tree_add_subtree] and [tree_add_child]:
    [n->children[n->outDegree] = c; c->parent = n; c->i = n->outDegree;
     n->outDegree++; tree_update_height(n);] *)
Definition append_child (fuel : nat) (n c : ptr) : M unit :=
  do x <- load n;
  do _ <- write_child n (outDegree x) c;
  do y <- load c;
  do _ <- store c (set_parent y n);
  do x1 <- load n;
  do y1 <- load c;
  do _ <- store c (set_i y1 (outDegree x1));
  do x2 <- load n;
  do _ <- store n (set_outDegree x2 (uint (outDegree x2 + 1)));
  tree_update_height fuel n.

Definition tree_add_subtree (fuel : nat) (n t : ptr) : M ptr :=
  match t with
  | None => retM None
  | Some _ =>
      do y <- load t;
      match parent y with
      | Some _ => retM None
      | None =>
          do _ <- tree_remove fuel t;
          do x <- load n;
          do ok <- tree_children_grow_min_size n (uint (outDegree x + 1));
          if ok : bool then
            do _ <- append_child fuel n t;
            retM None
          else retM t
      end
  end.

Definition tree_add_child (fuel : nat) (n : ptr) (d : TreeNodeValue) : M ptr :=
  do x <- load n;
  do ok <- tree_children_grow_min_size n (uint (outDegree x + 1));
  if ok : bool then
    do c <- tree_alloc d;
    match c with
    | None => retM None
    | Some _ =>
        do _ <- append_child fuel n c;
        retM c
    end
  else retM None.

(** [for (a = n->outDegree - 1; a >= k; a--) { n->children[a + 1] =
    n->children[a]; n->children[a + 1]->i = a + 1; }] *)
Fixpoint insert_shift (fuel : nat) (n : ptr) (a k : Z) : M unit :=
  match fuel with
  | O => timeoutM
  | S f =>
      if a >=? k then
        do e <- read_child n a;
        do _ <- write_child n (uint (a + 1)) e;
        do e' <- read_child n (uint (a + 1));
        do y <- load e';
        do _ <- store e' (set_i y (uint (a + 1)));
        insert_shift f n (uint (a - 1)) k
      else retM tt
  end.

Definition tree_insert_subtree (fuel : nat) (n t : ptr) (k : Z) : M ptr :=
  match t with
  | None => retM t
  | Some _ =>
      do x <- load n;
      if k >? outDegree x then retM t
      else
        do y <- load t;
        match parent y with
        | Some _ => retM t
        | None =>
            do ok <- tree_children_grow_min_size n (uint (outDegree x + 1));
            if ok : bool then
              do x1 <- load n;
              do _ <- insert_shift fuel n (uint (outDegree x1 - 1)) k;
              do _ <- write_child n k t;
              do x2 <- load n;
              do _ <- store n (set_outDegree x2 (uint (outDegree x2 + 1)));
              do y1 <- load t;
              do _ <- store t (set_parent y1 n);
              do y2 <- load t;
              do _ <- store t (set_i y2 k);
              do _ <- tree_update_height fuel n;
              retM None
            else retM t
        end
  end.

Definition tree_insert_child (fuel : nat) (n : ptr) (d : TreeNodeValue) (k : Z)
  : M ptr :=
  do x <- load n;
  if k >? outDegree x then retM None
  else
    do c <- tree_alloc d;
    do c' <- tree_insert_subtree fuel n c k;
    match c' with
    | None => retM c'
    | Some _ => do _ <- tree_free c'; retM None
    end.

Definition tree_set_subtree (fuel : nat) (n t : ptr) (k : Z) : M ptr :=
  match t with
  | None => retM t
  | Some _ =>
      do x <- load n;
      if k >? outDegree x then retM t
      else
        do y <- load t;
        match parent y with
        | Some _ => retM t
        | None =>
            do ok <- tree_children_grow_min_size n (uint (outDegree x + 1));
            if ok : bool then
              do x1 <- load n;
              do _ <- (if k =? outDegree x1 then
                         do _ <- write_child n k t;
                         do x2 <- load n;
                         store n (set_outDegree x2 (uint (outDegree x2 + 1)))
                       else
                         do e <- read_child n k;
                         do _ <- tree_free e;
                         write_child n k t);
              do y1 <- load t;
              do _ <- store t (set_parent y1 n);
              do y2 <- load t;
              do _ <- store t (set_i y2 k);
              do _ <- tree_update_height fuel n;
              retM None
            else retM t
        end
  end.

Definition tree_set_child (fuel : nat) (n : ptr) (d : TreeNodeValue) (k : Z)
  : M ptr :=
  do x <- load n;
  if k >? outDegree x then retM None
  else
    do c <- tree_alloc d;
    do c' <- tree_set_subtree fuel n c k;
    match c' with
    | None => retM c'
    | Some _ => do _ <- tree_free c'; retM None
    end.

(** ** tree.c: iterators

    The iterator structure is passed and returned as a value: the functions
    below update only its slots and read the heap. *)

Record TreeIterator := mkTreeIterator {
  t : ptr;
  prev : ptr;
  current : ptr;
  next : ptr
}.

Definition tree_iter_alloc : TreeIterator := mkTreeIterator None None None None.

Definition tree_iter_has_next (it : TreeIterator) : bool :=
  match next it with Some _ => true | None => false end.

Definition tree_iter_has_prev (it : TreeIterator) : bool :=
  match prev it with Some _ => true | None => false end.

Definition tree_iter_data (it : TreeIterator) : R TreeNodeValue :=
  match current it with
  | None => retR 0
  | Some _ => rd x <- loadR (current it); retR (data x)
  end.

(** [while (nc != NULL) { cc = nc; if (cc->outDegree > 0) nc =
    nc->children[0]; else nc = NULL; }] *)
Fixpoint leaves_first_loop (fuel : nat) (cc nc : ptr) : R ptr :=
  match fuel with
  | O => timeoutR
  | S f =>
      match nc with
      | None => retR cc
      | Some _ =>
          rd x <- loadR nc;
          if outDegree x >? 0 then
            rd c <- read_childR nc 0; leaves_first_loop f nc c
          else leaves_first_loop f nc None
      end
  end.

Definition tree_iter_leaves_first (fuel : nat) (it : TreeIterator) (tr : ptr)
  : R TreeIterator :=
  rd cc <- leaves_first_loop fuel tr tr;
  retR (mkTreeIterator tr (prev it) (current it) cc).

Fixpoint leaves_last_loop (fuel : nat) (cc nc : ptr) : R ptr :=
  match fuel with
  | O => timeoutR
  | S f =>
      match nc with
      | None => retR cc
      | Some _ =>
          rd x <- loadR nc;
          if outDegree x >? 0 then
            rd c <- read_childR nc (uint (outDegree x - 1));
            leaves_last_loop f nc c
          else leaves_last_loop f nc None
      end
  end.

Definition tree_iter_leaves_last (fuel : nat) (it : TreeIterator) (tr : ptr)
  : R TreeIterator :=
  rd cc <- leaves_last_loop fuel tr tr;
  retR (mkTreeIterator tr cc (current it) (next it)).

(** [while (p->outDegree > 0) p = p->children[0];] *)
Fixpoint descend_first (fuel : nat) (p : ptr) : R ptr :=
  match fuel with
  | O => timeoutR
  | S f =>
      rd x <- loadR p;
      if outDegree x >? 0 then
        rd c <- read_childR p 0; descend_first f c
      else retR p
  end.

(** [while (p->outDegree > 0) p = p->children[p->outDegree - 1];] *)
Fixpoint descend_last (fuel : nat) (p : ptr) : R ptr :=
  match fuel with
  | O => timeoutR
  | S f =>
      rd x <- loadR p;
      if outDegree x >? 0 then
        rd c <- read_childR p (uint (outDegree x - 1)); descend_last f c
      else retR p
  end.

(** [while (p != NULL && p != i->t) { if (p->parent != NULL && p->i <
    p->parent->outDegree - 1) break; p = p->parent; }] *)
Fixpoint leaves_next_climb (fuel : nat) (tr p : ptr) : R ptr :=
  match fuel with
  | O => timeoutR
  | S f =>
      match p with
      | None => retR p
      | Some _ =>
          if decide (p = tr) then retR p
          else
            rd x <- loadR p;
            rd brk <- match parent x with
                      | None => retR false
                      | Some _ =>
                          rd y <- loadR (parent x);
                          retR (i x <? uint (outDegree y - 1))
                      end;
            if brk : bool then retR p else leaves_next_climb f tr (parent x)
      end
  end.

Definition tree_iter_leaves_next (fuel : nat) (it : TreeIterator)
  : R (ptr * TreeIterator) :=
  let it1 := mkTreeIterator (t it) (current it) (next it) (next it) in
  rd p <- leaves_next_climb fuel (t it1) (next it1);
  match p with
  | None => retR (current it1, mkTreeIterator (t it1) (prev it1) (current it1) None)
  | Some _ =>
      if decide (p = t it1) then
        retR (current it1, mkTreeIterator (t it1) (prev it1) (current it1) None)
      else
        rd x <- loadR p;
        rd s <- read_childR (parent x) (uint (i x + 1));
        rd l <- descend_first fuel s;
        retR (current it1, mkTreeIterator (t it1) (prev it1) (current it1) l)
  end.

(** [while (p != NULL && p != i->t) { if (p->i > 0) break; p = p->parent; }] *)
Fixpoint leaves_prev_climb (fuel : nat) (tr p : ptr) : R ptr :=
  match fuel with
  | O => timeoutR
  | S f =>
      match p with
      | None => retR p
      | Some _ =>
          if decide (p = tr) then retR p
          else
            rd x <- loadR p;
            if i x >? 0 then retR p else leaves_prev_climb f tr (parent x)
      end
  end.

Definition tree_iter_leaves_prev (fuel : nat) (it : TreeIterator)
  : R (ptr * TreeIterator) :=
  let it1 := mkTreeIterator (t it) (prev it) (prev it) (current it) in
  rd p <- leaves_prev_climb fuel (t it1) (prev it1);
  match p with
  | None => retR (current it1, mkTreeIterator (t it1) None (current it1) (next it1))
  | Some _ =>
      if decide (p = t it1) then
        retR (current it1, mkTreeIterator (t it1) None (current it1) (next it1))
      else
        rd x <- loadR p;
        rd s <- read_childR (parent x) (uint (i x - 1));
        rd l <- descend_last fuel s;
        retR (current it1, mkTreeIterator (t it1) l (current it1) (next it1))
  end.

Definition tree_iter_parents (it : TreeIterator) (tr n : ptr) : TreeIterator :=
  mkTreeIterator tr None None n.

Definition tree_iter_parents_next (it : TreeIterator) : R (ptr * TreeIterator) :=
  let it1 := mkTreeIterator (t it) (current it) (next it) (next it) in
  match next it1 with
  | None => retR (current it1, mkTreeIterator (t it1) (prev it1) (current it1) None)
  | Some _ =>
      if decide (next it1 = t it1) then
        retR (current it1, mkTreeIterator (t it1) (prev it1) (current it1) None)
      else
        rd x <- loadR (next it1);
        retR (current it1,
              mkTreeIterator (t it1) (prev it1) (current it1) (parent x))
  end.

Definition tree_preorder_walk (it : TreeIterator) (tr : ptr) : TreeIterator :=
  mkTreeIterator tr None None tr.

(** [while (i->next != NULL && i->next->parent != NULL && i->next != i->t)
    { if (i->next->i < i->next->parent->outDegree - 1) { i->next =
    i->next->parent->children[i->next->i + 1]; return i->current; }
    i->next = i->next->parent; } i->next = NULL;]; the result is the final
    [next] slot. *)
Fixpoint preorder_next_climb (fuel : nat) (tr p : ptr) : R ptr :=
  match fuel with
  | O => timeoutR
  | S f =>
      match p with
      | None => retR None
      | Some _ =>
          rd x <- loadR p;
          match parent x with
          | None => retR None
          | Some _ =>
              if decide (p = tr) then retR None
              else
                rd y <- loadR (parent x);
                if i x <? uint (outDegree y - 1) then
                  read_childR (parent x) (uint (i x + 1))
                else preorder_next_climb f tr (parent x)
          end
      end
  end.

Definition tree_preorder_walk_next (fuel : nat) (it : TreeIterator)
  : R (ptr * TreeIterator) :=
  let it1 := mkTreeIterator (t it) (current it) (next it) (next it) in
  match next it1 with
  | None => retR (current it1, it1)
  | Some _ =>
      rd x <- loadR (next it1);
      if outDegree x >? 0 then
        rd c <- read_childR (next it1) 0;
        retR (current it1, mkTreeIterator (t it1) (prev it1) (current it1) c)
      else
        rd p <- preorder_next_climb fuel (t it1) (next it1);
        retR (current it1, mkTreeIterator (t it1) (prev it1) (current it1) p)
  end.

Definition tree_preorder_walk_prev (fuel : nat) (it : TreeIterator)
  : R (ptr * TreeIterator) :=
  let it1 := mkTreeIterator (t it) (prev it) (prev it) (current it) in
  if decide (prev it1 = t it1 \/ prev it1 = None) then
    retR (current it1, mkTreeIterator (t it1) None (current it1) (next it1))
  else
    rd x <- loadR (prev it1);
    if i x >? 0 then
      rd s <- read_childR (parent x) (uint (i x - 1));
      rd l <- descend_last fuel s;
      retR (current it1, mkTreeIterator (t it1) l (current it1) (next it1))
    else
      retR (current it1,
            mkTreeIterator (t it1) (parent x) (current it1) (next it1)).

(** [while (i->next != NULL && i->next->outDegree > 0) i->next =
    i->next->children[0];] *)
Fixpoint postorder_first (fuel : nat) (p : ptr) : R ptr :=
  match fuel with
  | O => timeoutR
  | S f =>
      match p with
      | None => retR p
      | Some _ =>
          rd x <- loadR p;
          if outDegree x >? 0 then
            rd c <- read_childR p 0; postorder_first f c
          else retR p
      end
  end.

Definition tree_postorder_walk (fuel : nat) (it : TreeIterator) (tr : ptr)
  : R TreeIterator :=
  rd p <- postorder_first fuel tr;
  retR (mkTreeIterator tr None None p).

Definition tree_postorder_walk_next (fuel : nat) (it : TreeIterator)
  : R (ptr * TreeIterator) :=
  let it1 := mkTreeIterator (t it) (current it) (next it) (next it) in
  let stop := retR (current it1,
                    mkTreeIterator (t it1) (prev it1) (current it1) None) in
  match next it1 with
  | None => stop
  | Some _ =>
      rd x <- loadR (next it1);
      match parent x with
      | None => stop
      | Some _ =>
          if decide (next it1 = t it1) then stop
          else
            rd y <- loadR (parent x);
            if i x <? uint (outDegree y - 1) then
              rd s <- read_childR (parent x) (uint (i x + 1));
              rd l <- descend_first fuel s;
              retR (current it1,
                    mkTreeIterator (t it1) (prev it1) (current it1) l)
            else
              retR (current it1,
                    mkTreeIterator (t it1) (prev it1) (current it1) (parent x))
      end
  end.

(** [while (i->prev->parent != NULL && i->prev != NULL && i->prev != i->t)
    { if (i->prev->i > 0) { i->prev = ...children[i->prev->i - 1]; return
    i->prev; } i->prev = i->prev->parent; } i->prev = NULL; return
    i->current;]; the result is the returned pointer and the final [prev]. *)
Fixpoint postorder_prev_climb (fuel : nat) (tr cur p : ptr) : R (ptr * ptr) :=
  match fuel with
  | O => timeoutR
  | S f =>
      rd x <- loadR p;
      match parent x with
      | None => retR (cur, None)
      | Some _ =>
          if decide (p = tr) then retR (cur, None)
          else if i x >? 0 then
            rd s <- read_childR (parent x) (uint (i x - 1));
            retR (s, s)
          else postorder_prev_climb f tr cur (parent x)
      end
  end.

Definition tree_postorder_walk_prev (fuel : nat) (it : TreeIterator)
  : R (ptr * TreeIterator) :=
  let it1 := mkTreeIterator (t it) (prev it) (prev it) (current it) in
  match prev it1 with
  | None => retR (current it1, it1)
  | Some _ =>
      rd x <- loadR (prev it1);
      if outDegree x >? 0 then
        rd c <- read_childR (prev it1) (uint (outDegree x - 1));
        retR (c, mkTreeIterator (t it1) c (current it1) (next it1))
      else
        rd r <- postorder_prev_climb fuel (t it1) (current it1) (prev it1);
        retR (fst r, mkTreeIterator (t it1) (snd r) (current it1) (next it1))
  end.

(** The client loop [while (tree_iter_has_next(it)) visit(step(it));]
    collecting the returned nodes. *)
Fixpoint walk_forward (fuel : nat)
    (step : TreeIterator -> R (ptr * TreeIterator)) (it : TreeIterator)
  : R (list ptr) :=
  match fuel with
  | O => timeoutR
  | S f =>
      if tree_iter_has_next it then
        rd r <- step it;
        rd rest <- walk_forward f step (snd r);
        retR (fst r :: rest)
      else retR []
  end.

(** * Specification vocabulary *)

(** A field of the node at an address, if the node is live. *)
Definition fld {T} (f : TreeNode -> T) (hp : gmap addr TreeNode) (a : addr)
  : option T := f <$> hp !! a.

(** The cell [a->children[j]]. *)
Definition cell (hp : gmap addr TreeNode) (a : addr) (j : Z) : option ptr :=
  hp !! a ≫= fun x => arr_get (children x) j.

(** The per-node part of the invariant: a node without parent has index
    0, and the out-degree fits the allocated array. *)
Definition shape_ok (x : TreeNode) : Prop :=
  (parent x = None -> i x = 0) /\
  0 <= outDegree x /\ outDegree x <= _alloced x /\
  _alloced x = Z.of_nat (length (children x)) /\ _alloced x <= UINT_MAX.

(** Cell [j] of node [a] holds a live node whose parent is [a] and whose
    stored index is [j]. *)
Definition slot_ok (hp : gmap addr TreeNode) (a : addr) (j : Z) : Prop :=
  exists c, cell hp a j = Some (Some c) /\
            fld parent hp c = Some (Some a) /\ fld i hp c = Some j.

Definition valid_slot (hp : gmap addr TreeNode) (a : addr) (j : Z) : Prop :=
  exists d, fld outDegree hp a = Some d /\ 0 <= j < d.

Definition shapes (hp : gmap addr TreeNode) : Prop :=
  forall a x, hp !! a = Some x -> shape_ok x.

Definition slots_inv (hp : gmap addr TreeNode) (V : addr -> Z -> Prop) : Prop :=
  forall a j, V a j -> slot_ok hp a j.

Definition index_inv (hp : gmap addr TreeNode) : Prop :=
  shapes hp /\ slots_inv hp (valid_slot hp).

(** The invariant with node [a]'s cell [k] left out. *)
Definition hole_inv (hp : gmap addr TreeNode) (a : addr) (k : Z) : Prop :=
  shapes hp /\
  slots_inv hp (fun a' j => valid_slot hp a' j /\ ~ (a' = a /\ j = k)).

(** A node with its cached height blanked out. *)
Definition no_h (x : TreeNode) : TreeNode := set_h x 0.

(** The invariant while node [n] with [d] children has room for one more
    and cell [m] is being vacated. *)
Definition gap_inv (hp : gmap addr TreeNode) (n : addr) (d m : Z) : Prop :=
  shapes hp /\
  slots_inv hp (fun b j => (valid_slot hp b j \/ (b = n /\ j = d)) /\
                           ~ (b = n /\ j = m)).

(** The public operations that build and restructure trees. *)
Inductive op : Type :=
| OpAlloc (d : TreeNodeValue)
| OpRemove (n : ptr)
| OpDelete (n : ptr)
| OpAddSubtree (n t : ptr)
| OpAddChild (n : ptr) (d : TreeNodeValue)
| OpInsertSubtree (n t : ptr) (k : Z)
| OpInsertChild (n : ptr) (d : TreeNodeValue) (k : Z)
| OpSetSubtree (n t : ptr) (k : Z)
| OpSetChild (n : ptr) (d : TreeNodeValue) (k : Z).

Definition run_op (fuel : nat) (o : op) : M unit :=
  match o with
  | OpAlloc d => do _ <- tree_alloc d; retM tt
  | OpRemove n => do _ <- tree_remove fuel n; retM tt
  | OpDelete n => tree_delete fuel n
  | OpAddSubtree n t => do _ <- tree_add_subtree fuel n t; retM tt
  | OpAddChild n d => do _ <- tree_add_child fuel n d; retM tt
  | OpInsertSubtree n t k => do _ <- tree_insert_subtree fuel n t k; retM tt
  | OpInsertChild n d k => do _ <- tree_insert_child fuel n d k; retM tt
  | OpSetSubtree n t k => do _ <- tree_set_subtree fuel n t k; retM tt
  | OpSetChild n d k => do _ <- tree_set_child fuel n d k; retM tt
  end.

Fixpoint run_ops (fuel : nat) (os : list op) : M unit :=
  match os with
  | [] => retM tt
  | o :: os' => do _ <- run_op fuel o; run_ops fuel os'
  end.

(** The index arguments are [unsigned int]. *)
Definition op_unsigned (o : op) : Prop :=
  match o with
  | OpInsertSubtree _ _ k | OpInsertChild _ _ k
  | OpSetSubtree _ _ k | OpSetChild _ _ k => 0 <= k <= UINT_MAX
  | _ => True
  end.

(** ** Concrete trees used as test inputs *)

Definition st_empty : state := mkState ∅ [].

(** The state reached by a program, or the empty state if it fails. *)
Definition state_after {A} (m : M A) (st : state) : state :=
  match m st with Ok (_, st') => st' | _ => st end.

(** A root (address 1, payload 100) with one child (address 2). *)
Definition ex_parent_child : state :=
  state_after (do r <- tree_alloc 100; tree_add_child 8 r 10) st_empty.

(** Root 1 with child 2, and a separate root 3. *)
Definition ex_two_trees : state :=
  state_after (tree_alloc 200) ex_parent_child.

(** The chain 1 -> 2 -> 3. *)
Definition ex_chain : state :=
  state_after (tree_add_child 8 (Some 2%positive) 20) ex_parent_child.

(** Three advances of a walk followed by one retreat: the node returned by
    the third advance, the one returned by the second, and the one
    returned by the retreat. *)
Definition advance3_retreat
    (start : TreeIterator -> R TreeIterator)
    (advance retreat : TreeIterator -> R (ptr * TreeIterator))
  : R (ptr * ptr * ptr) :=
  rd it0 <- start tree_iter_alloc;
  rd r1 <- advance it0;
  rd r2 <- advance (snd r1);
  rd r3 <- advance (snd r2);
  rd r4 <- retreat (snd r3);
  retR (fst r3, fst r2, fst r4).

Definition ex_ops : list op :=
  [OpAlloc 100; OpAddChild (Some 1%positive) 10; OpAddChild (Some 1%positive) 20;
   OpAddChild (Some 1%positive) 30; OpInsertChild (Some 1%positive) 40 2;
   OpSetChild (Some 1%positive) 50 1; OpRemove (Some 2%positive);
   OpAddSubtree (Some 4%positive) (Some 2%positive)].

(** [reaches hp n b]: node [b] lies on the parent chain that starts at [n]
    ([n] itself included). *)
Inductive reaches (hp : gmap addr TreeNode) : ptr -> addr -> Prop :=
| reaches_here a : reaches hp (Some a) a
| reaches_up a q b :
    fld parent hp a = Some q -> reaches hp q b -> reaches hp (Some a) b.

(** [anc_chain hp n m]: the parent chain from [n] ends at [NULL] after at
    most [m] live nodes. *)
Inductive anc_chain (hp : gmap addr TreeNode) : ptr -> nat -> Prop :=
| anc_null m : anc_chain hp None m
| anc_step a q m :
    fld parent hp a = Some q -> anc_chain hp q m -> anc_chain hp (Some a) (S m).

(** A node with its index blanked out. *)
Definition no_i (x : TreeNode) : TreeNode := set_i x 0.

(** The operations that build [ex_two_trees]. *)
Definition ex_two_trees_ops : list op :=
  [OpAlloc 100; OpAddChild (Some 1%positive) 10; OpAlloc 200].

(** The chain 1 -> 2 -> 3 -> 4 after [tree_delete] of node 2, and a new
    root 5: node 3 is live and its parent pointer names the released
    node 2. *)
Definition ex_orphan : state :=
  state_after
    (run_ops 8 [OpAlloc 100; OpAddChild (Some 1%positive) 10;
                OpAddChild (Some 2%positive) 20;
                OpAddChild (Some 3%positive) 30;
                OpDelete (Some 2%positive); OpAlloc 7]) st_empty.

(** ** Trees as mathematical objects *)

(** The shape of a tree: the address of a node and the shapes of its
    children, leftmost first. *)
#[warnings="-register-all"]
Inductive rose : Type := Node (a : addr) (kids : list rose).

Definition root (T : rose) : addr := match T with Node a _ => a end.
Definition kids_of (T : rose) : list rose := match T with Node _ ks => ks end.

(** Number of nodes. *)
Fixpoint size (T : rose) : nat :=
  match T with Node _ kids => S (sum_list (map size kids)) end.

(** The addresses of all nodes, a parent before its children, siblings
    left to right. *)
Fixpoint addrs (T : rose) : list addr :=
  match T with Node a kids => a :: concat (map addrs kids) end.

(** The addresses of the proper descendants. *)
Definition inner (T : rose) : list addr := concat (map addrs (kids_of T)).

(** The leaves, left to right. *)
Fixpoint leaves (T : rose) : list addr :=
  match T with
  | Node a [] => [a]
  | Node a kids => concat (map leaves kids)
  end.

Fixpoint first_leaf (T : rose) : addr :=
  match T with
  | Node a [] => a
  | Node a (k :: _) => first_leaf k
  end.

(** [kids_at hp rec a j ks]: the cells [j, j+1, ...] of node [a] hold the
    roots of [ks], each pointing back to [a] with its cell number as
    index, and each satisfying [rec]. *)
Fixpoint kids_at (hp : gmap addr TreeNode) (rec : rose -> Prop)
    (a : addr) (j : Z) (ks : list rose) : Prop :=
  match ks with
  | [] => True
  | k :: ks' =>
      cell hp a j = Some (Some (root k)) /\
      fld parent hp (root k) = Some (Some a) /\
      fld i hp (root k) = Some j /\
      rec k /\ kids_at hp rec a (j + 1) ks'
  end.

(** [is_tree hp T]: the heap holds a tree of shape [T].  Nothing is asked
    of the parent and index fields of the root, which may itself hang in a
    larger tree. *)
Fixpoint is_tree (hp : gmap addr TreeNode) (T : rose) : Prop :=
  match T with
  | Node a kids =>
      fld outDegree hp a = Some (Z.of_nat (length kids)) /\
      Z.of_nat (length kids) <= UINT_MAX /\
      kids_at hp (is_tree hp) a 0 kids
  end.

(** The value [tree_iter_leaves_next] stores in the [next] slot, with
    separate fuel for the climb and for the descent. *)
Definition leaves_next_slot (fc fd : nat) (tr p : ptr) : R ptr :=
  rd q <- leaves_next_climb fc tr p;
  match q with
  | None => retR None
  | Some _ =>
      if decide (q = tr) then retR None
      else
        rd x <- loadR q;
        rd s <- read_childR (parent x) (uint (i x + 1));
        descend_first fd s
  end.

(** The whole traversal: position the iterator on the first leaf, then
    advance until [tree_iter_has_next] fails. *)
Definition leaves_traversal (fuel : nat) (tr : ptr) : R (list ptr) :=
  rd it <- tree_iter_leaves_first fuel tree_iter_alloc tr;
  walk_forward fuel (tree_iter_leaves_next fuel) it.

(** Advancing with [step] from the slot value [nx] with fuel [fw] yields
    [out], whatever the other slots hold. *)
Definition walks_with (step : TreeIterator -> R (ptr * TreeIterator))
    (hp : gmap addr TreeNode) (r : addr)
    (nx : ptr) (fw : nat) (out : list ptr) : Prop :=
  forall pv cu,
    walk_forward fw step (mkTreeIterator (Some r) pv cu nx) hp = Ok out.

(** [step] yields node [a] and moves the iterator on to the slot value
    [K]. *)
Definition steps_to (step : TreeIterator -> R (ptr * TreeIterator))
    (hp : gmap addr TreeNode) (r a : addr) (K : ptr) : Prop :=
  forall pv cu,
    step (mkTreeIterator (Some r) pv cu (Some a)) hp
    = Ok (Some a, mkTreeIterator (Some r) cu (Some a) K).

Definition walks_from (hp : gmap addr TreeNode) (r : addr) (fs : nat)
  : ptr -> nat -> list ptr -> Prop :=
  walks_with (tree_iter_leaves_next fs) hp r.

(** The statement proved for every subtree: if climbing from its root
    leads to the slot value [K], the walk started on its first leaf
    yields its leaves and continues from [K]. *)
Definition walks_subtree (hp : gmap addr TreeNode) (r : addr) (fs : nat)
    (S : rose) : Prop :=
  forall (d : nat) K fw rest,
    is_tree hp S -> r ∉ inner S -> (d + size S <= fs)%nat ->
    (forall fc, (d < fc)%nat ->
                leaves_next_slot fc fs (Some r) (Some (root S)) hp = Ok K) ->
    walks_from hp r fs K fw rest ->
    walks_from hp r fs (Some (first_leaf S)) (length (leaves S) + fw)
               ((Some <$> leaves S) ++ rest).

(** Root 1 with children 2, 3, 4, where node 2 has children 5 and 6. *)
Definition ex_bushy : state :=
  state_after
    (do r <- tree_alloc 100;
     do c <- tree_add_child 8 r 10;
     do _ <- tree_add_child 8 r 20;
     do _ <- tree_add_child 8 r 30;
     do _ <- tree_add_child 8 c 11;
     tree_add_child 8 c 12) st_empty.

Definition ex_bushy_shape : rose :=
  Node 1%positive
    [Node 2%positive [Node 5%positive []; Node 6%positive []];
     Node 3%positive []; Node 4%positive []].

(** The [n]-th ancestor of a node, following the parent pointers. *)
Fixpoint up (hp : gmap addr TreeNode) (n : nat) (a : addr) : option addr :=
  match n with
  | O => Some a
  | S n' =>
      match fld parent hp a with
      | Some (Some q) => up hp n' q
      | _ => None
      end
  end.

(** The nodes with every parent after its children, siblings left to
    right.  ([addrs] is the order with the parent first.) *)
Fixpoint postorder (T : rose) : list addr :=
  match T with Node a kids => concat (map postorder kids) ++ [a] end.

(** The statements proved for every subtree. *)
Definition preorder_subtree (hp : gmap addr TreeNode) (r : addr) (fs : nat)
    (S : rose) : Prop :=
  forall (d : nat) K fw rest,
    is_tree hp S -> r ∉ inner S -> (d + size S <= fs)%nat ->
    (forall fc, (d < fc)%nat ->
                preorder_next_climb fc (Some r) (Some (root S)) hp = Ok K) ->
    walks_with (tree_preorder_walk_next fs) hp r K fw rest ->
    walks_with (tree_preorder_walk_next fs) hp r (Some (root S))
               (size S + fw) ((Some <$> addrs S) ++ rest).

Definition postorder_subtree (hp : gmap addr TreeNode) (r : addr) (fs : nat)
    (S : rose) : Prop :=
  forall K fw rest,
    is_tree hp S -> r ∉ inner S -> (size S <= fs)%nat ->
    steps_to (tree_postorder_walk_next fs) hp r (root S) K ->
    walks_with (tree_postorder_walk_next fs) hp r K fw rest ->
    walks_with (tree_postorder_walk_next fs) hp r (Some (first_leaf S))
               (size S + fw) ((Some <$> postorder S) ++ rest).

(** The whole walks: set the iterator up, then advance until
    [tree_iter_has_next] fails. *)
Definition preorder_traversal (fuel : nat) (tr : ptr) : R (list ptr) :=
  walk_forward fuel (tree_preorder_walk_next fuel)
    (tree_preorder_walk tree_iter_alloc tr).

Definition postorder_traversal (fuel : nat) (tr : ptr) : R (list ptr) :=
  rd it <- tree_postorder_walk fuel tree_iter_alloc tr;
  walk_forward fuel (tree_postorder_walk_next fuel) it.

(** ** Node-local invariants *)

(** Every live node satisfies [phi]. *)
Definition nodes (phi : TreeNode -> Prop) (hp : gmap addr TreeNode) : Prop :=
  forall a x, hp !! a = Some x -> phi x.

(** [keeps phi m Q]: when [m] returns, it has kept [phi] on every live node
    and its result satisfies [Q]. *)
Definition keeps (phi : TreeNode -> Prop) {A} (m : M A) (Q : A -> Prop)
  : Prop :=
  forall st r st',
    m st = Ok (r, st') -> nodes phi (heap st) ->
    nodes phi (heap st') /\ Q r.

(** The stored height is 0. *)
Definition h_zero (x : TreeNode) : Prop := h x = 0.

(** The states the public operations build from the empty heap. *)
Definition reachable (st : state) : Prop :=
  exists (fuel : nat) (os : list op) (pl : list bool),
    Forall op_unsigned os /\ run_ops fuel os (mkState ∅ pl) = Ok (tt, st).

(** The state built by [ex_ops]. *)
Definition ex_built : state := state_after (run_ops 8 ex_ops) st_empty.

(** [climbs hp k a t]: node [t] is [k] parent steps above node [a], and is
    not met earlier on the way. *)
Fixpoint climbs (hp : gmap addr TreeNode) (k : nat) (a t : addr) : Prop :=
  match k with
  | O => a = t
  | S k' =>
      a <> t /\
      exists q, fld parent hp a = Some (Some q) /\ climbs hp k' q t
  end.

(** The nodes met on the first [k] parent steps from [a], [a] included. *)
Fixpoint path (hp : gmap addr TreeNode) (k : nat) (a : addr) : list ptr :=
  Some a ::
  match k with
  | O => []
  | S k' =>
      match fld parent hp a with
      | Some (Some q) => path hp k' q
      | _ => []
      end
  end.

(** The chain 1 -> 2 -> 3 -> 4 and a separate root 5. *)
Definition ex_deep : state :=
  state_after
    (do _ <- tree_add_child 8 (Some 3%positive) 30; tree_alloc 500) ex_chain.

(** A node with its child array blanked out. *)
Definition no_kids (x : TreeNode) : TreeNode := set_children x [].

(** Root 1 with the children 2 and 3, and a separate root 4. *)
Definition ex_forest : state :=
  state_after (tree_alloc 200)
    (state_after (tree_add_child 8 (Some 1%positive) 20) ex_parent_child).

(** The client loop [while (tree_iter_has_prev(it)) visit(step(it));]
    collecting the returned nodes. *)
Fixpoint walk_backward (fuel : nat)
    (step : TreeIterator -> R (ptr * TreeIterator)) (it : TreeIterator)
  : R (list ptr) :=
  match fuel with
  | O => timeoutR
  | S f =>
      if tree_iter_has_prev it then
        rd r <- step it;
        rd rest <- walk_backward f step (snd r);
        retR (fst r :: rest)
      else retR []
  end.

Fixpoint last_leaf (T : rose) : addr :=
  match T with Node a kids => List.last (map last_leaf kids) a end.

(** The value [tree_iter_leaves_prev] stores in the [prev] slot, with
    separate fuel for the climb and for the descent. *)
Definition leaves_prev_slot (fc fd : nat) (tr p : ptr) : R ptr :=
  rd q <- leaves_prev_climb fc tr p;
  match q with
  | None => retR None
  | Some _ =>
      if decide (q = tr) then retR None
      else
        rd x <- loadR q;
        rd s <- read_childR (parent x) (uint (i x - 1));
        descend_last fd s
  end.

(** The whole backward traversal: position the iterator on the last leaf,
    then retreat until [tree_iter_has_prev] fails. *)
Definition leaves_traversal_back (fuel : nat) (tr : ptr) : R (list ptr) :=
  rd it <- tree_iter_leaves_last fuel tree_iter_alloc tr;
  walk_backward fuel (tree_iter_leaves_prev fuel) it.

(** Retreating with [step] from the slot value [pv] with fuel [fw] yields
    [out], whatever the other slots hold. *)
Definition walks_back_with (step : TreeIterator -> R (ptr * TreeIterator))
    (hp : gmap addr TreeNode) (r : addr)
    (pv : ptr) (fw : nat) (out : list ptr) : Prop :=
  forall cu nx,
    walk_backward fw step (mkTreeIterator (Some r) pv cu nx) hp = Ok out.

Definition walks_back_from (hp : gmap addr TreeNode) (r : addr) (fs : nat)
  : ptr -> nat -> list ptr -> Prop :=
  walks_back_with (tree_iter_leaves_prev fs) hp r.

Definition walks_back_subtree (hp : gmap addr TreeNode) (r : addr) (fs : nat)
    (S : rose) : Prop :=
  forall (d : nat) K fw rest,
    is_tree hp S -> r ∉ inner S -> (d + size S <= fs)%nat ->
    (forall fc, (d < fc)%nat ->
                leaves_prev_slot fc fs (Some r) (Some (root S)) hp = Ok K) ->
    walks_back_from hp r fs K fw rest ->
    walks_back_from hp r fs (Some (last_leaf S)) (length (leaves S) + fw)
                    ((Some <$> reverse (leaves S)) ++ rest).

(** The value [tree_preorder_walk_prev] stores in the [prev] slot. *)
Definition preorder_prev_slot (fd : nat) (tr p : ptr) : R ptr :=
  if decide (p = tr \/ p = None) then retR None
  else
    rd x <- loadR p;
    if i x >? 0 then
      rd s <- read_childR (parent x) (uint (i x - 1));
      descend_last fd s
    else retR (parent x).

Definition walks_back_pre (hp : gmap addr TreeNode) (r : addr) (fs : nat)
  : ptr -> nat -> list ptr -> Prop :=
  walks_back_with (tree_preorder_walk_prev fs) hp r.

(** The statement proved for every subtree: retreating from its last node
    yields its nodes in reverse preorder and continues from the slot
    value [K] computed at its root. *)
Definition preorder_back_subtree (hp : gmap addr TreeNode) (r : addr)
    (fs : nat) (S : rose) : Prop :=
  forall K fw rest,
    is_tree hp S -> r ∉ inner S ->
    preorder_prev_slot fs (Some r) (Some (root S)) hp = Ok K ->
    walks_back_pre hp r fs K fw rest ->
    walks_back_pre hp r fs (Some (last_leaf S)) (size S + fw)
                   ((Some <$> reverse (addrs S)) ++ rest).

(** * Proofs *)

(** ** Inversion of monadic code, arrays, and the height update *)

Lemma bindM_Ok {A B} (m : M A) (k : A -> M B) st r :
  bindM m k st = Ok r -> exists a st1, m st = Ok (a, st1) /\ k a st1 = Ok r.
Proof.
  unfold bindM. destruct (m st) as [[a st1]| |]; try discriminate. eauto.
Qed.

Lemma load_Ok p st x st' :
  load p st = Ok (x, st') ->
  st' = st /\ exists a, p = Some a /\ heap st !! a = Some x.
Proof.
  unfold load. destruct p as [a|]; [|discriminate].
  destruct (heap st !! a) eqn:E; [|discriminate].
  intros [= <- <-]. eauto.
Qed.

Lemma store_Ok p x st u st' :
  store p x st = Ok (u, st') ->
  exists a y, p = Some a /\ heap st !! a = Some y /\
              st' = mkState (<[a := x]> (heap st)) (plan st).
Proof.
  unfold store. destruct p as [a|]; [|discriminate].
  destruct (heap st !! a) eqn:E; [|discriminate].
  intros [= <- <-]. eauto.
Qed.

Lemma read_child_Ok p k st c st' :
  read_child p k st = Ok (c, st') ->
  st' = st /\ exists a x, p = Some a /\ heap st !! a = Some x /\
                          arr_get (children x) k = Some c.
Proof.
  unfold read_child. intros H. apply bindM_Ok in H as (x & st1 & H1 & H2).
  apply load_Ok in H1 as (-> & a & -> & Ha).
  destruct (arr_get (children x) k) eqn:E; [|discriminate].
  injection H2 as <- <-. eauto 10.
Qed.

Lemma write_child_Ok p k v st u st' :
  write_child p k v st = Ok (u, st') ->
  exists a x l, p = Some a /\ heap st !! a = Some x /\
                arr_set (children x) k v = Some l /\
                st' = mkState (<[a := set_children x l]> (heap st)) (plan st).
Proof.
  unfold write_child. intros H. apply bindM_Ok in H as (x & st1 & H1 & H2).
  apply load_Ok in H1 as (-> & a & -> & Ha).
  destruct (arr_set (children x) k v) eqn:E; [|discriminate].
  apply store_Ok in H2 as (a' & y & [= <-] & _ & ->). eauto 10.
Qed.

Lemma alloc_ok_Ok st b st' :
  alloc_ok st = Ok (b, st') -> heap st' = heap st.
Proof.
  unfold alloc_ok. destruct (plan st); intros [= <- <-]; reflexivity.
Qed.

Lemma arr_get_Some (l : list ptr) k c :
  arr_get l k = Some c <-> 0 <= k < Z.of_nat (length l) /\ l !! Z.to_nat k = Some c.
Proof.
  unfold arr_get. destruct (0 <=? k) eqn:E1; destruct (k <? Z.of_nat (length l)) eqn:E2; simpl.
  all: split; [intros H | intros [H1 H2]]; try discriminate; try lia; auto.
  split; [lia|auto].
Qed.

Lemma arr_set_Some (l : list ptr) k v l' :
  arr_set l k v = Some l' <-> 0 <= k < Z.of_nat (length l) /\ l' = <[Z.to_nat k := v]> l.
Proof.
  unfold arr_set. destruct (0 <=? k) eqn:E1; destruct (k <? Z.of_nat (length l)) eqn:E2; simpl.
  all: split; [intros H | intros [H1 H2]]; try discriminate; try lia; auto.
  - split; [lia|congruence].
  - congruence.
Qed.

Lemma arr_get_set_eq (l l' : list ptr) k v :
  arr_set l k v = Some l' -> arr_get l' k = Some v.
Proof.
  intros (Hk & ->)%arr_set_Some. apply arr_get_Some.
  rewrite length_insert. split; [lia|].
  apply list_lookup_insert_eq. lia.
Qed.

Lemma arr_get_set_ne (l l' : list ptr) k j v :
  arr_set l k v = Some l' -> j <> k -> arr_get l' j = arr_get l j.
Proof.
  intros (Hk & ->)%arr_set_Some Hne. unfold arr_get.
  rewrite length_insert.
  destruct ((0 <=? j) && (j <? Z.of_nat (length l))) eqn:E; [|reflexivity].
  apply list_lookup_insert_ne. lia.
Qed.

Lemma arr_set_length (l l' : list ptr) k v :
  arr_set l k v = Some l' -> length l' = length l.
Proof. intros (Hk & ->)%arr_set_Some. apply length_insert. Qed.

Lemma uint_small x : 0 <= x <= UINT_MAX -> uint x = x.
Proof. unfold uint, UINT_MAX. intros. apply Z.mod_small. lia. Qed.

Lemma uint_range x : 0 <= uint x <= UINT_MAX.
Proof.
  unfold uint, UINT_MAX.
  pose proof (Z.mod_pos_bound x (4294967295 + 1)). lia.
Qed.


(** *** Views of the heap *)

Lemma fld_lookup {T} (f : TreeNode -> T) (hp : gmap addr TreeNode) a x :
  hp !! a = Some x -> fld f hp a = Some (f x).
Proof. unfold fld. intros ->. reflexivity. Qed.

Lemma fld_Some {T} (f : TreeNode -> T) (hp : gmap addr TreeNode) a v :
  fld f hp a = Some v -> exists x, hp !! a = Some x /\ f x = v.
Proof.
  unfold fld. destruct (hp !! a) as [x|]; [|discriminate].
  intros [= <-]. eauto.
Qed.

Lemma fld_insert {T} (f : TreeNode -> T) (hp : gmap addr TreeNode) b y a :
  fld f (<[b := y]> hp) a = if decide (a = b) then Some (f y) else fld f hp a.
Proof.
  unfold fld. destruct (decide (a = b)) as [->|Hne].
  - rewrite lookup_insert_eq. reflexivity.
  - rewrite lookup_insert_ne by auto. reflexivity.
Qed.

Lemma fld_insert_same {T} (f : TreeNode -> T) (hp : gmap addr TreeNode) b y y' a :
  hp !! b = Some y -> f y' = f y -> fld f (<[b := y']> hp) a = fld f hp a.
Proof.
  intros Hb Hf. rewrite fld_insert. destruct (decide (a = b)) as [->|]; auto.
  unfold fld. rewrite Hb, Hf. reflexivity.
Qed.

Lemma cell_lookup (hp : gmap addr TreeNode) a x j :
  hp !! a = Some x -> cell hp a j = arr_get (children x) j.
Proof. unfold cell. intros ->. reflexivity. Qed.

Lemma cell_Some (hp : gmap addr TreeNode) a j c :
  cell hp a j = Some c ->
  exists x, hp !! a = Some x /\ arr_get (children x) j = Some c.
Proof.
  unfold cell. destruct (hp !! a) as [x|]; [|discriminate]. simpl. eauto.
Qed.

Lemma cell_insert (hp : gmap addr TreeNode) b y a j :
  cell (<[b := y]> hp) a j =
  if decide (a = b) then arr_get (children y) j else cell hp a j.
Proof.
  unfold cell. destruct (decide (a = b)) as [->|Hne].
  - rewrite lookup_insert_eq. reflexivity.
  - rewrite lookup_insert_ne by auto. reflexivity.
Qed.

Lemma cell_insert_same (hp : gmap addr TreeNode) b y y' a j :
  hp !! b = Some y -> children y' = children y ->
  cell (<[b := y']> hp) a j = cell hp a j.
Proof.
  intros Hb Hf. rewrite cell_insert. destruct (decide (a = b)) as [->|]; auto.
  unfold cell. rewrite Hb, Hf. reflexivity.
Qed.

Lemma fld_delete {T} (f : TreeNode -> T) (hp : gmap addr TreeNode) b a :
  fld f (delete b hp) a = if decide (a = b) then None else fld f hp a.
Proof.
  unfold fld. destruct (decide (a = b)) as [->|Hne].
  - rewrite lookup_delete_eq. reflexivity.
  - rewrite lookup_delete_ne by auto. reflexivity.
Qed.

Lemma cell_delete (hp : gmap addr TreeNode) b a j :
  cell (delete b hp) a j = if decide (a = b) then None else cell hp a j.
Proof.
  unfold cell. destruct (decide (a = b)) as [->|Hne].
  - rewrite lookup_delete_eq. reflexivity.
  - rewrite lookup_delete_ne by auto. reflexivity.
Qed.

(** Push the views of a heap built by stores back to the heap it came from. *)
Ltac views :=
  repeat first
    [ erewrite fld_insert_same by (first [eassumption | reflexivity])
    | erewrite cell_insert_same by (first [eassumption | reflexivity])
    | rewrite fld_insert
    | rewrite cell_insert
    | rewrite fld_delete
    | rewrite cell_delete ].

Tactic Notation "views" "in" hyp(H) :=
  repeat first
    [ erewrite fld_insert_same in H by (first [eassumption | reflexivity])
    | erewrite cell_insert_same in H by (first [eassumption | reflexivity])
    | rewrite fld_insert in H
    | rewrite cell_insert in H
    | rewrite fld_delete in H
    | rewrite cell_delete in H ].

(** Replace the views of a node known to be live by its fields. *)
Ltac fld_known Hx :=
  repeat match goal with
    | H : context [fld ?f _ _] |- _ => rewrite (fld_lookup f _ _ _ Hx) in H
    end.

Lemma shapes_store (hp : gmap addr TreeNode) b y' :
  shapes hp -> shape_ok y' -> shapes (<[b := y']> hp).
Proof.
  intros Hs Hy a x. destruct (decide (b = a)) as [->|Hne].
  - rewrite lookup_insert_eq. intros [= <-]. exact Hy.
  - rewrite lookup_insert_ne by auto. apply Hs.
Qed.

Lemma shapes_delete (hp : gmap addr TreeNode) b :
  shapes hp -> shapes (delete b hp).
Proof.
  intros Hs a x Ha. apply lookup_delete_Some in Ha as [_ Ha]. eapply Hs; eauto.
Qed.

(** A store that keeps the link fields, the out-degree and the cells in
    use keeps the invariant. *)
Lemma index_inv_store_arr (hp : gmap addr TreeNode) b y y' :
  hp !! b = Some y -> index_inv hp -> shape_ok y' ->
  outDegree y' = outDegree y -> parent y' = parent y -> i y' = i y ->
  (forall j, 0 <= j < outDegree y ->
             arr_get (children y') j = arr_get (children y) j) ->
  index_inv (<[b := y']> hp).
Proof.
  intros Hb [Hs Hv] Hsh Hod Hp Hi Harr. split.
  - apply shapes_store; auto.
  - intros a j (d & Hd & Hj). views in Hd.
    destruct (Hv a j (ex_intro _ d (conj Hd Hj))) as (c & Hc & Hpc & Hic).
    exists c. views. split; [|auto].
    destruct (decide (a = b)) as [->|]; [|auto].
    rewrite <- Hc, (cell_lookup _ _ _ _ Hb). apply Harr.
    rewrite (fld_lookup _ _ _ _ Hb) in Hd. injection Hd as <-. auto.
Qed.

Lemma index_inv_set_h (hp : gmap addr TreeNode) b y v :
  hp !! b = Some y -> index_inv hp -> index_inv (<[b := set_h y v]> hp).
Proof.
  intros Hb Hinv. eapply index_inv_store_arr; eauto. apply (proj1 Hinv _ _ Hb).
Qed.

(** *** Stepping through monadic code *)

Tactic Notation "step_load" hyp(H) "as" ident(x) ident(Hx) :=
  let s := fresh "s" in let E := fresh "E" in
  let a := fresh "a" in let Ep := fresh "Ep" in
  apply bindM_Ok in H as (x & s & E & H);
  apply load_Ok in E as (-> & a & Ep & Hx);
  match type of Ep with ?p = Some _ => first [ discriminate Ep | injection Ep as <- | subst p ] end;
  try simpl heap in Hx.

Tactic Notation "step_store" hyp(H) :=
  let u := fresh "u" in let s := fresh "s" in let E := fresh "E" in
  let a := fresh "a" in let y := fresh "y" in let Ep := fresh "Ep" in
  apply bindM_Ok in H as (u & s & E & H);
  apply store_Ok in E as (a & y & Ep & _ & ->);
  match type of Ep with ?p = Some _ => first [ discriminate Ep | injection Ep as <- | subst p ] end; simpl heap in *; simpl plan in *;
  try clear y; try clear u.

Tactic Notation "step_read" hyp(H) "as" ident(c) ident(Hc) :=
  let s := fresh "s" in let E := fresh "E" in let x := fresh "x" in
  let a := fresh "a" in let Ep := fresh "Ep" in let Hx := fresh "Hx" in
  apply bindM_Ok in H as (c & s & E & H);
  apply read_child_Ok in E as (-> & a & x & Ep & Hx & Hc);
  match type of Ep with ?p = Some _ => first [ discriminate Ep | injection Ep as <- | subst p ] end;
  rewrite <- (cell_lookup _ _ _ _ Hx) in Hc; clear x Hx.

Tactic Notation "step_write" hyp(H) "as" ident(x) ident(l) ident(Hx) ident(Hl) :=
  let u := fresh "u" in let s := fresh "s" in let E := fresh "E" in
  let a := fresh "a" in let Ep := fresh "Ep" in
  apply bindM_Ok in H as (u & s & E & H);
  apply write_child_Ok in E as (a & x & l & Ep & Hx & Hl & ->);
  match type of Ep with ?p = Some _ => first [ discriminate Ep | injection Ep as <- | subst p ] end; simpl heap in *; simpl plan in *;
  try clear u.

Tactic Notation "final_store" hyp(H) :=
  let a := fresh "a" in let y := fresh "y" in let Ep := fresh "Ep" in
  apply store_Ok in H as (a & y & Ep & _ & ->);
  match type of Ep with ?p = Some _ => first [ discriminate Ep | injection Ep as <- | subst p ] end;
  simpl heap in *; simpl plan in *; try clear y.

(** Two loads of one address in one heap read the same node. *)
Ltac same_load H1 H2 :=
  rewrite H1 in H2; injection H2 as <-.

Lemma max_child_h_state fuel n k hc st v st' :
  max_child_h fuel n k hc st = Ok (v, st') -> st' = st.
Proof.
  revert k hc st. induction fuel as [|f IH]; intros k hc st H; [discriminate|].
  simpl in H. apply bindM_Ok in H as (x & st1 & H1 & H).
  apply load_Ok in H1 as (-> & a & -> & Ha).
  destruct (k <? outDegree x).
  - apply bindM_Ok in H as (c & st1 & H1 & H).
    apply read_child_Ok in H1 as (-> & _).
    apply bindM_Ok in H as (y & st1 & H1 & H).
    apply load_Ok in H1 as (-> & _).
    eapply IH; eauto.
  - injection H as <- <-. reflexivity.
Qed.

Lemma tree_update_height_loop_inv fuel inner n st u st' :
  tree_update_height_loop fuel inner n st = Ok (u, st') ->
  index_inv (heap st) -> index_inv (heap st').
Proof.
  revert n st. induction fuel as [|f IH]; intros n st H Hinv; [discriminate|].
  simpl in H. destruct n as [a|]; [|injection H as <- <-; auto].
  apply bindM_Ok in H as (hc & st1 & H1 & H).
  apply max_child_h_state in H1 as ->.
  step_load H as x Hx. step_store H. step_load H as x' Hx'.
  eapply IH; eauto. simpl. apply index_inv_set_h; auto.
Qed.

Lemma tree_update_height_inv fuel n st u st' :
  tree_update_height fuel n st = Ok (u, st') ->
  index_inv (heap st) -> index_inv (heap st').
Proof. apply tree_update_height_loop_inv. Qed.

Lemma arr_get_resize (l : list ptr) n j :
  (length l <= n)%nat -> 0 <= j < Z.of_nat (length l) ->
  arr_get (resize n None l) j = arr_get l j.
Proof.
  intros Hn Hj. unfold arr_get. rewrite length_resize.
  replace ((0 <=? j) && (j <? Z.of_nat n)) with true
    by (symmetry; apply andb_true_iff; split; [apply Z.leb_le|apply Z.ltb_lt]; lia).
  replace ((0 <=? j) && (j <? Z.of_nat (length l))) with true
    by (symmetry; apply andb_true_iff; split; [apply Z.leb_le|apply Z.ltb_lt]; lia).
  apply lookup_resize; lia.
Qed.

Lemma tree_children_grow_min_size_inv n s st b st' :
  tree_children_grow_min_size n s st = Ok (b, st') ->
  0 <= s <= UINT_MAX ->
  index_inv (heap st) -> index_inv (heap st').
Proof.
  unfold tree_children_grow_min_size. intros H Hs Hinv.
  step_load H as x Hx.
  destruct (_alloced x >=? s) eqn:Hcmp; [injection H as <- <-; auto|].
  apply bindM_Ok in H as (ok & st1 & H1 & H).
  pose proof (alloc_ok_Ok _ _ _ H1) as Hheap.
  destruct ok; [|injection H as <- <-; rewrite Hheap; auto].
  step_store H. injection H as <- <-. simpl. rewrite Hheap.
  destruct (proj1 Hinv _ _ Hx) as (Hroot & Hod0 & Hod & Hal & Hmax).
  rewrite Z.geb_leb in Hcmp. apply Z.leb_gt in Hcmp.
  apply index_inv_store_arr with (y := x); auto.
  - unfold shape_ok; simpl. rewrite length_resize. split; [exact Hroot|lia].
  - intros j Hj. simpl. apply arr_get_resize; lia.
Qed.

(** ** The index invariant through appending and removing a child *)

(** The value of a field of a loaded node, traced back through the stores. *)
Tactic Notation "fld_of" hyp(Hx) constr(f) "as" ident(F) :=
  pose proof (fld_lookup f _ _ _ Hx) as F; views in F.

Lemma shapes_view (hp : gmap addr TreeNode) :
  shapes hp <->
  forall a par idx d al l,
    fld parent hp a = Some par -> fld i hp a = Some idx ->
    fld outDegree hp a = Some d -> fld _alloced hp a = Some al ->
    fld children hp a = Some l ->
    (par = None -> idx = 0) /\
    0 <= d /\ d <= al /\ al = Z.of_nat (length l) /\ al <= UINT_MAX.
Proof.
  split.
  - intros Hs a par idx d al l (x & Hx & <-)%fld_Some Hi Hd Hal Hl.
    rewrite (fld_lookup _ _ _ _ Hx) in Hi. rewrite (fld_lookup _ _ _ _ Hx) in Hd.
    rewrite (fld_lookup _ _ _ _ Hx) in Hal. rewrite (fld_lookup _ _ _ _ Hx) in Hl.
    injection Hi as <-. injection Hd as <-.
    injection Hal as <-. injection Hl as <-. apply (Hs _ _ Hx).
  - intros Hs a x Hx.
    apply (Hs a); apply fld_lookup; auto.
Qed.

Ltac decide_eq :=
  repeat match goal with
    | H : context [decide (?a = ?a)] |- _ => rewrite (decide_True (P := a = a)) in H by reflexivity
    | |- context [decide (?a = ?a)] => rewrite (decide_True (P := a = a)) by reflexivity
    | N : ?a <> ?b, H : context [decide (?a = ?b)] |- _ => rewrite (decide_False (P := a = b)) in H by exact N
    | N : ?a <> ?b |- context [decide (?a = ?b)] => rewrite (decide_False (P := a = b)) by exact N
    end.

(** The stores of [append_child], before the heights are recomputed. *)
Lemma append_stores_inv (hp : gmap addr TreeNode) a c0 x l y1 x1 y2 x2 :
  index_inv hp ->
  fld parent hp c0 = Some None ->
  hp !! a = Some x ->
  arr_set (children x) (outDegree x) (Some c0) = Some l ->
  <[a:=set_children x l]> hp !! c0 = Some y1 ->
  <[c0:=set_parent y1 (Some a)]> (<[a:=set_children x l]> hp) !! a = Some x1 ->
  <[c0:=set_parent y1 (Some a)]> (<[a:=set_children x l]> hp) !! c0 = Some y2 ->
  <[c0:=set_i y2 (outDegree x1)]>
    (<[c0:=set_parent y1 (Some a)]> (<[a:=set_children x l]> hp)) !! a = Some x2 ->
  index_inv
    (<[a:=set_outDegree x2 (uint (outDegree x2 + 1))]>
       (<[c0:=set_i y2 (outDegree x1)]>
          (<[c0:=set_parent y1 (Some a)]> (<[a:=set_children x l]> hp)))) /\
  outDegree x1 = outDegree x /\ outDegree x2 = outDegree x /\
  outDegree x + 1 <= UINT_MAX.
Proof.
  intros Hinv Hpar Hx Hl Hy1 Hx1 Hy2 Hx2.
  destruct Hinv as [Hs Hv].
  destruct (Hs _ _ Hx) as (Hroot & Hod0 & Hod & Hal & Hmax).
  pose proof (proj1 (arr_set_Some _ _ _ _ ) Hl) as [Hk _].
  pose proof (arr_set_length _ _ _ _ Hl) as Hlen.
  pose proof (fld_lookup outDegree _ _ _ Hx) as Rod.
  fld_of Hx1 outDegree as Fx1. rewrite Rod in Fx1. injection Fx1 as Fx1.
  fld_of Hx2 outDegree as Fx2. rewrite Rod in Fx2. injection Fx2 as Fx2.
  split; [|split; [auto|split; [auto|lia]]].
  rewrite <- Fx1, <- Fx2 in *. rewrite uint_small by lia.
  split.
  - apply shapes_view. intros a' par idx d al l' Hp Hi Hd Ha Hl'.
    views in Hp. views in Hi. views in Hd. views in Ha. views in Hl'.
    simpl in *.
    assert (Hroot' : par = None -> idx = 0).
    { destruct (decide (a' = c0)) as [->|Hne0].
      - injection Hp as <-. discriminate.
      - intros ->. destruct (fld_Some _ _ _ _ Hp) as (z & Hz & Hzp).
        rewrite (fld_lookup _ _ _ _ Hz) in Hi. injection Hi as <-.
        apply (Hs _ _ Hz). exact Hzp. }
    split; [exact Hroot'|].
    destruct (decide (a' = a)) as [->|Hne].
    + injection Hd as <-. rewrite (fld_lookup _ _ _ _ Hx) in Ha.
      injection Ha as <-. injection Hl' as <-. lia.
    + destruct (fld_Some _ _ _ _ Hd) as (z & Hz & <-). fld_known Hz.
      injection Ha as <-. injection Hl' as <-. apply (Hs _ _ Hz).
  - intros a' j (d & Hd & Hj). views in Hd. simpl in Hd.
    destruct (decide (a' = a /\ j = outDegree x)) as [[-> ->]|Hne].
    + exists c0. views. simpl. decide_eq.
      split; [exact (arr_get_set_eq _ _ _ _ Hl)|auto].
    + assert (Hval : valid_slot hp a' j).
      { destruct (decide (a' = a)) as [->|]; [|exists d; auto].
        injection Hd as <-. exists (outDegree x). split; [auto|].
        assert (j <> outDegree x) by tauto. lia. }
      destruct (Hv _ _ Hval) as (c & Hc & Hcp & Hci).
      assert (Hcc : c <> c0) by (intros ->; congruence).
      exists c. views. simpl. decide_eq. split; [|auto].
      destruct (decide (a' = a)) as [->|]; [|auto].
      rewrite (cell_lookup _ _ _ _ Hx) in Hc. rewrite <- Hc.
      apply (arr_get_set_ne _ _ _ _ _ Hl). tauto.
Qed.

Lemma append_child_inv fuel n c0 st u st' :
  append_child fuel n (Some c0) st = Ok (u, st') ->
  index_inv (heap st) ->
  fld parent (heap st) c0 = Some None ->
  index_inv (heap st').
Proof.
  unfold append_child. intros H Hinv Hpar.
  step_load H as x Hx.
  step_write H as x0 l Hx0 Hl. same_load Hx Hx0.
  step_load H as y1 Hy1.
  step_store H.
  step_load H as x1 Hx1.
  step_load H as y2 Hy2.
  step_store H.
  step_load H as x2 Hx2.
  step_store H.
  eapply tree_update_height_inv; [exact H|]. simpl.
  eapply append_stores_inv; eauto.
Qed.

Lemma remove_child_find_spec fuel a c k st k' st' d :
  remove_child_find fuel (Some a) c k st = Ok (k', st') ->
  fld outDegree (heap st) a = Some d -> d <= UINT_MAX -> 0 <= k ->
  st' = st /\ k <= k' /\
  (forall j, k <= j < k' -> cell (heap st) a j <> Some c) /\
  ((k' < d /\ cell (heap st) a k' = Some c) \/ (d <= k' /\ k' = Z.max k d)).
Proof.
  revert k st. induction fuel as [|f IH]; intros k st H Hd Hmax Hk; [discriminate|].
  simpl in H. step_load H as x Hx.
  rewrite (fld_lookup _ _ _ _ Hx) in Hd. injection Hd as Hd. rewrite Hd in H.
  destruct (k <? d) eqn:Hlt.
  - apply Z.ltb_lt in Hlt. step_read H as e He.
    destruct (decide (e = c)) as [->|Hne].
    + injection H as <- <-.
      split; [reflexivity|]. split; [lia|]. split; [intros j Hj; lia|].
      left. auto.
    + rewrite uint_small in H by lia.
      apply IH in H as (-> & Hle & Hnot & Hend); auto; try lia.
      2:{ rewrite (fld_lookup _ _ _ _ Hx). congruence. }
      split; [reflexivity|]. split; [lia|]. split.
      * intros j Hj. destruct (decide (j = k)) as [->|]; [congruence|].
        apply Hnot. lia.
      * destruct Hend as [?|[? ?]]; [left; auto|right; lia].
  - apply Z.ltb_ge in Hlt. injection H as <- <-.
    split; [reflexivity|]. split; [lia|]. split; [intros j Hj; lia|].
    right. lia.
Qed.

Lemma remove_child_find_state fuel p c k st k' st' :
  remove_child_find fuel p c k st = Ok (k', st') -> st' = st.
Proof.
  revert k st. induction fuel as [|f IH]; intros k st H; [discriminate|].
  simpl in H. step_load H as x Hx.
  destruct (k <? outDegree x).
  - step_read H as e He. destruct (decide (e = c)).
    + injection H as <- <-. reflexivity.
    + eapply IH; eauto.
  - injection H as <- <-. reflexivity.
Qed.

Lemma shapes_set_children (hp : gmap addr TreeNode) a x l k v :
  shapes hp -> hp !! a = Some x -> arr_set (children x) k v = Some l ->
  shapes (<[a := set_children x l]> hp).
Proof.
  intros Hs Hx Hl. apply shapes_store; auto.
  pose proof (Hs _ _ Hx) as Hsh. unfold shape_ok in *; simpl.
  rewrite (arr_set_length _ _ _ _ Hl). auto.
Qed.

Lemma shapes_set_i (hp : gmap addr TreeNode) a x v :
  shapes hp -> hp !! a = Some x -> parent x <> None ->
  shapes (<[a := set_i x v]> hp).
Proof.
  intros Hs Hx Hp. apply shapes_store; auto.
  pose proof (Hs _ _ Hx) as Hsh. unfold shape_ok in *; simpl.
  split; [tauto|apply Hsh].
Qed.

Lemma shapes_set_parent (hp : gmap addr TreeNode) a x v :
  shapes hp -> hp !! a = Some x -> shapes (<[a := set_parent x (Some v)]> hp).
Proof.
  intros Hs Hx. apply shapes_store; auto.
  pose proof (Hs _ _ Hx) as Hsh. unfold shape_ok in *; simpl.
  split; [discriminate|apply Hsh].
Qed.

Lemma valid_slot_view (hp hp' : gmap addr TreeNode) a j :
  (forall b, fld outDegree hp' b = fld outDegree hp b) ->
  valid_slot hp' a j <-> valid_slot hp a j.
Proof. intros E. unfold valid_slot. rewrite E. reflexivity. Qed.

(** One round of the shifting loop moves the hole one cell up. *)
Lemma hole_inv_shift (hp : gmap addr TreeNode) a d k x l c1 y :
  hole_inv hp a k -> hp !! a = Some x -> outDegree x = d -> 0 <= k < d - 1 ->
  cell hp a (k + 1) = Some (Some c1) ->
  arr_set (children x) k (Some c1) = Some l ->
  <[a := set_children x l]> hp !! c1 = Some y ->
  hole_inv (<[c1 := set_i y k]> (<[a := set_children x l]> hp)) a (k + 1).
Proof.
  intros [Hs Hv] Hx Hd Hk He Hl Hy.
  destruct (Hv a (k + 1)) as (c & Hc1 & Hp1 & Hi1).
  { split; [exists d; split; [rewrite (fld_lookup _ _ _ _ Hx); congruence|lia]|].
    intros [_ ?]. lia. }
  rewrite He in Hc1. injection Hc1 as <-.
  split.
  - apply shapes_set_i; [eapply shapes_set_children; eauto|exact Hy|].
    fld_of Hy parent as Fp. rewrite Hp1 in Fp. injection Fp as Fp.
    rewrite <- Fp. discriminate.
  - intros a' j [(d' & Hd2 & Hj) Hne]. views in Hd2.
    destruct (decide (a' = a /\ j = k)) as [[-> ->]|Hne2].
    { exists c1. views. decide_eq. simpl.
      split; [exact (arr_get_set_eq _ _ _ _ Hl)|]. split; auto. }
    destruct (Hv a' j) as (c & Hc & Hcp & Hci).
    { split; [exists d'; auto|auto]. }
    assert (Hcc : c <> c1).
    { intros ->. rewrite Hp1 in Hcp. injection Hcp as <-.
      rewrite Hi1 in Hci. injection Hci as <-. tauto. }
    exists c. views. decide_eq. split; [|auto].
    destruct (decide (a' = a)) as [->|]; [|auto]. simpl.
    rewrite (cell_lookup _ _ _ _ Hx) in Hc. rewrite <- Hc.
    apply (arr_get_set_ne _ _ _ _ _ Hl). tauto.
Qed.

Lemma remove_child_shift_spec fuel a d k st u st' :
  remove_child_shift fuel (Some a) k st = Ok (u, st') ->
  fld outDegree (heap st) a = Some d -> 1 <= d -> 0 <= k <= d ->
  hole_inv (heap st) a k ->
  hole_inv (heap st') a (Z.max k (d - 1)) /\
  (forall b, fld outDegree (heap st') b = fld outDegree (heap st) b) /\
  (forall b, fld parent (heap st') b = fld parent (heap st) b) /\
  (forall b j, b <> a -> cell (heap st') b j = cell (heap st) b j) /\
  (forall j, 0 <= j < k -> cell (heap st') a j = cell (heap st) a j) /\
  (forall j, k <= j < d - 1 -> cell (heap st') a j = cell (heap st) a (j + 1)).
Proof.
  revert k st. induction fuel as [|f IH]; intros k st H Hd Hd1 Hk Hinv;
    [discriminate|].
  simpl in H. step_load H as x Hx.
  pose proof Hd as Hd'. rewrite (fld_lookup _ _ _ _ Hx) in Hd'.
  injection Hd' as Hd'. rewrite Hd' in H.
  pose proof (proj1 Hinv _ _ Hx) as (_ & _ & Hod & Hal & Hmax).
  rewrite (uint_small (d - 1)) in H by lia.
  destruct (k <? d - 1) eqn:Hlt.
  - apply Z.ltb_lt in Hlt.
    rewrite (uint_small (k + 1)) in H by lia.
    step_read H as e He.
    step_write H as x0 l Hx0 Hl. same_load Hx Hx0.
    step_read H as e' He'.
    step_load H as y Hy. step_store H.
    views in He'. decide_eq. simpl in He'.
    rewrite (arr_get_set_eq _ _ _ _ Hl) in He'. injection He' as ->.
    apply IH in H; try lia.
    + destruct H as (Hh & Eod & Epar & Ecell & Elo & Ehi).
      replace (Z.max (k + 1) (d - 1)) with (Z.max k (d - 1)) in Hh by lia.
      split; [exact Hh|].
      split; [intros b; rewrite Eod; simpl; views; reflexivity|].
      split; [intros b; rewrite Epar; simpl; views; reflexivity|].
      split.
      { intros b j Hb. rewrite Ecell by auto. simpl. views. decide_eq.
        reflexivity. }
      split.
      { intros j Hj. rewrite Elo by lia. simpl. views.
        decide_eq. simpl. rewrite (cell_lookup _ _ _ _ Hx).
        apply (arr_get_set_ne _ _ _ _ _ Hl). lia. }
      { intros j Hj. destruct (decide (j = k)) as [->|Hjk].
        - rewrite Elo by lia. simpl. views. decide_eq. simpl.
          rewrite (arr_get_set_eq _ _ _ _ Hl). auto.
        - rewrite Ehi by lia. simpl. views. decide_eq. simpl.
          rewrite (cell_lookup _ _ _ _ Hx).
          apply (arr_get_set_ne _ _ _ _ _ Hl). lia. }
    + simpl. views. exact Hd.
    + simpl. eapply hole_inv_shift; eauto. lia.
  - apply Z.ltb_ge in Hlt. injection H as <- <-.
    replace (Z.max k (d - 1)) with k by lia.
    split; [exact Hinv|]. repeat split; auto. intros j Hj. lia.
Qed.

(** With an out-degree of zero the bound [outDegree - 1] wraps around and
    the shifting loop runs off the child array. *)
Lemma remove_child_shift_empty fuel a k st r len :
  fld outDegree (heap st) a = Some 0 ->
  fld (fun x => Z.of_nat (length (children x))) (heap st) a = Some len ->
  len <= UINT_MAX -> 0 <= k < UINT_MAX ->
  remove_child_shift fuel (Some a) k st <> Ok r.
Proof.
  revert k st. induction fuel as [|f IH]; intros k st Hd Hlen Hmax Hk H;
    [discriminate|].
  simpl in H. step_load H as x Hx.
  pose proof Hd as Hd'. rewrite (fld_lookup _ _ _ _ Hx) in Hd'.
  injection Hd' as Hd'. rewrite Hd' in H.
  pose proof Hlen as Hlen'. rewrite (fld_lookup _ _ _ _ Hx) in Hlen'.
  injection Hlen' as Hlen'.
  change (uint (0 - 1)) with UINT_MAX in H.
  replace (k <? UINT_MAX) with true in H by (symmetry; apply Z.ltb_lt; lia).
  rewrite (uint_small (k + 1)) in H by lia.
  step_read H as e He.
  rewrite (cell_lookup _ _ _ _ Hx) in He. apply arr_get_Some in He as [Hin _].
  step_write H as x0 l Hx0 Hl. same_load Hx Hx0.
  step_read H as e' He'.
  step_load H as y Hy. step_store H.
  eapply IH; [| |exact Hmax|shelve|exact H].
  - simpl. views. exact Hd.
  - simpl. erewrite fld_insert_same; [|exact Hy|reflexivity].
    rewrite fld_insert. destruct (decide (a = a)); [|tauto]. simpl.
    rewrite (arr_set_length _ _ _ _ Hl). congruence.
  Unshelve. lia.
Qed.

Lemma tree_node_remove_child_spec fuel c a st u st' :
  tree_node_remove_child fuel (Some c) st = Ok (u, st') ->
  index_inv (heap st) ->
  fld parent (heap st) c = Some (Some a) ->
  index_inv (heap st') /\
  (forall b j, valid_slot (heap st') b j -> cell (heap st') b j <> Some (Some c)) /\
  (forall b, fld parent (heap st') b = fld parent (heap st) b) /\
  (forall d k, fld outDegree (heap st) a = Some d ->
               0 <= k < d -> cell (heap st) a k = Some (Some c) ->
     fld outDegree (heap st') a = Some (d - 1) /\
     (forall j, 0 <= j < k -> cell (heap st') a j = cell (heap st) a j) /\
     (forall j, k <= j < d - 1 -> cell (heap st') a j = cell (heap st) a (j + 1))).
Proof.
  unfold tree_node_remove_child. intros H [Hs Hv] Hpar.
  step_load H as y Hy.
  pose proof Hpar as Hpar'. rewrite (fld_lookup _ _ _ _ Hy) in Hpar'.
  injection Hpar' as Hpar'. rewrite Hpar' in H.
  apply bindM_Ok in H as (k & st1 & Hfind & H).
  pose proof (remove_child_find_state _ _ _ _ _ _ _ Hfind) as ->.
  step_write H as x l Hx Hl.
  pose proof (fld_lookup outDegree _ _ _ Hx) as Hd.
  pose proof (Hs _ _ Hx) as (_ & Hod0 & Hod & Hal & Hmax).
  eapply remove_child_find_spec in Hfind as (_ & Hk0 & Hnot & Hend);
    [|exact Hd|lia|lia].
  assert (Hk : 0 <= k < Z.of_nat (length (children x)))
    by (apply arr_set_Some in Hl; tauto).
  apply bindM_Ok in H as (u1 & st2 & Hshift & H).
  destruct (decide (outDegree x = 0)) as [Hz|Hnz].
  { exfalso.
    eapply (remove_child_shift_empty _ _ _ _ _ (_alloced x));
      [| |exact Hmax| |exact Hshift].
    - simpl. views. rewrite Hd, Hz. reflexivity.
    - simpl. rewrite fld_insert. destruct (decide (a = a)); [|tauto]. simpl.
      rewrite (arr_set_length _ _ _ _ Hl). congruence.
    - lia. }
  assert (Hkd : k <= outDegree x) by (destruct Hend; lia).
  eapply remove_child_shift_spec in Hshift; [| |shelve|shelve|].
  2:{ simpl. views. exact Hd. }
  2:{ simpl. split; [eapply shapes_set_children; eauto|].
      intros b j [(d' & Hd' & Hj) Hne]. views in Hd'.
      destruct (Hv b j) as (c' & Hc' & Hcp & Hci); [exists d'; auto|].
      exists c'. views. split; [|auto].
      destruct (decide (b = a)) as [->|]; [|auto]. simpl.
      rewrite (cell_lookup _ _ _ _ Hx) in Hc'. rewrite <- Hc'.
      apply (arr_get_set_ne _ _ _ _ _ Hl). tauto. }
  Unshelve. 2,3: lia.
  destruct Hshift as ([Hs2 Hv2] & Eod & Epar & Ecell & Elo & Ehi).
  simpl in Eod, Epar, Ecell, Elo, Ehi.
  step_load H as x2 Hx2. final_store H.
  fld_of Hx2 outDegree as Hd2. rewrite Eod in Hd2. views in Hd2.
  rewrite Hd in Hd2. injection Hd2 as Hd2. rewrite <- Hd2.
  rewrite uint_small by lia.
  (* cells of the final heap in terms of the initial one *)
  assert (Elo' : forall j, 0 <= j < k ->
            cell (<[a:=set_outDegree x2 (outDegree x - 1)]> (heap st2)) a j =
            cell (heap st) a j).
  { intros j Hj. views. rewrite Elo by lia. views. decide_eq. simpl.
    rewrite (cell_lookup _ _ _ _ Hx). apply (arr_get_set_ne _ _ _ _ _ Hl). lia. }
  assert (Ehi' : forall j, k <= j < outDegree x - 1 ->
            cell (<[a:=set_outDegree x2 (outDegree x - 1)]> (heap st2)) a j =
            cell (heap st) a (j + 1)).
  { intros j Hj. views. rewrite Ehi by lia. views. decide_eq. simpl.
    rewrite (cell_lookup _ _ _ _ Hx). apply (arr_get_set_ne _ _ _ _ _ Hl). lia. }
  assert (Eoth : forall b j, b <> a ->
            cell (<[a:=set_outDegree x2 (outDegree x - 1)]> (heap st2)) b j =
            cell (heap st) b j).
  { intros b j Hb. views. rewrite Ecell by auto. views. decide_eq. reflexivity. }
  assert (Evalid : forall b j,
            valid_slot (<[a:=set_outDegree x2 (outDegree x - 1)]> (heap st2)) b j ->
            valid_slot (heap st) b j /\ (b = a -> j < outDegree x - 1)).
  { intros b j (d' & Hd' & Hj). rewrite fld_insert in Hd'.
    destruct (decide (b = a)) as [->|Hb].
    - injection Hd' as <-. split; [exists (outDegree x); split; [auto|lia]|lia].
    - rewrite Eod in Hd'. views in Hd'. split; [exists d'; auto|tauto]. }
  split; [split|split; [|split]].
  - apply shapes_store; auto.
    pose proof (Hs2 _ _ Hx2) as Hsh. unfold shape_ok in *; simpl.
    split; [apply Hsh|lia].
  - intros b j Hval. destruct (Evalid _ _ Hval) as [Hval0 Hlt].
    destruct Hval as (d' & Hd' & Hj).
    destruct (Hv2 b j) as (c' & Hc' & Hcp & Hci).
    { split.
      - destruct Hval0 as (d0 & Hd0 & Hj0). exists d0.
        rewrite Eod. views. auto.
      - intros [-> ->]. specialize (Hlt eq_refl). lia. }
    exists c'. views. auto.
  - intros b j Hval. destruct (Evalid _ _ Hval) as [Hval0 Hlt].
    destruct (Hv _ _ Hval0) as (c' & Hc' & Hcp & Hci).
    destruct (decide (b = a)) as [->|Hb].
    + specialize (Hlt eq_refl). destruct Hval0 as (d0 & Hd0 & Hj0).
      destruct (decide (j < k)).
      * rewrite Elo' by lia. intros Heq. eapply (Hnot j); [lia|exact Heq].
      * rewrite Ehi' by lia. intros Heq.
        destruct (Hv a (j + 1)) as (c2 & Hc2 & Hcp2 & Hci2).
        { exists (outDegree x). split; [auto|lia]. }
        rewrite Heq in Hc2. injection Hc2 as <-.
        destruct Hend as [[Hlt' Hend]|[Hge _]]; [|lia].
        destruct (Hv a k) as (c3 & Hc3 & Hcp3 & Hci3).
        { exists (outDegree x). split; [auto|lia]. }
        rewrite Hend in Hc3. injection Hc3 as <-.
        rewrite Hci2 in Hci3. injection Hci3 as Hci3. lia.
    + rewrite Eoth by auto. rewrite Hc'. intros [= ->].
      rewrite Hpar in Hcp. injection Hcp as <-. tauto.
  - intros b. views. rewrite Epar. views. reflexivity.
  - intros d k0 Hd0 Hk1 Hck. rewrite Hd in Hd0. injection Hd0 as <-.
    assert (k = k0) as <-.
    { destruct (Hv a k0) as (c3 & Hc3 & Hcp3 & Hci3).
      { exists (outDegree x). auto. }
      rewrite Hck in Hc3. injection Hc3 as <-.
      destruct Hend as [[Hlt' Hend]|[Hge _]].
      - destruct (Hv a k) as (c4 & Hc4 & Hcp4 & Hci4).
        { exists (outDegree x). split; [auto|lia]. }
        rewrite Hend in Hc4. injection Hc4 as <-.
        rewrite Hci3 in Hci4. injection Hci4 as Hci4. lia.
      - exfalso. apply (Hnot k0); [lia|exact Hck]. }
    split; [|split; auto].
    rewrite fld_insert. decide_eq. reflexivity.
Qed.

(** *** [tree_update_height] writes nothing but [h] *)

Lemma tree_update_height_loop_frame fuel inner n st u st' :
  tree_update_height_loop fuel inner n st = Ok (u, st') ->
  plan st' = plan st /\
  forall b, fld no_h (heap st') b = fld no_h (heap st) b.
Proof.
  revert n st. induction fuel as [|f IH]; intros n st H; [discriminate|].
  simpl in H. destruct n as [a|]; [|injection H as <- <-; auto].
  apply bindM_Ok in H as (hc & st1 & H1 & H).
  apply max_child_h_state in H1 as ->.
  step_load H as x Hx. step_store H. step_load H as x' Hx'.
  apply IH in H as [Hp Hf]. split; [exact Hp|].
  intros b. rewrite Hf. simpl. views. reflexivity.
Qed.

Lemma fld_no_h {T} (f : TreeNode -> T) (hp hp' : gmap addr TreeNode) b :
  (forall x, f (no_h x) = f x) ->
  fld no_h hp' b = fld no_h hp b -> fld f hp' b = fld f hp b.
Proof.
  intros Hf. unfold fld.
  destruct (hp' !! b) as [x'|], (hp !! b) as [x|]; cbn -[no_h];
    try discriminate; auto.
  intros E. assert (E' : no_h x' = no_h x) by congruence.
  rewrite <- (Hf x'), <- (Hf x), E'. reflexivity.
Qed.

Lemma cell_no_h (hp hp' : gmap addr TreeNode) b j :
  fld no_h hp' b = fld no_h hp b -> cell hp' b j = cell hp b j.
Proof.
  unfold fld, cell.
  destruct (hp' !! b) as [x'|], (hp !! b) as [x|]; cbn -[no_h];
    try discriminate; auto.
  intros E. assert (E' : no_h x' = no_h x) by congruence.
  change (children x') with (children (no_h x')).
  rewrite E'. reflexivity.
Qed.

(** A node without parent sits in no cell in use: it can be released, or
    have its link fields rewritten, without harm. *)
Lemma index_inv_delete_root (hp : gmap addr TreeNode) n :
  index_inv hp -> fld parent hp n = Some None -> index_inv (delete n hp).
Proof.
  intros [Hs Hv] Hpar. split; [apply shapes_delete; auto|].
  intros b j (d & Hd & Hj). rewrite fld_delete in Hd.
  destruct (decide (b = n)) as [|Hb]; [discriminate|].
  destruct (Hv b j) as (c & Hc & Hcp & Hci); [exists d; auto|].
  assert (c <> n) by (intros ->; congruence).
  exists c. rewrite cell_delete, !fld_delete. decide_eq. auto.
Qed.

Lemma index_inv_fresh (hp : gmap addr TreeNode) a y :
  index_inv hp -> hp !! a = None -> shape_ok y -> outDegree y = 0 ->
  index_inv (<[a := y]> hp).
Proof.
  intros [Hs Hv] Ha Hy Hod. split; [apply shapes_store; auto|].
  intros b j (d & Hd & Hj). rewrite fld_insert in Hd.
  destruct (decide (b = a)) as [->|Hb]; [injection Hd as <-; lia|].
  destruct (Hv b j) as (c & Hc & Hcp & Hci); [exists d; auto|].
  assert (c <> a).
  { intros ->. unfold fld in Hcp. rewrite Ha in Hcp. discriminate. }
  exists c. rewrite cell_insert, !fld_insert. decide_eq. auto.
Qed.

(** Rewriting the link fields of a node that no cell in use points to. *)
Lemma index_inv_relink (hp : gmap addr TreeNode) n y y' :
  index_inv hp -> hp !! n = Some y ->
  (forall b j, valid_slot hp b j -> cell hp b j <> Some (Some n)) ->
  children y' = children y -> outDegree y' = outDegree y ->
  _alloced y' = _alloced y -> (parent y' = None -> i y' = 0) ->
  index_inv (<[n := y']> hp).
Proof.
  intros [Hs Hv] Hy Hnot Hch Hod Hal Hroot. split.
  - apply shapes_store; auto. pose proof (Hs _ _ Hy) as Hsh.
    unfold shape_ok in *. rewrite Hch, Hod, Hal. split; [exact Hroot|apply Hsh].
  - intros b j (d & Hd & Hj). views in Hd.
    assert (Hval : valid_slot hp b j) by (exists d; auto).
    destruct (Hv b j Hval) as (c & Hc & Hcp & Hci).
    assert (c <> n) by (intros ->; eapply Hnot; eauto).
    exists c. views. decide_eq. auto.
Qed.

Lemma tree_remove_spec fuel n st r st' :
  tree_remove fuel (Some n) st = Ok (r, st') ->
  index_inv (heap st) ->
  index_inv (heap st') /\ r = Some n /\ fld parent (heap st') n = Some None.
Proof.
  unfold tree_remove. intros H Hinv.
  step_load H as x Hx.
  destruct (parent x) as [a|] eqn:Hpar.
  2:{ injection H as <- <-. split; [auto|]. split; [reflexivity|].
      rewrite (fld_lookup _ _ _ _ Hx), Hpar. reflexivity. }
  apply bindM_Ok in H as (u1 & st1 & Hrm & H).
  eapply tree_node_remove_child_spec in Hrm as (Hinv1 & Hnot & Epar & _);
    [|exact Hinv|rewrite (fld_lookup _ _ _ _ Hx), Hpar; reflexivity].
  step_load H as x1 Hx1.
  apply bindM_Ok in H as (u2 & st2 & Hup & H).
  pose proof (tree_update_height_inv _ _ _ _ _ Hup Hinv1) as Hinv2.
  apply tree_update_height_loop_frame in Hup as [_ Hfr].
  step_load H as x2 Hx2. step_store H. step_load H as x3 Hx3. step_store H.
  injection H as <- <-. simpl.
  split; [|split; [reflexivity|views; decide_eq; reflexivity]].
  rewrite insert_insert_eq.
  rewrite lookup_insert_eq in Hx3. injection Hx3 as <-.
  eapply index_inv_relink;
    [exact Hinv2|exact Hx2| |reflexivity|reflexivity|reflexivity|reflexivity].
  intros b j (d & Hd & Hj).
  rewrite (cell_no_h _ _ _ _ (Hfr b)).
  apply Hnot. exists d. split; [|auto].
  rewrite <- Hd. symmetry. apply (fld_no_h outDegree); auto.
Qed.

Lemma tree_remove_inv fuel n st r st' :
  tree_remove fuel n st = Ok (r, st') ->
  index_inv (heap st) -> index_inv (heap st').
Proof.
  destruct n as [n|].
  - intros H Hinv. eapply tree_remove_spec; eauto.
  - unfold tree_remove. intros H. step_load H as x Hx.
Qed.

Lemma tree_free_root_inv n st u st' :
  tree_free (Some n) st = Ok (u, st') ->
  index_inv (heap st) -> fld parent (heap st) n = Some None ->
  index_inv (heap st').
Proof.
  unfold tree_free, free_node. intros H Hinv Hpar.
  destruct (heap st !! n); [|discriminate]. injection H as <- <-.
  simpl. apply index_inv_delete_root; auto.
Qed.

Lemma tree_delete_inv fuel n st u st' :
  tree_delete fuel n st = Ok (u, st') ->
  index_inv (heap st) -> index_inv (heap st').
Proof.
  unfold tree_delete. intros H Hinv.
  apply bindM_Ok in H as (r & st1 & Hrm & H).
  destruct n as [n|].
  - eapply tree_remove_spec in Hrm as (Hinv1 & -> & Hpar); [|exact Hinv].
    eapply tree_free_root_inv; eauto.
  - unfold tree_remove in Hrm. step_load Hrm as x Hx.
Qed.

Lemma tree_alloc_spec d st c st' :
  tree_alloc d st = Ok (c, st') ->
  index_inv (heap st) ->
  index_inv (heap st') /\
  match c with
  | Some c0 => heap st !! c0 = None /\
               heap st' = <[c0 := mkTreeNode None [] 0 d 0 0 0]> (heap st)
  | None => heap st' = heap st
  end.
Proof.
  unfold tree_alloc, malloc_node. intros H Hinv.
  apply bindM_Ok in H as (ok & st1 & H1 & H).
  pose proof (alloc_ok_Ok _ _ _ H1) as Hheap.
  destruct ok.
  - injection H as <- <-. simpl. rewrite Hheap.
    assert (Hfresh : heap st !! fresh (dom (heap st)) = None).
    { apply not_elem_of_dom. apply is_fresh. }
    split; [|auto].
    apply index_inv_fresh; auto. unfold shape_ok, UINT_MAX; simpl. lia.
  - injection H as <- <-. rewrite Hheap. auto.
Qed.

(** ** The index invariant through insertion and replacement *)

Lemma tree_children_grow_min_size_frame n s st b st' :
  tree_children_grow_min_size n s st = Ok (b, st') ->
  (forall c, fld parent (heap st') c = fld parent (heap st) c) /\
  (forall c, fld i (heap st') c = fld i (heap st) c) /\
  (forall c, fld outDegree (heap st') c = fld outDegree (heap st) c) /\
  (b = false -> heap st' = heap st).
Proof.
  unfold tree_children_grow_min_size. intros H.
  step_load H as x Hx.
  destruct (_alloced x >=? s) eqn:Hcmp; [injection H as <- <-; auto|].
  apply bindM_Ok in H as (ok & st1 & H1 & H).
  pose proof (alloc_ok_Ok _ _ _ H1) as Hheap.
  destruct ok; [|injection H as <- <-; rewrite Hheap; auto].
  step_store H. injection H as <- <-. simpl. rewrite Hheap in *.
  repeat split; try (intros c; views; reflexivity). discriminate.
Qed.

Lemma tree_add_subtree_inv fuel n t st r st' :
  tree_add_subtree fuel n t st = Ok (r, st') ->
  index_inv (heap st) -> index_inv (heap st').
Proof.
  unfold tree_add_subtree. intros H Hinv.
  destruct t as [t|]; [|injection H as <- <-; auto].
  step_load H as y Hy.
  destruct (parent y) eqn:Hpar; [injection H as <- <-; auto|].
  apply bindM_Ok in H as (r1 & st1 & Hrm & H).
  eapply tree_remove_spec in Hrm as (Hinv1 & -> & Hpar1); [|exact Hinv].
  step_load H as x Hx.
  apply bindM_Ok in H as (ok & st2 & Hg & H).
  pose proof (tree_children_grow_min_size_inv _ _ _ _ _ Hg (uint_range _) Hinv1)
    as Hinv2.
  apply tree_children_grow_min_size_frame in Hg as (Ep & _).
  destruct ok; [|injection H as <- <-; auto].
  apply bindM_Ok in H as (u & st3 & Happ & H). injection H as <- <-.
  eapply append_child_inv; [exact Happ|exact Hinv2|]. rewrite Ep. exact Hpar1.
Qed.

Lemma tree_add_child_inv fuel n d st r st' :
  tree_add_child fuel n d st = Ok (r, st') ->
  index_inv (heap st) -> index_inv (heap st').
Proof.
  unfold tree_add_child. intros H Hinv.
  step_load H as x Hx.
  apply bindM_Ok in H as (ok & st2 & Hg & H).
  pose proof (tree_children_grow_min_size_inv _ _ _ _ _ Hg (uint_range _) Hinv)
    as Hinv2.
  destruct ok; [|injection H as <- <-; auto].
  apply bindM_Ok in H as (c & st3 & Hal & H).
  apply tree_alloc_spec in Hal as [Hinv3 Hc]; [|exact Hinv2].
  destruct c as [c|]; [|injection H as <- <-; auto].
  apply bindM_Ok in H as (u & st4 & Happ & H). injection H as <- <-.
  eapply append_child_inv; [exact Happ|exact Hinv3|].
  destruct Hc as [_ ->]. rewrite fld_insert. decide_eq. reflexivity.
Qed.

(** With [k = 0] the test [a >= k] of the shifting loop of
    [tree_insert_subtree] can never fail. *)
Lemma insert_shift_zero fuel n a k st r :
  k <= 0 -> 0 <= a -> insert_shift fuel n a k st <> Ok r.
Proof.
  revert a st. induction fuel as [|f IH]; intros a st Hk Ha H; [discriminate|].
  simpl in H.
  replace (a >=? k) with true in H by (symmetry; apply Z.geb_le; lia).
  apply bindM_Ok in H as (e & st1 & _ & H).
  apply bindM_Ok in H as (u1 & st2 & _ & H).
  apply bindM_Ok in H as (e' & st3 & _ & H).
  apply bindM_Ok in H as (y & st4 & _ & H).
  apply bindM_Ok in H as (u2 & st5 & _ & H).
  eapply IH; [exact Hk| |exact H]. apply uint_range.
Qed.

Lemma insert_shift_spec fuel n d a k st u st' :
  insert_shift fuel (Some n) a k st = Ok (u, st') ->
  fld outDegree (heap st) n = Some d -> 1 <= k -> k - 1 <= a <= d - 1 ->
  gap_inv (heap st) n d (a + 1) ->
  gap_inv (heap st') n d k /\
  (forall b, fld outDegree (heap st') b = fld outDegree (heap st) b) /\
  (forall b, fld parent (heap st') b = fld parent (heap st) b) /\
  (forall b, fld _alloced (heap st') b = fld _alloced (heap st) b) /\
  (k <= a -> exists al, fld _alloced (heap st) n = Some al /\ a + 1 < al).
Proof.
  revert a st. induction fuel as [|f IH]; intros a st H Hd Hk Ha Hinv;
    [discriminate|].
  simpl in H. destruct (a >=? k) eqn:Hge.
  - rewrite Z.geb_leb in Hge. apply Z.leb_le in Hge.
    destruct Hinv as [Hs Hv].
    destruct (fld_Some _ _ _ _ Hd) as (x & Hx & Hdx).
    pose proof (Hs _ _ Hx) as (_ & _ & Hod & Hal & Hmax).
    rewrite (uint_small (a + 1)) in H by lia.
    rewrite (uint_small (a - 1)) in H by lia.
    step_read H as e He.
    step_write H as x0 l Hx0 Hl. same_load Hx Hx0.
    step_read H as e' He'.
    step_load H as y Hy. step_store H.
    destruct (Hv n a) as (c1 & Hc1 & Hp1 & Hi1).
    { split; [left; exists d; split; [auto|lia]|]. intros [_ ?]. lia. }
    rewrite He in Hc1. injection Hc1 as ->.
    views in He'. decide_eq. simpl in He'.
    rewrite (arr_get_set_eq _ _ _ _ Hl) in He'. injection He' as <-.
    apply IH in H; try lia.
    + destruct H as (Hg & Eod & Epar & Eal & _). split; [exact Hg|].
      split; [intros b; rewrite Eod; simpl; views; reflexivity|].
      split; [intros b; rewrite Epar; simpl; views; reflexivity|].
      split; [intros b; rewrite Eal; simpl; views; reflexivity|].
      intros _. exists (_alloced x). split; [apply fld_lookup; auto|].
      apply arr_set_Some in Hl. lia.
    + simpl. views. exact Hd.
    + replace (a - 1 + 1) with a by lia. simpl. split.
      * apply shapes_set_i; [eapply shapes_set_children; eauto|exact Hy|].
        fld_of Hy parent as Fp. rewrite Hp1 in Fp. injection Fp as Fp.
        rewrite <- Fp. discriminate.
      * intros b j [Hval Hne].
        assert (Hval0 : valid_slot (heap st) b j \/ (b = n /\ j = d)).
        { destruct Hval as [(d' & Hd' & Hj)|?]; [left|right; auto].
          views in Hd'. exists d'. auto. }
        destruct (decide (b = n /\ j = a + 1)) as [[-> ->]|Hne2].
        { exists c1. views. decide_eq. simpl.
          split; [exact (arr_get_set_eq _ _ _ _ Hl)|]. split; auto. }
        destruct (Hv b j) as (c & Hc & Hcp & Hci); [split; auto|].
        assert (Hcc : c <> c1).
        { intros ->. rewrite Hp1 in Hcp. injection Hcp as <-.
          rewrite Hi1 in Hci. injection Hci as <-. tauto. }
        exists c. views. decide_eq. split; [|auto].
        destruct (decide (b = n)) as [->|]; [|auto]. simpl.
        rewrite (cell_lookup _ _ _ _ Hx) in Hc. rewrite <- Hc.
        apply (arr_get_set_ne _ _ _ _ _ Hl). tauto.
  - rewrite Z.geb_leb in Hge. apply Z.leb_gt in Hge. injection H as <- <-.
    replace k with (a + 1) by lia.
    split; [exact Hinv|]. do 3 (split; [auto|]). intros ?. lia.
Qed.

Lemma tree_free_Ok c st u st' :
  tree_free (Some c) st = Ok (u, st') ->
  is_Some (heap st !! c) /\ heap st' = delete c (heap st).
Proof.
  unfold tree_free, free_node. destruct (heap st !! c); [|discriminate].
  intros [= <- <-]. split; [eauto|reflexivity].
Qed.

Lemma tree_insert_subtree_spec fuel n t k st r st' :
  tree_insert_subtree fuel (Some n) t k st = Ok (r, st') ->
  index_inv (heap st) -> 0 <= k ->
  index_inv (heap st') /\
  (r <> None -> r = t /\ heap st' = heap st).
Proof.
  unfold tree_insert_subtree. intros H Hinv Hk0.
  destruct t as [t|]; [|injection H as <- <-; split; [auto|congruence]].
  step_load H as x Hx.
  destruct (k >? outDegree x) eqn:Hk.
  { injection H as <- <-. split; [auto|]. intros _. split; auto. }
  rewrite Z.gtb_ltb in Hk. apply Z.ltb_ge in Hk.
  step_load H as y Hy.
  destruct (parent y) eqn:Hpar.
  { injection H as <- <-. split; [auto|]. intros _. split; auto. }
  apply bindM_Ok in H as (ok & st2 & Hg & H).
  pose proof (tree_children_grow_min_size_inv _ _ _ _ _ Hg (uint_range _) Hinv)
    as Hinv2.
  apply tree_children_grow_min_size_frame in Hg as (Ep & _ & Eo & Hfail).
  destruct ok.
  2:{ injection H as <- <-. rewrite Hfail by auto. split; [auto|]. split; auto. }
  step_load H as x1 Hx1.
  fld_of Hx1 outDegree as Hd1. rewrite Eo, (fld_lookup _ _ _ _ Hx) in Hd1.
  injection Hd1 as Hd1. rewrite <- Hd1 in H.
  apply bindM_Ok in H as (u1 & st3 & Hshift & H).
  destruct (decide (k <= 0)) as [Hle|Hk1].
  { exfalso. eapply insert_shift_zero; [exact Hle|apply uint_range|exact Hshift]. }
  destruct Hinv2 as [Hs2 Hv2].
  pose proof (Hs2 _ _ Hx1) as (_ & _ & Hod1 & Hal1 & Hmax1).
  rewrite uint_small in Hshift by lia.
  eapply insert_shift_spec in Hshift as ([Hs3 Hv3] & Eo3 & Ep3 & Ea3 & Hroom);
    [|rewrite Eo; apply fld_lookup; exact Hx|lia|lia|].
  2:{ replace (outDegree x - 1 + 1) with (outDegree x) by lia.
      split; [auto|]. intros b j [[Hval|Hval] Hne]; [auto|tauto]. }
  step_write H as x3 l Hx3 Hl.
  step_load H as x4 Hx4. step_store H.
  step_load H as y1 Hy1. step_store H.
  step_load H as y2 Hy2. step_store H.
  apply bindM_Ok in H as (u2 & st4 & Hup & H). injection H as <- <-.
  split; [|congruence].
  eapply tree_update_height_inv; [exact Hup|]. simpl. clear Hup.
  (* facts about the node being filled *)
  assert (Hd3 : fld outDegree (heap st3) n = Some (outDegree x)).
  { rewrite Eo3, Eo. apply fld_lookup; auto. }
  fld_of Hx4 outDegree as Hd4. rewrite Hd3 in Hd4. injection Hd4 as Hd4.
  assert (Hlt : outDegree x < _alloced x3).
  { pose proof (Hs3 _ _ Hx3) as (_ & _ & _ & Hal3 & _).
    destruct (decide (k <= outDegree x - 1)) as [Hin|Hout].
    - destruct (Hroom Hin) as (al & Hal & Hlt). rewrite <- Ea3 in Hal.
      rewrite (fld_lookup _ _ _ _ Hx3) in Hal. injection Hal as <-. lia.
    - apply arr_set_Some in Hl. lia. }
  pose proof (Hs3 _ _ Hx3) as (_ & _ & _ & Hal3 & Hmax3).
  rewrite <- Hd4 in *. rewrite uint_small in * by lia.
  assert (Hpt : fld parent (heap st3) t = Some None).
  { rewrite Ep3, Ep, (fld_lookup _ _ _ _ Hy), Hpar. reflexivity. }
  split.
  - apply shapes_view. intros b par idx d al l' Hp Hi Hd Ha Hl'.
    views in Hp. views in Hi. views in Hd. views in Ha. views in Hl'.
    simpl in *.
    assert (Hroot' : par = None -> idx = 0).
    { destruct (decide (b = t)) as [->|Hne0].
      - injection Hp as <-. discriminate.
      - intros ->. destruct (fld_Some _ _ _ _ Hp) as (z & Hz & Hzp).
        rewrite (fld_lookup _ _ _ _ Hz) in Hi. injection Hi as <-.
        apply (Hs3 _ _ Hz). exact Hzp. }
    split; [exact Hroot'|].
    destruct (decide (b = n)) as [->|Hne].
    + injection Hd as <-. rewrite (fld_lookup _ _ _ _ Hx3) in Ha.
      injection Ha as <-. injection Hl' as <-.
      rewrite (arr_set_length _ _ _ _ Hl). lia.
    + destruct (fld_Some _ _ _ _ Hd) as (z & Hz & <-). fld_known Hz.
      injection Ha as <-. injection Hl' as <-. apply (Hs3 _ _ Hz).
  - intros b j (d & Hd & Hj). views in Hd. simpl in Hd.
    destruct (decide (b = n /\ j = k)) as [[-> ->]|Hne].
    + exists t. views. simpl. decide_eq.
      split; [exact (arr_get_set_eq _ _ _ _ Hl)|auto].
    + destruct (Hv3 b j) as (c & Hc & Hcp & Hci).
      { split; [|auto]. destruct (decide (b = n)) as [->|]; [|left; exists d; auto].
        injection Hd as <-. destruct (decide (j = outDegree x)); [right; auto|].
        left. exists (outDegree x). split; [auto|lia]. }
      assert (Hcc : c <> t) by (intros ->; congruence).
      exists c. views. simpl. decide_eq. split; [|auto].
      destruct (decide (b = n)) as [->|]; [|auto].
      rewrite (cell_lookup _ _ _ _ Hx3) in Hc. rewrite <- Hc.
      apply (arr_get_set_ne _ _ _ _ _ Hl). tauto.
Qed.

Lemma tree_insert_child_spec fuel n d k st r st' :
  tree_insert_child fuel (Some n) d k st = Ok (r, st') ->
  index_inv (heap st) -> 0 <= k ->
  index_inv (heap st') /\ r = None.
Proof.
  unfold tree_insert_child. intros H Hinv Hk0.
  step_load H as x Hx.
  destruct (k >? outDegree x); [injection H as <- <-; auto|].
  apply bindM_Ok in H as (c & st1 & Hal & H).
  apply tree_alloc_spec in Hal as [Hinv1 Hc]; [|exact Hinv].
  apply bindM_Ok in H as (c' & st2 & Hins & H).
  apply tree_insert_subtree_spec in Hins as [Hinv2 Hrej]; [|exact Hinv1|exact Hk0].
  destruct c' as [c'|]; [|injection H as <- <-; auto].
  destruct Hrej as [<- Hheap]; [discriminate|].
  apply bindM_Ok in H as (u & st3 & Hfree & H). injection H as <- <-.
  split; [|reflexivity].
  eapply tree_free_root_inv; [exact Hfree|exact Hinv2|].
  rewrite Hheap. destruct Hc as [_ ->]. rewrite fld_insert. decide_eq.
  reflexivity.
Qed.

Lemma tree_set_subtree_spec fuel n t k st r st' :
  tree_set_subtree fuel (Some n) t k st = Ok (r, st') ->
  index_inv (heap st) -> 0 <= k ->
  index_inv (heap st') /\
  (r <> None -> r = t /\ heap st' = heap st).
Proof.
  unfold tree_set_subtree. intros H Hinv Hk0.
  destruct t as [t|]; [|injection H as <- <-; split; [auto|congruence]].
  step_load H as x Hx.
  destruct (k >? outDegree x) eqn:Hk.
  { injection H as <- <-. split; [auto|]. intros _. split; auto. }
  rewrite Z.gtb_ltb in Hk. apply Z.ltb_ge in Hk.
  step_load H as y Hy.
  destruct (parent y) eqn:Hpar.
  { injection H as <- <-. split; [auto|]. intros _. split; auto. }
  apply bindM_Ok in H as (ok & st2 & Hg & H).
  pose proof (tree_children_grow_min_size_inv _ _ _ _ _ Hg (uint_range _) Hinv)
    as Hinv2.
  apply tree_children_grow_min_size_frame in Hg as (Ep & _ & Eo & Hfail).
  destruct ok.
  2:{ injection H as <- <-. rewrite Hfail by auto. split; [auto|]. split; auto. }
  step_load H as x1 Hx1.
  fld_of Hx1 outDegree as Hd1. rewrite Eo, (fld_lookup _ _ _ _ Hx) in Hd1.
  injection Hd1 as Hd1. rewrite <- Hd1 in H.
  destruct Hinv2 as [Hs2 Hv2].
  pose proof (Hs2 _ _ Hx1) as (_ & _ & Hod1 & Hal1 & Hmax1).
  assert (Hpt : fld parent (heap st2) t = Some None).
  { rewrite Ep, (fld_lookup _ _ _ _ Hy), Hpar. reflexivity. }
  apply bindM_Ok in H as (u1 & st3 & Hmid & H).
  destruct (k =? outDegree x) eqn:Hkd.
  - (* append *)
    apply Z.eqb_eq in Hkd. subst k.
    step_write Hmid as x3 l Hx3 Hl. same_load Hx1 Hx3.
    step_load Hmid as x4 Hx4. final_store Hmid.
    step_load H as y1 Hy1. step_store H.
    step_load H as y2 Hy2. step_store H.
    apply bindM_Ok in H as (u2 & st4 & Hup & H). injection H as <- <-.
    split; [|congruence].
    eapply tree_update_height_inv; [exact Hup|]. simpl. clear Hup.
    fld_of Hx4 outDegree as Hd4. rewrite (fld_lookup _ _ _ _ Hx1) in Hd4.
    injection Hd4 as Hd4. rewrite <- Hd4, <- Hd1 in *.
    assert (Hlt : outDegree x < _alloced x1) by (apply arr_set_Some in Hl; lia).
    rewrite uint_small in * by lia.
    split.
    + apply shapes_view. intros b par idx d al l' Hp Hi Hd Ha Hl'.
      views in Hp. views in Hi. views in Hd. views in Ha. views in Hl'.
      simpl in *.
      assert (Hroot' : par = None -> idx = 0).
      { destruct (decide (b = t)) as [->|Hne0].
        - injection Hp as <-. discriminate.
        - intros ->. destruct (fld_Some _ _ _ _ Hp) as (z & Hz & Hzp).
          rewrite (fld_lookup _ _ _ _ Hz) in Hi. injection Hi as <-.
          apply (Hs2 _ _ Hz). exact Hzp. }
      split; [exact Hroot'|].
      destruct (decide (b = n)) as [->|Hne].
      * injection Hd as <-. rewrite (fld_lookup _ _ _ _ Hx1) in Ha.
        injection Ha as <-. injection Hl' as <-.
        rewrite (arr_set_length _ _ _ _ Hl). lia.
      * destruct (fld_Some _ _ _ _ Hd) as (z & Hz & <-). fld_known Hz.
        injection Ha as <-. injection Hl' as <-. apply (Hs2 _ _ Hz).
    + intros b j (d & Hd & Hj). views in Hd. simpl in Hd.
      destruct (decide (b = n /\ j = outDegree x)) as [[-> ->]|Hne].
      * exists t. views. simpl. decide_eq.
        split; [exact (arr_get_set_eq _ _ _ _ Hl)|auto].
      * destruct (Hv2 b j) as (c & Hc & Hcp & Hci).
        { destruct (decide (b = n)) as [->|]; [|exists d; auto].
          injection Hd as <-. exists (outDegree x1).
          split; [apply fld_lookup; auto|]. rewrite <- Hd1.
          assert (j <> outDegree x) by tauto. lia. }
        assert (Hcc : c <> t) by (intros ->; congruence).
        exists c. views. simpl. decide_eq. split; [|auto].
        destruct (decide (b = n)) as [->|]; [|auto].
        rewrite (cell_lookup _ _ _ _ Hx1) in Hc. rewrite <- Hc.
        apply (arr_get_set_ne _ _ _ _ _ Hl). tauto.
  - (* replace *)
    apply Z.eqb_neq in Hkd.
    step_read Hmid as e He.
    destruct (Hv2 n k) as (c0 & Hc0 & Hp0 & Hi0).
    { exists (outDegree x1). split; [apply fld_lookup; auto|lia]. }
    rewrite He in Hc0. injection Hc0 as ->.
    apply bindM_Ok in Hmid as (u3 & st5 & Hfree & Hmid).
    apply tree_free_Ok in Hfree as [_ Hheap5].
    apply write_child_Ok in Hmid as (n' & x3 & l & [= <-] & Hx3 & Hl & ->).
    simpl heap in *. rewrite Hheap5 in *.
    step_load H as y1 Hy1. step_store H.
    step_load H as y2 Hy2. step_store H.
    apply bindM_Ok in H as (u2 & st4 & Hup & H). injection H as <- <-.
    split; [|congruence].
    eapply tree_update_height_inv; [exact Hup|]. simpl. clear Hup.
    assert (Hn0 : n <> c0).
    { intros ->. rewrite lookup_delete_eq in Hx3. discriminate. }
    assert (Ht0 : t <> c0) by (intros ->; congruence).
    pose proof Hx3 as Hx3'.
    rewrite lookup_delete_ne in Hx3 by auto. same_load Hx1 Hx3.
    split.
    + apply shapes_view. intros b par idx d al l' Hp Hi Hd Ha Hl'.
      views in Hp. views in Hi. views in Hd. views in Ha. views in Hl'.
      simpl in *.
      destruct (decide (b = c0)); [discriminate|].
      assert (Hroot' : par = None -> idx = 0).
      { destruct (decide (b = t)) as [->|Hne0].
        - injection Hp as <-. discriminate.
        - intros ->. destruct (fld_Some _ _ _ _ Hp) as (z & Hz & Hzp).
          rewrite (fld_lookup _ _ _ _ Hz) in Hi. injection Hi as <-.
          apply (Hs2 _ _ Hz). exact Hzp. }
      split; [exact Hroot'|].
      destruct (decide (b = n)) as [->|Hne].
      * rewrite (fld_lookup _ _ _ _ Hx1) in Hd.
        rewrite (fld_lookup _ _ _ _ Hx1) in Ha.
        injection Hd as <-. injection Ha as <-. injection Hl' as <-.
        rewrite (arr_set_length _ _ _ _ Hl). lia.
      * destruct (fld_Some _ _ _ _ Hd) as (z & Hz & <-). fld_known Hz.
        injection Ha as <-. injection Hl' as <-. apply (Hs2 _ _ Hz).
    + intros b j (d & Hd & Hj). views in Hd. simpl in Hd.
      destruct (decide (b = n /\ j = k)) as [[-> ->]|Hne].
      * exists t. views. simpl. decide_eq.
        split; [exact (arr_get_set_eq _ _ _ _ Hl)|auto].
      * assert (Hb0 : b <> c0).
        { intros ->. decide_eq. discriminate. }
        destruct (Hv2 b j) as (c & Hc & Hcp & Hci).
        { decide_eq. exists d; auto. }
        assert (Hcc : c <> t) by (intros ->; congruence).
        assert (Hcc0 : c <> c0).
        { intros ->. rewrite Hp0 in Hcp. injection Hcp as <-.
          rewrite Hi0 in Hci. injection Hci as <-. tauto. }
        exists c. views. simpl. decide_eq. split; [|auto].
        destruct (decide (b = n)) as [->|]; [|auto].
        rewrite (cell_lookup _ _ _ _ Hx1) in Hc. rewrite <- Hc.
        apply (arr_get_set_ne _ _ _ _ _ Hl). tauto.
Qed.

Lemma tree_set_child_spec fuel n d k st r st' :
  tree_set_child fuel (Some n) d k st = Ok (r, st') ->
  index_inv (heap st) -> 0 <= k ->
  index_inv (heap st') /\ r = None.
Proof.
  unfold tree_set_child. intros H Hinv Hk0.
  step_load H as x Hx.
  destruct (k >? outDegree x); [injection H as <- <-; auto|].
  apply bindM_Ok in H as (c & st1 & Hal & H).
  apply tree_alloc_spec in Hal as [Hinv1 Hc]; [|exact Hinv].
  apply bindM_Ok in H as (c' & st2 & Hins & H).
  apply tree_set_subtree_spec in Hins as [Hinv2 Hrej]; [|exact Hinv1|exact Hk0].
  destruct c' as [c'|]; [|injection H as <- <-; auto].
  destruct Hrej as [<- Hheap]; [discriminate|].
  apply bindM_Ok in H as (u & st3 & Hfree & H). injection H as <- <-.
  split; [|reflexivity].
  eapply tree_free_root_inv; [exact Hfree|exact Hinv2|].
  rewrite Hheap. destruct Hc as [_ ->]. rewrite fld_insert. decide_eq.
  reflexivity.
Qed.

(** ** The index invariant in every state the operations build *)

Ltac null_node H :=
  match type of H with
  | ?f _ None _ _ _ = _ => unfold f in H
  | ?f _ None _ _ = _ => unfold f in H
  end.

Lemma run_op_inv fuel o st u st' :
  run_op fuel o st = Ok (u, st') -> op_unsigned o ->
  index_inv (heap st) -> index_inv (heap st').
Proof.
  intros H Hu Hinv.
  destruct o as [d|n|n|n t|n d|[n|] t k|[n|] d k|[n|] t k|[n|] d k];
    simpl in H, Hu;
    try (apply bindM_Ok in H as (r & st1 & H & H'); injection H' as <- <-).
  - apply tree_alloc_spec in H as [? _]; auto.
  - eapply tree_remove_inv; eauto.
  - eapply tree_delete_inv; eauto.
  - eapply tree_add_subtree_inv; eauto.
  - eapply tree_add_child_inv; eauto.
  - apply tree_insert_subtree_spec in H as [? _]; auto; lia.
  - unfold tree_insert_subtree in H. destruct t; [|injection H as <- <-; auto].
    step_load H as x Hx.
  - apply tree_insert_child_spec in H as [? _]; auto; lia.
  - unfold tree_insert_child in H. step_load H as x Hx.
  - apply tree_set_subtree_spec in H as [? _]; auto; lia.
  - unfold tree_set_subtree in H. destruct t; [|injection H as <- <-; auto].
    step_load H as x Hx.
  - apply tree_set_child_spec in H as [? _]; auto; lia.
  - unfold tree_set_child in H. step_load H as x Hx.
Qed.

Lemma run_ops_inv fuel os st u st' :
  run_ops fuel os st = Ok (u, st') -> Forall op_unsigned os ->
  index_inv (heap st) -> index_inv (heap st').
Proof.
  revert st. induction os as [|o os IH]; intros st H Hu Hinv; simpl in H.
  - injection H as <- <-. auto.
  - apply bindM_Ok in H as (u1 & st1 & H1 & H).
    inversion Hu; subst. eapply IH; eauto. eapply run_op_inv; eauto.
Qed.

Lemma index_inv_empty : index_inv ∅.
Proof.
  split.
  - intros a x Ha. rewrite lookup_empty in Ha. discriminate.
  - intros a j (d & Hd & _). unfold fld in Hd. rewrite lookup_empty in Hd.
    discriminate.
Qed.

Lemma index_inv_children (hp : gmap addr TreeNode) p x j :
  index_inv hp -> hp !! p = Some x -> 0 <= j < outDegree x ->
  exists c y, arr_get (children x) j = Some (Some c) /\ hp !! c = Some y /\
              parent y = Some p /\ i y = j.
Proof.
  intros [_ Hv] Hx Hj.
  destruct (Hv p j) as (c & Hc & Hcp & Hci).
  { exists (outDegree x). split; [apply fld_lookup; auto|auto]. }
  rewrite (cell_lookup _ _ _ _ Hx) in Hc.
  apply fld_Some in Hcp as (y & Hy & Hyp).
  rewrite (fld_lookup _ _ _ _ Hy) in Hci. injection Hci as Hci.
  eauto 10.
Qed.

(** ** Child removal returns *)

(** *** Running monadic code forwards *)

Lemma bind_load {B} a x (k : TreeNode -> M B) hp pl :
  hp !! a = Some x ->
  bindM (load (Some a)) k (mkState hp pl) = k x (mkState hp pl).
Proof. intros Hx. unfold bindM, load. simpl. rewrite Hx. reflexivity. Qed.

Lemma bind_store {B} a x y (k : unit -> M B) hp pl :
  hp !! a = Some y ->
  bindM (store (Some a) x) k (mkState hp pl) =
  k tt (mkState (<[a := x]> hp) pl).
Proof. intros Hy. unfold bindM, store. simpl. rewrite Hy. reflexivity. Qed.

Lemma run_store a x y hp pl :
  hp !! a = Some y ->
  store (Some a) x (mkState hp pl) = Ok (tt, mkState (<[a := x]> hp) pl).
Proof. intros Hy. unfold store. simpl. rewrite Hy. reflexivity. Qed.

Lemma bind_read {B} a j e (k : ptr -> M B) hp pl :
  cell hp a j = Some e ->
  bindM (read_child (Some a) j) k (mkState hp pl) = k e (mkState hp pl).
Proof.
  intros (x & Hx & He)%cell_Some. unfold read_child.
  unfold bindM at 1. unfold bindM at 1. unfold load. simpl.
  rewrite Hx, He. reflexivity.
Qed.

Lemma bind_write {B} a j v x l (k : unit -> M B) hp pl :
  hp !! a = Some x -> arr_set (children x) j v = Some l ->
  bindM (write_child (Some a) j v) k (mkState hp pl) =
  k tt (mkState (<[a := set_children x l]> hp) pl).
Proof.
  intros Hx Hl. unfold write_child.
  unfold bindM at 1. unfold bindM at 1. unfold load. simpl. rewrite Hx, Hl.
  unfold store. simpl. rewrite Hx. reflexivity.
Qed.

Lemma bind_ok {A B} (m : M A) (k : A -> M B) st a st1 :
  m st = Ok (a, st1) -> bindM m k st = k a st1.
Proof. intros Hm. unfold bindM. rewrite Hm. reflexivity. Qed.

Lemma arr_set_in_range (l : list ptr) k v :
  0 <= k < Z.of_nat (length l) -> exists l', arr_set l k v = Some l'.
Proof.
  intros Hk. unfold arr_set.
  replace ((0 <=? k) && (k <? Z.of_nat (length l))) with true; [eauto|].
  symmetry. apply andb_true_iff. split; [apply Z.leb_le|apply Z.ltb_lt]; lia.
Qed.

Lemma remove_child_find_total fuel a c k0 k st d :
  fld outDegree (heap st) a = Some d -> d <= UINT_MAX ->
  0 <= k0 <= k -> k < d -> cell (heap st) a k = Some c ->
  (forall j, k0 <= j < k -> exists e, cell (heap st) a j = Some e /\ e <> c) ->
  (Z.to_nat (k - k0) < fuel)%nat ->
  remove_child_find fuel (Some a) c k0 st = Ok (k, st).
Proof.
  destruct st as [hp pl]. simpl in *.
  revert k0. induction fuel as [|f IH]; intros k0 Hd Hmax Hk0 Hk Hc Hne Hf; [lia|].
  simpl. destruct (fld_Some _ _ _ _ Hd) as (x & Hx & Hdx).
  rewrite (bind_load _ _ _ _ _ Hx), Hdx.
  replace (k0 <? d) with true by (symmetry; apply Z.ltb_lt; lia).
  destruct (decide (k0 = k)) as [->|Hkk].
  - rewrite (bind_read _ _ _ _ _ _ Hc). rewrite decide_True by reflexivity.
    reflexivity.
  - destruct (Hne k0) as (e & He & Hec); [lia|].
    rewrite (bind_read _ _ _ _ _ _ He). rewrite decide_False by exact Hec.
    rewrite uint_small by lia. apply IH; auto; try lia.
    intros j Hj. apply Hne. lia.
Qed.

Lemma remove_child_shift_total fuel a d k st :
  fld outDegree (heap st) a = Some d -> 1 <= d -> 0 <= k <= d ->
  hole_inv (heap st) a k ->
  (Z.to_nat (d - 1 - k) < fuel)%nat ->
  exists st', remove_child_shift fuel (Some a) k st = Ok (tt, st').
Proof.
  revert k st. induction fuel as [|f IH]; intros k [hp pl] Hd Hd1 Hk Hinv Hf;
    [lia|].
  simpl in *. destruct (fld_Some _ _ _ _ Hd) as (x & Hx & Hdx).
  rewrite (bind_load _ _ _ _ _ Hx), Hdx.
  pose proof (proj1 Hinv _ _ Hx) as (_ & _ & Hod & Hal & Hmax).
  rewrite (uint_small (d - 1)) by lia.
  destruct (k <? d - 1) eqn:Hlt; [|eauto].
  apply Z.ltb_lt in Hlt. rewrite (uint_small (k + 1)) by lia.
  destruct (proj2 Hinv a (k + 1)) as (c1 & Hc1 & Hp1 & Hi1).
  { split; [exists d; split; [auto|lia]|]. intros [_ ?]. lia. }
  rewrite (bind_read _ _ _ _ _ _ Hc1).
  destruct (arr_set_in_range (children x) k (Some c1)) as [l Hl]; [lia|].
  rewrite (bind_write _ _ _ _ _ _ _ _ Hx Hl).
  erewrite bind_read.
  2:{ simpl. rewrite cell_insert. decide_eq. simpl.
      exact (arr_get_set_eq _ _ _ _ Hl). }
  destruct (<[a := set_children x l]> hp !! c1) as [y|] eqn:Hy.
  2:{ exfalso. apply fld_Some in Hp1 as (y & Hy1 & _).
      destruct (decide (c1 = a)) as [->|Hne].
      - rewrite lookup_insert_eq in Hy. discriminate.
      - rewrite lookup_insert_ne in Hy by auto. congruence. }
  rewrite (bind_load _ _ _ _ _ Hy). rewrite (bind_store _ _ _ _ _ _ Hy).
  apply IH; try lia.
  - simpl. views. exact Hd.
  - simpl. eapply hole_inv_shift; eauto. lia.
Qed.

Lemma hole_inv_write (hp : gmap addr TreeNode) a x k v l :
  index_inv hp -> hp !! a = Some x -> arr_set (children x) k v = Some l ->
  hole_inv (<[a := set_children x l]> hp) a k.
Proof.
  intros [Hs Hv] Hx Hl. split; [eapply shapes_set_children; eauto|].
  intros b j [(d' & Hd' & Hj) Hne]. views in Hd'.
  destruct (Hv b j) as (c' & Hc' & Hcp & Hci); [exists d'; auto|].
  exists c'. views. split; [|auto].
  destruct (decide (b = a)) as [->|]; [|auto]. simpl.
  rewrite (cell_lookup _ _ _ _ Hx) in Hc'. rewrite <- Hc'.
  apply (arr_get_set_ne _ _ _ _ _ Hl). tauto.
Qed.

Lemma tree_node_remove_child_total fuel c a d k st :
  index_inv (heap st) ->
  fld parent (heap st) c = Some (Some a) ->
  fld outDegree (heap st) a = Some d -> 0 <= k < d ->
  cell (heap st) a k = Some (Some c) ->
  d < Z.of_nat fuel ->
  exists st', tree_node_remove_child fuel (Some c) st = Ok (tt, st').
Proof.
  destruct st as [hp pl]. simpl.
  intros Hinv Hpar Hd Hk Hc Hf. unfold tree_node_remove_child.
  destruct (fld_Some _ _ _ _ Hpar) as (y & Hy & Hyp).
  rewrite (bind_load _ _ _ _ _ Hy), Hyp.
  destruct (fld_Some _ _ _ _ Hd) as (x & Hx & Hdx).
  pose proof (proj1 Hinv _ _ Hx) as (_ & _ & Hod & Hal & Hmax).
  erewrite bind_ok.
  2:{ eapply (remove_child_find_total fuel a (Some c) 0 k); eauto; try lia.
      intros j Hj. destruct (proj2 Hinv a j) as (cj & Hcj & _ & Hij).
      { exists d. split; [auto|lia]. }
      exists (Some cj). split; [auto|]. intros [= ->].
      destruct (proj2 Hinv a k) as (ck & Hck & _ & Hik).
      { exists d. split; [auto|lia]. }
      rewrite Hc in Hck. injection Hck as <-.
      rewrite Hij in Hik. injection Hik as ->. lia. }
  destruct (arr_set_in_range (children x) k None) as [l Hl]; [lia|].
  rewrite (bind_write _ _ _ _ _ _ _ _ Hx Hl).
  assert (Hd' : fld outDegree (<[a := set_children x l]> hp) a = Some d)
    by (views; exact Hd).
  assert (Hh : hole_inv (<[a := set_children x l]> hp) a k)
    by (eapply hole_inv_write; eauto).
  destruct (remove_child_shift_total fuel a d k
              (mkState (<[a := set_children x l]> hp) pl)
              Hd' ltac:(lia) ltac:(lia) Hh ltac:(lia)) as [st2 Hshift].
  rewrite (bind_ok _ _ _ _ _ Hshift).
  pose proof (remove_child_shift_spec _ _ _ _ _ _ _ Hshift
                Hd' ltac:(lia) ltac:(lia) Hh) as (_ & Eod & _).
  simpl in Eod. specialize (Eod a). views in Eod. rewrite Hd in Eod.
  apply fld_Some in Eod as (x2 & Hx2 & _).
  destruct st2 as [hp2 pl2]. simpl in Hx2.
  rewrite (bind_load _ _ _ _ _ Hx2). rewrite (run_store _ _ _ _ _ Hx2). eauto.
Qed.

(** ** Defects, evaluated on concrete trees *)

Example ex_parent_child_root :
  heap ex_parent_child !! 1%positive =
  Some (mkTreeNode None [Some 2%positive] 1 100 1 0 0).
Proof. vm_compute. reflexivity. Qed.

(** C1 (defect).  A root that has just received a child is not a leaf, yet
    its stored height is still 0: [tree_update_height] takes the maximum of
    the children's heights and never adds the edge to the child. *)
Theorem height_stays_zero_after_add_child :
  tree_height_node (Some 1%positive) (heap ex_parent_child) = Ok 0 /\
  tree_is_leaf (Some 1%positive) (heap ex_parent_child) = Ok false /\
  tree_out_degree (Some 1%positive) (heap ex_parent_child) = Ok 1.
Proof. vm_compute. auto. Qed.

(** C2 (defect).  Node 2 is a child of node 1.  Attaching it under the
    separate root 3 reports success ([NULL]) and leaves the state as it
    was: node 2 is not detached and node 3 gets no child. *)
Theorem add_subtree_ignores_parented_subtree :
  fld parent (heap ex_two_trees) 2%positive = Some (Some 1%positive) /\
  tree_add_subtree 8 (Some 3%positive) (Some 2%positive) ex_two_trees =
    Ok (None, ex_two_trees) /\
  tree_out_degree (Some 3%positive) (heap ex_two_trees) = Ok 0.
Proof. vm_compute. auto. Qed.

(** C3 (defect).  [tree_insert_child] at a valid index and [tree_set_child]
    both link the new node (address 3) into the parent and still return
    [NULL]. *)
Theorem insert_child_and_set_child_return_null :
  exists st st',
    tree_insert_child 8 (Some 1%positive) 30 1 ex_parent_child = Ok (None, st) /\
    tree_out_degree (Some 1%positive) (heap st) = Ok 2 /\
    tree_child (Some 1%positive) 1 (heap st) = Ok (Some 3%positive) /\
    tree_set_child 8 (Some 1%positive) 40 0 ex_parent_child = Ok (None, st') /\
    tree_child (Some 1%positive) 0 (heap st') = Ok (Some 3%positive).
Proof. do 2 eexists. vm_compute. repeat split; reflexivity. Qed.

(** C4 (defect).  Inserting at index 0, into a node without children or
    into a node with one child, runs the shifting loop past the front of
    the child array: the unsigned counter wraps to [UINT_MAX] and the read
    [children[UINT_MAX]] is outside the allocation, whatever the fuel. *)
Theorem insert_subtree_at_front_faults :
  forall fuel,
    tree_insert_subtree (S fuel) (Some 3%positive) (Some 2%positive) 0
      (state_after (tree_remove 8 (Some 2%positive)) ex_two_trees) = Fault /\
    tree_insert_subtree (S (S fuel)) (Some 1%positive) (Some 3%positive) 0
      ex_two_trees = Fault.
Proof. intros fuel. vm_compute. auto. Qed.

(** C5 (defect).  [tree_free] of a root with a child releases the root
    only: the child stays allocated, with a parent pointer to the released
    node. *)
Theorem free_keeps_descendants :
  exists st,
    tree_free (Some 1%positive) ex_parent_child = Ok (tt, st) /\
    heap st !! 1%positive = None /\
    heap st !! 2%positive =
      Some (mkTreeNode (Some 1%positive) [] 0 10 0 0 0).
Proof. eexists. vm_compute. repeat split; reflexivity. Qed.

(** ** Walks, descendants, and the index invariant *)

(** C8 (defect).  On the chain 1 -> 2 -> 3 the postorder walk visits 3, 2,
    1.  A retreat right after the third advance should return node 2, the
    one visited before it; [tree_postorder_walk_prev] returns node 3, the
    new [prev] slot.  The preorder walk (1, 2, 3) returns node 2 there. *)
Theorem postorder_retreat_returns_prev_slot :
  advance3_retreat (fun it => tree_postorder_walk 8 it (Some 1%positive))
    (tree_postorder_walk_next 8) (tree_postorder_walk_prev 8) (heap ex_chain)
  = Ok (Some 1%positive, Some 2%positive, Some 3%positive) /\
  advance3_retreat (fun it => retR (tree_preorder_walk it (Some 1%positive)))
    (tree_preorder_walk_next 8) (tree_preorder_walk_prev 8) (heap ex_chain)
  = Ok (Some 3%positive, Some 2%positive, Some 2%positive).
Proof. vm_compute. auto. Qed.

(** C10.  Every node is a descendant and an ancestor of itself; the depth of
    a tree's root in that tree is 0, reached through the loop branch, and
    it is the value [tree_depth] also returns for a node that is not in
    the tree. *)
Theorem descendant_reflexive_depth_ambiguous :
  forall (f : nat) (hp : gmap addr TreeNode) (n : ptr),
    tree_is_descendant_of (S f) n n hp = Ok true /\
    tree_is_ancestor_of (S f) n n hp = Ok true /\
    tree_depth (S f) n n hp = Ok 0 /\
    (forall m, tree_is_ancestor_of (S f) n m hp = Ok false ->
               tree_depth (S f) n m hp = tree_depth (S f) n n hp).
Proof.
  intros f hp n.
  assert (Hd : tree_is_descendant_of (S f) n n hp = Ok true).
  { simpl. destruct n as [a|]; [rewrite decide_True by reflexivity|];
      unfold retR; rewrite bool_decide_eq_true_2; reflexivity. }
  assert (Hdep : tree_depth (S f) n n hp = Ok 0).
  { unfold tree_depth, tree_is_ancestor_of, bindR. rewrite Hd. simpl.
    destruct n as [a|]; [rewrite decide_True by reflexivity|]; reflexivity. }
  repeat split; auto.
  intros m Hm. rewrite Hdep. unfold tree_depth, bindR. rewrite Hm. reflexivity.
Qed.

Lemma descendant_reflexive_depth_ambiguous_witness :
  tree_is_ancestor_of 3 (Some 3%positive) (Some 2%positive) (heap ex_two_trees)
    = Ok false /\
  tree_depth 3 (Some 3%positive) (Some 2%positive) (heap ex_two_trees) =
  tree_depth 3 (Some 3%positive) (Some 3%positive) (heap ex_two_trees).
Proof.
  split; [vm_compute; reflexivity|].
  apply (descendant_reflexive_depth_ambiguous 2 (heap ex_two_trees)
           (Some 3%positive)).
  vm_compute. reflexivity.
Defined.

(** C6.  In every state reached from the empty heap by a sequence of
    allocations, detachments, deletions, attachments, insertions and
    replacements that all return, the node in cell [j] of a live node [p]
    has parent [p] and stored index [j], for every [j] below the
    out-degree.  In such a state, removing the child in cell [k] of a node
    with [d] children returns (with fuel above [d]), leaves the cells below
    [k] alone, and moves each child of cells [k+1 .. d-1] one cell down
    with its stored index decremented. *)
Theorem children_index_invariant :
  forall (fuel0 : nat) (os : list op) (pl : list bool) (st : state),
    Forall op_unsigned os ->
    run_ops fuel0 os (mkState ∅ pl) = Ok (tt, st) ->
    (forall p x j,
        heap st !! p = Some x -> 0 <= j < outDegree x ->
        exists c y, arr_get (children x) j = Some (Some c) /\
                    heap st !! c = Some y /\ parent y = Some p /\ i y = j) /\
    (forall fuel c p d k,
        fld parent (heap st) c = Some (Some p) ->
        fld outDegree (heap st) p = Some d -> 0 <= k < d ->
        cell (heap st) p k = Some (Some c) ->
        d < Z.of_nat fuel ->
        exists st',
          tree_node_remove_child fuel (Some c) st = Ok (tt, st') /\
          fld outDegree (heap st') p = Some (d - 1) /\
          (forall j, 0 <= j < k -> cell (heap st') p j = cell (heap st) p j) /\
          (forall j, k <= j < d - 1 ->
             exists m, cell (heap st) p (j + 1) = Some (Some m) /\
                       cell (heap st') p j = Some (Some m) /\
                       fld i (heap st) m = Some (j + 1) /\
                       fld i (heap st') m = Some j)).
Proof.
  intros fuel0 os pl st Hu Hrun.
  assert (Hinv : index_inv (heap st)).
  { eapply run_ops_inv; [exact Hrun|exact Hu|]. simpl. apply index_inv_empty. }
  split.
  - intros p x j Hx Hj. eapply index_inv_children; eauto.
  - intros fuel c p d k Hpar Hd Hk Hc Hf.
    destruct (tree_node_remove_child_total fuel c p d k st Hinv Hpar Hd Hk Hc Hf)
      as [st' Hrm].
    exists st'. split; [exact Hrm|].
    destruct (tree_node_remove_child_spec _ _ _ _ _ _ Hrm Hinv Hpar)
      as (Hinv' & _ & _ & Hfun).
    destruct (Hfun d k Hd Hk Hc) as (Hd' & Hlo & Hhi).
    split; [exact Hd'|]. split; [exact Hlo|].
    intros j Hj.
    destruct (proj2 Hinv p (j + 1)) as (m & Hm & _ & Hmi).
    { exists d. split; [auto|lia]. }
    exists m. split; [exact Hm|]. split; [rewrite Hhi by lia; exact Hm|].
    split; [exact Hmi|].
    destruct (proj2 Hinv' p j) as (m' & Hm' & _ & Hmi').
    { exists (d - 1). split; [auto|lia]. }
    rewrite Hhi, Hm in Hm' by lia. injection Hm' as <-. exact Hmi'.
Qed.

Lemma children_index_invariant_witness :
  exists st,
    run_ops 8 ex_ops (mkState ∅ []) = Ok (tt, st) /\
    (exists c y, heap st !! 1%positive ≫= (fun x => arr_get (children x) 2)
                   = Some (Some c) /\
                 heap st !! c = Some y /\ parent y = Some 1%positive /\ i y = 2) /\
    (exists st',
        tree_node_remove_child 8 (Some 6%positive) st = Ok (tt, st') /\
        fld outDegree (heap st') 1%positive = Some 2 /\
        fld i (heap st) 5%positive = Some 1 /\
        fld i (heap st') 5%positive = Some 0).
Proof.
  eexists. split; [vm_compute; reflexivity|].
  match goal with
  | |- context [heap ?s] =>
      assert (Hu : Forall op_unsigned ex_ops)
        by (repeat constructor; unfold UINT_MAX; simpl; lia);
      assert (Hrun : run_ops 8 ex_ops (mkState ∅ []) = Ok (tt, s))
        by (vm_compute; reflexivity);
      pose proof (children_index_invariant 8 ex_ops [] s Hu Hrun) as [H1 H2]
  end.
  split.
  - edestruct (H1 1%positive) as (c & y & Hc & Hy & Hp & Hi);
      [vm_compute; reflexivity|shelve|].
    exists c, y. split; [exact Hc|]. split; [exact Hy|]. split; [exact Hp|exact Hi].
    Unshelve. simpl. lia.
  - destruct (H2 8%nat 6%positive 1%positive 3 0) as (st' & Hrm & Hd & _ & Hhi);
      try (vm_compute; reflexivity); try lia.
    exists st'. split; [exact Hrm|]. split; [exact Hd|].
    destruct (Hhi 0) as (m & Hm & _ & Hmi & Hmi'); [lia|].
    vm_compute in Hm. injection Hm as <-. split; [exact Hmi|exact Hmi'].
Defined.

(** ** Parent chains *)

Lemma reaches_view (hp hp' : gmap addr TreeNode) n b :
  (forall a, reaches hp n a -> fld parent hp' a = fld parent hp a) ->
  reaches hp' n b -> reaches hp n b.
Proof.
  intros Hsame Hr. induction Hr as [a|a q b Hq Hr IH].
  - constructor.
  - assert (Hq' : fld parent hp a = Some q).
    { rewrite <- Hsame; [exact Hq|constructor]. }
    eapply reaches_up; [exact Hq'|]. apply IH.
    intros a' Ha'. apply Hsame. eapply reaches_up; eauto.
Qed.

Lemma anc_chain_view (hp hp' : gmap addr TreeNode) n m :
  (forall a, reaches hp n a -> fld parent hp' a = fld parent hp a) ->
  anc_chain hp n m -> anc_chain hp' n m.
Proof.
  intros Hsame Hc. induction Hc as [m|a q m Hq Hc IH].
  - constructor.
  - eapply anc_step.
    + rewrite Hsame; [exact Hq|constructor].
    + apply IH. intros a' Ha'. apply Hsame. eapply reaches_up; eauto.
Qed.

Lemma anc_chain_mono (hp : gmap addr TreeNode) n m m' :
  anc_chain hp n m -> (m <= m')%nat -> anc_chain hp n m'.
Proof.
  intros Hc. revert m'. induction Hc as [m|a q m Hq Hc IH]; intros m' Hle.
  - constructor.
  - destruct m' as [|m']; [lia|]. eapply anc_step; [exact Hq|]. apply IH. lia.
Qed.

Lemma reaches_trans (hp : gmap addr TreeNode) n a b :
  reaches hp n a -> reaches hp (Some a) b -> reaches hp n b.
Proof.
  intros Hna Hab. induction Hna as [a|a' q a Hq Hr IH]; [exact Hab|].
  eapply reaches_up; [exact Hq|]. apply IH. exact Hab.
Qed.

(** What the answers of [tree_is_descendant_of] say about the chain. *)
Lemma tree_is_descendant_of_false f (hp : gmap addr TreeNode) p t :
  tree_is_descendant_of f p (Some t) hp = Ok false ->
  anc_chain hp p f /\ ~ reaches hp p t.
Proof.
  revert p. induction f as [|f IH]; intros p H; [discriminate|].
  simpl in H. destruct p as [a|].
  - destruct (decide (Some a = Some t)) as [E|Hne].
    { unfold retR in H. rewrite bool_decide_eq_true_2 in H by exact E.
      discriminate. }
    unfold bindR, loadR in H. destruct (hp !! a) as [x|] eqn:Hx; [|discriminate].
    apply IH in H as [Hc Hn]. split.
    + eapply anc_step; [apply fld_lookup; exact Hx|exact Hc].
    + intros Hr. inversion Hr as [|a' q b Hq Hr']; subst; [congruence|].
      rewrite (fld_lookup _ _ _ _ Hx) in Hq. injection Hq as <-. tauto.
  - split; [constructor|]. intros Hr. inversion Hr.
Qed.

Lemma tree_is_descendant_of_true f (hp : gmap addr TreeNode) b t :
  tree_is_descendant_of f b (Some t) hp = Ok true -> reaches hp b t.
Proof.
  revert b. induction f as [|f IH]; intros b H; [discriminate|].
  simpl in H. destruct b as [a|].
  - destruct (decide (Some a = Some t)) as [[= ->]|Hne]; [constructor|].
    unfold bindR, loadR in H. destruct (hp !! a) as [x|] eqn:Hx; [|discriminate].
    eapply reaches_up; [apply fld_lookup; exact Hx|]. apply IH. exact H.
  - unfold retR in H. rewrite bool_decide_eq_false_2 in H by discriminate.
    discriminate.
Qed.

Lemma reaches_parent (hp : gmap addr TreeNode) b t :
  reaches hp (Some b) t -> b <> t ->
  exists q, fld parent hp b = Some q /\ reaches hp q t.
Proof.
  intros Hr Hne. inversion Hr; subst; [tauto|eauto].
Qed.

(** ** The height update returns *)

Lemma index_inv_od_bound (hp : gmap addr TreeNode) a d :
  index_inv hp -> fld outDegree hp a = Some d -> 0 <= d <= UINT_MAX.
Proof.
  intros [Hs _] (x & Hx & <-)%fld_Some.
  pose proof (Hs _ _ Hx) as (_ & ? & ? & ? & ?). lia.
Qed.

Lemma index_inv_slot (hp : gmap addr TreeNode) a d j :
  index_inv hp -> fld outDegree hp a = Some d -> 0 <= j < d -> slot_ok hp a j.
Proof. intros [_ Hv] Hd Hj. apply Hv. exists d. auto. Qed.

Lemma max_child_h_total fuel a d k hc hp pl :
  index_inv hp -> fld outDegree hp a = Some d -> 0 <= k <= d ->
  (Z.to_nat (d - k) < fuel)%nat ->
  exists v, max_child_h fuel (Some a) k hc (mkState hp pl) = Ok (v, mkState hp pl).
Proof.
  intros Hinv Hd. pose proof (index_inv_od_bound _ _ _ Hinv Hd) as Hb.
  destruct (fld_Some _ _ _ _ Hd) as (x & Hx & Hdx).
  revert k hc. induction fuel as [|f IH]; intros k hc Hk Hf; [lia|].
  simpl. rewrite (bind_load _ _ _ _ _ Hx), Hdx.
  destruct (k <? d) eqn:Hlt; [|eauto].
  apply Z.ltb_lt in Hlt.
  destruct (index_inv_slot hp a d k Hinv Hd) as (c & Hc & Hcp & _); [lia|].
  rewrite (bind_read _ _ _ _ _ _ Hc).
  apply fld_Some in Hcp as (y & Hy & _).
  rewrite (bind_load _ _ _ _ _ Hy). rewrite uint_small by lia.
  apply IH; lia.
Qed.

Lemma tree_update_height_loop_total m : forall n hp pl fuel inner,
  anc_chain hp n m -> index_inv hp ->
  (m < fuel)%nat -> UINT_MAX + 1 < Z.of_nat inner ->
  exists hp', tree_update_height_loop fuel inner n (mkState hp pl) =
              Ok (tt, mkState hp' pl).
Proof.
  induction m as [|m IH]; intros n hp pl fuel inner Hc Hinv Hf Hi;
    (destruct fuel as [|fuel]; [lia|]); simpl.
  - inversion Hc; subst. eauto.
  - inversion Hc as [|a q m' Hq Hc']; subst; [eauto|].
    destruct (fld_Some _ _ _ _ Hq) as (x & Hx & Hxp).
    destruct (max_child_h_total inner a (outDegree x) 0 0 hp pl) as [v Hv];
      auto.
    { apply fld_lookup; auto. }
    { pose proof (index_inv_od_bound hp a _ Hinv (fld_lookup _ _ _ _ Hx)). lia. }
    { pose proof (index_inv_od_bound hp a _ Hinv (fld_lookup _ _ _ _ Hx)). lia. }
    rewrite (bind_ok _ _ _ _ _ Hv).
    rewrite (bind_load _ _ _ _ _ Hx). rewrite (bind_store _ _ _ _ _ _ Hx).
    erewrite bind_load; [|apply lookup_insert_eq]. simpl. rewrite Hxp.
    apply IH; auto; try lia.
    + eapply anc_chain_view; [|exact Hc']. intros b _. views. reflexivity.
    + apply index_inv_set_h; auto.
Qed.

Lemma tree_update_height_loop_outside fuel inner n st u st' :
  tree_update_height_loop fuel inner n st = Ok (u, st') ->
  forall b, ~ reaches (heap st) n b -> heap st' !! b = heap st !! b.
Proof.
  revert n st. induction fuel as [|f IH]; intros n st H b Hb; [discriminate|].
  simpl in H. destruct n as [a|]; [|injection H as <- <-; auto].
  apply bindM_Ok in H as (hc & st1 & H1 & H).
  apply max_child_h_state in H1 as ->.
  step_load H as x Hx. step_store H. step_load H as x' Hx'.
  rewrite lookup_insert_eq in Hx'. injection Hx' as <-. simpl in H.
  assert (Hne : a <> b) by (intros ->; apply Hb; constructor).
  rewrite (IH _ _ H b).
  - simpl. apply lookup_insert_ne. exact Hne.
  - simpl. intros Hr. apply Hb.
    eapply reaches_up; [apply fld_lookup; exact Hx|].
    eapply reaches_view; [|exact Hr]. intros c _. views. reflexivity.
Qed.

(** Growing the child array touches one node, and of that node only the
    array behind the cells in use. *)
Lemma tree_children_grow_min_size_total a s x hp pl :
  hp !! a = Some x ->
  exists b hp' pl',
    tree_children_grow_min_size (Some a) s (mkState hp pl) =
    Ok (b, mkState hp' pl').
Proof.
  intros Hx. unfold tree_children_grow_min_size.
  rewrite (bind_load _ _ _ _ _ Hx).
  destruct (_alloced x >=? s); [unfold retM; eauto|].
  unfold bindM at 1, alloc_ok. simpl. destruct pl as [|[|] pl].
  - rewrite (bind_store _ _ _ _ _ _ Hx). unfold retM. eauto.
  - rewrite (bind_store _ _ _ _ _ _ Hx). unfold retM. eauto.
  - unfold retM. eauto.
Qed.

Lemma tree_children_grow_min_size_effect a s st b st' x :
  tree_children_grow_min_size (Some a) s st = Ok (b, st') ->
  heap st !! a = Some x -> _alloced x = Z.of_nat (length (children x)) ->
  0 <= s ->
  (forall c, c <> a -> heap st' !! c = heap st !! c) /\
  (forall c, fld no_h (heap st') c = fld no_h (heap st) c \/ c = a) /\
  exists x', heap st' !! a = Some x' /\
             parent x' = parent x /\ i x' = i x /\ h x' = h x /\
             data x' = data x /\ outDegree x' = outDegree x /\
             (b = true -> s <= _alloced x') /\
             (forall j, 0 <= j < _alloced x ->
                        arr_get (children x') j = arr_get (children x) j).
Proof.
  unfold tree_children_grow_min_size. intros H Hx Hal Hs.
  step_load H as x0 Hx0. same_load Hx Hx0.
  destruct (_alloced x >=? s) eqn:Hcmp.
  { injection H as <- <-. split; [auto|]. split; [auto|].
    exists x. repeat split; auto. intros _.
    rewrite Z.geb_leb in Hcmp. apply Z.leb_le in Hcmp. exact Hcmp. }
  apply bindM_Ok in H as (ok & st1 & H1 & H).
  pose proof (alloc_ok_Ok _ _ _ H1) as Hheap.
  destruct ok.
  2:{ injection H as <- <-. rewrite Hheap. split; [auto|]. split; [auto|].
      exists x. repeat split; auto. discriminate. }
  step_store H. injection H as <- <-. simpl. rewrite Hheap.
  rewrite Z.geb_leb in Hcmp. apply Z.leb_gt in Hcmp.
  split; [intros c Hc; apply lookup_insert_ne; auto|].
  split.
  { intros c. destruct (decide (c = a)); [right; auto|left].
    rewrite fld_insert. rewrite decide_False by auto. reflexivity. }
  eexists. split; [apply lookup_insert_eq|]. simpl.
  repeat split; auto; try lia.
  intros j Hj. apply arr_get_resize; lia.
Qed.

(** ** What child removal leaves alone *)

Lemma remove_child_shift_frame fuel a d k st u st' :
  remove_child_shift fuel (Some a) k st = Ok (u, st') ->
  fld outDegree (heap st) a = Some d -> 1 <= d -> 0 <= k <= d ->
  hole_inv (heap st) a k ->
  (forall b, b <> a -> fld parent (heap st) b <> Some (Some a) ->
             heap st' !! b = heap st !! b) /\
  (forall b, b <> a -> fld no_i (heap st') b = fld no_i (heap st) b).
Proof.
  revert k st. induction fuel as [|f IH]; intros k st H Hd Hd1 Hk Hinv;
    [discriminate|].
  simpl in H. step_load H as x Hx.
  pose proof Hd as Hd'. rewrite (fld_lookup _ _ _ _ Hx) in Hd'.
  injection Hd' as Hd'. rewrite Hd' in H.
  pose proof (proj1 Hinv _ _ Hx) as (_ & _ & Hod & Hal & Hmax).
  rewrite (uint_small (d - 1)) in H by lia.
  destruct (k <? d - 1) eqn:Hlt.
  - apply Z.ltb_lt in Hlt.
    rewrite (uint_small (k + 1)) in H by lia.
    step_read H as e He.
    step_write H as x0 l Hx0 Hl. same_load Hx Hx0.
    step_read H as e' He'.
    step_load H as y Hy. step_store H.
    views in He'. decide_eq. simpl in He'.
    rewrite (arr_get_set_eq _ _ _ _ Hl) in He'. injection He' as ->.
    destruct (proj2 Hinv a (k + 1)) as (c1 & Hc1 & Hp1 & Hi1).
    { split; [exists d; split; [auto|lia]|]. intros [_ ?]. lia. }
    rewrite He in Hc1. injection Hc1 as <-.
    apply IH in H; try lia.
    + destruct H as [F1 F2]. simpl in F1, F2. split.
      * intros b Hb Hbp.
        assert (Hb0 : b <> a0) by (intros ->; apply Hbp; exact Hp1).
        rewrite F1; [|exact Hb|views; exact Hbp].
        rewrite !lookup_insert_ne by congruence. reflexivity.
      * intros b Hb. rewrite F2 by auto. rewrite fld_insert.
        destruct (decide (b = a0)) as [->|Hb0].
        -- rewrite lookup_insert_ne in Hy by congruence.
           unfold fld. rewrite Hy. reflexivity.
        -- rewrite fld_insert. rewrite decide_False by auto. reflexivity.
    + simpl. views. exact Hd.
    + simpl. eapply hole_inv_shift; eauto. lia.
  - injection H as <- <-. auto.
Qed.

Lemma tree_node_remove_child_frame fuel c a st u st' :
  tree_node_remove_child fuel (Some c) st = Ok (u, st') ->
  index_inv (heap st) ->
  fld parent (heap st) c = Some (Some a) ->
  (forall b, b <> a -> fld parent (heap st) b <> Some (Some a) ->
             heap st' !! b = heap st !! b) /\
  (forall b, b <> a -> fld no_i (heap st') b = fld no_i (heap st) b).
Proof.
  unfold tree_node_remove_child. intros H Hinv Hpar.
  step_load H as y Hy.
  pose proof Hpar as Hpar'. rewrite (fld_lookup _ _ _ _ Hy) in Hpar'.
  injection Hpar' as Hpar'. rewrite Hpar' in H.
  apply bindM_Ok in H as (k & st1 & Hfind & H).
  pose proof (remove_child_find_state _ _ _ _ _ _ _ Hfind) as ->.
  step_write H as x l Hx Hl.
  pose proof (fld_lookup outDegree _ _ _ Hx) as Hd.
  pose proof (proj1 Hinv _ _ Hx) as (_ & Hod0 & Hod & Hal & Hmax).
  eapply remove_child_find_spec in Hfind as (_ & Hk0 & Hnot & Hend);
    [|exact Hd|lia|lia].
  assert (Hk : 0 <= k < Z.of_nat (length (children x)))
    by (apply arr_set_Some in Hl; tauto).
  apply bindM_Ok in H as (u1 & st2 & Hshift & H).
  destruct (decide (outDegree x = 0)) as [Hz|Hnz].
  { exfalso.
    eapply (remove_child_shift_empty _ _ _ _ _ (_alloced x));
      [| |exact Hmax| |exact Hshift].
    - simpl. views. rewrite Hd, Hz. reflexivity.
    - simpl. rewrite fld_insert. destruct (decide (a = a)); [|tauto]. simpl.
      rewrite (arr_set_length _ _ _ _ Hl). congruence.
    - lia. }
  assert (Hkd : k <= outDegree x) by (destruct Hend as [[? ?]|[? ?]]; lia).
  eapply remove_child_shift_frame in Hshift as [F1 F2];
    [|simpl; views; exact Hd|lia|lia|simpl; eapply hole_inv_write; eauto].
  simpl in F1, F2.
  step_load H as x2 Hx2. final_store H. split.
  - intros b Hb Hbp. rewrite lookup_insert_ne by congruence.
    rewrite F1; [|exact Hb|views; exact Hbp].
    rewrite lookup_insert_ne by congruence. reflexivity.
  - intros b Hb. rewrite fld_insert. rewrite decide_False by auto.
    rewrite F2 by auto. rewrite fld_insert. rewrite decide_False by auto.
    reflexivity.
Qed.

(** ** Attaching a subtree: effect and totality *)

Lemma reaches_outside_view (hp hp' : gmap addr TreeNode) n t b :
  (forall a, a <> t -> fld parent hp' a = fld parent hp a) ->
  ~ reaches hp n t -> reaches hp' n b -> reaches hp n b.
Proof.
  intros Hsame Hnt. apply reaches_view.
  intros a Ha. apply Hsame. intros ->. tauto.
Qed.

Lemma anc_chain_outside_view (hp hp' : gmap addr TreeNode) n t m :
  (forall a, a <> t -> fld parent hp' a = fld parent hp a) ->
  ~ reaches hp n t -> anc_chain hp n m -> anc_chain hp' n m.
Proof.
  intros Hsame Hnt. apply anc_chain_view.
  intros a Ha. apply Hsame. intros ->. tauto.
Qed.

(** What [append_child] leaves behind when the new child is not one of
    the ancestors of the node it is attached to. *)
Lemma append_child_effect fuel a c0 st u st' x y :
  append_child fuel (Some a) (Some c0) st = Ok (u, st') ->
  heap st !! a = Some x -> heap st !! c0 = Some y ->
  ~ reaches (heap st) (Some a) c0 ->
  heap st' !! c0 = Some (set_i (set_parent y (Some a)) (outDegree x)) /\
  (forall b, b <> c0 -> ~ reaches (heap st) (Some a) b ->
             heap st' !! b = heap st !! b) /\
  (forall b, b <> c0 -> fld parent (heap st') b = fld parent (heap st) b) /\
  fld outDegree (heap st') a = Some (uint (outDegree x + 1)) /\
  cell (heap st') a (outDegree x) = Some (Some c0).
Proof.
  unfold append_child. intros H Hx Hy Hnr.
  assert (Hne : a <> c0) by (intros ->; apply Hnr; constructor).
  step_load H as x0 Hx0. same_load Hx Hx0.
  step_write H as x0 l Hx0 Hl. same_load Hx Hx0.
  step_load H as y1 Hy1. rewrite lookup_insert_ne in Hy1 by auto.
  same_load Hy Hy1.
  step_store H.
  step_load H as x1 Hx1.
  rewrite lookup_insert_ne, lookup_insert_eq in Hx1 by auto.
  injection Hx1 as <-.
  step_load H as y2 Hy2. rewrite lookup_insert_eq in Hy2. injection Hy2 as <-.
  step_store H.
  step_load H as x2 Hx2.
  rewrite !lookup_insert_ne, lookup_insert_eq in Hx2 by auto.
  injection Hx2 as <-. step_store H. simpl in H.
  rewrite insert_insert_eq in H.
  pose proof (tree_update_height_loop_outside _ _ _ _ _ _ H) as Hout.
  pose proof (tree_update_height_loop_frame _ _ _ _ _ _ H) as [_ Hfr].
  simpl in Hout, Hfr.
  assert (Hpar : forall b, b <> c0 ->
            fld parent (<[a:=set_outDegree (set_children x l)
                               (uint (outDegree x + 1))]>
                          (<[c0:=set_i (set_parent y (Some a)) (outDegree x)]>
                             (<[a:=set_children x l]> (heap st)))) b =
            fld parent (heap st) b).
  { intros b Hb. rewrite !fld_insert. rewrite (decide_False (P := b = c0)) by auto.
    destruct (decide (b = a)) as [->|]; [|reflexivity].
    simpl. rewrite (fld_lookup _ _ _ _ Hx). reflexivity. }
  assert (Hreach : forall b,
            reaches (<[a:=set_outDegree (set_children x l)
                            (uint (outDegree x + 1))]>
                       (<[c0:=set_i (set_parent y (Some a)) (outDegree x)]>
                          (<[a:=set_children x l]> (heap st)))) (Some a) b ->
            reaches (heap st) (Some a) b).
  { intros b. eapply reaches_outside_view; [exact Hpar|exact Hnr]. }
  split.
  { rewrite Hout by (intros Hr; apply Hnr, Hreach, Hr).
    rewrite lookup_insert_ne, lookup_insert_eq by auto. reflexivity. }
  split.
  { intros b Hb Hnb. rewrite Hout by (intros Hr; apply Hnb, Hreach, Hr).
    assert (a <> b) by (intros ->; apply Hnb; constructor).
    rewrite !lookup_insert_ne by auto. reflexivity. }
  split.
  { intros b Hb. rewrite (fld_no_h parent _ _ _ (fun _ => eq_refl) (Hfr b)).
    apply Hpar; auto. }
  split.
  { rewrite (fld_no_h outDegree _ _ _ (fun _ => eq_refl) (Hfr a)).
    rewrite fld_insert. decide_eq. reflexivity. }
  { rewrite (cell_no_h _ _ _ _ (Hfr a)).
    rewrite cell_insert. decide_eq. simpl.
    exact (arr_get_set_eq _ _ _ _ Hl). }
Qed.

Lemma append_child_total fuel a c0 x y m hp pl :
  index_inv hp ->
  hp !! a = Some x -> outDegree x < _alloced x ->
  hp !! c0 = Some y -> parent y = None ->
  anc_chain hp (Some a) m -> ~ reaches hp (Some a) c0 ->
  (m < fuel)%nat -> UINT_MAX + 1 < Z.of_nat fuel ->
  exists hp', append_child fuel (Some a) (Some c0) (mkState hp pl) =
              Ok (tt, mkState hp' pl).
Proof.
  intros Hinv Hx Hroom Hy Hpar Hc Hnr Hf1 Hf2.
  assert (Hne : a <> c0) by (intros ->; apply Hnr; constructor).
  pose proof (proj1 Hinv _ _ Hx) as (_ & Hod0 & Hod & Hal & Hmax).
  unfold append_child.
  rewrite (bind_load _ _ _ _ _ Hx).
  destruct (arr_set_in_range (children x) (outDegree x) (Some c0)) as [l Hl];
    [lia|].
  rewrite (bind_write _ _ _ _ _ _ _ _ Hx Hl).
  assert (Hy1 : <[a:=set_children x l]> hp !! c0 = Some y)
    by (rewrite lookup_insert_ne by auto; exact Hy).
  rewrite (bind_load _ _ _ _ _ Hy1). rewrite (bind_store _ _ _ _ _ _ Hy1).
  assert (Hx1 : <[c0:=set_parent y (Some a)]> (<[a:=set_children x l]> hp) !! a
                = Some (set_children x l))
    by (rewrite lookup_insert_ne, lookup_insert_eq by auto; reflexivity).
  rewrite (bind_load _ _ _ _ _ Hx1).
  assert (Hy2 : <[c0:=set_parent y (Some a)]> (<[a:=set_children x l]> hp) !! c0
                = Some (set_parent y (Some a))) by apply lookup_insert_eq.
  rewrite (bind_load _ _ _ _ _ Hy2). rewrite (bind_store _ _ _ _ _ _ Hy2).
  assert (Hx2 : <[c0:=set_i (set_parent y (Some a))
                        (outDegree (set_children x l))]>
                  (<[c0:=set_parent y (Some a)]> (<[a:=set_children x l]> hp))
                !! a = Some (set_children x l))
    by (rewrite !lookup_insert_ne, lookup_insert_eq by auto; reflexivity).
  rewrite (bind_load _ _ _ _ _ Hx2). rewrite (bind_store _ _ _ _ _ _ Hx2).
  destruct (append_stores_inv hp a c0 x l y (set_children x l)
              (set_parent y (Some a)) (set_children x l))
    as (Hinv4 & _); auto.
  { rewrite (fld_lookup _ _ _ _ Hy), Hpar. reflexivity. }
  apply tree_update_height_loop_total with (m := m); auto.
  eapply anc_chain_outside_view; [|exact Hnr|exact Hc].
  intros b Hb. rewrite !fld_insert. rewrite !(decide_False (P := b = c0)) by auto.
  destruct (decide (b = a)) as [->|]; [|reflexivity].
  simpl. rewrite (fld_lookup _ _ _ _ Hx). reflexivity.
Qed.

(** ** Detaching a subtree: effect and totality *)

Lemma tree_remove_effect fuel c a st r st' y :
  tree_remove fuel (Some c) st = Ok (r, st') ->
  index_inv (heap st) ->
  heap st !! c = Some y -> parent y = Some a ->
  ~ reaches (heap st) (Some a) c ->
  heap st' !! c = Some (set_i (set_parent y None) 0) /\
  (forall b, b <> c -> fld parent (heap st) b <> Some (Some a) ->
             ~ reaches (heap st) (Some a) b ->
             heap st' !! b = heap st !! b).
Proof.
  unfold tree_remove. intros H Hinv Hy Hpar Hnr.
  assert (Hca : c <> a) by (intros ->; apply Hnr; constructor).
  step_load H as y0 Hy0. same_load Hy Hy0. rewrite Hpar in H.
  apply bindM_Ok in H as (u1 & st1 & Hrm & H).
  assert (Hpc : fld parent (heap st) c = Some (Some a))
    by (rewrite (fld_lookup _ _ _ _ Hy), Hpar; reflexivity).
  pose proof (tree_node_remove_child_spec _ _ _ _ _ _ Hrm Hinv Hpc)
    as (Hinv1 & _ & Epar & _).
  pose proof (tree_node_remove_child_frame _ _ _ _ _ _ Hrm Hinv Hpc)
    as [F1 F2].
  step_load H as x1 Hx1.
  assert (Hx1p : parent x1 = Some a).
  { pose proof (fld_lookup parent _ _ _ Hx1) as E. rewrite Epar, Hpc in E.
    injection E as E. auto. }
  rewrite Hx1p in H.
  apply bindM_Ok in H as (u2 & st2 & Hup & H).
  pose proof (tree_update_height_loop_outside _ _ _ _ _ _ Hup) as Hout.
  assert (Hreach : forall b, reaches (heap st1) (Some a) b ->
                             reaches (heap st) (Some a) b).
  { intros b. apply reaches_view. intros b' _. apply Epar. }
  step_load H as x2 Hx2.
  rewrite Hout in Hx2 by (intros Hr; apply Hnr, Hreach, Hr).
  same_load Hx1 Hx2.
  step_store H. step_load H as x3 Hx3.
  rewrite lookup_insert_eq in Hx3. injection Hx3 as <-.
  step_store H. injection H as _ <-. simpl.
  rewrite insert_insert_eq. split.
  - rewrite lookup_insert_eq. f_equal.
    specialize (F2 c Hca). unfold fld in F2. rewrite Hx1, Hy in F2.
    assert (E : no_i x1 = no_i y) by (apply (inj Some); exact F2).
    change (set_i (set_parent (no_i x1) None) 0 =
            set_i (set_parent (no_i y) None) 0).
    rewrite E. reflexivity.
  - intros b Hb Hbp Hnb.
    assert (Hba : b <> a) by (intros ->; apply Hnb; constructor).
    rewrite lookup_insert_ne by auto.
    rewrite Hout by (intros Hr; apply Hnb, Hreach, Hr).
    apply F1; auto.
Qed.

Lemma tree_remove_total fuel c a d k m hp pl :
  index_inv hp ->
  fld parent hp c = Some (Some a) ->
  fld outDegree hp a = Some d -> 0 <= k < d ->
  cell hp a k = Some (Some c) ->
  anc_chain hp (Some a) m ->
  d < Z.of_nat fuel -> (m < fuel)%nat -> UINT_MAX + 1 < Z.of_nat fuel ->
  exists st', tree_remove fuel (Some c) (mkState hp pl) = Ok (Some c, st').
Proof.
  intros Hinv Hpc Hd Hk Hc Hch Hf1 Hf2 Hf3. unfold tree_remove.
  destruct (fld_Some _ _ _ _ Hpc) as (y & Hy & Hyp).
  rewrite (bind_load _ _ _ _ _ Hy), Hyp.
  destruct (tree_node_remove_child_total fuel c a d k (mkState hp pl))
    as [[hp1 pl1] Hrm]; auto.
  rewrite (bind_ok _ _ _ _ _ Hrm).
  pose proof (tree_node_remove_child_spec _ _ _ _ _ _ Hrm Hinv Hpc)
    as (Hinv1 & _ & Epar & _).
  simpl in Hinv1, Epar.
  assert (Hpc1 : fld parent hp1 c = Some (Some a)) by (rewrite Epar; exact Hpc).
  destruct (fld_Some _ _ _ _ Hpc1) as (x1 & Hx1 & Hx1p).
  rewrite (bind_load _ _ _ _ _ Hx1), Hx1p.
  destruct (tree_update_height_loop_total m (Some a) hp1 pl1 fuel fuel)
    as [hp2 Hup]; auto.
  { eapply anc_chain_view; [|exact Hch]. intros b _. apply Epar. }
  unfold tree_update_height. rewrite (bind_ok _ _ _ _ _ Hup).
  pose proof (tree_update_height_loop_frame _ _ _ _ _ _ Hup) as [_ Hfr].
  simpl in Hfr.
  assert (Hlive : is_Some (hp2 !! c)).
  { specialize (Hfr c). unfold fld in Hfr. rewrite Hx1 in Hfr.
    destruct (hp2 !! c); [eauto|discriminate]. }
  destruct Hlive as [x2 Hx2].
  rewrite (bind_load _ _ _ _ _ Hx2). rewrite (bind_store _ _ _ _ _ _ Hx2).
  erewrite bind_load; [|apply lookup_insert_eq].
  erewrite bind_store; [|apply lookup_insert_eq].
  unfold retM. eauto.
Qed.

(** ** Attach followed by detach *)

Lemma tree_remove_root fuel t y hp pl :
  hp !! t = Some y -> parent y = None ->
  tree_remove fuel (Some t) (mkState hp pl) = Ok (Some t, mkState hp pl).
Proof.
  intros Hy Hp. unfold tree_remove. rewrite (bind_load _ _ _ _ _ Hy), Hp.
  reflexivity.
Qed.

Lemma attach_detach_restores (st : state) p t x y f :
  index_inv (heap st) ->
  heap st !! p = Some x -> outDegree x < UINT_MAX ->
  heap st !! t = Some y -> parent y = None ->
  tree_is_descendant_of f (Some p) (Some t) (heap st) = Ok false ->
  forall fuel, (f < fuel)%nat -> UINT_MAX + 1 < Z.of_nat fuel ->
  exists r st1 st2,
    tree_add_subtree fuel (Some p) (Some t) st = Ok (r, st1) /\
    ((r = None /\ fld parent (heap st1) t = Some (Some p) /\
      cell (heap st1) p (outDegree x) = Some (Some t)) \/
     (r = Some t /\ heap st1 = heap st)) /\
    tree_remove fuel (Some t) st1 = Ok (Some t, st2) /\
    heap st2 !! t = Some y /\
    (forall b, b <> t -> reaches (heap st) (Some b) t ->
               heap st2 !! b = heap st !! b).
Proof.
  destruct st as [hp pl]. simpl.
  intros Hinv Hx Hsmall Hy Hpar Hdesc fuel Hf1 Hf2.
  apply tree_is_descendant_of_false in Hdesc as [Hch Hnr].
  assert (Hpt : p <> t) by (intros ->; apply Hnr; constructor).
  pose proof (proj1 Hinv _ _ Hx) as (_ & Hod0 & Hod & Hal & Hmax).
  pose proof (proj1 Hinv _ _ Hy) as (Hroot & _).
  unfold tree_add_subtree.
  rewrite (bind_load _ _ _ _ _ Hy), Hpar.
  rewrite (bind_ok _ _ _ _ _ (tree_remove_root fuel t y hp pl Hy Hpar)).
  rewrite (bind_load _ _ _ _ _ Hx).
  destruct (tree_children_grow_min_size_total p (uint (outDegree x + 1)) x hp pl Hx)
    as (ok & hpg & plg & Hg).
  rewrite (bind_ok _ _ _ _ _ Hg).
  pose proof (tree_children_grow_min_size_inv _ _ _ _ _ Hg (uint_range _) Hinv)
    as Hinvg.
  pose proof (tree_children_grow_min_size_frame _ _ _ _ _ Hg)
    as (Epar & _ & _ & Hfail).
  pose proof (tree_children_grow_min_size_effect _ _ _ _ _ _ Hg Hx Hal
                (proj1 (uint_range _)))
    as (Eoth & _ & xg & Hxg & _ & _ & _ & _ & Hxgod & Hxgal & _).
  simpl in Hinvg, Epar, Hfail, Eoth, Hxg.
  destruct ok.
  2:{ (* the array could not grow: nothing was attached *)
      rewrite Hfail in * by reflexivity.
      exists (Some t), (mkState hp plg), (mkState hp plg).
      split; [reflexivity|]. split; [right; auto|].
      split; [eapply tree_remove_root; eauto|].
      simpl. auto. }
  rewrite uint_small in Hxgal by lia. specialize (Hxgal eq_refl).
  assert (Hyg : hpg !! t = Some y) by (rewrite Eoth by auto; exact Hy).
  assert (Hnrg : ~ reaches hpg (Some p) t).
  { intros Hr. apply Hnr. eapply reaches_view; [|exact Hr].
    intros b _. apply Epar. }
  assert (Hchg : anc_chain hpg (Some p) f).
  { eapply anc_chain_view; [|exact Hch]. intros b _. apply Epar. }
  destruct (append_child_total fuel p t xg y f hpg plg) as [hp1 Happ];
    auto; try lia.
  rewrite (bind_ok _ _ _ _ _ Happ).
  pose proof (append_child_effect _ _ _ _ _ _ _ _ Happ Hxg Hyg Hnrg)
    as (Ht1 & Eout1 & Epar1 & Hod1 & Hcell1).
  assert (Hinv1 : index_inv hp1).
  { eapply (append_child_inv _ _ _ _ _ _ Happ); [exact Hinvg|].
    rewrite (fld_lookup _ _ _ _ Hyg), Hpar. reflexivity. }
  simpl in Ht1, Eout1, Epar1, Hod1, Hcell1.
  rewrite Hxgod in *. rewrite uint_small in Hod1 by lia.
  assert (Epar1' : forall b, b <> t -> fld parent hp1 b = fld parent hp b).
  { intros b Hb. rewrite Epar1 by auto. apply Epar. }
  assert (Hnr1 : ~ reaches hp1 (Some p) t).
  { intros Hr. apply Hnr. eapply reaches_outside_view; eauto. }
  destruct (tree_remove_total fuel t p (outDegree x + 1) (outDegree x) f hp1 plg)
    as [st2 Hrm]; auto; try lia.
  { rewrite (fld_lookup _ _ _ _ Ht1). reflexivity. }
  { eapply anc_chain_outside_view; [exact Epar1'|exact Hnr|exact Hch]. }
  exists None, (mkState hp1 plg), st2.
  split; [reflexivity|].
  split; [left; split; [reflexivity|]; split;
            [simpl; rewrite (fld_lookup _ _ _ _ Ht1); reflexivity|exact Hcell1]|].
  split; [exact Hrm|].
  pose proof (tree_remove_effect _ _ _ _ _ _ _ Hrm Hinv1 Ht1 eq_refl Hnr1)
    as [Ht2 Eout2].
  simpl in Eout2. split.
  - rewrite Ht2. f_equal. destruct y as [yp yc yo yd ya yi yh]. simpl in *.
    rewrite Hpar, (Hroot Hpar). reflexivity.
  - intros b Hbt Hbr.
    assert (Hbp : b <> p) by (intros ->; tauto).
    assert (Hnb : ~ reaches hp (Some p) b).
    { intros Hr. apply Hnr. eapply reaches_trans; eauto. }
    assert (Hbpar : fld parent hp b <> Some (Some p)).
    { intros E. destruct (reaches_parent _ _ _ Hbr Hbt) as (q & Hq & Hqr).
      rewrite E in Hq. injection Hq as <-. tauto. }
    rewrite Eout2; auto.
    + rewrite Eout1; auto.
      intros Hr. apply Hnb. eapply reaches_view; [|exact Hr].
      intros c _. apply Epar.
    + rewrite Epar1' by auto. exact Hbpar.
    + intros Hr. apply Hnb. eapply reaches_outside_view; eauto.
Qed.

(** A node that is its own parent keeps [tree_update_height] climbing for
    ever. *)
Lemma tree_update_height_loop_cycle fuel inner a st r :
  fld parent (heap st) a = Some (Some a) ->
  tree_update_height_loop fuel inner (Some a) st <> Ok r.
Proof.
  revert st. induction fuel as [|fuel IH]; intros st Hp H; [discriminate|].
  simpl in H.
  apply bindM_Ok in H as (hc & st1 & H1 & H).
  apply max_child_h_state in H1 as ->.
  step_load H as x Hx. step_store H. step_load H as x' Hx'.
  rewrite lookup_insert_eq in Hx'. injection Hx' as <-. simpl in H.
  rewrite (fld_lookup _ _ _ _ Hx) in Hp. injection Hp as Hp. rewrite Hp in H.
  eapply IH; [|exact H]. simpl. views. rewrite (fld_lookup _ _ _ _ Hx), Hp.
  reflexivity.
Qed.

Lemma tree_add_subtree_self fuel t st r :
  fld parent (heap st) t = Some None -> plan st = [] ->
  tree_add_subtree fuel (Some t) (Some t) st <> Ok r.
Proof.
  intros Hp Hplan H. destruct r as [r st']. unfold tree_add_subtree in H.
  step_load H as y Hy.
  pose proof Hp as Hp'. rewrite (fld_lookup _ _ _ _ Hy) in Hp'.
  injection Hp' as Hp'. rewrite Hp' in H.
  apply bindM_Ok in H as (r1 & st1 & Hrm & H).
  unfold tree_remove in Hrm. step_load Hrm as y0 Hy0. same_load Hy Hy0.
  rewrite Hp' in Hrm. injection Hrm as <- <-.
  step_load H as x Hx. same_load Hy Hx.
  apply bindM_Ok in H as (ok & st2 & Hg & H).
  assert (Hok : ok = true).
  { unfold tree_children_grow_min_size in Hg. step_load Hg as x0 Hx0.
    destruct (_alloced x0 >=? _); [injection Hg as <- <-; reflexivity|].
    apply bindM_Ok in Hg as (ok' & st3 & Hal & Hg).
    unfold alloc_ok in Hal. rewrite Hplan in Hal. injection Hal as <- <-.
    step_store Hg. injection Hg as <- <-. reflexivity. }
  subst ok.
  apply bindM_Ok in H as (u & st3 & Happ & H). clear H.
  unfold append_child in Happ.
  step_load Happ as x Hx.
  step_write Happ as x0 l Hx0 Hl.
  step_load Happ as y1 Hy1. step_store Happ.
  step_load Happ as x1 Hx1.
  step_load Happ as y2 Hy2. step_store Happ.
  step_load Happ as x2 Hx2. step_store Happ.
  eapply tree_update_height_loop_cycle; [|exact Happ].
  simpl. views. decide_eq. reflexivity.
Qed.

(** ** The round trip in reachable states *)

(** C7 (counterexample).  The claim quantifies over every node [p].  Take
    for [p] the rootless node [t] itself (node 3 of [ex_two_trees]):
    [tree_add_subtree] links the node under itself and the height update
    then follows a parent chain that never reaches [NULL], so the attach
    never returns, whatever the fuel. *)
Lemma attach_under_itself_never_returns :
  fld parent (heap ex_two_trees) 3%positive = Some None /\
  forall fuel r,
    tree_add_subtree fuel (Some 3%positive) (Some 3%positive) ex_two_trees
    <> Ok r.
Proof.
  split; [vm_compute; reflexivity|].
  intros fuel r. apply tree_add_subtree_self; vm_compute; reflexivity.
Qed.

(** The round trip evaluated: tree 1 (with child 2) is hung under root 3
    and taken off again; nodes 1 and 2 read as before. *)
Example attach_detach_ex_two_trees :
  exists st2,
    (do _ <- tree_add_subtree 8 (Some 3%positive) (Some 1%positive);
     tree_remove 8 (Some 1%positive)) ex_two_trees
    = Ok (Some 1%positive, st2) /\
    heap st2 !! 1%positive = heap ex_two_trees !! 1%positive /\
    heap st2 !! 2%positive = heap ex_two_trees !! 2%positive.
Proof. eexists. vm_compute. auto. Qed.

(** C7 (amended).  In a state built by the public operations, let [t] be a
    rootless node and [p] a node with fewer than [UINT_MAX] children whose
    parent chain ends at a root without meeting [t], that is,
    [tree_is_descendant_of p t] answers false: [p] is neither [t] nor one
    of its descendants, and no parent pointer on the way up from [p] names
    a released node.  With enough fuel,
    [tree_add_subtree p t] returns (having made [t] the last child of [p],
    or having changed nothing when the child array cannot grow), the
    following [tree_remove t] returns [t], and afterwards [t] and every
    descendant of [t] hold exactly the record they held before the attach:
    parent, children, out-degree, payload, index and height. *)
Theorem attach_detach_round_trip :
  forall (fuel0 : nat) (os : list op) (pl : list bool) (st : state)
         (p t : addr) (x y : TreeNode) (f : nat),
    Forall op_unsigned os ->
    run_ops fuel0 os (mkState ∅ pl) = Ok (tt, st) ->
    heap st !! p = Some x -> outDegree x < UINT_MAX ->
    heap st !! t = Some y -> parent y = None ->
    tree_is_descendant_of f (Some p) (Some t) (heap st) = Ok false ->
    exists F : nat, forall fuel, (F <= fuel)%nat ->
    exists r st1 st2,
      tree_add_subtree fuel (Some p) (Some t) st = Ok (r, st1) /\
      ((r = None /\ fld parent (heap st1) t = Some (Some p) /\
        cell (heap st1) p (outDegree x) = Some (Some t)) \/
       (r = Some t /\ heap st1 = heap st)) /\
      tree_remove fuel (Some t) st1 = Ok (Some t, st2) /\
      heap st2 !! t = Some y /\
      (forall b g,
          tree_is_descendant_of g (Some b) (Some t) (heap st) = Ok true ->
          heap st2 !! b = heap st !! b).
Proof.
  intros fuel0 os pl st p t x y f Hu Hrun Hx Hd Hy Hroot Hdesc.
  assert (Hinv : index_inv (heap st)).
  { eapply run_ops_inv; [exact Hrun|exact Hu|]. simpl. apply index_inv_empty. }
  exists (Nat.max (S f) (Z.to_nat (UINT_MAX + 2))). intros fuel Hfuel.
  destruct (attach_detach_restores st p t x y f Hinv Hx Hd Hy Hroot Hdesc fuel)
    as (r & st1 & st2 & Hadd & Heff & Hrm & Ht & Hsub).
  { lia. }
  { unfold UINT_MAX in *. lia. }
  exists r, st1, st2. split; [exact Hadd|]. split; [exact Heff|].
  split; [exact Hrm|]. split; [exact Ht|].
  intros b g Hb. apply tree_is_descendant_of_true in Hb.
  destruct (decide (b = t)) as [->|Hne]; [congruence|]. auto.
Qed.

Lemma attach_detach_round_trip_witness :
  exists F : nat, forall fuel, (F <= fuel)%nat ->
  exists r st1 st2,
    tree_add_subtree fuel (Some 3%positive) (Some 1%positive) ex_two_trees
      = Ok (r, st1) /\
    ((r = None /\ fld parent (heap st1) 1%positive = Some (Some 3%positive) /\
      cell (heap st1) 3%positive 0 = Some (Some 1%positive)) \/
     (r = Some 1%positive /\ heap st1 = heap ex_two_trees)) /\
    tree_remove fuel (Some 1%positive) st1 = Ok (Some 1%positive, st2) /\
    heap st2 !! 1%positive
      = Some (mkTreeNode None [Some 2%positive] 1 100 1 0 0) /\
    (forall b g,
        tree_is_descendant_of g (Some b) (Some 1%positive) (heap ex_two_trees)
          = Ok true ->
        heap st2 !! b = heap ex_two_trees !! b).
Proof.
  apply (attach_detach_round_trip 8 ex_two_trees_ops [] ex_two_trees
           3%positive 1%positive
           (mkTreeNode None [] 0 200 0 0 0)
           (mkTreeNode None [Some 2%positive] 1 100 1 0 0) 2%nat).
  - repeat constructor.
  - vm_compute. reflexivity.
  - vm_compute. reflexivity.
  - vm_compute. reflexivity.
  - vm_compute. reflexivity.
  - reflexivity.
  - vm_compute. reflexivity.
Defined.

(** ** Why the parent chain has to end at a root *)

(** When the parent pointer of a node names a released node, the height
    update reads released memory. *)
Lemma tree_update_height_loop_dangling fuel inner a q st r :
  fld parent (heap st) a = Some (Some q) -> heap st !! q = None ->
  tree_update_height_loop fuel inner (Some a) st <> Ok r.
Proof.
  intros Hp Hq H. destruct fuel as [|fuel]; [discriminate|].
  simpl in H.
  apply bindM_Ok in H as (hc & st1 & H1 & H).
  apply max_child_h_state in H1 as ->.
  step_load H as x Hx. step_store H. step_load H as x' Hx'.
  rewrite lookup_insert_eq in Hx'. injection Hx' as <-. simpl in H.
  rewrite (fld_lookup _ _ _ _ Hx) in Hp. injection Hp as Hp. rewrite Hp in H.
  assert (Hqa : q <> a) by (intros ->; congruence).
  destruct fuel as [|fuel]; [discriminate|]. simpl in H.
  apply bindM_Ok in H as (hc' & st1 & H1 & H). clear H.
  destruct inner as [|inner]; [discriminate|]. simpl in H1.
  apply bindM_Ok in H1 as (z & st2 & H1 & _).
  apply load_Ok in H1 as (_ & b & [= <-] & Hb). simpl in Hb.
  rewrite lookup_insert_ne in Hb by auto. congruence.
Qed.

(** Attaching below a node whose parent was released never returns,
    although the node is live and outside the subtree. *)
Lemma tree_add_subtree_below_released fuel n t q st r :
  fld parent (heap st) t = Some None -> n <> t ->
  fld parent (heap st) n = Some (Some q) -> heap st !! q = None ->
  plan st = [] ->
  tree_add_subtree fuel (Some n) (Some t) st <> Ok r.
Proof.
  intros Hp Hnt Hpn Hq Hplan H. destruct r as [r st']. unfold tree_add_subtree in H.
  step_load H as y Hy.
  pose proof Hp as Hp'. rewrite (fld_lookup _ _ _ _ Hy) in Hp'.
  injection Hp' as Hp'. rewrite Hp' in H.
  apply bindM_Ok in H as (r1 & st1 & Hrm & H).
  unfold tree_remove in Hrm. step_load Hrm as y0 Hy0. same_load Hy Hy0.
  rewrite Hp' in Hrm. injection Hrm as <- <-.
  step_load H as x Hx.
  apply bindM_Ok in H as (ok & st2 & Hg & H).
  assert (Hok : ok = true).
  { unfold tree_children_grow_min_size in Hg. step_load Hg as x0 Hx0.
    destruct (_alloced x0 >=? _); [injection Hg as <- <-; reflexivity|].
    apply bindM_Ok in Hg as (ok' & st3 & Hal & Hg).
    unfold alloc_ok in Hal. rewrite Hplan in Hal. injection Hal as <- <-.
    step_store Hg. injection Hg as <- <-. reflexivity. }
  subst ok.
  pose proof (tree_children_grow_min_size_frame _ _ _ _ _ Hg) as (Epar & _).
  assert (Hpn2 : fld parent (heap st2) n = Some (Some q))
    by (rewrite Epar; exact Hpn).
  assert (Hq2 : heap st2 !! q = None).
  { specialize (Epar q). unfold fld in Epar. rewrite Hq in Epar.
    destruct (heap st2 !! q); [discriminate|reflexivity]. }
  assert (Hqn : q <> n) by (intros ->; rewrite (fld_lookup _ _ _ _ Hx) in Hpn;
                            congruence).
  assert (Hqt : q <> t) by (intros ->; congruence).
  apply bindM_Ok in H as (u & st3 & Happ & H). clear H.
  unfold append_child in Happ.
  step_load Happ as x1 Hx1.
  step_write Happ as x0 l Hx0 Hl.
  step_load Happ as y1 Hy1. step_store Happ.
  step_load Happ as x2 Hx2.
  step_load Happ as y2 Hy2. step_store Happ.
  step_load Happ as x3 Hx3. step_store Happ.
  eapply tree_update_height_loop_dangling; [| |exact Happ].
  - simpl. rewrite fld_insert, decide_True by reflexivity. simpl.
    rewrite !lookup_insert_ne, lookup_insert_eq in Hx3 by auto.
    injection Hx3 as <-. simpl.
    rewrite (fld_lookup _ _ _ _ Hx0) in Hpn2. exact Hpn2.
  - simpl. rewrite !lookup_insert_ne by auto. exact Hq2.
Qed.

(** In [ex_orphan], a state built by the operations, node 3 is live, the
    rootless node 5 is neither node 3 nor above it, and still
    [tree_add_subtree 3 5] returns for no fuel: the parent pointer of
    node 3 names the released node 2, and no call of
    [tree_is_descendant_of] on the two nodes answers. *)
Example attach_below_released_parent_never_returns :
  run_ops 8 [OpAlloc 100; OpAddChild (Some 1%positive) 10;
             OpAddChild (Some 2%positive) 20; OpAddChild (Some 3%positive) 30;
             OpDelete (Some 2%positive); OpAlloc 7] st_empty
    = Ok (tt, ex_orphan) /\
  fld parent (heap ex_orphan) 3%positive = Some (Some 2%positive) /\
  heap ex_orphan !! 2%positive = None /\
  fld parent (heap ex_orphan) 5%positive = Some None /\
  ~ reaches (heap ex_orphan) (Some 3%positive) 5%positive /\
  (forall fuel r,
     tree_add_subtree fuel (Some 3%positive) (Some 5%positive) ex_orphan
     <> Ok r) /\
  (forall f, tree_is_descendant_of f (Some 3%positive) (Some 5%positive)
               (heap ex_orphan) <> Ok false).
Proof.
  split; [vm_compute; reflexivity|].
  split; [vm_compute; reflexivity|].
  split; [vm_compute; reflexivity|].
  split; [vm_compute; reflexivity|].
  split.
  { intros H. inversion H as [|a q b Hq Hr]; subst.
    vm_compute in Hq. injection Hq as <-.
    inversion Hr as [|a q b Hq' Hr']; subst. vm_compute in Hq'. discriminate. }
  split.
  { intros fuel r.
    apply (tree_add_subtree_below_released fuel 3%positive 5%positive
             2%positive); try (vm_compute; reflexivity). discriminate. }
  intros f H. apply tree_is_descendant_of_false in H as [Hc _].
  inversion Hc as [|a q m Hq Hc']; subst.
  vm_compute in Hq. injection Hq as <-.
  inversion Hc' as [|a q m' Hq' _]; subst. vm_compute in Hq'. discriminate.
Qed.

(** ** The leaves-only traversal *)

Lemma rose_ind' (P : rose -> Prop) :
  (forall a kids, Forall P kids -> P (Node a kids)) -> forall T, P T.
Proof.
  intros H. fix IH 1. intros [a kids]. apply H.
  induction kids as [|k ks IHks]; constructor; [apply IH|exact IHks].
Qed.

Lemma loadR_Some (hp : gmap addr TreeNode) a x :
  hp !! a = Some x -> loadR (Some a) hp = Ok x.
Proof. intros H. unfold loadR. rewrite H. reflexivity. Qed.

Lemma bindR_Ok {A B} (m : R A) (k : A -> R B) hp a :
  m hp = Ok a -> bindR m k hp = k a hp.
Proof. intros H. unfold bindR. rewrite H. reflexivity. Qed.

Lemma read_childR_cell (hp : gmap addr TreeNode) a j c :
  cell hp a j = Some c -> read_childR (Some a) j hp = Ok c.
Proof.
  intros H. apply cell_Some in H as (x & Hx & Hc).
  unfold read_childR. rewrite (bindR_Ok _ _ _ _ (loadR_Some _ _ _ Hx)).
  rewrite Hc. reflexivity.
Qed.

Lemma size_pos T : (1 <= size T)%nat.
Proof. destruct T. simpl. lia. Qed.

Lemma leaves_first T : exists l, leaves T = first_leaf T :: l.
Proof.
  induction T as [a kids IH] using rose_ind'.
  destruct kids as [|k ks]; [exists []; reflexivity|].
  apply Forall_cons in IH as [[l Hl] _].
  exists (l ++ concat (map leaves ks)).
  change (leaves (Node a (k :: ks))) with (leaves k ++ concat (map leaves ks)).
  rewrite Hl. reflexivity.
Qed.

(** The descent to the leftmost leaf. *)
Lemma descend_first_spec (hp : gmap addr TreeNode) T :
  forall f, is_tree hp T -> (size T <= f)%nat ->
            descend_first f (Some (root T)) hp = Ok (Some (first_leaf T)).
Proof.
  induction T as [a kids IH] using rose_ind'. intros f (Hd & Hn & Hk) Hf.
  destruct f as [|f]; [simpl in Hf; lia|].
  apply fld_Some in Hd as (x & Hx & Hd).
  simpl descend_first. simpl root.
  rewrite (bindR_Ok _ _ _ _ (loadR_Some _ _ _ Hx)).
  destruct kids as [|k ks].
  - simpl in Hd. rewrite Hd. reflexivity.
  - replace (outDegree x >? 0) with true
      by (symmetry; apply Z.gtb_lt; rewrite Hd; simpl length; lia).
    destruct Hk as (Hc & _ & _ & Hkt & _).
    rewrite (bindR_Ok _ _ _ _ (read_childR_cell _ _ _ _ Hc)).
    apply Forall_cons in IH as [IHk _].
    simpl first_leaf. apply IHk; [exact Hkt|]. simpl in Hf. lia.
Qed.

Lemma leaves_first_loop_spec (hp : gmap addr TreeNode) T :
  forall f cc, is_tree hp T -> (size T < f)%nat ->
    leaves_first_loop f cc (Some (root T)) hp = Ok (Some (first_leaf T)).
Proof.
  induction T as [a kids IH] using rose_ind'. intros f cc (Hd & Hn & Hk) Hf.
  destruct f as [|f]; [lia|].
  apply fld_Some in Hd as (x & Hx & Hd).
  simpl leaves_first_loop. simpl root.
  rewrite (bindR_Ok _ _ _ _ (loadR_Some _ _ _ Hx)).
  destruct kids as [|k ks].
  - simpl in Hd. rewrite Hd. simpl.
    destruct f as [|f]; [simpl in Hf; lia|]. reflexivity.
  - replace (outDegree x >? 0) with true
      by (symmetry; apply Z.gtb_lt; rewrite Hd; simpl length; lia).
    destruct Hk as (Hc & _ & _ & Hkt & _).
    rewrite (bindR_Ok _ _ _ _ (read_childR_cell _ _ _ _ Hc)).
    apply Forall_cons in IH as [IHk _].
    simpl first_leaf. apply IHk; [exact Hkt|]. simpl in Hf. lia.
Qed.

(** One turn of the climb. *)
Lemma leaves_next_slot_root fc fd r (hp : gmap addr TreeNode) :
  leaves_next_slot (S fc) fd (Some r) (Some r) hp = Ok None.
Proof.
  unfold leaves_next_slot. simpl leaves_next_climb.
  destruct (decide (Some r = Some r)) as [_|Hne]; [|congruence].
  unfold bindR, retR.
  destruct (decide (Some r = Some r)) as [_|Hne]; [|congruence]. reflexivity.
Qed.

Lemma leaves_next_climb_up fc r c q j n (hp : gmap addr TreeNode) :
  c <> r ->
  fld parent hp c = Some (Some q) -> fld i hp c = Some j ->
  fld outDegree hp q = Some n -> 1 <= n <= UINT_MAX -> j = n - 1 ->
  leaves_next_climb (S fc) (Some r) (Some c) hp
  = leaves_next_climb fc (Some r) (Some q) hp.
Proof.
  intros Hne Hp Hi Hd Hn Hj.
  apply fld_Some in Hp as (y & Hy & Hp).
  rewrite (fld_lookup _ _ _ _ Hy) in Hi. injection Hi as Hi.
  apply fld_Some in Hd as (x & Hx & Hd).
  simpl leaves_next_climb.
  destruct (decide (Some c = Some r)) as [E|_]; [congruence|].
  rewrite (bindR_Ok _ _ _ _ (loadR_Some _ _ _ Hy)).
  rewrite Hp. rewrite (bindR_Ok _ _ _ _ (bindR_Ok _ _ _ _ (loadR_Some _ _ _ Hx))).
  unfold retR. rewrite Hd, Hi, uint_small by lia.
  replace (j <? n - 1) with false by (symmetry; apply Z.ltb_ge; lia).
  reflexivity.
Qed.

Lemma leaves_next_climb_break fc r c q j n (hp : gmap addr TreeNode) :
  c <> r ->
  fld parent hp c = Some (Some q) -> fld i hp c = Some j ->
  fld outDegree hp q = Some n -> 1 <= n <= UINT_MAX -> j < n - 1 ->
  leaves_next_climb (S fc) (Some r) (Some c) hp = Ok (Some c).
Proof.
  intros Hne Hp Hi Hd Hn Hj.
  apply fld_Some in Hp as (y & Hy & Hp).
  rewrite (fld_lookup _ _ _ _ Hy) in Hi. injection Hi as Hi.
  apply fld_Some in Hd as (x & Hx & Hd).
  simpl leaves_next_climb.
  destruct (decide (Some c = Some r)) as [E|_]; [congruence|].
  rewrite (bindR_Ok _ _ _ _ (loadR_Some _ _ _ Hy)).
  rewrite Hp. rewrite (bindR_Ok _ _ _ _ (bindR_Ok _ _ _ _ (loadR_Some _ _ _ Hx))).
  unfold retR. rewrite Hd, Hi, uint_small by lia.
  replace (j <? n - 1) with true by (symmetry; apply Z.ltb_lt; lia).
  reflexivity.
Qed.

Lemma leaves_next_slot_last fc fd r c q j n (hp : gmap addr TreeNode) :
  c <> r ->
  fld parent hp c = Some (Some q) -> fld i hp c = Some j ->
  fld outDegree hp q = Some n -> 1 <= n <= UINT_MAX -> j = n - 1 ->
  leaves_next_slot (S fc) fd (Some r) (Some c) hp
  = leaves_next_slot fc fd (Some r) (Some q) hp.
Proof.
  intros Hne Hp Hi Hd Hn Hj. unfold leaves_next_slot, bindR at 1 3.
  erewrite leaves_next_climb_up by eauto. reflexivity.
Qed.

Lemma leaves_next_slot_sibling fc fd r c q j n c' l (hp : gmap addr TreeNode) :
  c <> r ->
  fld parent hp c = Some (Some q) -> fld i hp c = Some j ->
  fld outDegree hp q = Some n -> 1 <= n <= UINT_MAX -> 0 <= j < n - 1 ->
  cell hp q (j + 1) = Some c' ->
  descend_first fd c' hp = Ok l ->
  leaves_next_slot (S fc) fd (Some r) (Some c) hp = Ok l.
Proof.
  intros Hne Hp Hi Hd Hn Hj Hc Hl. unfold leaves_next_slot.
  erewrite bindR_Ok by (eapply leaves_next_climb_break; eauto; lia).
  destruct (decide (Some c = Some r)) as [E|_]; [congruence|].
  apply fld_Some in Hp as (y & Hy & Hp).
  rewrite (fld_lookup _ _ _ _ Hy) in Hi. injection Hi as Hi.
  rewrite (bindR_Ok _ _ _ _ (loadR_Some _ _ _ Hy)).
  rewrite Hp, Hi, uint_small by lia.
  rewrite (bindR_Ok _ _ _ _ (read_childR_cell _ _ _ _ Hc)). exact Hl.
Qed.

Lemma tree_iter_leaves_next_slot fuel it (hp : gmap addr TreeNode) l :
  leaves_next_slot fuel fuel (t it) (next it) hp = Ok l ->
  tree_iter_leaves_next fuel it hp
  = Ok (next it, mkTreeIterator (t it) (current it) (next it) l).
Proof.
  unfold leaves_next_slot, tree_iter_leaves_next, bindR, retR. simpl.
  destruct (leaves_next_climb fuel (t it) (next it) hp) as [q| |];
    [|discriminate|discriminate].
  destruct q as [q|].
  - destruct (decide (Some q = t it)) as [E|Hne].
    + intros [= <-]. reflexivity.
    + destruct (loadR (Some q) hp) as [x| |]; [|discriminate|discriminate].
      destruct (read_childR (parent x) (uint (i x + 1)) hp) as [s| |];
        [|discriminate|discriminate].
      intros ->. reflexivity.
  - intros [= <-]. reflexivity.
Qed.

Lemma walks_with_step step (hp : gmap addr TreeNode) r a K fw rest :
  steps_to step hp r a K ->
  walks_with step hp r K fw rest ->
  walks_with step hp r (Some a) (S fw) (Some a :: rest).
Proof.
  intros HK Hw pv cu. simpl walk_forward.
  erewrite bindR_Ok by apply HK.
  simpl. erewrite bindR_Ok by apply Hw. reflexivity.
Qed.

Lemma walks_with_done step (hp : gmap addr TreeNode) r fw :
  walks_with step hp r None (S fw) [].
Proof. intros pv cu. reflexivity. Qed.

Section leaves_walk.
Variable hp : gmap addr TreeNode.
Variable r : addr.
Variable fs : nat.

Lemma walks_from_step a K fw rest :
  leaves_next_slot fs fs (Some r) (Some a) hp = Ok K ->
  walks_from hp r fs K fw rest ->
  walks_from hp r fs (Some a) (S fw) (Some a :: rest).
Proof.
  intros HK Hw pv cu. simpl walk_forward.
  erewrite bindR_Ok by (apply tree_iter_leaves_next_slot; exact HK).
  simpl. erewrite bindR_Ok by apply Hw. reflexivity.
Qed.

Lemma walks_kids s n (d : nat) K fw rest :
  fld outDegree hp s = Some n -> n <= UINT_MAX ->
  (forall fc, (d < fc)%nat ->
              leaves_next_slot fc fs (Some r) (Some s) hp = Ok K) ->
  walks_from hp r fs K fw rest ->
  forall k post j,
    Forall (walks_subtree hp r fs) (k :: post) ->
    kids_at hp (is_tree hp) s j (k :: post) ->
    0 <= j -> j + Z.of_nat (length (k :: post)) = n ->
    r ∉ concat (map addrs (k :: post)) ->
    (d + 1 + sum_list (map size (k :: post)) <= fs)%nat ->
    walks_from hp r fs (Some (first_leaf k))
               (length (concat (map leaves (k :: post))) + fw)
               ((Some <$> concat (map leaves (k :: post))) ++ rest).
Proof.
  intros Hd Hn HK Hrest k post. revert k.
  induction post as [|k' post IH]; intros k j HP Hk Hj Hlen Hr Hsz.
  - (* the last child *)
    apply Forall_cons in HP as [HPk _].
    destruct Hk as (Hc & Hp & Hi & Hkt & _).
    simpl in Hlen, Hr, Hsz. rewrite app_nil_r in Hr.
    simpl concat. rewrite app_nil_r.
    destruct k as [c ks] eqn:Ek. simpl in Hr.
    apply not_elem_of_cons in Hr as [Hne Hr]. rewrite <- Ek in *.
    apply (HPk (S d) K); auto.
    + rewrite Ek. exact Hr.
    + lia.
    + intros fc Hfc. destruct fc as [|fc]; [lia|].
      erewrite leaves_next_slot_last; [apply HK; lia|..]; eauto.
      * rewrite Ek. simpl. auto.
      * lia.
      * lia.
  - (* a child with a right sibling *)
    apply Forall_cons in HP as [HPk HP'].
    destruct Hk as (Hc & Hp & Hi & Hkt & Hk').
    pose proof Hk' as (Hc' & _ & _ & Hkt' & _).
    simpl in Hr. apply not_elem_of_app in Hr as [Hrk Hr'].
    assert (Hlen' : j + 1 + Z.of_nat (length (k' :: post)) = n)
      by (simpl length in *; lia).
    assert (Hsz' : (d + 1 + sum_list (map size (k' :: post)) <= fs)%nat)
      by (simpl in *; lia).
    specialize (IH k' (j + 1) HP' Hk' ltac:(lia) Hlen' Hr' Hsz').
    change (concat (map leaves (k :: k' :: post)))
      with (leaves k ++ concat (map leaves (k' :: post))).
    rewrite fmap_app, <- app_assoc, length_app, <- Nat.add_assoc.
    destruct k as [c ks] eqn:Ek. simpl in Hrk.
    apply not_elem_of_cons in Hrk as [Hne Hrk]. rewrite <- Ek in *.
    apply (HPk (S d) (Some (first_leaf k'))); auto.
    + rewrite Ek. exact Hrk.
    + simpl in Hsz. lia.
    + intros fc Hfc. destruct fc as [|fc]; [lia|].
      eapply leaves_next_slot_sibling; eauto.
      * rewrite Ek. simpl. auto.
      * simpl length in Hlen. lia.
      * simpl length in Hlen. lia.
      * apply descend_first_spec; [exact Hkt'|]. simpl in Hsz. lia.
Qed.

Lemma walks_subtree_all S : walks_subtree hp r fs S.
Proof.
  induction S as [s kids IH] using rose_ind'.
  intros d K fw rest (Hd & Hn & Hk) Hr Hsz HK Hrest.
  destruct kids as [|k ks].
  - simpl. apply walks_from_step with (K := K); [|exact Hrest].
    apply HK. simpl in Hsz. lia.
  - change (leaves (Node s (k :: ks))) with (concat (map leaves (k :: ks))).
    simpl first_leaf.
    eapply (walks_kids s _ d K fw rest Hd Hn HK Hrest k ks 0); auto.
    + lia.
    + simpl in Hsz. simpl. lia.
Qed.
End leaves_walk.

Lemma leaves_le_size T : (length (leaves T) <= size T)%nat.
Proof.
  induction T as [a kids IH] using rose_ind'.
  destruct kids as [|k ks]; [simpl; lia|].
  change (leaves (Node a (k :: ks))) with (concat (map leaves (k :: ks))).
  change (size (Node a (k :: ks))) with (S (sum_list (map size (k :: ks)))).
  generalize (k :: ks) IH. clear. intros l IH.
  induction IH as [|k' l Hk _ IHl]; simpl; [lia|].
  rewrite length_app. lia.
Qed.

(** ** A tree in memory determines its shape *)

Lemma kids_at_unique (hp : gmap addr TreeNode) a ks :
  Forall (fun k => forall k', is_tree hp k -> is_tree hp k' ->
                              root k = root k' -> k = k') ks ->
  forall ks' j,
    kids_at hp (is_tree hp) a j ks -> kids_at hp (is_tree hp) a j ks' ->
    length ks = length ks' -> ks = ks'.
Proof.
  induction 1 as [|k ks Hk _ IH]; intros [|k' ks'] j H1 H2 Hlen;
    try discriminate; [reflexivity|].
  destruct H1 as (Hc1 & _ & _ & Ht1 & H1).
  destruct H2 as (Hc2 & _ & _ & Ht2 & H2).
  rewrite Hc1 in Hc2. injection Hc2 as Hroot.
  f_equal; [apply Hk; auto|].
  eapply IH; eauto.
Qed.

Lemma is_tree_unique (hp : gmap addr TreeNode) T :
  forall T', is_tree hp T -> is_tree hp T' -> root T = root T' -> T = T'.
Proof.
  induction T as [a kids IH] using rose_ind'.
  intros [a' kids'] (Hd & _ & Hk) (Hd' & _ & Hk') Hroot.
  simpl in Hroot. subst a'. rewrite Hd in Hd'. injection Hd' as Hlen.
  assert (Hlen' : length kids = length kids') by lia.
  f_equal. exact (kids_at_unique hp a kids IH kids' 0 Hk Hk' Hlen').
Qed.

Lemma inner_subtree (hp : gmap addr TreeNode) T :
  is_tree hp T ->
  forall a, a ∈ inner T ->
            exists S, is_tree hp S /\ root S = a /\ (size S < size T)%nat.
Proof.
  induction T as [b kids IH] using rose_ind'. intros (_ & _ & Hk) a Ha.
  unfold inner in Ha. simpl in Ha. simpl size.
  revert Hk Ha. generalize 0. induction IH as [|k ks IHk _ IHks];
    intros j Hk Ha; simpl in Ha; [inversion Ha|].
  destruct Hk as (_ & _ & _ & Ht & Hk).
  apply elem_of_app in Ha as [Ha|Ha].
  - destruct k as [c cs] eqn:Ek. simpl in Ha.
    apply elem_of_cons in Ha as [->|Ha].
    + exists (Node c cs). split; [exact Ht|]. split; [reflexivity|].
      simpl. lia.
    + rewrite <- Ek in *.
      destruct (IHk Ht a) as (S' & HS & Hr & Hsz).
      { rewrite Ek. exact Ha. }
      exists S'. split; [exact HS|]. split; [exact Hr|]. simpl. lia.
  - destruct (IHks (j + 1) Hk Ha) as (S' & HS & Hr & Hsz).
    exists S'. split; [exact HS|]. split; [exact Hr|]. simpl. lia.
Qed.

Lemma root_not_inner (hp : gmap addr TreeNode) T :
  is_tree hp T -> root T ∉ inner T.
Proof.
  intros HT Hin.
  destruct (inner_subtree hp T HT _ Hin) as (S' & HS & Hr & Hsz).
  assert (S' = T) by (eapply is_tree_unique; eauto). subst S'. lia.
Qed.

(** ** Which nodes are leaves *)

Lemma leaves_are_leaves (hp : gmap addr TreeNode) T :
  is_tree hp T ->
  forall a, a ∈ leaves T <->
            a ∈ addrs T /\ tree_is_leaf (Some a) hp = Ok true.
Proof.
  assert (Hleaf : forall a n, fld outDegree hp a = Some n ->
            tree_is_leaf (Some a) hp = Ok (n =? 0)).
  { intros a n Hn. apply fld_Some in Hn as (x & Hx & <-).
    unfold tree_is_leaf, tree_out_degree, bindR, retR.
    rewrite (loadR_Some _ _ _ Hx). reflexivity. }
  induction T as [b kids IH] using rose_ind'. intros (Hd & _ & Hk) a.
  destruct kids as [|k ks].
  - simpl. rewrite !list_elem_of_singleton.
    split; [intros ->; split; [reflexivity|]|tauto].
    rewrite (Hleaf _ _ Hd). reflexivity.
  - change (leaves (Node b (k :: ks))) with (concat (map leaves (k :: ks))).
    change (addrs (Node b (k :: ks)))
      with (b :: concat (map addrs (k :: ks))).
    rewrite elem_of_cons.
    assert (Hnl : tree_is_leaf (Some b) hp = Ok false).
    { rewrite (Hleaf _ _ Hd). simpl length.
      replace (Z.of_nat (S (length ks)) =? 0) with false; [reflexivity|].
      symmetry. apply Z.eqb_neq. lia. }
    revert Hk IH. generalize 0. generalize (k :: ks). clear k ks Hd.
    intros l j Hk IH.
    assert (Hl : a ∈ concat (map leaves l) <->
                 a ∈ concat (map addrs l) /\
                 tree_is_leaf (Some a) hp = Ok true).
    { revert j Hk. induction IH as [|k l IHk _ IHl]; intros j Hk; simpl.
      - split; [intros H; inversion H|intros [H _]; inversion H].
      - destruct Hk as (_ & _ & _ & Ht & Hk).
        rewrite !elem_of_app, (IHk Ht a), (IHl (j + 1) Hk). tauto. }
    rewrite Hl. split; [tauto|].
    intros [[->|H] Ht]; [congruence|tauto].
Qed.

(** ** The nodes of a tree in memory are pairwise distinct *)

Lemma up_snoc (hp : gmap addr TreeNode) d :
  forall a c q,
    up hp d a = Some c -> fld parent hp c = Some (Some q) ->
    up hp (S d) a = Some q.
Proof.
  induction d as [|d IH]; intros a c q Hup Hp.
  - injection Hup as ->. simpl. rewrite Hp. reflexivity.
  - simpl in Hup. destruct (fld parent hp a) as [[p|]|] eqn:E;
      try discriminate.
    change (up hp (S (S d)) a) with
      (match fld parent hp a with
       | Some (Some q0) => up hp (S d) q0
       | _ => None
       end).
    rewrite E. eapply IH; eauto.
Qed.

Lemma kids_at_elem (hp : gmap addr TreeNode) (P : rose -> Prop) b ks :
  forall j k,
    kids_at hp P b j ks -> k ∈ ks ->
    exists j', j <= j' /\
               fld parent hp (root k) = Some (Some b) /\
               fld i hp (root k) = Some j' /\ P k.
Proof.
  induction ks as [|k0 ks IH]; intros j k Hk Hin; [inversion Hin|].
  destruct Hk as (_ & Hp & Hi & HP & Hk).
  apply elem_of_cons in Hin as [->|Hin].
  - exists j. split; [lia|auto].
  - destruct (IH (j + 1) k Hk Hin) as (j' & Hj & H). exists j'.
    split; [lia|exact H].
Qed.

Lemma addrs_root T : root T ∈ addrs T.
Proof. destruct T. simpl. apply elem_of_cons. auto. Qed.

Lemma elem_of_inner T a :
  a ∈ inner T <-> exists k, k ∈ kids_of T /\ a ∈ addrs k.
Proof.
  unfold inner. induction (kids_of T) as [|k ks IH]; simpl.
  - split; [intros H; inversion H|intros (k & H & _); inversion H].
  - rewrite elem_of_app, IH. split.
    + intros [H|(k' & H1 & H2)].
      * exists k. split; [apply elem_of_cons; auto|exact H].
      * exists k'. split; [apply elem_of_cons; auto|exact H2].
    + intros (k' & H1 & H2). apply elem_of_cons in H1 as [->|H1]; eauto.
Qed.

(** From any node of the tree the parent pointers lead to the root, and
    never leave the tree on the way. *)
Lemma chain_to_root (hp : gmap addr TreeNode) T :
  is_tree hp T ->
  forall a, a ∈ addrs T ->
    exists d, up hp d a = Some (root T) /\
              forall e c, (e <= d)%nat -> up hp e a = Some c -> c ∈ addrs T.
Proof.
  induction T as [b kids IH] using rose_ind'. intros (_ & _ & Hk) a Ha.
  simpl in Ha. apply elem_of_cons in Ha as [->|Ha].
  - exists 0%nat. split; [reflexivity|]. intros e c He Hc.
    assert (e = 0%nat) by lia. subst e. injection Hc as <-.
    apply (addrs_root (Node b kids)).
  - change (a ∈ inner (Node b kids)) in Ha.
    apply elem_of_inner in Ha as (k & Hin & Hak). simpl in Hin.
    destruct (kids_at_elem _ _ _ _ _ _ Hk Hin) as (j' & _ & Hp & _ & Ht).
    rewrite Forall_forall in IH.
    destruct (IH k Hin Ht a Hak) as (d & Hup & Hall).
    exists (S d). split; [eapply up_snoc; eauto|].
    intros e c He Hc. destruct (decide (e = S d)) as [->|Hne].
    + rewrite (up_snoc _ _ _ _ _ Hup Hp) in Hc. injection Hc as <-.
      apply (addrs_root (Node b kids)).
    + simpl. apply elem_of_cons. right.
      change (c ∈ inner (Node b kids)). apply elem_of_inner.
      exists k. split; [exact Hin|]. apply (Hall e); [lia|exact Hc].
Qed.

(** Two children of one node have no node in common. *)
Lemma kids_disjoint (hp : gmap addr TreeNode) b k1 k2 j1 j2 a :
  is_tree hp k1 -> is_tree hp k2 ->
  fld parent hp (root k1) = Some (Some b) ->
  fld parent hp (root k2) = Some (Some b) ->
  fld i hp (root k1) = Some j1 -> fld i hp (root k2) = Some j2 ->
  j1 <> j2 -> b ∉ addrs k1 -> b ∉ addrs k2 ->
  a ∈ addrs k1 -> a ∈ addrs k2 -> False.
Proof.
  intros H1 H2 Hp1 Hp2 Hi1 Hi2 Hne Hb1 Hb2 Ha1 Ha2.
  destruct (chain_to_root hp k1 H1 a Ha1) as (d1 & Hu1 & Hall1).
  destruct (chain_to_root hp k2 H2 a Ha2) as (d2 & Hu2 & Hall2).
  destruct (lt_eq_lt_dec d1 d2) as [[Hlt|Heq]|Hlt].
  - apply Hb2. apply (Hall2 (S d1)); [lia|]. eapply up_snoc; eauto.
  - subst d2. rewrite Hu1 in Hu2. injection Hu2 as Hr.
    rewrite Hr, Hi2 in Hi1. congruence.
  - apply Hb1. apply (Hall1 (S d2)); [lia|]. eapply up_snoc; eauto.
Qed.

Lemma kids_NoDup (hp : gmap addr TreeNode) b ks :
  Forall (fun k => is_tree hp k -> NoDup (addrs k)) ks ->
  forall j,
    kids_at hp (is_tree hp) b j ks ->
    b ∉ concat (map addrs ks) ->
    NoDup (concat (map addrs ks)).
Proof.
  induction 1 as [|k ks Hk _ IH]; intros j Hks Hb; simpl.
  - constructor.
  - destruct Hks as (_ & Hp & Hi & Ht & Hks).
    simpl in Hb. apply not_elem_of_app in Hb as [Hbk Hbs].
    apply NoDup_app. split; [auto|]. split; [|eauto].
    intros a Ha Hin.
    assert (Hin' : a ∈ inner (Node b ks)) by exact Hin.
    apply elem_of_inner in Hin' as (k2 & Hk2 & Ha2). simpl in Hk2.
    destruct (kids_at_elem _ _ _ _ _ _ Hks Hk2) as (j2 & Hj2 & Hp2 & Hi2 & Ht2).
    apply (kids_disjoint hp b k k2 j j2 a); auto; [lia|].
    intros Hb2. apply Hbs.
    assert (Hx : b ∈ inner (Node b ks)); [|exact Hx].
    apply elem_of_inner. exists k2. split; [exact Hk2|exact Hb2].
Qed.

Lemma is_tree_NoDup (hp : gmap addr TreeNode) T :
  is_tree hp T -> NoDup (addrs T).
Proof.
  induction T as [b kids IH] using rose_ind'. intros HT.
  pose proof (root_not_inner hp _ HT) as Hb.
  destruct HT as (_ & _ & Hk). simpl. constructor; [exact Hb|].
  eapply kids_NoDup; eauto.
Qed.

Lemma leaves_sublist T : leaves T `sublist_of` addrs T.
Proof.
  induction T as [b kids IH] using rose_ind'.
  destruct kids as [|k ks]; [reflexivity|].
  change (leaves (Node b (k :: ks))) with (concat (map leaves (k :: ks))).
  change (addrs (Node b (k :: ks))) with (b :: concat (map addrs (k :: ks))).
  apply sublist_cons. generalize (k :: ks) IH. clear. intros l IH.
  induction IH as [|k' l Hk _ IHl]; simpl; [constructor|].
  apply sublist_app; assumption.
Qed.

Lemma leaves_NoDup (hp : gmap addr TreeNode) T :
  is_tree hp T -> NoDup (leaves T).
Proof.
  intros HT. eapply sublist_NoDup; [|apply leaves_sublist].
  eapply is_tree_NoDup; eauto.
Qed.

(** ** The traversal yields the leaves *)

(** C9.  Let the heap hold a tree of shape [T] (its root may hang in a
    larger tree).  With fuel above the number of nodes, the leaves-only
    traversal -- [tree_iter_leaves_first] on a fresh iterator, then
    [tree_iter_leaves_next] as long as [tree_iter_has_next] holds --
    returns, and the nodes it yields are the leaves of [T], left to right:
    as many as [T] has leaves, no node twice, each satisfying
    [tree_is_leaf], and they are all the nodes of [T] that satisfy it.  On
    the empty tree ([NULL]) the traversal yields nothing. *)
Theorem leaves_traversal_yields_leaves :
  forall (hp : gmap addr TreeNode) (T : rose) (fuel : nat),
    is_tree hp T -> (size T < fuel)%nat ->
    leaves_traversal fuel (Some (root T)) hp = Ok (Some <$> leaves T) /\
    NoDup (leaves T) /\
    (forall a, a ∈ leaves T <->
               a ∈ addrs T /\ tree_is_leaf (Some a) hp = Ok true) /\
    leaves_traversal fuel None hp = Ok [].
Proof.
  intros hp T fuel HT Hf.
  split; [|split; [eapply leaves_NoDup; exact HT|
                   split; [apply leaves_are_leaves; exact HT|]]];
    [|destruct fuel as [|fuel]; [lia|reflexivity]].
  unfold leaves_traversal, tree_iter_leaves_first.
  erewrite bindR_Ok
    by (erewrite bindR_Ok by (apply leaves_first_loop_spec; eauto);
        reflexivity).
  pose proof (leaves_le_size T) as HL.
  pose proof (walks_subtree_all hp (root T) fuel T) as H.
  unfold walks_subtree in H.
  specialize (H 0%nat None (fuel - length (leaves T))%nat []).
  replace (length (leaves T) + (fuel - length (leaves T)))%nat with fuel
    in H by lia.
  rewrite app_nil_r in H. apply H.
  - exact HT.
  - apply root_not_inner with (hp := hp). exact HT.
  - lia.
  - intros fc Hfc. destruct fc as [|fc]; [lia|].
    apply leaves_next_slot_root.
  - intros pv cu. destruct (fuel - length (leaves T))%nat as [|fw] eqn:E;
      [lia|]. reflexivity.
Qed.

Lemma leaves_traversal_yields_leaves_witness :
  leaves_traversal 8 (Some 1%positive) (heap ex_bushy)
  = Ok [Some 5; Some 6; Some 3; Some 4]%positive /\
  NoDup [5; 6; 3; 4]%positive /\
  (forall a : addr,
      a ∈ [5; 6; 3; 4]%positive <->
      a ∈ [1; 2; 5; 6; 3; 4]%positive /\
      tree_is_leaf (Some a) (heap ex_bushy) = Ok true) /\
  leaves_traversal 8 None (heap ex_bushy) = Ok [].
Proof.
  apply (leaves_traversal_yields_leaves (heap ex_bushy) ex_bushy_shape 8).
  - repeat split; try (vm_compute; reflexivity); vm_compute; discriminate.
  - simpl. lia.
Defined.

(** ** The forward preorder and postorder walks *)

(** *** The preorder walk *)

Lemma preorder_next_climb_root fc r (hp : gmap addr TreeNode) x :
  hp !! r = Some x ->
  preorder_next_climb (S fc) (Some r) (Some r) hp = Ok None.
Proof.
  intros Hx. simpl. rewrite (bindR_Ok _ _ _ _ (loadR_Some _ _ _ Hx)).
  destruct (parent x); [|reflexivity].
  destruct (decide (Some r = Some r)); [reflexivity|congruence].
Qed.

Lemma preorder_next_climb_up fc r c q j n (hp : gmap addr TreeNode) :
  c <> r ->
  fld parent hp c = Some (Some q) -> fld i hp c = Some j ->
  fld outDegree hp q = Some n -> 1 <= n <= UINT_MAX -> j = n - 1 ->
  preorder_next_climb (S fc) (Some r) (Some c) hp
  = preorder_next_climb fc (Some r) (Some q) hp.
Proof.
  intros Hne Hp Hi Hd Hn Hj.
  apply fld_Some in Hp as (y & Hy & Hp).
  rewrite (fld_lookup _ _ _ _ Hy) in Hi. injection Hi as Hi.
  apply fld_Some in Hd as (x & Hx & Hd).
  simpl preorder_next_climb.
  rewrite (bindR_Ok _ _ _ _ (loadR_Some _ _ _ Hy)). rewrite Hp.
  destruct (decide (Some c = Some r)) as [E|_]; [congruence|].
  rewrite (bindR_Ok _ _ _ _ (loadR_Some _ _ _ Hx)).
  rewrite Hd, Hi, uint_small by lia.
  replace (j <? n - 1) with false by (symmetry; apply Z.ltb_ge; lia).
  reflexivity.
Qed.

Lemma preorder_next_climb_sibling fc r c q j n c' (hp : gmap addr TreeNode) :
  c <> r ->
  fld parent hp c = Some (Some q) -> fld i hp c = Some j ->
  fld outDegree hp q = Some n -> 1 <= n <= UINT_MAX -> 0 <= j < n - 1 ->
  cell hp q (j + 1) = Some c' ->
  preorder_next_climb (S fc) (Some r) (Some c) hp = Ok c'.
Proof.
  intros Hne Hp Hi Hd Hn Hj Hc.
  apply fld_Some in Hp as (y & Hy & Hp).
  rewrite (fld_lookup _ _ _ _ Hy) in Hi. injection Hi as Hi.
  apply fld_Some in Hd as (x & Hx & Hd).
  simpl preorder_next_climb.
  rewrite (bindR_Ok _ _ _ _ (loadR_Some _ _ _ Hy)). rewrite Hp.
  destruct (decide (Some c = Some r)) as [E|_]; [congruence|].
  rewrite (bindR_Ok _ _ _ _ (loadR_Some _ _ _ Hx)).
  rewrite Hd, Hi, !uint_small by lia.
  replace (j <? n - 1) with true by (symmetry; apply Z.ltb_lt; lia).
  apply read_childR_cell. exact Hc.
Qed.

Lemma preorder_step_down fs (hp : gmap addr TreeNode) r a n c :
  fld outDegree hp a = Some n -> 0 < n -> cell hp a 0 = Some c ->
  steps_to (tree_preorder_walk_next fs) hp r a c.
Proof.
  intros Hd Hn Hc pv cu. apply fld_Some in Hd as (x & Hx & Hd).
  unfold tree_preorder_walk_next. simpl.
  rewrite (bindR_Ok _ _ _ _ (loadR_Some _ _ _ Hx)).
  replace (outDegree x >? 0) with true by (symmetry; apply Z.gtb_lt; lia).
  rewrite (bindR_Ok _ _ _ _ (read_childR_cell _ _ _ _ Hc)). reflexivity.
Qed.

Lemma preorder_step_leaf fs (hp : gmap addr TreeNode) r a K :
  fld outDegree hp a = Some 0 ->
  preorder_next_climb fs (Some r) (Some a) hp = Ok K ->
  steps_to (tree_preorder_walk_next fs) hp r a K.
Proof.
  intros Hd HK pv cu. apply fld_Some in Hd as (x & Hx & Hd).
  unfold tree_preorder_walk_next. simpl.
  rewrite (bindR_Ok _ _ _ _ (loadR_Some _ _ _ Hx)). rewrite Hd. simpl.
  rewrite (bindR_Ok _ _ _ _ HK). reflexivity.
Qed.

Section preorder_walk.
Variable hp : gmap addr TreeNode.
Variable r : addr.
Variable fs : nat.

Lemma preorder_kids s n (d : nat) K fw rest :
  fld outDegree hp s = Some n -> n <= UINT_MAX ->
  (forall fc, (d < fc)%nat ->
              preorder_next_climb fc (Some r) (Some s) hp = Ok K) ->
  walks_with (tree_preorder_walk_next fs) hp r K fw rest ->
  forall k post j,
    Forall (preorder_subtree hp r fs) (k :: post) ->
    kids_at hp (is_tree hp) s j (k :: post) ->
    0 <= j -> j + Z.of_nat (length (k :: post)) = n ->
    r ∉ concat (map addrs (k :: post)) ->
    (d + 1 + sum_list (map size (k :: post)) <= fs)%nat ->
    walks_with (tree_preorder_walk_next fs) hp r (Some (root k))
               (sum_list (map size (k :: post)) + fw)
               ((Some <$> concat (map addrs (k :: post))) ++ rest).
Proof.
  intros Hd Hn HK Hrest k post. revert k.
  induction post as [|k' post IH]; intros k j HP Hk Hj Hlen Hr Hsz.
  - apply Forall_cons in HP as [HPk _].
    destruct Hk as (Hc & Hp & Hi & Hkt & _).
    simpl in Hlen, Hr, Hsz. rewrite app_nil_r in Hr.
    simpl concat. rewrite app_nil_r. simpl sum_list. rewrite Nat.add_0_r.
    destruct k as [c ks] eqn:Ek. simpl in Hr.
    apply not_elem_of_cons in Hr as [Hne Hr]. rewrite <- Ek in *.
    apply (HPk (S d) K); auto.
    + rewrite Ek. exact Hr.
    + lia.
    + intros fc Hfc. destruct fc as [|fc]; [lia|].
      erewrite preorder_next_climb_up; [apply HK; lia|..]; eauto.
      * rewrite Ek. simpl. auto.
      * lia.
      * lia.
  - apply Forall_cons in HP as [HPk HP'].
    destruct Hk as (Hc & Hp & Hi & Hkt & Hk').
    pose proof Hk' as (Hc' & _ & _ & Hkt' & _).
    simpl in Hr. apply not_elem_of_app in Hr as [Hrk Hr'].
    assert (Hlen' : j + 1 + Z.of_nat (length (k' :: post)) = n)
      by (simpl length in *; lia).
    assert (Hsz' : (d + 1 + sum_list (map size (k' :: post)) <= fs)%nat)
      by (simpl in *; lia).
    specialize (IH k' (j + 1) HP' Hk' ltac:(lia) Hlen' Hr' Hsz').
    change (concat (map addrs (k :: k' :: post)))
      with (addrs k ++ concat (map addrs (k' :: post))).
    change (sum_list (map size (k :: k' :: post)))
      with (size k + sum_list (map size (k' :: post)))%nat.
    rewrite fmap_app, <- app_assoc, <- Nat.add_assoc.
    destruct k as [c ks] eqn:Ek. simpl in Hrk.
    apply not_elem_of_cons in Hrk as [Hne Hrk]. rewrite <- Ek in *.
    apply (HPk (S d) (Some (root k'))); auto.
    + rewrite Ek. exact Hrk.
    + simpl in Hsz. lia.
    + intros fc Hfc. destruct fc as [|fc]; [lia|].
      eapply preorder_next_climb_sibling; eauto.
      * rewrite Ek. simpl. auto.
      * simpl length in Hlen. lia.
      * simpl length in Hlen. lia.
Qed.

Lemma preorder_subtree_all S : preorder_subtree hp r fs S.
Proof.
  induction S as [s kids IH] using rose_ind'.
  intros d K fw rest (Hd & Hn & Hk) Hr Hsz HK Hrest.
  destruct kids as [|k ks].
  - simpl. apply walks_with_step with (K := K); [|exact Hrest].
    apply preorder_step_leaf; [exact Hd|]. apply HK. simpl in Hsz. lia.
  - change (addrs (Node s (k :: ks)))
      with (s :: concat (map addrs (k :: ks))).
    change (size (Node s (k :: ks)))
      with (S (sum_list (map size (k :: ks)))).
    rewrite fmap_cons. simpl app. simpl Nat.add.
    apply walks_with_step with (K := Some (root k)).
    + destruct Hk as (Hc & _). eapply preorder_step_down; eauto.
      simpl length. lia.
    + eapply (preorder_kids s _ d K fw rest Hd Hn HK Hrest k ks 0); auto.
      * lia.
      * simpl in Hsz. simpl. lia.
Qed.
End preorder_walk.

(** *** The postorder walk *)

Lemma postorder_first_spec (hp : gmap addr TreeNode) T :
  forall f, is_tree hp T -> (size T <= f)%nat ->
            postorder_first f (Some (root T)) hp = Ok (Some (first_leaf T)).
Proof.
  induction T as [a kids IH] using rose_ind'. intros f (Hd & Hn & Hk) Hf.
  destruct f as [|f]; [simpl in Hf; lia|].
  apply fld_Some in Hd as (x & Hx & Hd).
  simpl postorder_first. simpl root.
  rewrite (bindR_Ok _ _ _ _ (loadR_Some _ _ _ Hx)).
  destruct kids as [|k ks].
  - simpl in Hd. rewrite Hd. reflexivity.
  - replace (outDegree x >? 0) with true
      by (symmetry; apply Z.gtb_lt; rewrite Hd; simpl length; lia).
    destruct Hk as (Hc & _ & _ & Hkt & _).
    rewrite (bindR_Ok _ _ _ _ (read_childR_cell _ _ _ _ Hc)).
    apply Forall_cons in IH as [IHk _].
    simpl first_leaf. apply IHk; [exact Hkt|]. simpl in Hf. lia.
Qed.

Lemma postorder_step_root fs (hp : gmap addr TreeNode) r x :
  hp !! r = Some x ->
  steps_to (tree_postorder_walk_next fs) hp r r None.
Proof.
  intros Hx pv cu. unfold tree_postorder_walk_next. simpl.
  rewrite (bindR_Ok _ _ _ _ (loadR_Some _ _ _ Hx)).
  destruct (parent x); [|reflexivity].
  destruct (decide (Some r = Some r)); [reflexivity|congruence].
Qed.

Lemma postorder_step_up fs (hp : gmap addr TreeNode) r c q j n :
  c <> r ->
  fld parent hp c = Some (Some q) -> fld i hp c = Some j ->
  fld outDegree hp q = Some n -> 1 <= n <= UINT_MAX -> j = n - 1 ->
  steps_to (tree_postorder_walk_next fs) hp r c (Some q).
Proof.
  intros Hne Hp Hi Hd Hn Hj pv cu.
  apply fld_Some in Hp as (y & Hy & Hp).
  rewrite (fld_lookup _ _ _ _ Hy) in Hi. injection Hi as Hi.
  apply fld_Some in Hd as (x & Hx & Hd).
  unfold tree_postorder_walk_next. simpl.
  rewrite (bindR_Ok _ _ _ _ (loadR_Some _ _ _ Hy)). rewrite Hp.
  destruct (decide (Some c = Some r)) as [E|_]; [congruence|].
  rewrite (bindR_Ok _ _ _ _ (loadR_Some _ _ _ Hx)).
  rewrite Hd, Hi, uint_small by lia.
  replace (j <? n - 1) with false by (symmetry; apply Z.ltb_ge; lia).
  reflexivity.
Qed.

Lemma postorder_step_sibling fs (hp : gmap addr TreeNode) r c q j n c' l :
  c <> r ->
  fld parent hp c = Some (Some q) -> fld i hp c = Some j ->
  fld outDegree hp q = Some n -> 1 <= n <= UINT_MAX -> 0 <= j < n - 1 ->
  cell hp q (j + 1) = Some c' ->
  descend_first fs c' hp = Ok l ->
  steps_to (tree_postorder_walk_next fs) hp r c l.
Proof.
  intros Hne Hp Hi Hd Hn Hj Hc Hl pv cu.
  apply fld_Some in Hp as (y & Hy & Hp).
  rewrite (fld_lookup _ _ _ _ Hy) in Hi. injection Hi as Hi.
  apply fld_Some in Hd as (x & Hx & Hd).
  unfold tree_postorder_walk_next. simpl.
  rewrite (bindR_Ok _ _ _ _ (loadR_Some _ _ _ Hy)). rewrite Hp.
  destruct (decide (Some c = Some r)) as [E|_]; [congruence|].
  rewrite (bindR_Ok _ _ _ _ (loadR_Some _ _ _ Hx)).
  rewrite Hd, Hi, !uint_small by lia.
  replace (j <? n - 1) with true by (symmetry; apply Z.ltb_lt; lia).
  rewrite (bindR_Ok _ _ _ _ (read_childR_cell _ _ _ _ Hc)).
  rewrite (bindR_Ok _ _ _ _ Hl). reflexivity.
Qed.

Section postorder_walk.
Variable hp : gmap addr TreeNode.
Variable r : addr.
Variable fs : nat.

Lemma postorder_kids s n fw rest :
  fld outDegree hp s = Some n -> n <= UINT_MAX ->
  walks_with (tree_postorder_walk_next fs) hp r (Some s) fw rest ->
  forall k post j,
    Forall (postorder_subtree hp r fs) (k :: post) ->
    kids_at hp (is_tree hp) s j (k :: post) ->
    0 <= j -> j + Z.of_nat (length (k :: post)) = n ->
    r ∉ concat (map addrs (k :: post)) ->
    (sum_list (map size (k :: post)) <= fs)%nat ->
    walks_with (tree_postorder_walk_next fs) hp r (Some (first_leaf k))
               (sum_list (map size (k :: post)) + fw)
               ((Some <$> concat (map postorder (k :: post))) ++ rest).
Proof.
  intros Hd Hn Hrest k post. revert k.
  induction post as [|k' post IH]; intros k j HP Hk Hj Hlen Hr Hsz.
  - apply Forall_cons in HP as [HPk _].
    destruct Hk as (Hc & Hp & Hi & Hkt & _).
    simpl in Hlen, Hr, Hsz. rewrite app_nil_r in Hr.
    simpl concat. rewrite app_nil_r. simpl sum_list. rewrite Nat.add_0_r.
    destruct k as [c ks] eqn:Ek. simpl in Hr.
    apply not_elem_of_cons in Hr as [Hne Hr]. rewrite <- Ek in *.
    apply (HPk (Some s)); auto.
    + rewrite Ek. exact Hr.
    + lia.
    + eapply postorder_step_up; eauto.
      * rewrite Ek. simpl. auto.
      * lia.
      * lia.
  - apply Forall_cons in HP as [HPk HP'].
    destruct Hk as (Hc & Hp & Hi & Hkt & Hk').
    pose proof Hk' as (Hc' & _ & _ & Hkt' & _).
    simpl in Hr. apply not_elem_of_app in Hr as [Hrk Hr'].
    assert (Hlen' : j + 1 + Z.of_nat (length (k' :: post)) = n)
      by (simpl length in *; lia).
    assert (Hsz' : (sum_list (map size (k' :: post)) <= fs)%nat)
      by (simpl in *; lia).
    specialize (IH k' (j + 1) HP' Hk' ltac:(lia) Hlen' Hr' Hsz').
    change (concat (map postorder (k :: k' :: post)))
      with (postorder k ++ concat (map postorder (k' :: post))).
    change (sum_list (map size (k :: k' :: post)))
      with (size k + sum_list (map size (k' :: post)))%nat.
    rewrite fmap_app, <- app_assoc, <- Nat.add_assoc.
    destruct k as [c ks] eqn:Ek. simpl in Hrk.
    apply not_elem_of_cons in Hrk as [Hne Hrk]. rewrite <- Ek in *.
    apply (HPk (Some (first_leaf k'))); auto.
    + rewrite Ek. exact Hrk.
    + simpl in Hsz. lia.
    + eapply postorder_step_sibling; eauto.
      * rewrite Ek. simpl. auto.
      * simpl length in Hlen. lia.
      * simpl length in Hlen. lia.
      * apply descend_first_spec; [exact Hkt'|]. simpl in Hsz. lia.
Qed.

Lemma postorder_subtree_all S : postorder_subtree hp r fs S.
Proof.
  induction S as [s kids IH] using rose_ind'.
  intros K fw rest (Hd & Hn & Hk) Hr Hsz HK Hrest.
  destruct kids as [|k ks].
  - simpl. apply walks_with_step with (K := K); [exact HK|exact Hrest].
  - change (postorder (Node s (k :: ks)))
      with (concat (map postorder (k :: ks)) ++ [s]).
    change (size (Node s (k :: ks)))
      with (S (sum_list (map size (k :: ks)))).
    simpl first_leaf.
    rewrite fmap_app, <- app_assoc.
    replace (S (sum_list (map size (k :: ks))) + fw)%nat
      with (sum_list (map size (k :: ks)) + S fw)%nat by lia.
    eapply (postorder_kids s _ (S fw) _ Hd Hn); eauto.
    + apply walks_with_step with (K := K); [exact HK|exact Hrest].
    + lia.
    + simpl in Hsz. simpl. lia.
Qed.
End postorder_walk.

Lemma addrs_length T : length (addrs T) = size T.
Proof.
  induction T as [a kids IH] using rose_ind'.
  simpl. f_equal. induction IH as [|k l Hk _ IHl]; simpl; [reflexivity|].
  rewrite length_app. lia.
Qed.

Lemma postorder_Permutation T : postorder T ≡ₚ addrs T.
Proof.
  induction T as [a kids IH] using rose_ind'.
  simpl. rewrite Permutation_app_comm. simpl. constructor.
  induction IH as [|k l Hk _ IHl]; simpl; [reflexivity|].
  rewrite Hk, IHl. reflexivity.
Qed.

Lemma bindR_inv {A B} (m : R A) (k : A -> R B) hp r :
  bindR m k hp = Ok r -> exists a, m hp = Ok a /\ k a hp = Ok r.
Proof.
  unfold bindR. destruct (m hp) as [a| |]; try discriminate. eauto.
Qed.

(** The preorder walk retreats to the preceding node: after an advance,
    which returns the node of the [next] slot, the retreat returns the node
    that was current before the advance. *)
Lemma preorder_retreat_after_advance fuel fuel' it (hp : gmap addr TreeNode)
    r1 it1 r2 it2 :
  tree_preorder_walk_next fuel it hp = Ok (r1, it1) ->
  tree_preorder_walk_prev fuel' it1 hp = Ok (r2, it2) ->
  r1 = next it /\ r2 = current it.
Proof.
  intros Hn Hp.
  assert (H1 : r1 = next it /\ prev it1 = current it).
  { unfold tree_preorder_walk_next in Hn. simpl in Hn.
    destruct (next it) as [a|]; [|injection Hn as <- <-; auto].
    apply bindR_inv in Hn as (x & _ & Hn).
    destruct (outDegree x >? 0);
      apply bindR_inv in Hn as (c & _ & Hn); injection Hn as <- <-; auto. }
  destruct H1 as [-> Hprev]. split; [reflexivity|]. rewrite <- Hprev.
  unfold tree_preorder_walk_prev in Hp. simpl in Hp.
  destruct (decide (prev it1 = t it1 \/ prev it1 = None));
    [injection Hp as <- _; reflexivity|].
  apply bindR_inv in Hp as (x & _ & Hp).
  destruct (i x >? 0); [|injection Hp as <- _; reflexivity].
  apply bindR_inv in Hp as (s & _ & Hp).
  apply bindR_inv in Hp as (l & _ & Hp).
  injection Hp as <- _. reflexivity.
Qed.

Lemma preorder_retreat_after_advance_witness :
  Some 2%positive
  = next (mkTreeIterator (Some 1%positive) None (Some 1%positive)
            (Some 2%positive)) /\
  Some 1%positive
  = current (mkTreeIterator (Some 1%positive) None (Some 1%positive)
               (Some 2%positive)).
Proof.
  apply (preorder_retreat_after_advance 8 8
           (mkTreeIterator (Some 1%positive) None (Some 1%positive)
              (Some 2%positive))
           (heap ex_chain)
           (Some 2%positive)
           (mkTreeIterator (Some 1%positive) (Some 1%positive)
              (Some 2%positive) (Some 3%positive))
           (Some 1%positive)
           (mkTreeIterator (Some 1%positive) None (Some 1%positive)
              (Some 2%positive))).
  - vm_compute. reflexivity.
  - vm_compute. reflexivity.
Defined.

(** Forward walks.  Let the heap hold a tree of shape [T] with
    [k = size T] nodes.  With fuel above [k], the preorder walk and the
    postorder walk, advanced as long as [tree_iter_has_next] holds, each
    return [k] nodes: the nodes of [T], no node twice, parents first for
    the one and children first for the other. *)
Theorem forward_walks_visit_each_node_once :
  forall (hp : gmap addr TreeNode) (T : rose) (fuel : nat),
    is_tree hp T -> (size T < fuel)%nat ->
    preorder_traversal fuel (Some (root T)) hp = Ok (Some <$> addrs T) /\
    postorder_traversal fuel (Some (root T)) hp = Ok (Some <$> postorder T) /\
    length (addrs T) = size T /\ NoDup (addrs T) /\
    postorder T ≡ₚ addrs T.
Proof.
  intros hp T fuel HT Hf.
  pose proof (root_not_inner hp T HT) as Hr.
  assert (Hlive : exists x, hp !! root T = Some x).
  { destruct T as [a kids]. destruct HT as (Hd & _).
    apply fld_Some in Hd as (x & Hx & _). eauto. }
  destruct Hlive as (x & Hx).
  split; [|split; [|split; [apply addrs_length|
             split; [eapply is_tree_NoDup; eauto|
                     apply postorder_Permutation]]]].
  - unfold preorder_traversal, tree_preorder_walk.
    pose proof (preorder_subtree_all hp (root T) fuel T) as H.
    unfold preorder_subtree in H.
    specialize (H 0%nat None (fuel - size T)%nat [] HT Hr ltac:(lia)).
    replace (size T + (fuel - size T))%nat with fuel in H by lia.
    rewrite app_nil_r in H. apply H.
    + intros fc Hfc. destruct fc as [|fc]; [lia|].
      eapply preorder_next_climb_root; eauto.
    + destruct (fuel - size T)%nat as [|fw] eqn:E; [lia|].
      apply walks_with_done.
  - unfold postorder_traversal, tree_postorder_walk.
    erewrite bindR_Ok
      by (erewrite bindR_Ok by (apply postorder_first_spec; eauto; lia);
          reflexivity).
    pose proof (postorder_subtree_all hp (root T) fuel T) as H.
    unfold postorder_subtree in H.
    specialize (H None (fuel - size T)%nat [] HT Hr ltac:(lia)).
    replace (size T + (fuel - size T))%nat with fuel in H by lia.
    rewrite app_nil_r in H. apply H.
    + eapply postorder_step_root; eauto.
    + destruct (fuel - size T)%nat as [|fw] eqn:E; [lia|].
      apply walks_with_done.
Qed.

Lemma forward_walks_visit_each_node_once_witness :
  preorder_traversal 8 (Some 1%positive) (heap ex_bushy)
  = Ok [Some 1; Some 2; Some 5; Some 6; Some 3; Some 4]%positive /\
  postorder_traversal 8 (Some 1%positive) (heap ex_bushy)
  = Ok [Some 5; Some 6; Some 2; Some 3; Some 4; Some 1]%positive /\
  length [1; 2; 5; 6; 3; 4]%positive = 6%nat /\
  NoDup [1; 2; 5; 6; 3; 4]%positive /\
  [5; 6; 2; 3; 4; 1]%positive ≡ₚ [1; 2; 5; 6; 3; 4]%positive.
Proof.
  apply (forward_walks_visit_each_node_once (heap ex_bushy) ex_bushy_shape 8).
  - repeat split; try (vm_compute; reflexivity); vm_compute; discriminate.
  - simpl. lia.
Defined.

Section keeps_rules.
Variable phi : TreeNode -> Prop.

Lemma keeps_ret {A} (a : A) (Q : A -> Prop) : Q a -> keeps phi (retM a) Q.
Proof. intros HQ st r st' [= <- <-] H. auto. Qed.

Lemma keeps_bind {A B} (m : M A) (k : A -> M B) Q Q' :
  keeps phi m Q -> (forall a, Q a -> keeps phi (k a) Q') ->
  keeps phi (bindM m k) Q'.
Proof.
  intros Hm Hk st r st' H HI.
  apply bindM_Ok in H as (a & st1 & H1 & H2).
  destruct (Hm _ _ _ H1 HI) as [HI1 HQ]. exact (Hk a HQ _ _ _ H2 HI1).
Qed.

Lemma keeps_weaken {A} (m : M A) (Q Q' : A -> Prop) :
  keeps phi m Q -> (forall a, Q a -> Q' a) -> keeps phi m Q'.
Proof. intros Hm HQ st r st' H HI. destruct (Hm _ _ _ H HI). auto. Qed.

Lemma keeps_load p : keeps phi (load p) phi.
Proof.
  intros st x st' H HI. apply load_Ok in H as (-> & a & -> & Hx).
  split; [exact HI|]. exact (HI _ _ Hx).
Qed.

Lemma keeps_store p x : phi x -> keeps phi (store p x) (fun _ => True).
Proof.
  intros Hx st u st' H HI. apply store_Ok in H as (a & y & -> & Hy & ->).
  split; [|exact I]. intros b z. simpl.
  destruct (decide (b = a)) as [->|Hne].
  - rewrite lookup_insert_eq. intros [= <-]. exact Hx.
  - rewrite lookup_insert_ne by auto. apply HI.
Qed.

Lemma keeps_read_child p k : keeps phi (read_child p k) (fun _ => True).
Proof.
  unfold read_child. eapply keeps_bind; [apply keeps_load|].
  intros x _. destruct (arr_get (children x) k).
  - apply keeps_ret. exact I.
  - intros st r st' H. discriminate.
Qed.

Lemma keeps_alloc_ok : keeps phi alloc_ok (fun _ => True).
Proof.
  intros st b st' H HI. apply alloc_ok_Ok in H. split; [|exact I].
  rewrite H. exact HI.
Qed.

Lemma keeps_free_node p : keeps phi (free_node p) (fun _ => True).
Proof.
  intros st u st' H HI. split; [|exact I].
  unfold free_node in H. destruct p as [a|]; [|discriminate].
  destruct (heap st !! a); [|discriminate]. injection H as _ <-. simpl.
  intros b z Hb. apply lookup_delete_Some in Hb as [_ Hb]. eauto.
Qed.

Lemma keeps_malloc_node x : phi x -> keeps phi (malloc_node x) (fun _ => True).
Proof.
  intros Hx. unfold malloc_node. eapply keeps_bind; [apply keeps_alloc_ok|].
  intros [|] _; [|apply keeps_ret; exact I].
  intros st r st' [= <- <-] HI. split; [|exact I]. simpl. intros b z.
  destruct (decide (b = fresh (dom (heap st)))) as [->|Hne].
  - rewrite lookup_insert_eq. intros [= <-]. exact Hx.
  - rewrite lookup_insert_ne by auto. apply HI.
Qed.
End keeps_rules.

Lemma keeps_fault phi {A} (Q : A -> Prop) : keeps phi faultM Q.
Proof. intros st r st' H. discriminate. Qed.

Lemma keeps_timeout phi {A} (Q : A -> Prop) : keeps phi timeoutM Q.
Proof. intros st r st' H. discriminate. Qed.

Create HintDb keeps.
#[export] Hint Resolve keeps_read_child keeps_alloc_ok keeps_free_node
  keeps_fault keeps_timeout : keeps.

Ltac keeps_go :=
  lazymatch goal with
  | |- keeps _ (bindM _ _) _ =>
      eapply keeps_bind; [keeps_go | intros ? ?; keeps_go]
  | |- keeps _ (retM _) _ => apply keeps_ret; auto
  | |- keeps _ (load _) _ =>
      first [apply keeps_load
            | eapply keeps_weaken; [apply keeps_load|auto]]
  | |- keeps _ (store _ _) _ =>
      apply keeps_store; unfold h_zero in *; simpl; auto
  | |- keeps _ (malloc_node _) _ =>
      apply keeps_malloc_node; unfold h_zero in *; simpl; auto
  | |- keeps _ (if ?b then _ else _) _ => destruct b; keeps_go
  | |- keeps _ (match ?x with _ => _ end) _ => destruct x; keeps_go
  | |- _ =>
      first [solve [eauto with keeps]
            | eapply keeps_weaken; [solve [eauto with keeps]|auto]]
  end.

(** ** The stored height is always 0 *)

Lemma keeps_write_child p k v : keeps h_zero (write_child p k v) (fun _ => True).
Proof. unfold write_child. keeps_go. Qed.
#[export] Hint Resolve keeps_write_child : keeps.

Lemma keeps_max_child_h fuel : forall n k,
  keeps h_zero (max_child_h fuel n k 0) (fun v => v = 0).
Proof.
  induction fuel as [|fuel IH]; intros n k; simpl; [apply keeps_timeout|].
  eapply keeps_bind; [apply keeps_load|]. intros x Hx.
  destruct (k <? outDegree x); [|apply keeps_ret; reflexivity].
  eapply keeps_bind; [apply keeps_read_child|]. intros c _.
  eapply keeps_bind; [apply keeps_load|]. intros y Hy.
  unfold h_zero in Hy. rewrite Hy. simpl. apply IH.
Qed.

Lemma keeps_tree_update_height_loop fuel inner : forall n,
  keeps h_zero (tree_update_height_loop fuel inner n) (fun _ => True).
Proof.
  induction fuel as [|fuel IH]; intros n; simpl; [apply keeps_timeout|].
  destruct n as [a|]; [|apply keeps_ret; exact I].
  eapply keeps_bind; [apply keeps_max_child_h|]. intros hc ->.
  keeps_go.
Qed.

Lemma keeps_tree_update_height fuel n :
  keeps h_zero (tree_update_height fuel n) (fun _ => True).
Proof. apply keeps_tree_update_height_loop. Qed.
#[export] Hint Resolve keeps_tree_update_height : keeps.

Lemma keeps_tree_children_grow_min_size n s :
  keeps h_zero (tree_children_grow_min_size n s) (fun _ => True).
Proof. unfold tree_children_grow_min_size. keeps_go. Qed.
#[export] Hint Resolve keeps_tree_children_grow_min_size : keeps.

Lemma keeps_remove_child_find fuel : forall p c k,
  keeps h_zero (remove_child_find fuel p c k) (fun _ => True).
Proof.
  induction fuel as [|fuel IH]; intros p c k; simpl; [apply keeps_timeout|].
  keeps_go.
Qed.

Lemma keeps_remove_child_shift fuel : forall p k,
  keeps h_zero (remove_child_shift fuel p k) (fun _ => True).
Proof.
  induction fuel as [|fuel IH]; intros p k; simpl; [apply keeps_timeout|].
  keeps_go.
Qed.
#[export] Hint Resolve keeps_remove_child_find keeps_remove_child_shift : keeps.

Lemma keeps_tree_node_remove_child fuel c :
  keeps h_zero (tree_node_remove_child fuel c) (fun _ => True).
Proof. unfold tree_node_remove_child. keeps_go. Qed.
#[export] Hint Resolve keeps_tree_node_remove_child : keeps.

Lemma keeps_tree_alloc d : keeps h_zero (tree_alloc d) (fun _ => True).
Proof. unfold tree_alloc. keeps_go. Qed.

Lemma keeps_tree_free t : keeps h_zero (tree_free t) (fun _ => True).
Proof. unfold tree_free. keeps_go. Qed.
#[export] Hint Resolve keeps_tree_alloc keeps_tree_free : keeps.

Lemma keeps_tree_remove fuel n :
  keeps h_zero (tree_remove fuel n) (fun _ => True).
Proof. unfold tree_remove. keeps_go. Qed.
#[export] Hint Resolve keeps_tree_remove : keeps.

Lemma keeps_tree_delete fuel n :
  keeps h_zero (tree_delete fuel n) (fun _ => True).
Proof. unfold tree_delete. keeps_go. Qed.

Lemma keeps_append_child fuel n c :
  keeps h_zero (append_child fuel n c) (fun _ => True).
Proof. unfold append_child. keeps_go. Qed.
#[export] Hint Resolve keeps_tree_delete keeps_append_child : keeps.

Lemma keeps_tree_add_subtree fuel n t :
  keeps h_zero (tree_add_subtree fuel n t) (fun _ => True).
Proof. unfold tree_add_subtree. keeps_go. Qed.

Lemma keeps_tree_add_child fuel n d :
  keeps h_zero (tree_add_child fuel n d) (fun _ => True).
Proof. unfold tree_add_child. keeps_go. Qed.

Lemma keeps_insert_shift fuel : forall n a k,
  keeps h_zero (insert_shift fuel n a k) (fun _ => True).
Proof.
  induction fuel as [|fuel IH]; intros n a k; simpl; [apply keeps_timeout|].
  keeps_go.
Qed.
#[export] Hint Resolve keeps_tree_add_subtree keeps_tree_add_child
  keeps_insert_shift : keeps.

Lemma keeps_tree_insert_subtree fuel n t k :
  keeps h_zero (tree_insert_subtree fuel n t k) (fun _ => True).
Proof. unfold tree_insert_subtree. keeps_go. Qed.
#[export] Hint Resolve keeps_tree_insert_subtree : keeps.

Lemma keeps_tree_insert_child fuel n d k :
  keeps h_zero (tree_insert_child fuel n d k) (fun _ => True).
Proof. unfold tree_insert_child. keeps_go. Qed.

Lemma keeps_tree_set_subtree fuel n t k :
  keeps h_zero (tree_set_subtree fuel n t k) (fun _ => True).
Proof. unfold tree_set_subtree. keeps_go. Qed.
#[export] Hint Resolve keeps_tree_set_subtree : keeps.

Lemma keeps_tree_set_child fuel n d k :
  keeps h_zero (tree_set_child fuel n d k) (fun _ => True).
Proof. unfold tree_set_child. keeps_go. Qed.

Lemma keeps_tree_set_data n d :
  keeps h_zero (tree_set_data n d) (fun _ => True).
Proof. unfold tree_set_data. keeps_go. Qed.
#[export] Hint Resolve keeps_tree_insert_child keeps_tree_set_child : keeps.

Lemma run_ops_h_zero fuel os : forall st u st',
  run_ops fuel os st = Ok (u, st') ->
  nodes h_zero (heap st) -> nodes h_zero (heap st').
Proof.
  induction os as [|o os IH]; intros st u st' H HI.
  - injection H as _ <-. exact HI.
  - simpl in H. apply bindM_Ok in H as (u1 & st1 & H1 & H2).
    apply (IH _ _ _ H2). clear IH H2.
    assert (Hk : keeps h_zero (run_op fuel o) (fun _ => True)).
    { destruct o; simpl; keeps_go. }
    exact (proj1 (Hk _ _ _ H1 HI)).
Qed.

(** ** States built by the operations *)

Lemma reachable_index_inv st : reachable st -> index_inv (heap st).
Proof.
  intros (fuel & os & pl & Hu & Hrun).
  eapply run_ops_inv; [exact Hrun|exact Hu|]. apply index_inv_empty.
Qed.

Lemma reachable_h_zero st : reachable st -> nodes h_zero (heap st).
Proof.
  intros (fuel & os & pl & Hu & Hrun).
  eapply run_ops_h_zero; [exact Hrun|]. intros a x Hx. simpl in Hx.
  rewrite lookup_empty in Hx. discriminate.
Qed.

(** Two heaps with all heights 0 that agree up to heights are equal. *)
Lemma h_zero_ext (hp hp' : gmap addr TreeNode) :
  nodes h_zero hp -> nodes h_zero hp' ->
  (forall b, fld no_h hp' b = fld no_h hp b) -> hp' = hp.
Proof.
  intros H0 H0' Hf. apply map_eq. intros b. specialize (Hf b).
  unfold fld in Hf.
  destruct (hp' !! b) as [x'|] eqn:E', (hp !! b) as [x|] eqn:E;
    cbn -[no_h] in Hf; try discriminate; [|reflexivity].
  assert (En : no_h x' = no_h x) by congruence.
  pose proof (H0 _ _ E) as Hx. pose proof (H0' _ _ E') as Hx'.
  unfold h_zero in *. f_equal.
  destruct x, x'. unfold no_h, set_h in En. simpl in *. congruence.
Qed.

(** With all heights 0, [tree_update_height] changes nothing. *)
Lemma tree_update_height_loop_id fuel inner n st u st' :
  tree_update_height_loop fuel inner n st = Ok (u, st') ->
  nodes h_zero (heap st) -> st' = st.
Proof.
  intros H H0.
  pose proof (keeps_tree_update_height_loop fuel inner n _ _ _ H H0) as [H0' _].
  pose proof (tree_update_height_loop_frame _ _ _ _ _ _ H) as [Hp Hf].
  destruct st as [hp pl], st' as [hp' pl']. simpl in *. subst pl'.
  f_equal. apply h_zero_ext; auto.
Qed.

(** The height bookkeeping never records anything: in every state the
    operations build, each live node has stored height 0, so
    [tree_height] and [tree_height_node] answer 0 for every tree,
    whatever its shape. *)
Theorem stored_height_always_zero :
  forall (st : state) (a : addr) (x : TreeNode),
    reachable st -> heap st !! a = Some x ->
    h x = 0 /\
    tree_height (Some a) (heap st) = Ok 0 /\
    tree_height_node (Some a) (heap st) = Ok 0.
Proof.
  intros st a x Hr Hx. pose proof (reachable_h_zero st Hr a x Hx) as Hh.
  unfold h_zero in Hh. split; [exact Hh|].
  unfold tree_height, tree_height_node, bindR, retR, loadR.
  rewrite Hx, Hh. auto.
Qed.

Lemma stored_height_always_zero_witness :
  h (mkTreeNode None [Some 6; Some 5; Some 4; Some 4; None]%positive
       3 100 5 0 0) = 0 /\
  tree_height (Some 1%positive) (heap ex_built) = Ok 0 /\
  tree_height_node (Some 1%positive) (heap ex_built) = Ok 0.
Proof.
  apply (stored_height_always_zero ex_built 1%positive).
  - exists 8%nat, ex_ops, []. split.
    + repeat constructor; unfold UINT_MAX; simpl; lia.
    + vm_compute. reflexivity.
  - vm_compute. reflexivity.
Defined.

(** ** Parent steps *)

Lemma climbs_live (hp : gmap addr TreeNode) k a t :
  climbs hp k a t -> (0 < k)%nat -> exists x, hp !! a = Some x.
Proof.
  destruct k as [|k]; [lia|]. intros (_ & q & Hq & _) _.
  apply fld_Some in Hq as (x & Hx & _). eauto.
Qed.

Lemma climbs_reaches (hp : gmap addr TreeNode) k :
  forall a t, climbs hp k a t -> reaches hp (Some a) t.
Proof.
  induction k as [|k IH]; intros a t H.
  - simpl in H. subst. constructor.
  - destruct H as (_ & q & Hq & H). eapply reaches_up; eauto.
Qed.

Lemma climbs_anc_chain (hp : gmap addr TreeNode) k :
  forall a t, climbs hp k a t -> fld parent hp t = Some None ->
              anc_chain hp (Some a) (S k).
Proof.
  induction k as [|k IH]; intros a t H Ht.
  - simpl in H. subst. eapply anc_step; [exact Ht|constructor].
  - destruct H as (_ & q & Hq & H). eapply anc_step; [exact Hq|]. eauto.
Qed.

(** ** [tree_is_descendant_of], [tree_depth], [tree_level] *)

Lemma tree_is_descendant_of_climbs (hp : gmap addr TreeNode) k :
  forall a t fuel,
    climbs hp k a t -> (k < fuel)%nat ->
    tree_is_descendant_of fuel (Some a) (Some t) hp = Ok true.
Proof.
  induction k as [|k IH]; intros a t fuel H Hf;
    (destruct fuel as [|fuel]; [lia|]); simpl.
  - simpl in H. subst. rewrite decide_True by reflexivity.
    unfold retR. rewrite bool_decide_eq_true_2; reflexivity.
  - destruct H as (Hne & q & Hq & H).
    rewrite decide_False by congruence.
    apply fld_Some in Hq as (x & Hx & Hq).
    rewrite (bindR_Ok _ _ _ _ (loadR_Some _ _ _ Hx)), Hq.
    apply IH; [exact H|lia].
Qed.

Lemma tree_depth_loop_climbs (hp : gmap addr TreeNode) k :
  forall a t fuel d,
    climbs hp k a t -> (k < fuel)%nat ->
    0 <= d -> d + Z.of_nat k <= UINT_MAX ->
    tree_depth_loop fuel (Some t) (Some a) d hp = Ok (d + Z.of_nat k).
Proof.
  induction k as [|k IH]; intros a t fuel d H Hf Hd Hk;
    (destruct fuel as [|fuel]; [lia|]); simpl tree_depth_loop.
  - simpl in H. subst. rewrite decide_True by reflexivity.
    unfold retR. f_equal. lia.
  - destruct H as (Hne & q & Hq & H).
    rewrite decide_False by congruence.
    apply fld_Some in Hq as (x & Hx & Hq).
    rewrite (bindR_Ok _ _ _ _ (loadR_Some _ _ _ Hx)), Hq.
    rewrite uint_small by lia.
    rewrite (IH q t fuel (d + 1)); [f_equal; lia|exact H|lia|lia|lia].
Qed.

(** The depth of a node is the number of parent steps up to the root of
    the tree it is asked about, and its level is one more: when [t] is
    [k] steps above [a] (and [k] fits an [unsigned int] with room for one
    more), then with fuel above [k] the node is reported as a descendant,
    [t] as an ancestor, the depth is [k] and the level [k + 1]. *)
Theorem tree_depth_counts_parent_steps :
  forall (hp : gmap addr TreeNode) (k : nat) (a t : addr) (fuel : nat),
    climbs hp k a t -> (k < fuel)%nat -> Z.of_nat k < UINT_MAX ->
    tree_is_descendant_of fuel (Some a) (Some t) hp = Ok true /\
    tree_is_ancestor_of fuel (Some t) (Some a) hp = Ok true /\
    tree_depth fuel (Some t) (Some a) hp = Ok (Z.of_nat k) /\
    tree_level fuel (Some t) (Some a) hp = Ok (Z.of_nat k + 1).
Proof.
  intros hp k a t fuel H Hf Hk.
  pose proof (tree_is_descendant_of_climbs hp k a t fuel H Hf) as Hd.
  assert (Hdep : tree_depth fuel (Some t) (Some a) hp = Ok (Z.of_nat k)).
  { unfold tree_depth, tree_is_ancestor_of.
    rewrite (bindR_Ok _ _ _ _ Hd). simpl.
    rewrite (tree_depth_loop_climbs hp k a t fuel 0); auto; lia. }
  split; [exact Hd|]. split; [exact Hd|]. split; [exact Hdep|].
  unfold tree_level, tree_is_ancestor_of.
  rewrite (bindR_Ok _ _ _ _ Hd). simpl.
  rewrite (bindR_Ok _ _ _ _ Hdep). unfold retR.
  rewrite uint_small by lia. reflexivity.
Qed.

Lemma tree_depth_counts_parent_steps_witness :
  tree_is_descendant_of 8 (Some 4%positive) (Some 1%positive) (heap ex_deep)
    = Ok true /\
  tree_is_ancestor_of 8 (Some 1%positive) (Some 4%positive) (heap ex_deep)
    = Ok true /\
  tree_depth 8 (Some 1%positive) (Some 4%positive) (heap ex_deep) = Ok 3 /\
  tree_level 8 (Some 1%positive) (Some 4%positive) (heap ex_deep) = Ok 4.
Proof.
  apply (tree_depth_counts_parent_steps (heap ex_deep) 3 4%positive 1%positive 8).
  - simpl. split; [discriminate|]. exists 3%positive.
    split; [vm_compute; reflexivity|]. split; [discriminate|].
    exists 2%positive. split; [vm_compute; reflexivity|].
    split; [discriminate|]. exists 1%positive.
    split; [vm_compute; reflexivity|reflexivity].
  - lia.
  - unfold UINT_MAX. simpl. lia.
Defined.

(** ** [tree_abs_root] *)

Lemma climbs_up (hp : gmap addr TreeNode) j :
  forall k a b t,
    climbs hp k a t -> up hp j a = Some b -> (j <= k)%nat ->
    climbs hp (k - j) b t.
Proof.
  induction j as [|j IH]; intros k a b t H Hup Hle.
  - injection Hup as <-. rewrite Nat.sub_0_r. exact H.
  - destruct k as [|k]; [lia|]. destruct H as (_ & q & Hq & H).
    simpl in Hup. rewrite Hq in Hup. simpl. apply (IH k q b t H Hup). lia.
Qed.

Lemma tree_abs_root_loop_climbs (hp : gmap addr TreeNode) k :
  forall a r fuel b,
    climbs hp k a r -> fld parent hp r = Some None -> (S k < fuel)%nat ->
    tree_abs_root_loop fuel b (Some a) hp = Ok (Some r).
Proof.
  induction k as [|k IH]; intros a r fuel b H Hr Hf;
    (destruct fuel as [|fuel]; [lia|]); simpl.
  - simpl in H. subst. apply fld_Some in Hr as (x & Hx & Hr).
    rewrite (bindR_Ok _ _ _ _ (loadR_Some _ _ _ Hx)), Hr.
    destruct fuel as [|fuel]; [lia|]. reflexivity.
  - destruct H as (Hne & q & Hq & H).
    apply fld_Some in Hq as (x & Hx & Hq).
    rewrite (bindR_Ok _ _ _ _ (loadR_Some _ _ _ Hx)), Hq.
    apply IH; [exact H|exact Hr|lia].
Qed.

(** [tree_abs_root] climbs to the node without parent: when the parentless
    node [r] is [k] steps above [a], then with fuel above [k + 1] the
    answer for [a], for [r] itself and for every node on the way is [r],
    and [a] is reported as a descendant of [r].  For [NULL] the answer is
    [NULL]. *)
Theorem tree_abs_root_finds_the_root :
  forall (hp : gmap addr TreeNode) (k : nat) (a r : addr) (fuel : nat),
    climbs hp k a r -> fld parent hp r = Some None -> (S k < fuel)%nat ->
    tree_abs_root fuel (Some a) hp = Ok (Some r) /\
    (forall j b, (j <= k)%nat -> up hp j a = Some b ->
                 tree_abs_root fuel (Some b) hp = Ok (Some r)) /\
    tree_is_descendant_of fuel (Some a) (Some r) hp = Ok true /\
    tree_abs_root fuel None hp = Ok None.
Proof.
  intros hp k a r fuel H Hr Hf. split; [|split; [|split]].
  - apply (tree_abs_root_loop_climbs hp k); auto.
  - intros j b Hj Hup.
    apply (tree_abs_root_loop_climbs hp (k - j)); auto; [|lia].
    eapply climbs_up; eauto.
  - apply (tree_is_descendant_of_climbs hp k); auto. lia.
  - destruct fuel as [|fuel]; [lia|]. reflexivity.
Qed.

Lemma tree_abs_root_finds_the_root_witness :
  tree_abs_root 8 (Some 4%positive) (heap ex_deep) = Ok (Some 1%positive) /\
  (forall j b, (j <= 3)%nat -> up (heap ex_deep) j 4%positive = Some b ->
               tree_abs_root 8 (Some b) (heap ex_deep) = Ok (Some 1%positive)) /\
  tree_is_descendant_of 8 (Some 4%positive) (Some 1%positive) (heap ex_deep)
    = Ok true /\
  tree_abs_root 8 None (heap ex_deep) = Ok None.
Proof.
  apply (tree_abs_root_finds_the_root (heap ex_deep) 3 4%positive 1%positive 8).
  - simpl. split; [discriminate|]. exists 3%positive.
    split; [vm_compute; reflexivity|]. split; [discriminate|].
    exists 2%positive. split; [vm_compute; reflexivity|].
    split; [discriminate|]. exists 1%positive.
    split; [vm_compute; reflexivity|reflexivity].
  - vm_compute. reflexivity.
  - lia.
Defined.

(** ** The iterator over the parents *)

Lemma path_length (hp : gmap addr TreeNode) k :
  forall a t, climbs hp k a t -> length (path hp k a) = S k.
Proof.
  induction k as [|k IH]; intros a t H; [reflexivity|].
  destruct H as (_ & q & Hq & H). simpl. rewrite Hq. f_equal. eauto.
Qed.

Lemma path_last (hp : gmap addr TreeNode) k :
  forall a t, climbs hp k a t -> last (path hp k a) = Some (Some t).
Proof.
  induction k as [|k IH]; intros a t H.
  - simpl in H. subst. reflexivity.
  - destruct H as (_ & q & Hq & H). simpl path. rewrite Hq.
    rewrite <- (IH q t H). destruct k; simpl; [reflexivity|].
    destruct (fld parent hp q) as [[q'|]|]; reflexivity.
Qed.

Lemma parents_walk_climbs (hp : gmap addr TreeNode) k :
  forall a t fuel pv cu,
    climbs hp k a t -> (S k < fuel)%nat ->
    walk_forward fuel tree_iter_parents_next
      (mkTreeIterator (Some t) pv cu (Some a)) hp = Ok (path hp k a).
Proof.
  induction k as [|k IH]; intros a t fuel pv cu H Hf;
    (destruct fuel as [|fuel]; [lia|]); simpl walk_forward.
  - simpl in H. subst. unfold tree_iter_parents_next. simpl.
    rewrite decide_True by reflexivity. unfold bindR at 1, retR at 1. simpl.
    destruct fuel as [|fuel]; [lia|]. reflexivity.
  - destruct H as (Hne & q & Hq & H).
    pose proof Hq as Hq'. apply fld_Some in Hq' as (x & Hx & Hxq).
    unfold tree_iter_parents_next. simpl.
    rewrite decide_False by congruence.
    unfold bindR at 1. unfold bindR at 1.
    rewrite (loadR_Some _ _ _ Hx). unfold retR at 1. simpl. rewrite Hxq.
    rewrite (bindR_Ok _ _ _ _ (IH q t fuel _ _ H ltac:(lia))).
    rewrite Hq. reflexivity.
Qed.

(** The iterator set up by [tree_iter_parents t n] and advanced as long as
    [tree_iter_has_next] holds yields the way from [n] up to [t]: when [t]
    is [k] steps above [n], with fuel above [k + 1] it returns [k + 1]
    nodes, [n] first, each followed by its parent, [t] last. *)
Theorem parents_walk_yields_the_way_up :
  forall (hp : gmap addr TreeNode) (k : nat) (n t : addr) (fuel : nat),
    climbs hp k n t -> (S k < fuel)%nat ->
    walk_forward fuel tree_iter_parents_next
      (tree_iter_parents tree_iter_alloc (Some t) (Some n)) hp
    = Ok (path hp k n) /\
    length (path hp k n) = S k /\
    head (path hp k n) = Some (Some n) /\
    last (path hp k n) = Some (Some t).
Proof.
  intros hp k n t fuel H Hf. split; [|split; [|split]].
  - apply parents_walk_climbs; auto.
  - eapply path_length; eauto.
  - destruct k; reflexivity.
  - eapply path_last; eauto.
Qed.

Lemma parents_walk_yields_the_way_up_witness :
  walk_forward 8 tree_iter_parents_next
    (tree_iter_parents tree_iter_alloc (Some 1%positive) (Some 4%positive))
    (heap ex_deep)
  = Ok (path (heap ex_deep) 3 4%positive) /\
  length (path (heap ex_deep) 3 4%positive) = 4%nat /\
  head (path (heap ex_deep) 3 4%positive) = Some (Some 4%positive) /\
  last (path (heap ex_deep) 3 4%positive) = Some (Some 1%positive).
Proof.
  apply (parents_walk_yields_the_way_up (heap ex_deep) 3 4%positive 1%positive 8).
  - simpl. split; [discriminate|]. exists 3%positive.
    split; [vm_compute; reflexivity|]. split; [discriminate|].
    exists 2%positive. split; [vm_compute; reflexivity|].
    split; [discriminate|]. exists 1%positive.
    split; [vm_compute; reflexivity|reflexivity].
  - lia.
Defined.

Example parents_walk_ex_deep :
  path (heap ex_deep) 3 4%positive
  = [Some 4; Some 3; Some 2; Some 1]%positive.
Proof. vm_compute. reflexivity. Qed.

(** ** Moving between a node and its children *)

(** In every state the operations build, [tree_child] is the inverse of
    [tree_parent]: for [k] below the out-degree it returns a live node
    whose index is [k] and whose parent (asked about in any tree it is not
    the root of) is the node; from the out-degree on it returns [NULL].
    [tree_first_child] and [tree_last_child] are its values at the two
    ends, and a node is a leaf exactly when it has no first child. *)
Theorem tree_child_inverts_tree_parent :
  forall (st : state) (n : addr) (x : TreeNode),
    reachable st -> heap st !! n = Some x ->
    (forall k, 0 <= k < outDegree x ->
       exists c y,
         tree_child (Some n) k (heap st) = Ok (Some c) /\
         heap st !! c = Some y /\ i y = k /\
         tree_parent (Some c) (Some c) (heap st) = Ok None /\
         forall t, t <> Some c ->
                   tree_parent t (Some c) (heap st) = Ok (Some n)) /\
    (forall k, outDegree x <= k ->
       tree_child (Some n) k (heap st) = Ok None) /\
    tree_first_child (Some n) (heap st) = tree_child (Some n) 0 (heap st) /\
    tree_last_child (Some n) (heap st)
      = tree_child (Some n) (Z.max 0 (outDegree x - 1)) (heap st) /\
    (tree_is_leaf (Some n) (heap st) = Ok true <->
     tree_first_child (Some n) (heap st) = Ok None).
Proof.
  intros st n x Hr Hx. pose proof (reachable_index_inv st Hr) as Hinv.
  pose proof (proj1 Hinv _ _ Hx) as (_ & Hod0 & Hod & Hal & Hmax).
  assert (Hload : loadR (Some n) (heap st) = Ok x) by (apply loadR_Some; auto).
  assert (Hdeg : tree_out_degree (Some n) (heap st) = Ok (outDegree x)).
  { unfold tree_out_degree. rewrite (bindR_Ok _ _ _ _ Hload). reflexivity. }
  assert (Hchild : forall k, 0 <= k < outDegree x ->
            exists c y, tree_child (Some n) k (heap st) = Ok (Some c) /\
                        heap st !! c = Some y /\ parent y = Some n /\ i y = k).
  { intros k Hk.
    destruct (index_inv_children _ _ _ _ Hinv Hx Hk) as (c & y & Hc & Hy & Hp & Hi).
    exists c, y. split; [|auto].
    unfold tree_child. rewrite (bindR_Ok _ _ _ _ Hdeg).
    replace (outDegree x >? k) with true by (symmetry; apply Z.gtb_lt; lia).
    unfold read_childR. rewrite (bindR_Ok _ _ _ _ Hload), Hc. reflexivity. }
  assert (Hnone : forall k, outDegree x <= k ->
            tree_child (Some n) k (heap st) = Ok None).
  { intros k Hk. unfold tree_child. rewrite (bindR_Ok _ _ _ _ Hdeg).
    replace (outDegree x >? k) with false; [reflexivity|].
    rewrite Z.gtb_ltb. symmetry. apply Z.ltb_ge. lia. }
  assert (Hfirst : tree_first_child (Some n) (heap st)
                   = tree_child (Some n) 0 (heap st)).
  { unfold tree_first_child, tree_child. reflexivity. }
  split; [|split; [exact Hnone|split; [exact Hfirst|split]]].
  - intros k Hk. destruct (Hchild k Hk) as (c & y & Hc & Hy & Hp & Hi).
    exists c, y. split; [exact Hc|]. split; [exact Hy|]. split; [exact Hi|].
    unfold tree_parent. split.
    + rewrite decide_True by reflexivity. reflexivity.
    + intros t Ht. rewrite decide_False by exact Ht.
      rewrite (bindR_Ok _ _ _ _ (loadR_Some _ _ _ Hy)), Hp. reflexivity.
  - unfold tree_last_child, tree_child. rewrite !(bindR_Ok _ _ _ _ Hdeg).
    destruct (outDegree x >? 0) eqn:E.
    + apply Z.gtb_lt in E. rewrite uint_small by lia.
      rewrite Z.max_r by lia.
      replace (outDegree x >? outDegree x - 1) with true
        by (symmetry; apply Z.gtb_lt; lia).
      reflexivity.
    + rewrite Z.gtb_ltb in E. apply Z.ltb_ge in E. rewrite Z.max_l by lia.
      replace (outDegree x >? 0) with false; [reflexivity|].
      rewrite Z.gtb_ltb. symmetry. apply Z.ltb_ge. lia.
  - rewrite Hfirst. unfold tree_is_leaf. rewrite (bindR_Ok _ _ _ _ Hdeg).
    unfold retR. split.
    + intros [= E]. apply Z.eqb_eq in E. apply Hnone. lia.
    + intros E. destruct (decide (outDegree x = 0)) as [->|Hne]; [reflexivity|].
      destruct (Hchild 0 ltac:(lia)) as (c & y & Hc & _).
      rewrite Hc in E. discriminate.
Qed.

Lemma tree_child_inverts_tree_parent_witness :
  exists c y,
    tree_child (Some 1%positive) 1 (heap ex_built) = Ok (Some c) /\
    heap ex_built !! c = Some y /\ i y = 1 /\
    tree_parent (Some c) (Some c) (heap ex_built) = Ok None /\
    forall t, t <> Some c ->
              tree_parent t (Some c) (heap ex_built) = Ok (Some 1%positive).
Proof.
  assert (Hr : reachable ex_built).
  { exists 8%nat, ex_ops, []. split.
    - repeat constructor; unfold UINT_MAX; simpl; lia.
    - vm_compute. reflexivity. }
  assert (Hx : heap ex_built !! 1%positive
               = Some (mkTreeNode None
                         [Some 6; Some 5; Some 4; Some 4; None]%positive
                         3 100 5 0 0))
    by (vm_compute; reflexivity).
  destruct (tree_child_inverts_tree_parent ex_built 1%positive _ Hr Hx)
    as (H & _).
  apply (H 1). simpl. lia.
Defined.

(** ** Appending a child *)

Lemma tree_abs_root_loop_chain (hp : gmap addr TreeNode) f :
  forall b n r, tree_abs_root_loop f b n hp = Ok r -> anc_chain hp n f.
Proof.
  induction f as [|f IH]; intros b n r H; [discriminate|].
  simpl in H. destruct n as [a|]; [|constructor].
  apply bindR_inv in H as (x & Hx & H).
  unfold loadR in Hx. destruct (hp !! a) as [x'|] eqn:E; [|discriminate].
  injection Hx as ->. eapply anc_step; [apply fld_lookup; exact E|]. eauto.
Qed.

Lemma anc_chain_live (hp : gmap addr TreeNode) n b :
  reaches hp n b -> forall m, anc_chain hp n m -> exists x, hp !! b = Some x.
Proof.
  induction 1 as [a|a q b Hq Hr IH]; intros m Hc.
  - inversion Hc as [|a' q m' Hq Hc']; subst.
    apply fld_Some in Hq as (x & Hx & _). eauto.
  - inversion Hc as [|a' q' m' Hq' Hc']; subst.
    rewrite Hq in Hq'. injection Hq' as <-. eauto.
Qed.

(** With all heights 0, [append_child] does three stores and nothing else. *)
Lemma append_child_exact fuel a c0 st u st' x y l :
  append_child fuel (Some a) (Some c0) st = Ok (u, st') ->
  nodes h_zero (heap st) -> a <> c0 ->
  heap st !! a = Some x -> heap st !! c0 = Some y ->
  arr_set (children x) (outDegree x) (Some c0) = Some l ->
  heap st' =
    <[a := set_outDegree (set_children x l) (uint (outDegree x + 1))]>
      (<[c0 := set_i (set_parent y (Some a)) (outDegree x)]> (heap st)) /\
  plan st' = plan st.
Proof.
  unfold append_child. intros H H0 Hne Hx Hy Hl.
  step_load H as x0 Hx0. same_load Hx Hx0.
  step_write H as x0 l0 Hx0 Hl0. same_load Hx Hx0.
  rewrite Hl in Hl0. injection Hl0 as <-.
  step_load H as y1 Hy1. rewrite lookup_insert_ne in Hy1 by auto.
  same_load Hy Hy1.
  step_store H.
  step_load H as x1 Hx1.
  rewrite lookup_insert_ne, lookup_insert_eq in Hx1 by auto.
  injection Hx1 as <-.
  step_load H as y2 Hy2. rewrite lookup_insert_eq in Hy2. injection Hy2 as <-.
  step_store H.
  step_load H as x2 Hx2.
  rewrite !lookup_insert_ne, lookup_insert_eq in Hx2 by auto.
  injection Hx2 as <-. step_store H. simpl in H.
  apply tree_update_height_loop_id in H.
  - subst st'. simpl. split; [|reflexivity].
    rewrite insert_insert_eq.
    apply map_eq. intros b.
    destruct (decide (b = a)) as [->|Hba].
    { rewrite !lookup_insert_eq. reflexivity. }
    rewrite !(lookup_insert_ne _ a) by auto.
    destruct (decide (b = c0)) as [->|Hbc].
    { rewrite !lookup_insert_eq. reflexivity. }
    rewrite !lookup_insert_ne by auto. reflexivity.
  - simpl. intros b z Hb.
    destruct (decide (b = a)) as [->|Hba].
    { rewrite lookup_insert_eq in Hb. injection Hb as <-.
      exact (H0 _ _ Hx). }
    rewrite lookup_insert_ne in Hb by auto.
    rewrite insert_insert_eq in Hb.
    destruct (decide (b = c0)) as [->|Hbc].
    { rewrite lookup_insert_eq in Hb. injection Hb as <-.
      exact (H0 _ _ Hy). }
    rewrite !lookup_insert_ne in Hb by auto. eauto.
Qed.

Lemma tree_children_grow_min_size_plan n s st b st' :
  tree_children_grow_min_size n s st = Ok (b, st') ->
  plan st = [] -> b = true /\ plan st' = [].
Proof.
  unfold tree_children_grow_min_size. intros H Hp.
  step_load H as x Hx.
  destruct (_alloced x >=? s); [injection H as <- <-; auto|].
  apply bindM_Ok in H as (ok & st1 & H1 & H).
  unfold alloc_ok in H1. rewrite Hp in H1. injection H1 as <- <-.
  step_store H. injection H as <- <-. auto.
Qed.

Lemma tree_alloc_total d st :
  exists c st', tree_alloc d st = Ok (c, st') /\
                (plan st = [] -> c <> None /\ plan st' = []).
Proof.
  unfold tree_alloc, malloc_node, bindM, alloc_ok.
  destruct (plan st) as [|[|] pl] eqn:E; simpl.
  - eexists _, _. split; [reflexivity|]. intros _. split; [discriminate|].
    simpl. exact E.
  - eexists _, _. split; [reflexivity|]. discriminate.
  - eexists _, _. split; [reflexivity|]. discriminate.
Qed.

(** [tree_add_child] in a state the operations built, on a node [n] whose
    parent chain ends (here: [tree_abs_root] returns) and that has fewer
    than [UINT_MAX] children.  With enough fuel the call returns.  If it
    returns a node, that node is new, holds the payload, is a leaf with
    parent [n] and index the old out-degree, and sits in the cell after
    the old children; [n] has one child more.  If it returns [NULL] the
    out-degree is as before.  Either way the old cells of [n], its
    parent, payload and index, and every other node are as before; with an
    allocator that never fails the result is not [NULL]. *)
Theorem tree_add_child_appends_a_leaf :
  forall (st : state) (n : addr) (x : TreeNode) (d : TreeNodeValue)
         (f : nat) (r0 : ptr),
    reachable st ->
    heap st !! n = Some x -> outDegree x < UINT_MAX ->
    tree_abs_root f (Some n) (heap st) = Ok r0 ->
    exists F : nat, forall fuel, (F <= fuel)%nat ->
    exists r st',
      tree_add_child fuel (Some n) d st = Ok (r, st') /\
      (plan st = [] -> r <> None) /\
      (forall b, b <> n -> Some b <> r -> heap st' !! b = heap st !! b) /\
      fld parent (heap st') n = Some (parent x) /\
      fld data (heap st') n = Some (data x) /\
      fld i (heap st') n = Some (i x) /\
      (forall j, 0 <= j < outDegree x ->
                 cell (heap st') n j = cell (heap st) n j) /\
      match r with
      | Some c =>
          heap st !! c = None /\
          heap st' !! c
            = Some (mkTreeNode (Some n) [] 0 d 0 (outDegree x) 0) /\
          fld outDegree (heap st') n = Some (outDegree x + 1) /\
          cell (heap st') n (outDegree x) = Some (Some c)
      | None => fld outDegree (heap st') n = Some (outDegree x)
      end.
Proof.
  intros [hp pl] n x d f r0 Hr Hx Hsmall Habs. simpl in Hx, Habs.
  pose proof (reachable_index_inv _ Hr) as Hinv.
  pose proof (reachable_h_zero _ Hr) as H0. simpl in Hinv, H0.
  apply tree_abs_root_loop_chain in Habs as Hch.
  pose proof (proj1 Hinv _ _ Hx) as (_ & Hod0 & Hod & Hal & Hmax).
  exists (Nat.max (S f) (Z.to_nat (UINT_MAX + 2))). intros fuel Hfuel.
  assert (Hf1 : (f < fuel)%nat) by lia.
  assert (Hf2 : UINT_MAX + 1 < Z.of_nat fuel) by (unfold UINT_MAX in *; lia).
  unfold tree_add_child. rewrite (bind_load _ _ _ _ _ Hx).
  destruct (tree_children_grow_min_size_total n (uint (outDegree x + 1)) x hp pl Hx)
    as (ok & hpg & plg & Hg).
  rewrite (bind_ok _ _ _ _ _ Hg).
  pose proof (tree_children_grow_min_size_inv _ _ _ _ _ Hg (uint_range _) Hinv)
    as Hinvg.
  pose proof (keeps_tree_children_grow_min_size _ _ _ _ _ Hg H0) as [H0g _].
  pose proof (tree_children_grow_min_size_frame _ _ _ _ _ Hg)
    as (Epar & _ & _ & Hfail).
  pose proof (tree_children_grow_min_size_effect _ _ _ _ _ _ Hg Hx Hal
                (proj1 (uint_range _)))
    as (Eoth & _ & xg & Hxg & Hxgp & Hxgi & _ & Hxgd & Hxgod & Hxgal & Hxgc).
  pose proof (tree_children_grow_min_size_plan _ _ _ _ _ Hg) as Hplan.
  simpl in Hinvg, H0g, Epar, Hfail, Eoth, Hxg, Hplan.
  assert (Hcells : forall j, 0 <= j < outDegree x ->
            cell hpg n j = cell hp n j).
  { intros j Hj. rewrite (cell_lookup _ _ _ _ Hxg), (cell_lookup _ _ _ _ Hx).
    apply Hxgc. lia. }
  destruct ok.
  2:{ exists None, (mkState hpg plg). split; [reflexivity|].
      split; [intros Hp; destruct (Hplan Hp); discriminate|]. simpl.
      split; [intros b Hb _; apply Eoth; exact Hb|].
      rewrite !(fld_lookup _ _ _ _ Hxg), Hxgp, Hxgd, Hxgi, Hxgod. auto. }
  rewrite uint_small in Hxgal by lia. specialize (Hxgal eq_refl).
  destruct (tree_alloc_total d (mkState hpg plg)) as (c & [hp2 pl2] & Hc & Hcp).
  rewrite (bind_ok _ _ _ _ _ Hc).
  pose proof (tree_alloc_spec _ _ _ _ Hc Hinvg) as [Hinv2 Hc2].
  pose proof (keeps_tree_alloc _ _ _ _ Hc H0g) as [H02 _].
  simpl in Hinv2, Hc2, H02, Hcp.
  destruct c as [c|].
  2:{ subst hp2. exists None, (mkState hpg pl2). split; [reflexivity|].
      split; [intros Hp; destruct (Hplan Hp) as [_ Hp']; destruct (Hcp Hp');
              congruence|]. simpl.
      split; [intros b Hb _; apply Eoth; exact Hb|].
      rewrite !(fld_lookup _ _ _ _ Hxg), Hxgp, Hxgd, Hxgi, Hxgod. auto. }
  destruct Hc2 as [Hfresh ->].
  assert (Hnc : n <> c) by (intros ->; congruence).
  assert (Hfresh0 : hp !! c = None) by (rewrite <- Eoth by auto; exact Hfresh).
  assert (Hxg2 : <[c:=mkTreeNode None [] 0 d 0 0 0]> hpg !! n = Some xg)
    by (rewrite lookup_insert_ne by auto; exact Hxg).
  assert (Hsame : forall a, reaches hp (Some n) a ->
            fld parent (<[c:=mkTreeNode None [] 0 d 0 0 0]> hpg) a
            = fld parent hp a).
  { intros a Ha. destruct (anc_chain_live _ _ _ Ha _ Hch) as (z & Hz).
    rewrite fld_insert. rewrite decide_False by congruence. apply Epar. }
  destruct (append_child_total fuel n c xg (mkTreeNode None [] 0 d 0 0 0) f
              (<[c:=mkTreeNode None [] 0 d 0 0 0]> hpg) pl2)
    as [hp3 Happ]; auto; try lia.
  { apply lookup_insert_eq. }
  { eapply anc_chain_view; [exact Hsame|exact Hch]. }
  { intros Hreach. eapply reaches_view in Hreach; [|exact Hsame].
    destruct (anc_chain_live _ _ _ Hreach _ Hch) as (z & Hz). congruence. }
  rewrite (bind_ok _ _ _ _ _ Happ).
  pose proof (proj1 Hinvg _ _ Hxg) as (_ & _ & _ & Halg & _).
  destruct (arr_set_in_range (children xg) (outDegree xg) (Some c)) as [l Hl];
    [lia|].
  assert (Hc2 : <[c:=mkTreeNode None [] 0 d 0 0 0]> hpg !! c
                = Some (mkTreeNode None [] 0 d 0 0 0))
    by apply lookup_insert_eq.
  pose proof (append_child_exact _ _ _ _ _ _ _ _ _ Happ H02 Hnc Hxg2 Hc2 Hl)
    as [Hhp3 _].
  simpl in Hhp3. rewrite insert_insert_eq in Hhp3. subst hp3.
  eexists (Some c), _. split; [reflexivity|].
  split; [discriminate|]. simpl.
  split.
  { intros b Hb Hbc. assert (b <> c) by congruence.
    rewrite !lookup_insert_ne by auto. apply Eoth. exact Hb. }
  rewrite !fld_insert, !decide_True by reflexivity. simpl.
  rewrite Hxgp, Hxgd, Hxgi, Hxgod.
  split; [reflexivity|]. split; [reflexivity|]. split; [reflexivity|].
  split.
  { intros j Hj. rewrite cell_insert, decide_True by reflexivity. simpl.
    rewrite <- Hcells by exact Hj. rewrite (cell_lookup _ _ _ _ Hxg).
    eapply arr_get_set_ne; [exact Hl|]. rewrite Hxgod. lia. }
  split; [exact Hfresh0|].
  split.
  { rewrite lookup_insert_ne, lookup_insert_eq by auto. reflexivity. }
  split; [rewrite uint_small by lia; reflexivity|].
  rewrite cell_insert, decide_True by reflexivity. simpl.
  rewrite <- Hxgod. eapply arr_get_set_eq. exact Hl.
Qed.

Lemma tree_add_child_appends_a_leaf_witness :
  exists F : nat, forall fuel, (F <= fuel)%nat ->
  exists c st',
    tree_add_child fuel (Some 1%positive) 77 ex_two_trees = Ok (Some c, st') /\
    heap ex_two_trees !! c = None /\
    heap st' !! c = Some (mkTreeNode (Some 1%positive) [] 0 77 0 1 0) /\
    fld outDegree (heap st') 1%positive = Some 2 /\
    cell (heap st') 1%positive 1 = Some (Some c) /\
    cell (heap st') 1%positive 0 = Some (Some 2%positive).
Proof.
  destruct (tree_add_child_appends_a_leaf ex_two_trees 1%positive
              (mkTreeNode None [Some 2%positive] 1 100 1 0 0) 77 3
              (Some 1%positive)) as [F H].
  - exists 8%nat,
      [OpAlloc 100; OpAddChild (Some 1%positive) 10; OpAlloc 200], [].
    split; [repeat constructor|vm_compute; reflexivity].
  - vm_compute. reflexivity.
  - unfold UINT_MAX. simpl. lia.
  - vm_compute. reflexivity.
  - exists F. intros fuel Hf.
    destruct (H fuel Hf) as (r & st' & Hrun & Hnn & _ & _ & _ & _ & Hcells & Hr).
    destruct r as [c|]; [|exfalso; apply Hnn; reflexivity].
    destruct Hr as (Hfresh & Hc & Hd & Hcell).
    exists c, st'. repeat split; auto.
    rewrite Hcells by (simpl; lia). vm_compute. reflexivity.
Defined.

(** ** Detaching a node *)

(** The shifting loop touches the parent and the children in the cells
    behind the hole, nothing else. *)
Lemma remove_child_shift_others fuel a d k st u st' :
  remove_child_shift fuel (Some a) k st = Ok (u, st') ->
  fld outDegree (heap st) a = Some d -> 1 <= d -> 0 <= k <= d ->
  hole_inv (heap st) a k ->
  forall b, b <> a ->
    (forall j, k < j < d -> cell (heap st) a j <> Some (Some b)) ->
    heap st' !! b = heap st !! b.
Proof.
  revert k st. induction fuel as [|f IH]; intros k st H Hd Hd1 Hk Hinv b Hb Hnot;
    [discriminate|].
  simpl in H. step_load H as x Hx.
  pose proof Hd as Hd'. rewrite (fld_lookup _ _ _ _ Hx) in Hd'.
  injection Hd' as Hd'. rewrite Hd' in H.
  pose proof (proj1 Hinv _ _ Hx) as (_ & _ & Hod & Hal & Hmax).
  rewrite (uint_small (d - 1)) in H by lia.
  destruct (k <? d - 1) eqn:Hlt.
  - apply Z.ltb_lt in Hlt.
    rewrite (uint_small (k + 1)) in H by lia.
    step_read H as e He.
    step_write H as x0 l Hx0 Hl. same_load Hx Hx0.
    step_read H as e' He'.
    step_load H as y Hy. step_store H.
    views in He'. decide_eq. simpl in He'.
    rewrite (arr_get_set_eq _ _ _ _ Hl) in He'. injection He' as ->.
    assert (Hb0 : b <> a0).
    { intros ->. apply (Hnot (k + 1)); [lia|exact He]. }
    rewrite (IH _ _ H); auto; try lia.
    + simpl. rewrite !lookup_insert_ne by congruence. reflexivity.
    + simpl. views. exact Hd.
    + simpl. eapply hole_inv_shift; eauto. lia.
    + intros j Hj. simpl. views. decide_eq. simpl.
      rewrite (arr_get_set_ne _ _ _ _ _ Hl) by lia.
      rewrite <- (cell_lookup _ _ _ _ Hx). apply Hnot. lia.
  - injection H as <- <-. reflexivity.
Qed.

Lemma remove_child_shift_plan fuel p : forall k st u st',
  remove_child_shift fuel p k st = Ok (u, st') -> plan st' = plan st.
Proof.
  induction fuel as [|f IH]; intros k st u st' H; [discriminate|].
  simpl in H. step_load H as x Hx.
  destruct (k <? uint (outDegree x - 1)).
  - step_read H as e He. step_write H as x0 l Hx0 Hl.
    step_read H as e' He'. step_load H as y Hy. step_store H.
    apply IH in H. exact H.
  - injection H as _ <-. reflexivity.
Qed.

Lemma tree_node_remove_child_others fuel c a d k st u st' :
  tree_node_remove_child fuel (Some c) st = Ok (u, st') ->
  index_inv (heap st) ->
  fld parent (heap st) c = Some (Some a) ->
  fld outDegree (heap st) a = Some d -> 0 <= k < d ->
  cell (heap st) a k = Some (Some c) ->
  plan st' = plan st /\
  forall b, b <> a ->
    (forall j, k < j < d -> cell (heap st) a j <> Some (Some b)) ->
    heap st' !! b = heap st !! b.
Proof.
  unfold tree_node_remove_child. intros H Hinv Hpar Hd Hk Hc.
  step_load H as y Hy.
  pose proof Hpar as Hpar'. rewrite (fld_lookup _ _ _ _ Hy) in Hpar'.
  injection Hpar' as Hpar'. rewrite Hpar' in H.
  apply bindM_Ok in H as (k' & st1 & Hfind & H).
  pose proof (remove_child_find_state _ _ _ _ _ _ _ Hfind) as ->.
  pose proof (index_inv_od_bound _ _ _ Hinv Hd) as Hdb.
  eapply remove_child_find_spec in Hfind as (_ & Hk0 & Hnotc & Hend);
    [|exact Hd|lia|lia].
  assert (k' = k) as ->.
  { destruct Hend as [[Hlt Hend]|[Hge _]].
    - destruct (index_inv_slot _ _ _ k' Hinv Hd ltac:(lia)) as (c1 & Hc1 & _ & Hi1).
      destruct (index_inv_slot _ _ _ k Hinv Hd ltac:(lia)) as (c2 & Hc2 & _ & Hi2).
      rewrite Hend in Hc1. injection Hc1 as <-.
      rewrite Hc in Hc2. injection Hc2 as <-.
      rewrite Hi1 in Hi2. injection Hi2 as ->. reflexivity.
    - exfalso. apply (Hnotc k); [lia|exact Hc]. }
  step_write H as x l Hx Hl.
  apply bindM_Ok in H as (u1 & st2 & Hshift & H).
  assert (Hd2 : fld outDegree (<[a:=set_children x l]> (heap st)) a = Some d)
    by (views; exact Hd).
  assert (Hh : hole_inv (<[a:=set_children x l]> (heap st)) a k)
    by (eapply hole_inv_write; eauto).
  pose proof (remove_child_shift_others _ _ _ _ _ _ _ Hshift Hd2
                ltac:(lia) ltac:(lia) Hh) as Hoth.
  pose proof (remove_child_shift_plan _ _ _ _ _ _ Hshift) as Hplan.
  simpl in Hplan.
  step_load H as x2 Hx2. final_store H. simpl.
  split; [exact Hplan|].
  intros b Hb Hnot. rewrite lookup_insert_ne by congruence.
  simpl in Hoth. rewrite Hoth; auto.
  - rewrite lookup_insert_ne by congruence. reflexivity.
  - intros j Hj. views. decide_eq. simpl.
    rewrite (arr_get_set_ne _ _ _ _ _ Hl) by lia.
    rewrite <- (cell_lookup _ _ _ _ Hx). apply Hnot. exact Hj.
Qed.

(** A parent chain that ends does not come back to where it started. *)
Lemma anc_chain_suffix (hp : gmap addr TreeNode) n b :
  reaches hp n b -> forall m, anc_chain hp n m -> anc_chain hp (Some b) m.
Proof.
  induction 1 as [a|a q b Hq Hr IH]; intros m Hc; [exact Hc|].
  inversion Hc as [|a' q' m' Hq' Hc']; subst.
  rewrite Hq in Hq'. injection Hq' as <-.
  apply anc_chain_mono with (m := m'); [|lia]. apply IH. exact Hc'.
Qed.

Lemma anc_chain_no_cycle (hp : gmap addr TreeNode) m :
  forall b q, anc_chain hp (Some b) m -> fld parent hp b = Some q ->
              ~ reaches hp q b.
Proof.
  induction m as [|m IH]; intros b q Hc Hq Hr.
  - inversion Hc.
  - inversion Hc as [|a' q' m' Hq' Hc']; subst.
    rewrite Hq in Hq'. injection Hq' as <-.
    eapply (IH b q); [|exact Hq|exact Hr].
    eapply anc_chain_suffix; eauto.
Qed.

(** Of the parent, the shifting loop rewrites the child array only. *)
Lemma remove_child_shift_self fuel a d k st u st' :
  remove_child_shift fuel (Some a) k st = Ok (u, st') ->
  fld outDegree (heap st) a = Some d -> 1 <= d -> 0 <= k <= d ->
  hole_inv (heap st) a k ->
  fld parent (heap st) a <> Some (Some a) ->
  fld no_kids (heap st') a = fld no_kids (heap st) a.
Proof.
  revert k st. induction fuel as [|f IH]; intros k st H Hd Hd1 Hk Hinv Hself;
    [discriminate|].
  simpl in H. step_load H as x Hx.
  pose proof Hd as Hd'. rewrite (fld_lookup _ _ _ _ Hx) in Hd'.
  injection Hd' as Hd'. rewrite Hd' in H.
  pose proof (proj1 Hinv _ _ Hx) as (_ & _ & Hod & Hal & Hmax).
  rewrite (uint_small (d - 1)) in H by lia.
  destruct (k <? d - 1) eqn:Hlt.
  - apply Z.ltb_lt in Hlt.
    rewrite (uint_small (k + 1)) in H by lia.
    step_read H as e He.
    step_write H as x0 l Hx0 Hl. same_load Hx Hx0.
    step_read H as e' He'.
    step_load H as y Hy. step_store H.
    views in He'. decide_eq. simpl in He'.
    rewrite (arr_get_set_eq _ _ _ _ Hl) in He'. injection He' as ->.
    destruct (proj2 Hinv a (k + 1)) as (c1 & Hc1 & Hp1 & Hi1).
    { split; [exists d; split; [auto|lia]|]. intros [_ ?]. lia. }
    rewrite He in Hc1. injection Hc1 as <-.
    assert (Hne : a <> a0) by (intros ->; tauto).
    rewrite (IH _ _ H); auto; try lia.
    + simpl. rewrite fld_insert. rewrite decide_False by auto.
      rewrite fld_insert. rewrite decide_True by reflexivity.
      rewrite (fld_lookup _ _ _ _ Hx). reflexivity.
    + simpl. views. exact Hd.
    + simpl. eapply hole_inv_shift; eauto. lia.
    + simpl. views. exact Hself.
  - injection H as <- <-. reflexivity.
Qed.

Lemma tree_node_remove_child_self fuel c a st u st' x :
  tree_node_remove_child fuel (Some c) st = Ok (u, st') ->
  index_inv (heap st) ->
  fld parent (heap st) c = Some (Some a) ->
  heap st !! a = Some x -> parent x <> Some a ->
  exists l, heap st' !! a
            = Some (set_outDegree (set_children x l) (outDegree x - 1)).
Proof.
  unfold tree_node_remove_child. intros H Hinv Hpar Hx Hself.
  step_load H as y Hy.
  pose proof Hpar as Hpar'. rewrite (fld_lookup _ _ _ _ Hy) in Hpar'.
  injection Hpar' as Hpar'. rewrite Hpar' in H.
  apply bindM_Ok in H as (k & st1 & Hfind & H).
  pose proof (remove_child_find_state _ _ _ _ _ _ _ Hfind) as ->.
  pose proof (fld_lookup outDegree _ _ _ Hx) as Hd.
  pose proof (index_inv_od_bound _ _ _ Hinv Hd) as Hdb.
  eapply remove_child_find_spec in Hfind as (_ & Hk0 & Hnotc & Hend);
    [|exact Hd|lia|lia].
  step_write H as x0 l Hx0 Hl. same_load Hx Hx0.
  pose proof (proj1 Hinv _ _ Hx) as (_ & Hod0 & Hod & Hal & Hmax).
  assert (Hk : 0 <= k < Z.of_nat (length (children x)))
    by (apply arr_set_Some in Hl; tauto).
  apply bindM_Ok in H as (u1 & st2 & Hshift & H).
  destruct (decide (outDegree x = 0)) as [Hz|Hnz].
  { exfalso.
    eapply (remove_child_shift_empty _ _ _ _ _ (_alloced x));
      [| |exact Hmax| |exact Hshift].
    - simpl. views. rewrite Hd, Hz. reflexivity.
    - simpl. rewrite fld_insert. destruct (decide (a = a)); [|tauto]. simpl.
      rewrite (arr_set_length _ _ _ _ Hl). congruence.
    - lia. }
  assert (Hkd : k <= outDegree x) by (destruct Hend as [[? ?]|[? ?]]; lia).
  eapply remove_child_shift_self in Hshift;
    [|simpl; views; exact Hd|lia|lia|simpl; eapply hole_inv_write; eauto|].
  2:{ simpl. views. rewrite (fld_lookup _ _ _ _ Hx). congruence. }
  simpl in Hshift. rewrite fld_insert, decide_True in Hshift by reflexivity.
  step_load H as x2 Hx2. final_store H. simpl.
  rewrite (fld_lookup _ _ _ _ Hx2) in Hshift. injection Hshift as Hshift.
  exists (children x2). rewrite lookup_insert_eq. f_equal.
  rewrite uint_small by lia.
  destruct x, x2. unfold no_kids, set_children, set_outDegree in *.
  simpl in *. congruence.
Qed.

Lemma tree_child_cell (hp : gmap addr TreeNode) p k c :
  tree_child (Some p) k hp = Ok (Some c) ->
  exists x, hp !! p = Some x /\ 0 <= k < outDegree x /\
            cell hp p k = Some (Some c).
Proof.
  unfold tree_child. intros H.
  apply bindR_inv in H as (od & Hod & H).
  unfold tree_out_degree in Hod. apply bindR_inv in Hod as (x & Hx & Hod).
  injection Hod as <-.
  unfold loadR in Hx. destruct (hp !! p) as [x'|] eqn:E; [|discriminate].
  injection Hx as ->.
  destruct (outDegree x >? k) eqn:Hk; [|discriminate].
  apply Z.gtb_lt in Hk.
  unfold read_childR, bindR, loadR in H. rewrite E in H.
  destruct (arr_get (children x) k) as [e|] eqn:He; [|discriminate].
  injection H as ->. exists x. split; [reflexivity|].
  pose proof (proj1 (arr_get_Some _ _ _) He) as [Hk0 _].
  rewrite (cell_lookup _ _ _ _ E). split; [lia|exact He].
Qed.

Lemma tree_remove_full :
  forall (st : state) (c p : addr) (y x : TreeNode) (f : nat) (r0 : ptr),
    index_inv (heap st) -> nodes h_zero (heap st) ->
    heap st !! c = Some y -> parent y = Some p -> heap st !! p = Some x ->
    tree_child (Some p) (i y) (heap st) = Ok (Some c) ->
    tree_abs_root f (Some c) (heap st) = Ok r0 ->
    exists F : nat, forall fuel, (F <= fuel)%nat ->
    exists st',
      tree_remove fuel (Some c) st = Ok (Some c, st') /\
      heap st' !! c = Some (set_i (set_parent y None) 0) /\
      (exists l, heap st' !! p
                 = Some (set_outDegree (set_children x l) (outDegree x - 1))) /\
      (forall j, 0 <= j < i y -> cell (heap st') p j = cell (heap st) p j) /\
      (forall j, i y <= j < outDegree x - 1 ->
                 cell (heap st') p j = cell (heap st) p (j + 1)) /\
      (forall j m ym, i y < j < outDegree x ->
         cell (heap st) p j = Some (Some m) -> heap st !! m = Some ym ->
         heap st' !! m = Some (set_i ym (j - 1))) /\
      (forall b, b <> c -> b <> p ->
         (forall j, i y < j < outDegree x ->
                    cell (heap st) p j <> Some (Some b)) ->
         heap st' !! b = heap st !! b) /\
      tree_remove fuel (Some c) st' = Ok (Some c, st').
Proof.
  intros [hp pl] c p y x f r0 Hinv H0 Hy Hyp Hx Hchild Habs.
  simpl in Hinv, H0, Hy, Hx, Hchild, Habs.
  apply tree_abs_root_loop_chain in Habs as Hch.
  apply tree_child_cell in Hchild as (x' & Hx' & Hk & Hcell).
  rewrite Hx in Hx'. injection Hx' as <-.
  assert (Hpc : fld parent hp c = Some (Some p))
    by (rewrite (fld_lookup _ _ _ _ Hy), Hyp; reflexivity).
  assert (Hd : fld outDegree hp p = Some (outDegree x))
    by (apply fld_lookup; exact Hx).
  pose proof (index_inv_od_bound _ _ _ Hinv Hd) as Hdb.
  assert (Hchp : anc_chain hp (Some p) f).
  { inversion Hch as [|a' q' m' Hq' Hc']; subst.
    rewrite Hpc in Hq'. injection Hq' as <-.
    eapply anc_chain_mono; [exact Hc'|lia]. }
  assert (Hnr : ~ reaches hp (Some p) c)
    by (eapply anc_chain_no_cycle; eauto).
  assert (Hcp : c <> p) by (intros ->; apply Hnr; constructor).
  assert (Hpself : parent x <> Some p).
  { intros E. eapply (anc_chain_no_cycle hp f p (Some p)); eauto.
    - rewrite (fld_lookup _ _ _ _ Hx), E. reflexivity.
    - constructor. }
  assert (Huniq : forall j, 0 <= j < outDegree x -> j <> i y ->
            cell hp p j <> Some (Some c)).
  { intros j Hj Hne E.
    destruct (index_inv_slot _ _ _ j Hinv Hd Hj) as (cj & Hcj & _ & Hij).
    rewrite E in Hcj. injection Hcj as <-.
    rewrite (fld_lookup _ _ _ _ Hy) in Hij. congruence. }
  exists (Nat.max (S f) (Z.to_nat (UINT_MAX + 2))).
  intros fuel Hfuel.
  assert (Hf2 : (f < fuel)%nat) by lia.
  assert (Hf3 : UINT_MAX + 1 < Z.of_nat fuel).
  { assert (Z.of_nat (Z.to_nat (UINT_MAX + 2)) = UINT_MAX + 2)
      by (apply Z2Nat.id; unfold UINT_MAX; lia).
    lia. }
  assert (Hf1 : outDegree x < Z.of_nat fuel) by lia.
  destruct (tree_remove_total fuel c p (outDegree x) (i y) f hp pl
              Hinv Hpc Hd Hk Hcell Hchp Hf1 Hf2 Hf3) as [st' Hrm].
  exists st'. split; [exact Hrm|].
  (* what the call did *)
  pose proof Hrm as H. unfold tree_remove in H.
  step_load H as y0 Hy0. same_load Hy Hy0. rewrite Hyp in H.
  apply bindM_Ok in H as (u1 & st1 & Hnrc & H).
  pose proof (tree_node_remove_child_spec _ _ _ _ _ _ Hnrc Hinv Hpc)
    as (Hinv1 & _ & Epar & Hfun).
  destruct (Hfun _ _ Hd Hk Hcell) as (Hd1 & Elo & Ehi).
  pose proof (tree_node_remove_child_others _ _ _ _ _ _ _ _ Hnrc Hinv Hpc
                Hd Hk Hcell) as [_ Eoth].
  pose proof (tree_node_remove_child_frame _ _ _ _ _ _ Hnrc Hinv Hpc)
    as [_ Enoi].
  destruct (tree_node_remove_child_self _ _ _ _ _ _ _ Hnrc Hinv Hpc Hx Hpself)
    as [l Hp1].
  pose proof (keeps_tree_node_remove_child _ _ _ _ _ Hnrc H0) as [H01 _].
  simpl in Epar, Elo, Ehi, Eoth, Enoi, Hd1.
  assert (Hc1 : heap st1 !! c = Some y).
  { rewrite Eoth; auto. intros j Hj. apply Huniq; lia. }
  step_load H as x1 Hx1. same_load Hc1 Hx1. rewrite Hyp in H.
  apply bindM_Ok in H as (u2 & st2 & Hup & H).
  apply tree_update_height_loop_id in Hup; [|exact H01]. subst st2.
  step_load H as x2 Hx2. same_load Hc1 Hx2.
  step_store H. step_load H as x3 Hx3.
  rewrite lookup_insert_eq in Hx3. injection Hx3 as <-.
  step_store H. injection H as <-. simpl.
  rewrite insert_insert_eq.
  split; [apply lookup_insert_eq|].
  split; [exists l; rewrite lookup_insert_ne by auto; exact Hp1|].
  split.
  { intros j Hj. rewrite cell_insert, decide_False by auto. apply Elo. exact Hj. }
  split.
  { intros j Hj. rewrite cell_insert, decide_False by auto. apply Ehi. exact Hj. }
  split.
  { intros j m ym Hj Hm Hym.
    assert (Hmc : m <> c) by (intros ->; eapply (Huniq j); eauto; lia).
    assert (Hmp : m <> p).
    { intros ->. destruct (index_inv_slot _ _ _ j Hinv Hd ltac:(lia))
        as (cj & Hcj & Hpj & _).
      rewrite Hm in Hcj. injection Hcj as <-.
      rewrite (fld_lookup _ _ _ _ Hx) in Hpj. congruence. }
    rewrite lookup_insert_ne by auto.
    assert (Hd1' : fld outDegree (heap st1) p = Some (outDegree x - 1))
      by exact Hd1.
    destruct (index_inv_slot _ _ _ (j - 1) Hinv1 Hd1' ltac:(lia))
      as (m' & Hm' & _ & Him').
    rewrite Ehi in Hm' by lia. replace (j - 1 + 1) with j in Hm' by lia.
    rewrite Hm in Hm'. injection Hm' as <-.
    specialize (Enoi m Hmp). unfold fld in Enoi, Him'. rewrite Hym in Enoi.
    destruct (heap st1 !! m) as [zm|]; [|discriminate].
    simpl in Him'. injection Him' as Him'.
    assert (E : no_i zm = no_i ym) by (apply (inj Some); exact Enoi).
    f_equal. clear -E Him'. destruct zm, ym. unfold no_i, set_i in *.
    simpl in *. congruence. }
  split.
  { intros b Hbc Hbp Hnot. rewrite lookup_insert_ne by auto.
    apply Eoth; auto. }
  apply tree_remove_root with (y := set_i (set_parent y None) 0);
    [apply lookup_insert_eq|reflexivity].
Qed.

(** [tree_remove] in a state the operations built, on a node [c] that is
    the child of [p] at its stored index and whose parent chain ends.
    With enough fuel the call returns [c]; [c] is then rootless with index
    0 and otherwise as before; [p] has one child less, its cells before
    [c]'s are as before and each later child has moved one cell down with
    its index decremented; [p] is otherwise as before, and so is every
    other node.  A second [tree_remove] of [c] changes nothing. *)
Theorem tree_remove_detaches :
  forall (st : state) (c p : addr) (y x : TreeNode) (f : nat) (r0 : ptr),
    reachable st ->
    heap st !! c = Some y -> parent y = Some p -> heap st !! p = Some x ->
    tree_child (Some p) (i y) (heap st) = Ok (Some c) ->
    tree_abs_root f (Some c) (heap st) = Ok r0 ->
    exists F : nat, forall fuel, (F <= fuel)%nat ->
    exists st',
      tree_remove fuel (Some c) st = Ok (Some c, st') /\
      heap st' !! c = Some (set_i (set_parent y None) 0) /\
      (exists l, heap st' !! p
                 = Some (set_outDegree (set_children x l) (outDegree x - 1))) /\
      (forall j, 0 <= j < i y -> cell (heap st') p j = cell (heap st) p j) /\
      (forall j, i y <= j < outDegree x - 1 ->
                 cell (heap st') p j = cell (heap st) p (j + 1)) /\
      (forall j m ym, i y < j < outDegree x ->
         cell (heap st) p j = Some (Some m) -> heap st !! m = Some ym ->
         heap st' !! m = Some (set_i ym (j - 1))) /\
      (forall b, b <> c -> b <> p ->
         (forall j, i y < j < outDegree x ->
                    cell (heap st) p j <> Some (Some b)) ->
         heap st' !! b = heap st !! b) /\
      tree_remove fuel (Some c) st' = Ok (Some c, st').
Proof.
  intros st c p y x f r0 Hr. apply tree_remove_full.
  - apply reachable_index_inv. exact Hr.
  - apply reachable_h_zero. exact Hr.
Qed.

Lemma tree_remove_detaches_witness :
  exists F : nat, forall fuel, (F <= fuel)%nat ->
  exists st',
    tree_remove fuel (Some 2%positive) ex_bushy = Ok (Some 2%positive, st') /\
    heap st' !! 2%positive
      = Some (mkTreeNode None [Some 5; Some 6]%positive 2 10 2 0 0) /\
    cell (heap st') 1%positive 0 = Some (Some 3%positive) /\
    heap st' !! 3%positive
      = Some (mkTreeNode (Some 1%positive) [] 0 20 0 0 0) /\
    heap st' !! 5%positive = heap ex_bushy !! 5%positive.
Proof.
  destruct (tree_remove_detaches ex_bushy 2%positive 1%positive
              (mkTreeNode (Some 1%positive) [Some 5; Some 6]%positive
                 2 10 2 0 0)
              (mkTreeNode None [Some 2; Some 3; Some 4]%positive 3 100 3 0 0)
              3 (Some 1%positive)) as [F H].
  - exists 8%nat,
      [OpAlloc 100; OpAddChild (Some 1%positive) 10;
       OpAddChild (Some 1%positive) 20; OpAddChild (Some 1%positive) 30;
       OpAddChild (Some 2%positive) 11; OpAddChild (Some 2%positive) 12], [].
    split; [repeat constructor|vm_compute; reflexivity].
  - vm_compute. reflexivity.
  - reflexivity.
  - vm_compute. reflexivity.
  - vm_compute. reflexivity.
  - vm_compute. reflexivity.
  - exists F. intros fuel Hf.
    destruct (H fuel Hf) as (st' & Hrun & Hc & _ & _ & Hhi & Hsib & Hoth & _).
    exists st'. split; [exact Hrun|]. split; [exact Hc|].
    split; [rewrite Hhi by (simpl; lia); vm_compute; reflexivity|].
    split.
    + apply (Hsib 1 3%positive (mkTreeNode (Some 1%positive) [] 0 20 0 1 0));
        [simpl; lia|vm_compute; reflexivity|vm_compute; reflexivity].
    + apply Hoth; [discriminate|discriminate|].
      intros j Hj. simpl in Hj.
      assert (j = 1 \/ j = 2) as [-> | ->] by lia; vm_compute; discriminate.
Defined.

(** ** Deleting a node *)

(** [tree_delete] of a node [c] that is the child of [p] at its stored
    index (parent chain ending, state built by the operations).  With
    enough fuel the call returns; [c] is then released and taken out of
    [p]'s children as by [tree_remove]; the children of [c] are not
    released: each is still live and unchanged, its parent pointer still
    naming the released node. *)
Theorem tree_delete_releases_one_node :
  forall (st : state) (c p : addr) (y x : TreeNode) (f : nat) (r0 : ptr),
    reachable st ->
    heap st !! c = Some y -> parent y = Some p -> heap st !! p = Some x ->
    tree_child (Some p) (i y) (heap st) = Ok (Some c) ->
    tree_abs_root f (Some c) (heap st) = Ok r0 ->
    exists F : nat, forall fuel, (F <= fuel)%nat ->
    exists st',
      tree_delete fuel (Some c) st = Ok (tt, st') /\
      heap st' !! c = None /\
      (exists l, heap st' !! p
                 = Some (set_outDegree (set_children x l) (outDegree x - 1))) /\
      (forall j, 0 <= j < i y -> cell (heap st') p j = cell (heap st) p j) /\
      (forall j, i y <= j < outDegree x - 1 ->
                 cell (heap st') p j = cell (heap st) p (j + 1)) /\
      (forall j, 0 <= j < outDegree y ->
         exists m ym,
           cell (heap st) c j = Some (Some m) /\
           heap st' !! m = Some ym /\ heap st !! m = Some ym /\
           parent ym = Some c).
Proof.
  intros st c p y x f r0 Hr Hy Hyp Hx Hchild Habs.
  pose proof (reachable_index_inv _ Hr) as Hinv.
  pose proof (reachable_h_zero _ Hr) as H0.
  destruct (tree_remove_full st c p y x f r0 Hinv H0 Hy Hyp Hx Hchild Habs)
    as [F H].
  exists F. intros fuel Hf.
  destruct (H fuel Hf) as (st1 & Hrm & Hc1 & [l Hp1] & Elo & Ehi & _ & Eoth & _).
  apply tree_abs_root_loop_chain in Habs as Hch.
  apply tree_child_cell in Hchild as (x' & Hx' & Hk & Hcell).
  rewrite Hx in Hx'. injection Hx' as <-.
  assert (Hpc : fld parent (heap st) c = Some (Some p))
    by (rewrite (fld_lookup _ _ _ _ Hy), Hyp; reflexivity).
  assert (Hd : fld outDegree (heap st) p = Some (outDegree x))
    by (apply fld_lookup; exact Hx).
  assert (Hnr : ~ reaches (heap st) (Some p) c)
    by (eapply anc_chain_no_cycle; eauto).
  assert (Hcp : c <> p) by (intros ->; apply Hnr; constructor).
  exists (mkState (delete c (heap st1)) (plan st1)).
  split.
  { unfold tree_delete. rewrite (bind_ok _ _ _ _ _ Hrm).
    unfold tree_free, free_node. rewrite Hc1. reflexivity. }
  simpl. split; [apply lookup_delete_eq|].
  split; [exists l; rewrite lookup_delete_ne by auto; exact Hp1|].
  split.
  { intros j Hj. rewrite cell_delete, decide_False by auto. apply Elo. exact Hj. }
  split.
  { intros j Hj. rewrite cell_delete, decide_False by auto. apply Ehi. exact Hj. }
  intros j Hj.
  destruct (index_inv_children _ _ _ _ Hinv Hy Hj) as (m & ym & Hm & Hym & Hmp & _).
  exists m, ym. rewrite (cell_lookup _ _ _ _ Hy).
  split; [exact Hm|]. split; [|split; [exact Hym|exact Hmp]].
  assert (Hmc : m <> c).
  { intros ->. rewrite Hy in Hym. injection Hym as <-.
    rewrite Hyp in Hmp. injection Hmp as ->. tauto. }
  assert (Hmpp : m <> p).
  { intros ->. apply Hnr. eapply reaches_up; [|constructor].
    rewrite (fld_lookup _ _ _ _ Hym), Hmp. reflexivity. }
  rewrite lookup_delete_ne by auto. rewrite Eoth; auto.
  intros j' Hj' E.
  destruct (index_inv_slot _ _ _ j' Hinv Hd ltac:(lia)) as (cj & Hcj & Hpj & _).
  rewrite E in Hcj. injection Hcj as <-.
  rewrite (fld_lookup _ _ _ _ Hym), Hmp in Hpj. congruence.
Qed.

Lemma tree_delete_releases_one_node_witness :
  exists F : nat, forall fuel, (F <= fuel)%nat ->
  exists st',
    tree_delete fuel (Some 2%positive) ex_bushy = Ok (tt, st') /\
    heap st' !! 2%positive = None /\
    cell (heap st') 1%positive 0 = Some (Some 3%positive) /\
    exists m ym,
      cell (heap ex_bushy) 2%positive 1 = Some (Some m) /\
      heap st' !! m = Some ym /\ parent ym = Some 2%positive.
Proof.
  destruct (tree_delete_releases_one_node ex_bushy 2%positive 1%positive
              (mkTreeNode (Some 1%positive) [Some 5; Some 6]%positive
                 2 10 2 0 0)
              (mkTreeNode None [Some 2; Some 3; Some 4]%positive 3 100 3 0 0)
              3 (Some 1%positive)) as [F H].
  - exists 8%nat,
      [OpAlloc 100; OpAddChild (Some 1%positive) 10;
       OpAddChild (Some 1%positive) 20; OpAddChild (Some 1%positive) 30;
       OpAddChild (Some 2%positive) 11; OpAddChild (Some 2%positive) 12], [].
    split; [repeat constructor|vm_compute; reflexivity].
  - vm_compute. reflexivity.
  - reflexivity.
  - vm_compute. reflexivity.
  - vm_compute. reflexivity.
  - vm_compute. reflexivity.
  - exists F. intros fuel Hf.
    destruct (H fuel Hf) as (st' & Hrun & Hc & _ & _ & Hhi & Hkids).
    exists st'. split; [exact Hrun|]. split; [exact Hc|].
    split; [rewrite Hhi by (simpl; lia); vm_compute; reflexivity|].
    destruct (Hkids 1 ltac:(simpl; lia)) as (m & ym & Hm & Hym & _ & Hpm).
    exists m, ym. auto.
Defined.

(** ** Inserting a subtree behind the first cell *)

(** One turn of the shifting loop of [tree_insert_subtree]. *)
Lemma gap_inv_shift (hp : gmap addr TreeNode) n d a x l c1 y :
  gap_inv hp n d (a + 1) -> hp !! n = Some x -> outDegree x = d ->
  0 <= a <= d - 1 ->
  cell hp n a = Some (Some c1) ->
  arr_set (children x) (a + 1) (Some c1) = Some l ->
  <[n := set_children x l]> hp !! c1 = Some y ->
  gap_inv (<[c1 := set_i y (a + 1)]> (<[n := set_children x l]> hp)) n d a.
Proof.
  intros [Hs Hv] Hx Hd Ha He Hl Hy.
  destruct (Hv n a) as (c & Hc1 & Hp1 & Hi1).
  { split; [left; exists d; split;
              [rewrite (fld_lookup _ _ _ _ Hx); congruence|lia]|].
    intros [_ ?]. lia. }
  rewrite He in Hc1. injection Hc1 as <-.
  split.
  - apply shapes_set_i; [eapply shapes_set_children; eauto|exact Hy|].
    fld_of Hy parent as Fp. rewrite Hp1 in Fp. injection Fp as Fp.
    rewrite <- Fp. discriminate.
  - intros b j [Hval Hne].
    assert (Hval0 : valid_slot hp b j \/ (b = n /\ j = d)).
    { destruct Hval as [(d' & Hd' & Hj)|?]; [left|right; auto].
      views in Hd'. exists d'. auto. }
    destruct (decide (b = n /\ j = a + 1)) as [[-> ->]|Hne2].
    { exists c1. views. decide_eq. simpl.
      split; [exact (arr_get_set_eq _ _ _ _ Hl)|]. split; auto. }
    destruct (Hv b j) as (c & Hc & Hcp & Hci); [split; auto|].
    assert (Hcc : c <> c1).
    { intros ->. rewrite Hp1 in Hcp. injection Hcp as <-.
      rewrite Hi1 in Hci. injection Hci as <-. tauto. }
    exists c. views. decide_eq. split; [|auto].
    destruct (decide (b = n)) as [->|]; [|auto]. simpl.
    rewrite (cell_lookup _ _ _ _ Hx) in Hc. rewrite <- Hc.
    apply (arr_get_set_ne _ _ _ _ _ Hl). tauto.
Qed.

(** What the shifting loop does to the cells, and what it leaves alone. *)
Lemma insert_shift_effect fuel n d k : forall a st u st',
  insert_shift fuel (Some n) a k st = Ok (u, st') ->
  fld outDegree (heap st) n = Some d -> 1 <= k -> k - 1 <= a <= d - 1 ->
  gap_inv (heap st) n d (a + 1) ->
  fld parent (heap st) n <> Some (Some n) ->
  plan st' = plan st /\
  (forall j, 0 <= j < k \/ a + 1 < j -> cell (heap st') n j = cell (heap st) n j) /\
  (forall j, k < j <= a + 1 -> cell (heap st') n j = cell (heap st) n (j - 1)) /\
  (forall b, b <> n -> fld no_i (heap st') b = fld no_i (heap st) b) /\
  (forall b, b <> n ->
     (forall j, k <= j <= a -> cell (heap st) n j <> Some (Some b)) ->
     heap st' !! b = heap st !! b) /\
  fld no_kids (heap st') n = fld no_kids (heap st) n.
Proof.
  induction fuel as [|f IH]; intros a st u st' H Hd Hk Ha Hinv Hself;
    [discriminate|].
  simpl in H. destruct (a >=? k) eqn:Hge.
  - rewrite Z.geb_leb in Hge. apply Z.leb_le in Hge.
    destruct (fld_Some _ _ _ _ Hd) as (x & Hx & Hdx).
    pose proof (proj1 Hinv _ _ Hx) as (_ & _ & Hod & Hal & Hmax).
    rewrite (uint_small (a + 1)) in H by lia.
    rewrite (uint_small (a - 1)) in H by lia.
    step_read H as e He.
    step_write H as x0 l Hx0 Hl. same_load Hx Hx0.
    step_read H as e' He'.
    step_load H as y Hy. step_store H.
    destruct (proj2 Hinv n a) as (c1 & Hc1 & Hp1 & Hi1).
    { split; [left; exists d; split; [auto|lia]|]. intros [_ ?]. lia. }
    rewrite He in Hc1. injection Hc1 as ->.
    views in He'. decide_eq. simpl in He'.
    rewrite (arr_get_set_eq _ _ _ _ Hl) in He'. injection He' as <-.
    assert (Hne : n <> c1).
    { intros <-. apply Hself. exact Hp1. }
    pose proof (proj1 (arr_set_Some _ _ _ _) Hl) as [HlS _].
    apply IH in H; try lia.
    + destruct H as (Epl & Esame & Emove & Enoi & Eoth & Eself).
      simpl in Epl, Esame, Emove, Enoi, Eoth, Eself.
      split; [exact Epl|]. split; [|split; [|split; [|split]]].
      * intros j Hj. rewrite Esame by lia. views. decide_eq. simpl.
        rewrite (cell_lookup _ _ _ _ Hx).
        apply (arr_get_set_ne _ _ _ _ _ Hl). lia.
      * intros j Hj. destruct (decide (j = a + 1)) as [->|Hja].
        -- rewrite Esame by lia. views. decide_eq. simpl.
           rewrite (arr_get_set_eq _ _ _ _ Hl).
           replace (a + 1 - 1) with a by lia. auto.
        -- rewrite Emove by lia. views. decide_eq. simpl.
           rewrite (cell_lookup _ _ _ _ Hx).
           apply (arr_get_set_ne _ _ _ _ _ Hl). lia.
      * intros b Hb. rewrite Enoi by auto. rewrite fld_insert.
        destruct (decide (b = c1)) as [->|Hb0].
        -- rewrite lookup_insert_ne in Hy by auto.
           unfold fld. rewrite Hy. reflexivity.
        -- rewrite fld_insert. rewrite decide_False by auto. reflexivity.
      * intros b Hb Hnot.
        assert (Hb0 : b <> c1).
        { intros ->. apply (Hnot a); [lia|exact He]. }
        rewrite Eoth; auto.
        -- rewrite !lookup_insert_ne by auto. reflexivity.
        -- intros j Hj. views. decide_eq. simpl.
           rewrite (arr_get_set_ne _ _ _ _ _ Hl) by lia.
           rewrite <- (cell_lookup _ _ _ _ Hx). apply Hnot. lia.
      * rewrite Eself. rewrite fld_insert, decide_False by auto.
        rewrite fld_insert, decide_True by reflexivity.
        rewrite (fld_lookup _ _ _ _ Hx). reflexivity.
    + simpl. views. exact Hd.
    + replace (a - 1 + 1) with a by lia. simpl.
      eapply gap_inv_shift; eauto. lia.
    + simpl. views. exact Hself.
  - rewrite Z.geb_leb in Hge. apply Z.leb_gt in Hge. injection H as <- <-.
    split; [reflexivity|]. split; [auto|]. split; [intros j Hj; lia|].
    auto.
Qed.

(** The shifting loop returns. *)
Lemma insert_shift_total fuel n d k pl : forall a hp,
  fld outDegree hp n = Some d -> 1 <= k -> k - 1 <= a <= d - 1 ->
  gap_inv hp n d (a + 1) ->
  (exists al, fld _alloced hp n = Some al /\ d < al) ->
  (Z.to_nat (a + 1 - k) < fuel)%nat ->
  exists hp', insert_shift fuel (Some n) a k (mkState hp pl)
              = Ok (tt, mkState hp' pl).
Proof.
  induction fuel as [|f IH]; intros a hp Hd Hk Ha Hinv Hroom Hf; [lia|].
  simpl. destruct (a >=? k) eqn:Hge; [|unfold retM; eauto].
  rewrite Z.geb_leb in Hge. apply Z.leb_le in Hge.
  destruct (fld_Some _ _ _ _ Hd) as (x & Hx & Hdx).
  pose proof (proj1 Hinv _ _ Hx) as (_ & _ & Hod & Hal & Hmax).
  destruct Hroom as (al & Hal' & Hlt).
  rewrite (fld_lookup _ _ _ _ Hx) in Hal'. injection Hal' as <-.
  rewrite (uint_small (a + 1)) by lia.
  rewrite (uint_small (a - 1)) by lia.
  destruct (proj2 Hinv n a) as (c1 & Hc1 & Hp1 & Hi1).
  { split; [left; exists d; split; [auto|lia]|]. intros [_ ?]. lia. }
  rewrite (bind_read _ _ _ _ _ _ Hc1).
  destruct (arr_set_in_range (children x) (a + 1) (Some c1)) as [l Hl]; [lia|].
  rewrite (bind_write _ _ _ _ _ _ _ _ Hx Hl).
  assert (Hc1' : cell (<[n:=set_children x l]> hp) n (a + 1) = Some (Some c1)).
  { views. decide_eq. simpl. exact (arr_get_set_eq _ _ _ _ Hl). }
  rewrite (bind_read _ _ _ _ _ _ Hc1').
  assert (Hlive : exists y, <[n:=set_children x l]> hp !! c1 = Some y).
  { destruct (fld_Some _ _ _ _ Hp1) as (y & Hy & _).
    destruct (decide (c1 = n)) as [->|Hne].
    - rewrite lookup_insert_eq. eauto.
    - rewrite lookup_insert_ne by auto. eauto. }
  destruct Hlive as [y Hy].
  rewrite (bind_load _ _ _ _ _ Hy). rewrite (bind_store _ _ _ _ _ _ Hy).
  apply IH; try lia.
  - views. exact Hd.
  - replace (a - 1 + 1) with a by lia. eapply gap_inv_shift; eauto. lia.
  - exists (_alloced x). split; [|lia]. views.
    rewrite (fld_lookup _ _ _ _ Hx). reflexivity.
Qed.

(** The stores that install the subtree close the gap. *)
Lemma insert_stores_inv (hp : gmap addr TreeNode) n t d k xs y l :
  gap_inv hp n d k -> hp !! n = Some xs -> outDegree xs = d ->
  d < _alloced xs -> 0 <= k <= d ->
  hp !! t = Some y -> parent y = None -> n <> t ->
  arr_set (children xs) k (Some t) = Some l ->
  index_inv (<[t := set_i (set_parent y (Some n)) k]>
               (<[n := set_outDegree (set_children xs l) (d + 1)]> hp)).
Proof.
  intros [Hs Hv] Hx Hd Hroom Hk Hy Hpar Hne Hl.
  pose proof (Hs _ _ Hx) as (Hrootx & Hod0 & Hod & Hal & Hmax).
  pose proof (Hs _ _ Hy) as (_ & Hyod0 & Hyod & Hyal & Hymax).
  assert (Hs1 : shapes (<[n := set_outDegree (set_children xs l) (d + 1)]> hp)).
  { apply shapes_store; auto. unfold shape_ok. simpl.
    rewrite (arr_set_length _ _ _ _ Hl). split; [exact Hrootx|lia]. }
  split.
  - apply shapes_store; auto. unfold shape_ok. simpl.
    split; [discriminate|auto].
  - intros b j (d' & Hd' & Hj).
    destruct (decide (b = n /\ j = k)) as [[-> ->]|Hnk].
    + exists t. rewrite cell_insert, decide_False by auto.
      rewrite cell_insert, decide_True by reflexivity. simpl.
      split; [exact (arr_get_set_eq _ _ _ _ Hl)|].
      rewrite !fld_insert, !decide_True by reflexivity. simpl. auto.
    + assert (Hold : (valid_slot hp b j \/ (b = n /\ j = d)) /\
                     ~ (b = n /\ j = k)).
      { split; [|exact Hnk].
        rewrite fld_insert in Hd'. destruct (decide (b = t)) as [->|Hbt].
        - injection Hd' as <-. simpl in Hj. left. exists (outDegree y).
          split; [apply fld_lookup; exact Hy|exact Hj].
        - rewrite fld_insert in Hd'. destruct (decide (b = n)) as [->|Hbn].
          + injection Hd' as <-. simpl in Hj.
            destruct (decide (j = d)) as [->|]; [right; auto|].
            left. exists d. split; [rewrite (fld_lookup _ _ _ _ Hx), Hd;
                                    reflexivity|lia].
          + left. exists d'. auto. }
      destruct (Hv b j Hold) as (c & Hc & Hcp & Hci).
      assert (Hct : c <> t).
      { intros ->. rewrite (fld_lookup _ _ _ _ Hy), Hpar in Hcp. discriminate. }
      exists c. split; [|split].
      * rewrite cell_insert. destruct (decide (b = t)) as [->|Hbt].
        { simpl. rewrite <- (cell_lookup _ _ _ _ Hy). exact Hc. }
        rewrite cell_insert. destruct (decide (b = n)) as [->|Hbn]; [|exact Hc].
        simpl. rewrite (cell_lookup _ _ _ _ Hx) in Hc. rewrite <- Hc.
        apply (arr_get_set_ne _ _ _ _ _ Hl). tauto.
      * rewrite fld_insert, decide_False by auto.
        rewrite fld_insert. destruct (decide (c = n)) as [->|]; [|exact Hcp].
        simpl. rewrite (fld_lookup _ _ _ _ Hx) in Hcp. exact Hcp.
      * rewrite fld_insert, decide_False by auto.
        rewrite fld_insert. destruct (decide (c = n)) as [->|]; [|exact Hci].
        simpl. rewrite (fld_lookup _ _ _ _ Hx) in Hci. exact Hci.
Qed.

(** With all heights 0 and a parent chain that ends, [tree_update_height]
    returns and changes nothing. *)
Lemma tree_update_height_noop fuel n hp pl m :
  anc_chain hp n m -> index_inv hp -> nodes h_zero hp ->
  (m < fuel)%nat -> UINT_MAX + 1 < Z.of_nat fuel ->
  tree_update_height fuel n (mkState hp pl) = Ok (tt, mkState hp pl).
Proof.
  intros Hc Hinv H0 Hf1 Hf2. unfold tree_update_height.
  destruct (tree_update_height_loop_total m n hp pl fuel fuel Hc Hinv Hf1 Hf2)
    as [hp' H].
  pose proof (tree_update_height_loop_id _ _ _ _ _ _ H H0) as E.
  rewrite H. f_equal. f_equal. exact E.
Qed.

Lemma no_kids_fields (x x' : TreeNode) :
  no_kids x' = no_kids x ->
  parent x' = parent x /\ outDegree x' = outDegree x /\ data x' = data x /\
  _alloced x' = _alloced x /\ i x' = i x /\ h x' = h x.
Proof.
  destruct x, x'. unfold no_kids, set_children. simpl.
  intros [= -> -> -> -> -> ->]. auto 10.
Qed.

Lemma tree_insert_subtree_full :
  forall (st : state) (n t : addr) (x y : TreeNode) (k : Z) (f : nat),
    index_inv (heap st) -> nodes h_zero (heap st) ->
    heap st !! n = Some x -> heap st !! t = Some y -> parent y = None ->
    1 <= k <= outDegree x -> outDegree x < UINT_MAX ->
    tree_is_descendant_of f (Some n) (Some t) (heap st) = Ok false ->
    exists F : nat, forall fuel, (F <= fuel)%nat ->
    exists r st',
      tree_insert_subtree fuel (Some n) (Some t) k st = Ok (r, st') /\
      (plan st = [] -> r = None) /\
      ((r = Some t /\ heap st' = heap st) \/
       (r = None /\
        heap st' !! t = Some (set_i (set_parent y (Some n)) k) /\
        fld outDegree (heap st') n = Some (outDegree x + 1) /\
        fld parent (heap st') n = Some (parent x) /\
        fld data (heap st') n = Some (data x) /\
        fld i (heap st') n = Some (i x) /\
        cell (heap st') n k = Some (Some t) /\
        (forall j, 0 <= j < k -> cell (heap st') n j = cell (heap st) n j) /\
        (forall j, k < j <= outDegree x ->
                   cell (heap st') n j = cell (heap st) n (j - 1)) /\
        (forall j m ym, k <= j < outDegree x ->
           cell (heap st) n j = Some (Some m) -> heap st !! m = Some ym ->
           heap st' !! m = Some (set_i ym (j + 1))) /\
        (forall b, b <> n -> b <> t ->
           (forall j, k <= j < outDegree x ->
                      cell (heap st) n j <> Some (Some b)) ->
           heap st' !! b = heap st !! b))).
Proof.
  intros [hp pl] n t x y k f Hinv H0 Hx Hy Hpar Hk Hsmall Hdesc.
  simpl in Hinv, H0, Hx, Hy, Hdesc.
  apply tree_is_descendant_of_false in Hdesc as [Hch Hnr].
  assert (Hnt : n <> t) by (intros ->; apply Hnr; constructor).
  assert (Hself : fld parent hp n <> Some (Some n)).
  { intros E. eapply (anc_chain_no_cycle hp f n (Some n)); eauto. constructor. }
  pose proof (proj1 Hinv _ _ Hx) as (_ & Hod0 & Hod & Hal & Hmax).
  assert (Hd : fld outDegree hp n = Some (outDegree x))
    by (apply fld_lookup; exact Hx).
  assert (Hpt : fld parent hp t = Some None)
    by (rewrite (fld_lookup _ _ _ _ Hy), Hpar; reflexivity).
  exists (Nat.max (S f) (Z.to_nat (UINT_MAX + 2))). intros fuel Hfuel.
  assert (Hf2 : (f < fuel)%nat) by lia.
  assert (Hf3 : UINT_MAX + 1 < Z.of_nat fuel).
  { assert (Z.of_nat (Z.to_nat (UINT_MAX + 2)) = UINT_MAX + 2)
      by (apply Z2Nat.id; unfold UINT_MAX; lia).
    lia. }
  clear Hfuel.
  unfold tree_insert_subtree. rewrite (bind_load _ _ _ _ _ Hx).
  replace (k >? outDegree x) with false
    by (symmetry; rewrite Z.gtb_ltb; apply Z.ltb_ge; lia).
  rewrite (bind_load _ _ _ _ _ Hy), Hpar.
  destruct (tree_children_grow_min_size_total n (uint (outDegree x + 1)) x hp pl Hx)
    as (ok & hpg & plg & Hg).
  rewrite (bind_ok _ _ _ _ _ Hg).
  pose proof (tree_children_grow_min_size_inv _ _ _ _ _ Hg (uint_range _) Hinv)
    as Hinvg.
  pose proof (keeps_tree_children_grow_min_size _ _ _ _ _ Hg H0) as [H0g _].
  pose proof (tree_children_grow_min_size_frame _ _ _ _ _ Hg)
    as (Epar & _ & Eodg & Hfail).
  pose proof (tree_children_grow_min_size_effect _ _ _ _ _ _ Hg Hx Hal
                (proj1 (uint_range _)))
    as (Eoth & _ & xg & Hxg & Hxgp & Hxgi & _ & Hxgd & Hxgod & Hxgal & Hxgc).
  pose proof (tree_children_grow_min_size_plan _ _ _ _ _ Hg) as Hplan.
  simpl in Hinvg, H0g, Epar, Eodg, Hfail, Eoth, Hxg, Hplan.
  assert (Hcells : forall j, 0 <= j < outDegree x -> cell hpg n j = cell hp n j).
  { intros j Hj. rewrite (cell_lookup _ _ _ _ Hxg), (cell_lookup _ _ _ _ Hx).
    apply Hxgc. lia. }
  destruct ok.
  2:{ exists (Some t), (mkState hpg plg). split; [reflexivity|].
      split; [intros Hp; destruct (Hplan Hp); discriminate|].
      left. split; [reflexivity|]. simpl. apply Hfail. reflexivity. }
  rewrite uint_small in Hxgal by lia. specialize (Hxgal eq_refl).
  rewrite (bind_load _ _ _ _ _ Hxg). rewrite Hxgod.
  rewrite (uint_small (outDegree x - 1)) by lia.
  assert (Hdg : fld outDegree hpg n = Some (outDegree x))
    by (rewrite Eodg; exact Hd).
  assert (Hgap : gap_inv hpg n (outDegree x) (outDegree x - 1 + 1)).
  { replace (outDegree x - 1 + 1) with (outDegree x) by lia.
    split; [apply Hinvg|]. intros b j [[Hval|Hval] Hne]; [|tauto].
    apply (proj2 Hinvg). exact Hval. }
  destruct (insert_shift_total fuel n (outDegree x) k plg (outDegree x - 1) hpg)
    as [hps Hshift]; auto; try lia.
  { exists (_alloced xg). split; [apply fld_lookup; exact Hxg|lia]. }
  rewrite (bind_ok _ _ _ _ _ Hshift).
  assert (Hselfg : fld parent hpg n <> Some (Some n)) by (rewrite Epar; exact Hself).
  pose proof (insert_shift_spec _ _ _ _ _ _ _ _ Hshift Hdg ltac:(lia) ltac:(lia)
                Hgap) as (Hgaps & Eods & Epars & Eals & _).
  pose proof (insert_shift_effect _ _ _ _ _ _ _ _ Hshift Hdg ltac:(lia)
                ltac:(lia) Hgap Hselfg)
    as (_ & Esame & Emove & Enoi & Eoths & Eselfs).
  pose proof (keeps_insert_shift _ _ _ _ _ _ _ Hshift H0g) as [H0s _].
  simpl in Hgaps, Eods, Epars, Eals, Esame, Emove, Enoi, Eoths, Eselfs, H0s.
  (* the node and the subtree after the shift *)
  assert (Hxs : exists xs, hps !! n = Some xs /\ no_kids xs = no_kids xg).
  { rewrite (fld_lookup _ _ _ _ Hxg) in Eselfs.
    apply fld_Some in Eselfs as (xs & Hxs & E). eauto. }
  destruct Hxs as (xs & Hxs & Exs).
  apply no_kids_fields in Exs as (Hxsp & Hxsod & Hxsd & Hxsal & Hxsi & Hxsh).
  assert (Hlisted : forall j, 0 <= j < outDegree x ->
            exists c, cell hp n j = Some (Some c) /\
                      fld parent hp c = Some (Some n) /\ fld i hp c = Some j).
  { intros j Hj. apply (index_inv_slot _ _ _ j Hinv Hd Hj). }
  assert (Htg : hpg !! t = Some y) by (rewrite Eoth by auto; exact Hy).
  assert (Hts : hps !! t = Some y).
  { rewrite Eoths; auto. intros j Hj E.
    rewrite Hcells in E by lia.
    destruct (Hlisted j ltac:(lia)) as (c & Hc & Hcp & _).
    rewrite E in Hc. injection Hc as <-. congruence. }
  pose proof (proj1 Hgaps _ _ Hxs) as (_ & _ & _ & Hals & _).
  destruct (arr_set_in_range (children xs) k (Some t)) as [l Hl]; [lia|].
  rewrite (bind_write _ _ _ _ _ _ _ _ Hxs Hl).
  erewrite bind_load by apply lookup_insert_eq.
  erewrite bind_store by apply lookup_insert_eq.
  rewrite insert_insert_eq. simpl outDegree. rewrite Hxsod, Hxgod.
  rewrite (uint_small (outDegree x + 1)) by lia.
  erewrite bind_load
    by (rewrite lookup_insert_ne by auto; exact Hts).
  erewrite bind_store
    by (rewrite lookup_insert_ne by auto; exact Hts).
  erewrite bind_load by apply lookup_insert_eq.
  erewrite bind_store by apply lookup_insert_eq.
  rewrite insert_insert_eq.
  set (hp4 := <[t:=set_i (set_parent y (Some n)) k]>
                (<[n:=set_outDegree (set_children xs l) (outDegree x + 1)]> hps)).
  assert (Hinv4 : index_inv hp4).
  { unfold hp4. eapply insert_stores_inv; eauto; lia. }
  assert (H04 : nodes h_zero hp4).
  { unfold hp4. intros b z Hb.
    destruct (decide (b = t)) as [->|Hbt].
    { rewrite lookup_insert_eq in Hb. injection Hb as <-.
      exact (H0 _ _ Hy). }
    rewrite lookup_insert_ne in Hb by auto.
    destruct (decide (b = n)) as [->|Hbn].
    { rewrite lookup_insert_eq in Hb. injection Hb as <-.
      exact (H0s _ _ Hxs). }
    rewrite lookup_insert_ne in Hb by auto. eauto. }
  assert (Hch4 : anc_chain hp4 (Some n) f).
  { eapply anc_chain_view; [|exact Hch]. intros a Ha.
    assert (Hat : a <> t) by (intros ->; tauto).
    unfold hp4. rewrite fld_insert, decide_False by auto.
    rewrite fld_insert. destruct (decide (a = n)) as [->|Han].
    - simpl. rewrite Hxsp, Hxgp. rewrite (fld_lookup _ _ _ _ Hx). reflexivity.
    - rewrite Epars. apply Epar. }
  rewrite (bind_ok _ _ _ _ _
             (tree_update_height_noop fuel (Some n) hp4 plg f Hch4 Hinv4 H04
                Hf2 Hf3)).
  exists None, (mkState hp4 plg). split; [reflexivity|].
  split; [reflexivity|]. right. split; [reflexivity|]. simpl.
  assert (Hn4 : hp4 !! n
                = Some (set_outDegree (set_children xs l) (outDegree x + 1))).
  { unfold hp4. rewrite lookup_insert_ne, lookup_insert_eq by auto.
    reflexivity. }
  assert (Hcell4 : forall j, cell hp4 n j = arr_get l j).
  { intros j. rewrite (cell_lookup _ _ _ _ Hn4). reflexivity. }
  split; [unfold hp4; apply lookup_insert_eq|].
  rewrite !(fld_lookup _ _ _ _ Hn4). simpl.
  rewrite Hxsp, Hxgp, Hxsd, Hxgd, Hxsi, Hxgi.
  do 4 (split; [reflexivity|]).
  split; [rewrite Hcell4; exact (arr_get_set_eq _ _ _ _ Hl)|].
  split.
  { intros j Hj. rewrite Hcell4.
    rewrite (arr_get_set_ne _ _ _ _ _ Hl) by lia.
    rewrite <- (cell_lookup _ _ _ _ Hxs). rewrite Esame by lia.
    apply Hcells. lia. }
  split.
  { intros j Hj. rewrite Hcell4.
    rewrite (arr_get_set_ne _ _ _ _ _ Hl) by lia.
    rewrite <- (cell_lookup _ _ _ _ Hxs). rewrite Emove by lia.
    apply Hcells. lia. }
  split.
  { intros j m ym Hj Hm Hym.
    destruct (Hlisted j ltac:(lia)) as (c & Hc & Hcp & Hci).
    rewrite Hm in Hc. injection Hc as <-.
    assert (Hmt : m <> t) by (intros ->; congruence).
    assert (Hmn : m <> n) by (intros ->; congruence).
    unfold hp4. rewrite !lookup_insert_ne by auto.
    destruct (proj2 Hgaps n (j + 1)) as (m' & Hm' & _ & Him').
    { split; [|intros [_ ?]; lia].
      destruct (decide (j + 1 = outDegree x)) as [E|E]; [right; auto|].
      left. exists (outDegree x). split; [rewrite Eods; exact Hdg|lia]. }
    rewrite Emove in Hm' by lia. replace (j + 1 - 1) with j in Hm' by lia.
    rewrite Hcells, Hm in Hm' by lia. injection Hm' as <-.
    specialize (Enoi m Hmn). unfold fld in Enoi, Him'.
    rewrite (Eoth m Hmn), Hym in Enoi.
    destruct (hps !! m) as [zm|]; [|discriminate].
    simpl in Him'. injection Him' as Him'.
    assert (E : no_i zm = no_i ym) by (apply (inj Some); exact Enoi).
    f_equal. clear -E Him'. destruct zm, ym. unfold no_i, set_i in *.
    simpl in *. congruence. }
  intros b Hbn Hbt Hnot. unfold hp4. rewrite !lookup_insert_ne by auto.
  rewrite Eoths; auto.
  intros j Hj. rewrite Hcells by lia. apply Hnot. lia.
Qed.

(** [tree_insert_subtree] in a state the operations built, for a rootless
    subtree [t], a node [n] with fewer than [UINT_MAX] children whose
    parent chain ends at a root without meeting [t]
    ([tree_is_descendant_of n t] answers false: [n] is not inside [t], and
    no parent pointer on the way up from [n] names a released node), and
    an index [k] with [1 <= k <= outDegree n].  With enough fuel the call
    returns.  It
    returns [t] with the memory unchanged when the child array cannot grow,
    and NULL otherwise (always NULL when the allocator never fails); then
    [t] is the child in cell [k] with parent [n] and index [k], the cells
    before [k] are as before, each later child has moved one cell up with
    its index incremented, [n] has one child more and is otherwise as
    before, and so is every other node. *)
Theorem tree_insert_subtree_shifts_up :
  forall (st : state) (n t : addr) (x y : TreeNode) (k : Z) (f : nat),
    reachable st ->
    heap st !! n = Some x -> heap st !! t = Some y -> parent y = None ->
    1 <= k <= outDegree x -> outDegree x < UINT_MAX ->
    tree_is_descendant_of f (Some n) (Some t) (heap st) = Ok false ->
    exists F : nat, forall fuel, (F <= fuel)%nat ->
    exists r st',
      tree_insert_subtree fuel (Some n) (Some t) k st = Ok (r, st') /\
      (plan st = [] -> r = None) /\
      ((r = Some t /\ heap st' = heap st) \/
       (r = None /\
        heap st' !! t = Some (set_i (set_parent y (Some n)) k) /\
        fld outDegree (heap st') n = Some (outDegree x + 1) /\
        fld parent (heap st') n = Some (parent x) /\
        fld data (heap st') n = Some (data x) /\
        fld i (heap st') n = Some (i x) /\
        cell (heap st') n k = Some (Some t) /\
        (forall j, 0 <= j < k -> cell (heap st') n j = cell (heap st) n j) /\
        (forall j, k < j <= outDegree x ->
                   cell (heap st') n j = cell (heap st) n (j - 1)) /\
        (forall j m ym, k <= j < outDegree x ->
           cell (heap st) n j = Some (Some m) -> heap st !! m = Some ym ->
           heap st' !! m = Some (set_i ym (j + 1))) /\
        (forall b, b <> n -> b <> t ->
           (forall j, k <= j < outDegree x ->
                      cell (heap st) n j <> Some (Some b)) ->
           heap st' !! b = heap st !! b))).
Proof.
  intros st n t x y k f Hr. apply tree_insert_subtree_full.
  - apply reachable_index_inv. exact Hr.
  - apply reachable_h_zero. exact Hr.
Qed.

Lemma tree_insert_subtree_shifts_up_witness :
  exists F : nat, forall fuel, (F <= fuel)%nat ->
  exists st',
    tree_insert_subtree fuel (Some 1%positive) (Some 4%positive) 1 ex_forest
      = Ok (None, st') /\
    heap st' !! 4%positive
      = Some (mkTreeNode (Some 1%positive) [] 0 200 0 1 0) /\
    cell (heap st') 1%positive 0 = Some (Some 2%positive) /\
    cell (heap st') 1%positive 2 = Some (Some 3%positive) /\
    heap st' !! 3%positive
      = Some (mkTreeNode (Some 1%positive) [] 0 20 0 2 0) /\
    heap st' !! 2%positive = heap ex_forest !! 2%positive.
Proof.
  destruct (tree_insert_subtree_shifts_up ex_forest 1%positive 4%positive
              (mkTreeNode None [Some 2; Some 3]%positive 2 100 2 0 0)
              (mkTreeNode None [] 0 200 0 0 0) 1 3) as [F H].
  - exists 8%nat,
      [OpAlloc 100; OpAddChild (Some 1%positive) 10;
       OpAddChild (Some 1%positive) 20; OpAlloc 200], [].
    split; [repeat constructor|vm_compute; reflexivity].
  - vm_compute. reflexivity.
  - vm_compute. reflexivity.
  - reflexivity.
  - simpl. lia.
  - unfold UINT_MAX. simpl. lia.
  - vm_compute. reflexivity.
  - exists F. intros fuel Hf.
    destruct (H fuel Hf) as (r & st' & Hrun & Hnull & Hcase).
    specialize (Hnull eq_refl). subst r.
    destruct Hcase as [[Hbad _]|(_ & Ht & _ & _ & _ & _ & _ & Hlo & Hhi & Hsib & Hoth)];
      [discriminate|].
    exists st'. split; [exact Hrun|]. split; [exact Ht|].
    split; [rewrite Hlo by lia; vm_compute; reflexivity|].
    split; [rewrite Hhi by (simpl; lia); vm_compute; reflexivity|].
    split.
    + apply (Hsib 1 3%positive (mkTreeNode (Some 1%positive) [] 0 20 0 1 0));
        [simpl; lia|vm_compute; reflexivity|vm_compute; reflexivity].
    + apply Hoth; [discriminate|discriminate|].
      intros j Hj. simpl in Hj. assert (j = 1) as -> by lia.
      vm_compute. discriminate.
Defined.

(** ** Replacing a child *)

Lemma run_write a j v x l hp pl :
  hp !! a = Some x -> arr_set (children x) j v = Some l ->
  write_child (Some a) j v (mkState hp pl)
  = Ok (tt, mkState (<[a := set_children x l]> hp) pl).
Proof.
  intros Hx Hl. unfold write_child.
  unfold bindM at 1. unfold load. simpl. rewrite Hx, Hl.
  unfold store. simpl. rewrite Hx. reflexivity.
Qed.

Lemma bind_free {B} c z (k : unit -> M B) hp pl :
  hp !! c = Some z ->
  bindM (tree_free (Some c)) k (mkState hp pl) = k tt (mkState (delete c hp) pl).
Proof.
  intros Hc. unfold bindM, tree_free, free_node. simpl. rewrite Hc. reflexivity.
Qed.

(** The stores of the replacing branch of [tree_set_subtree], after the old
    child was released. *)
Lemma replace_stores_inv (hp : gmap addr TreeNode) n t c0 k x y l :
  index_inv hp -> hp !! n = Some x -> 0 <= k < outDegree x ->
  cell hp n k = Some (Some c0) -> n <> c0 ->
  hp !! t = Some y -> parent y = None -> n <> t ->
  arr_set (children x) k (Some t) = Some l ->
  index_inv (<[t := set_i (set_parent y (Some n)) k]>
               (<[n := set_children x l]> (delete c0 hp))).
Proof.
  intros [Hs Hv] Hx Hk Hc0 Hn0 Hy Hpar Hnt Hl.
  destruct (Hv n k) as (c & Hc & Hp0 & Hi0).
  { exists (outDegree x). split; [apply fld_lookup; exact Hx|lia]. }
  rewrite Hc0 in Hc. injection Hc as <-.
  assert (Ht0 : t <> c0).
  { intros ->. rewrite (fld_lookup _ _ _ _ Hy), Hpar in Hp0. discriminate. }
  pose proof (Hs _ _ Hx) as (Hrootx & Hod0 & Hod & Hal & Hmax).
  pose proof (Hs _ _ Hy) as (_ & Hyod0 & Hyod & Hyal & Hymax).
  split.
  - apply shapes_store.
    + apply shapes_store; [apply shapes_delete; exact Hs|].
      unfold shape_ok. simpl. rewrite (arr_set_length _ _ _ _ Hl). auto.
    + unfold shape_ok. simpl. split; [discriminate|auto].
  - intros b j (d' & Hd' & Hj).
    destruct (decide (b = n /\ j = k)) as [[-> ->]|Hnk].
    + exists t. rewrite cell_insert, decide_False by auto.
      rewrite cell_insert, decide_True by reflexivity. simpl.
      split; [exact (arr_get_set_eq _ _ _ _ Hl)|].
      rewrite !fld_insert, !decide_True by reflexivity. simpl. auto.
    + assert (Hold : valid_slot hp b j /\ b <> c0).
      { rewrite fld_insert in Hd'. destruct (decide (b = t)) as [->|Hbt].
        { injection Hd' as <-. simpl in Hj. split; [|exact Ht0].
          exists (outDegree y). split; [apply fld_lookup; exact Hy|exact Hj]. }
        rewrite fld_insert in Hd'. destruct (decide (b = n)) as [->|Hbn].
        { injection Hd' as <-. simpl in Hj. split; [|exact Hn0].
          exists (outDegree x). split; [apply fld_lookup; exact Hx|exact Hj]. }
        rewrite fld_delete in Hd'.
        destruct (decide (b = c0)) as [->|Hb0]; [discriminate|].
        split; [exists d'; auto|exact Hb0]. }
      destruct Hold as [Hold Hb0].
      destruct (Hv b j Hold) as (c & Hc & Hcp & Hci).
      assert (Hct : c <> t).
      { intros ->. rewrite (fld_lookup _ _ _ _ Hy), Hpar in Hcp. discriminate. }
      assert (Hcc0 : c <> c0).
      { intros ->. rewrite Hp0 in Hcp. injection Hcp as <-.
        rewrite Hi0 in Hci. injection Hci as <-. tauto. }
      exists c. split; [|split].
      * rewrite cell_insert. destruct (decide (b = t)) as [->|Hbt].
        { simpl. rewrite <- (cell_lookup _ _ _ _ Hy). exact Hc. }
        rewrite cell_insert. destruct (decide (b = n)) as [->|Hbn].
        { simpl. rewrite (cell_lookup _ _ _ _ Hx) in Hc. rewrite <- Hc.
          apply (arr_get_set_ne _ _ _ _ _ Hl). tauto. }
        rewrite cell_delete, decide_False by auto. exact Hc.
      * rewrite fld_insert, decide_False by auto.
        rewrite fld_insert. destruct (decide (c = n)) as [->|].
        { simpl. rewrite (fld_lookup _ _ _ _ Hx) in Hcp. exact Hcp. }
        rewrite fld_delete, decide_False by auto. exact Hcp.
      * rewrite fld_insert, decide_False by auto.
        rewrite fld_insert. destruct (decide (c = n)) as [->|].
        { simpl. rewrite (fld_lookup _ _ _ _ Hx) in Hci. exact Hci. }
        rewrite fld_delete, decide_False by auto. exact Hci.
Qed.

Lemma tree_set_subtree_full :
  forall (st : state) (n t : addr) (x y : TreeNode) (k : Z) (f : nat),
    index_inv (heap st) -> nodes h_zero (heap st) ->
    heap st !! n = Some x -> heap st !! t = Some y -> parent y = None ->
    0 <= k <= outDegree x -> outDegree x < UINT_MAX ->
    tree_is_descendant_of f (Some n) (Some t) (heap st) = Ok false ->
    exists F : nat, forall fuel, (F <= fuel)%nat ->
    exists r st',
      tree_set_subtree fuel (Some n) (Some t) k st = Ok (r, st') /\
      (plan st = [] -> r = None) /\
      ((r = Some t /\ heap st' = heap st) \/
       (r = None /\
        heap st' !! t = Some (set_i (set_parent y (Some n)) k) /\
        cell (heap st') n k = Some (Some t) /\
        fld parent (heap st') n = Some (parent x) /\
        fld data (heap st') n = Some (data x) /\
        fld i (heap st') n = Some (i x) /\
        (forall j, 0 <= j < outDegree x -> j <> k ->
                   cell (heap st') n j = cell (heap st) n j) /\
        (k = outDegree x ->
           fld outDegree (heap st') n = Some (outDegree x + 1) /\
           forall b, b <> n -> b <> t -> heap st' !! b = heap st !! b) /\
        (k < outDegree x ->
           fld outDegree (heap st') n = Some (outDegree x) /\
           exists c0, cell (heap st) n k = Some (Some c0) /\
                      heap st' !! c0 = None /\
                      forall b, b <> n -> b <> t -> b <> c0 ->
                                heap st' !! b = heap st !! b))).
Proof.
  intros [hp pl] n t x y k f Hinv H0 Hx Hy Hpar Hk Hsmall Hdesc.
  simpl in Hinv, H0, Hx, Hy, Hdesc.
  apply tree_is_descendant_of_false in Hdesc as [Hch Hnr].
  assert (Hnt : n <> t) by (intros ->; apply Hnr; constructor).
  pose proof (proj1 Hinv _ _ Hx) as (_ & Hod0 & Hod & Hal & Hmax).
  assert (Hd : fld outDegree hp n = Some (outDegree x))
    by (apply fld_lookup; exact Hx).
  exists (Nat.max (S f) (Z.to_nat (UINT_MAX + 2))). intros fuel Hfuel.
  assert (Hf2 : (f < fuel)%nat) by lia.
  assert (Hf3 : UINT_MAX + 1 < Z.of_nat fuel).
  { assert (Z.of_nat (Z.to_nat (UINT_MAX + 2)) = UINT_MAX + 2)
      by (apply Z2Nat.id; unfold UINT_MAX; lia).
    lia. }
  clear Hfuel.
  unfold tree_set_subtree. rewrite (bind_load _ _ _ _ _ Hx).
  replace (k >? outDegree x) with false
    by (symmetry; rewrite Z.gtb_ltb; apply Z.ltb_ge; lia).
  rewrite (bind_load _ _ _ _ _ Hy), Hpar.
  destruct (tree_children_grow_min_size_total n (uint (outDegree x + 1)) x hp pl Hx)
    as (ok & hpg & plg & Hg).
  rewrite (bind_ok _ _ _ _ _ Hg).
  pose proof (tree_children_grow_min_size_inv _ _ _ _ _ Hg (uint_range _) Hinv)
    as Hinvg.
  pose proof (keeps_tree_children_grow_min_size _ _ _ _ _ Hg H0) as [H0g _].
  pose proof (tree_children_grow_min_size_frame _ _ _ _ _ Hg)
    as (Epar & _ & Eodg & Hfail).
  pose proof (tree_children_grow_min_size_effect _ _ _ _ _ _ Hg Hx Hal
                (proj1 (uint_range _)))
    as (Eoth & _ & xg & Hxg & Hxgp & Hxgi & _ & Hxgd & Hxgod & Hxgal & Hxgc).
  pose proof (tree_children_grow_min_size_plan _ _ _ _ _ Hg) as Hplan.
  simpl in Hinvg, H0g, Epar, Eodg, Hfail, Eoth, Hxg, Hplan.
  assert (Hcells : forall j, 0 <= j < outDegree x -> cell hpg n j = cell hp n j).
  { intros j Hj. rewrite (cell_lookup _ _ _ _ Hxg), (cell_lookup _ _ _ _ Hx).
    apply Hxgc. lia. }
  destruct ok.
  2:{ exists (Some t), (mkState hpg plg). split; [reflexivity|].
      split; [intros Hp; destruct (Hplan Hp); discriminate|].
      left. split; [reflexivity|]. simpl. apply Hfail. reflexivity. }
  rewrite uint_small in Hxgal by lia. specialize (Hxgal eq_refl).
  rewrite (bind_load _ _ _ _ _ Hxg). rewrite Hxgod.
  assert (Hdg : fld outDegree hpg n = Some (outDegree x))
    by (rewrite Eodg; exact Hd).
  assert (Htg : hpg !! t = Some y) by (rewrite Eoth by auto; exact Hy).
  pose proof (proj1 Hinvg _ _ Hxg) as (_ & _ & _ & Halg & _).
  destruct (arr_set_in_range (children xg) k (Some t)) as [l Hl]; [lia|].
  assert (Hparn : forall hp4,
            (forall a, a <> t -> fld parent hp4 a = fld parent hpg a \/
                                 (fld parent hp a = Some (Some n))) ->
            anc_chain hp4 (Some n) f).
  { intros hp4 Hsame. eapply anc_chain_view; [|exact Hch]. intros a Ha.
    assert (Hat : a <> t) by (intros ->; tauto).
    destruct (Hsame a Hat) as [E|E]; [rewrite E; apply Epar|].
    exfalso. apply (anc_chain_no_cycle hp f a (Some n)); auto.
    eapply anc_chain_suffix; eauto. }
  destruct (k =? outDegree x) eqn:Hkd.
  - (* append *)
    apply Z.eqb_eq in Hkd. subst k.
    set (hp4 := <[t:=set_i (set_parent y (Some n)) (outDegree x)]>
                  (<[n:=set_outDegree (set_children xg l) (outDegree x + 1)]> hpg)).
    assert (Hmid :
      (do _ <- write_child (Some n) (outDegree x) (Some t);
       do x2 <- load (Some n);
       store (Some n) (set_outDegree x2 (uint (outDegree x2 + 1))))
        (mkState hpg plg)
      = Ok (tt, mkState
                  (<[n:=set_outDegree (set_children xg l) (outDegree x + 1)]> hpg)
                  plg)).
    { rewrite (bind_write _ _ _ _ _ _ _ _ Hxg Hl).
      erewrite bind_load by apply lookup_insert_eq.
      erewrite run_store by apply lookup_insert_eq.
      rewrite insert_insert_eq. simpl outDegree. rewrite Hxgod.
      rewrite (uint_small (outDegree x + 1)) by lia. reflexivity. }
    rewrite (bind_ok _ _ _ _ _ Hmid).
    erewrite bind_load by (rewrite lookup_insert_ne by auto; exact Htg).
    erewrite bind_store by (rewrite lookup_insert_ne by auto; exact Htg).
    erewrite bind_load by apply lookup_insert_eq.
    erewrite bind_store by apply lookup_insert_eq.
    rewrite insert_insert_eq. fold hp4.
    assert (Hinv4 : index_inv hp4).
    { unfold hp4. eapply insert_stores_inv; eauto; try lia.
      split; [apply Hinvg|]. intros b j [[Hval|Hval] Hne]; [|tauto].
      apply (proj2 Hinvg). exact Hval. }
    assert (H04 : nodes h_zero hp4).
    { unfold hp4. intros b z Hb.
      destruct (decide (b = t)) as [->|Hbt].
      { rewrite lookup_insert_eq in Hb. injection Hb as <-.
        exact (H0 _ _ Hy). }
      rewrite lookup_insert_ne in Hb by auto.
      destruct (decide (b = n)) as [->|Hbn].
      { rewrite lookup_insert_eq in Hb. injection Hb as <-.
        exact (H0g _ _ Hxg). }
      rewrite lookup_insert_ne in Hb by auto. eauto. }
    assert (Hch4 : anc_chain hp4 (Some n) f).
    { apply Hparn. intros a Hat. left. unfold hp4.
      rewrite fld_insert, decide_False by auto.
      rewrite fld_insert. destruct (decide (a = n)) as [->|Han]; [|reflexivity].
      simpl. rewrite (fld_lookup _ _ _ _ Hxg). reflexivity. }
    rewrite (bind_ok _ _ _ _ _
               (tree_update_height_noop fuel (Some n) hp4 plg f Hch4 Hinv4 H04
                  Hf2 Hf3)).
    exists None, (mkState hp4 plg). split; [reflexivity|].
    split; [reflexivity|]. right. split; [reflexivity|]. simpl.
    assert (Hn4 : hp4 !! n
                  = Some (set_outDegree (set_children xg l) (outDegree x + 1))).
    { unfold hp4. rewrite lookup_insert_ne, lookup_insert_eq by auto.
      reflexivity. }
    split; [unfold hp4; apply lookup_insert_eq|].
    rewrite !(fld_lookup _ _ _ _ Hn4), (cell_lookup _ _ _ _ Hn4). simpl.
    rewrite Hxgp, Hxgd, Hxgi.
    split; [exact (arr_get_set_eq _ _ _ _ Hl)|].
    do 3 (split; [reflexivity|]).
    split.
    { intros j Hj Hjk. rewrite (cell_lookup _ _ _ _ Hn4). simpl.
      rewrite (arr_get_set_ne _ _ _ _ _ Hl) by lia.
      rewrite <- (cell_lookup _ _ _ _ Hxg). apply Hcells. lia. }
    split; [|intros; lia].
    intros _. split; [reflexivity|].
    intros b Hbn Hbt. unfold hp4. rewrite !lookup_insert_ne by auto.
    apply Eoth. exact Hbn.
  - (* replace *)
    apply Z.eqb_neq in Hkd.
    destruct (index_inv_slot _ _ _ k Hinv Hd ltac:(lia))
      as (c0 & Hc0 & Hc0p & Hc0i).
    assert (Hn0 : n <> c0).
    { intros <-. apply (anc_chain_no_cycle hp f n (Some n)); auto. constructor. }
    assert (Ht0 : t <> c0).
    { intros <-. rewrite (fld_lookup _ _ _ _ Hy), Hpar in Hc0p. discriminate. }
    assert (Hc0g : cell hpg n k = Some (Some c0))
      by (rewrite Hcells by lia; exact Hc0).
    assert (Hz : exists z, hpg !! c0 = Some z).
    { apply fld_Some in Hc0p as (z & Hz & _). exists z.
      rewrite Eoth by auto. exact Hz. }
    destruct Hz as [z Hz].
    set (hp4 := <[t:=set_i (set_parent y (Some n)) k]>
                  (<[n:=set_children xg l]> (delete c0 hpg))).
    assert (Hmid :
      (do e <- read_child (Some n) k;
       do _ <- tree_free e;
       write_child (Some n) k (Some t)) (mkState hpg plg)
      = Ok (tt, mkState (<[n:=set_children xg l]> (delete c0 hpg)) plg)).
    { rewrite (bind_read _ _ _ _ _ _ Hc0g).
      rewrite (bind_free _ _ _ _ _ Hz).
      apply run_write; [|exact Hl].
      rewrite lookup_delete_ne by auto. exact Hxg. }
    rewrite (bind_ok _ _ _ _ _ Hmid).
    assert (Ht3 : <[n:=set_children xg l]> (delete c0 hpg) !! t = Some y).
    { rewrite lookup_insert_ne, lookup_delete_ne by auto. exact Htg. }
    erewrite bind_load by exact Ht3.
    erewrite bind_store by exact Ht3.
    erewrite bind_load by apply lookup_insert_eq.
    erewrite bind_store by apply lookup_insert_eq.
    rewrite insert_insert_eq. fold hp4.
    assert (Hinv4 : index_inv hp4).
    { unfold hp4. eapply replace_stores_inv; eauto. lia. }
    assert (H04 : nodes h_zero hp4).
    { unfold hp4. intros b z' Hb.
      destruct (decide (b = t)) as [->|Hbt].
      { rewrite lookup_insert_eq in Hb. injection Hb as <-.
        exact (H0 _ _ Hy). }
      rewrite lookup_insert_ne in Hb by auto.
      destruct (decide (b = n)) as [->|Hbn].
      { rewrite lookup_insert_eq in Hb. injection Hb as <-.
        exact (H0g _ _ Hxg). }
      rewrite lookup_insert_ne in Hb by auto.
      apply lookup_delete_Some in Hb as [_ Hb]. eauto. }
    assert (Hch4 : anc_chain hp4 (Some n) f).
    { apply Hparn. intros a Hat.
      destruct (decide (a = c0)) as [->|Ha0]; [right; exact Hc0p|].
      left. unfold hp4.
      rewrite fld_insert, decide_False by auto.
      rewrite fld_insert. destruct (decide (a = n)) as [->|Han].
      - simpl. rewrite (fld_lookup _ _ _ _ Hxg). reflexivity.
      - rewrite fld_delete, decide_False by auto. reflexivity. }
    rewrite (bind_ok _ _ _ _ _
               (tree_update_height_noop fuel (Some n) hp4 plg f Hch4 Hinv4 H04
                  Hf2 Hf3)).
    exists None, (mkState hp4 plg). split; [reflexivity|].
    split; [reflexivity|]. right. split; [reflexivity|]. simpl.
    assert (Hn4 : hp4 !! n = Some (set_children xg l)).
    { unfold hp4. rewrite lookup_insert_ne, lookup_insert_eq by auto.
      reflexivity. }
    split; [unfold hp4; apply lookup_insert_eq|].
    rewrite !(fld_lookup _ _ _ _ Hn4), (cell_lookup _ _ _ _ Hn4). simpl.
    rewrite Hxgp, Hxgd, Hxgi, Hxgod.
    split; [exact (arr_get_set_eq _ _ _ _ Hl)|].
    do 3 (split; [reflexivity|]).
    split.
    { intros j Hj Hjk. rewrite (cell_lookup _ _ _ _ Hn4). simpl.
      rewrite (arr_get_set_ne _ _ _ _ _ Hl) by lia.
      rewrite <- (cell_lookup _ _ _ _ Hxg). apply Hcells. lia. }
    split; [intros; lia|].
    intros _. split; [reflexivity|].
    exists c0. split; [exact Hc0|]. split.
    { unfold hp4. rewrite !lookup_insert_ne by auto. apply lookup_delete_eq. }
    intros b Hbn Hbt Hb0. unfold hp4. rewrite !lookup_insert_ne by auto.
    rewrite lookup_delete_ne by auto. apply Eoth. exact Hbn.
Qed.

(** [tree_set_subtree] in a state the operations built, for a rootless
    subtree [t], a node [n] with fewer than [UINT_MAX] children whose
    parent chain ends at a root without meeting [t]
    ([tree_is_descendant_of n t] answers false: [n] is not inside [t], and
    no parent pointer on the way up from [n] names a released node), and
    an index [k] with [0 <= k <= outDegree n].  With enough fuel the call
    returns.  It
    returns [t] with the memory unchanged when the child array cannot grow,
    and NULL otherwise (always NULL when the allocator never fails); then
    [t] is the child in cell [k] with parent [n] and index [k] and the
    other cells of [n] are as before.  With [k = outDegree n] the node has
    one child more and every other node is as before.  With
    [k < outDegree n] the out-degree stays, the node that was in cell [k]
    is released, and every other node is as before: the children of the
    released node stay allocated. *)
Theorem tree_set_subtree_replaces :
  forall (st : state) (n t : addr) (x y : TreeNode) (k : Z) (f : nat),
    reachable st ->
    heap st !! n = Some x -> heap st !! t = Some y -> parent y = None ->
    0 <= k <= outDegree x -> outDegree x < UINT_MAX ->
    tree_is_descendant_of f (Some n) (Some t) (heap st) = Ok false ->
    exists F : nat, forall fuel, (F <= fuel)%nat ->
    exists r st',
      tree_set_subtree fuel (Some n) (Some t) k st = Ok (r, st') /\
      (plan st = [] -> r = None) /\
      ((r = Some t /\ heap st' = heap st) \/
       (r = None /\
        heap st' !! t = Some (set_i (set_parent y (Some n)) k) /\
        cell (heap st') n k = Some (Some t) /\
        fld parent (heap st') n = Some (parent x) /\
        fld data (heap st') n = Some (data x) /\
        fld i (heap st') n = Some (i x) /\
        (forall j, 0 <= j < outDegree x -> j <> k ->
                   cell (heap st') n j = cell (heap st) n j) /\
        (k = outDegree x ->
           fld outDegree (heap st') n = Some (outDegree x + 1) /\
           forall b, b <> n -> b <> t -> heap st' !! b = heap st !! b) /\
        (k < outDegree x ->
           fld outDegree (heap st') n = Some (outDegree x) /\
           exists c0, cell (heap st) n k = Some (Some c0) /\
                      heap st' !! c0 = None /\
                      forall b, b <> n -> b <> t -> b <> c0 ->
                                heap st' !! b = heap st !! b))).
Proof.
  intros st n t x y k f Hr. apply tree_set_subtree_full.
  - apply reachable_index_inv. exact Hr.
  - apply reachable_h_zero. exact Hr.
Qed.

Lemma tree_set_subtree_replaces_witness :
  exists F : nat, forall fuel, (F <= fuel)%nat ->
  exists st',
    tree_set_subtree fuel (Some 1%positive) (Some 4%positive) 0 ex_forest
      = Ok (None, st') /\
    heap st' !! 4%positive
      = Some (mkTreeNode (Some 1%positive) [] 0 200 0 0 0) /\
    cell (heap st') 1%positive 0 = Some (Some 4%positive) /\
    cell (heap st') 1%positive 1 = Some (Some 3%positive) /\
    fld outDegree (heap st') 1%positive = Some 2 /\
    heap st' !! 2%positive = None /\
    heap st' !! 3%positive = heap ex_forest !! 3%positive.
Proof.
  destruct (tree_set_subtree_replaces ex_forest 1%positive 4%positive
              (mkTreeNode None [Some 2; Some 3]%positive 2 100 2 0 0)
              (mkTreeNode None [] 0 200 0 0 0) 0 3) as [F H].
  - exists 8%nat,
      [OpAlloc 100; OpAddChild (Some 1%positive) 10;
       OpAddChild (Some 1%positive) 20; OpAlloc 200], [].
    split; [repeat constructor|vm_compute; reflexivity].
  - vm_compute. reflexivity.
  - vm_compute. reflexivity.
  - reflexivity.
  - simpl. lia.
  - unfold UINT_MAX. simpl. lia.
  - vm_compute. reflexivity.
  - exists F. intros fuel Hf.
    destruct (H fuel Hf) as (r & st' & Hrun & Hnull & Hcase).
    specialize (Hnull eq_refl). subst r.
    destruct Hcase as [[Hbad _]|(_ & Ht & Hk & _ & _ & _ & Hcells & _ & Hrep)];
      [discriminate|].
    destruct Hrep as (Hod & c0 & Hc0 & Hgone & Hoth); [simpl; lia|].
    assert (E : c0 = 2%positive) by (vm_compute in Hc0; congruence).
    subst c0.
    exists st'. split; [exact Hrun|]. split; [exact Ht|].
    split; [exact Hk|].
    split; [rewrite Hcells by (simpl; lia); vm_compute; reflexivity|].
    split; [exact Hod|]. split; [exact Hgone|].
    apply Hoth; discriminate.
Defined.

(** ** Inserting and replacing a child by payload *)

Lemma tree_is_descendant_of_misses (hp : gmap addr TreeNode) t :
  forall p m, anc_chain hp p m -> ~ reaches hp p t ->
  forall f, (m < f)%nat -> tree_is_descendant_of f p (Some t) hp = Ok false.
Proof.
  induction 1 as [m|a q m Hq Hc IH]; intros Hn f Hf.
  - destruct f as [|f]; [lia|]. reflexivity.
  - destruct f as [|f]; [lia|]. simpl.
    destruct (decide (Some a = Some t)) as [E|E].
    { exfalso. apply Hn. injection E as ->. constructor. }
    apply fld_Some in Hq as Hx. destruct Hx as (x & Hx & Hpx).
    unfold bindR, loadR. rewrite Hx, Hpx.
    apply IH; [|lia]. intros Hr. apply Hn. eapply reaches_up; eauto.
Qed.

(** A node that was just allocated is on nobody's parent chain when the
    chain ends at a root. *)
Lemma fresh_node_off_chain (hp : gmap addr TreeNode) n c z f r0 :
  tree_abs_root f (Some n) hp = Ok r0 -> hp !! c = None ->
  tree_is_descendant_of (S f) (Some n) (Some c) (<[c := z]> hp) = Ok false.
Proof.
  intros Habs Hfresh. apply tree_abs_root_loop_chain in Habs as Hch.
  assert (Hsame : forall a, reaches hp (Some n) a ->
            fld parent (<[c := z]> hp) a = fld parent hp a).
  { intros a Ha. destruct (anc_chain_live _ _ _ Ha _ Hch) as (w & Hw).
    rewrite fld_insert. rewrite decide_False by congruence. reflexivity. }
  apply tree_is_descendant_of_misses with (m := f); [| |lia].
  - eapply anc_chain_view; [exact Hsame|exact Hch].
  - intros Hreach. eapply reaches_view in Hreach; [|exact Hsame].
    destruct (anc_chain_live _ _ _ Hreach _ Hch) as (w & Hw). congruence.
Qed.

Lemma nodes_h_zero_alloc (hp : gmap addr TreeNode) c d :
  nodes h_zero hp -> nodes h_zero (<[c := mkTreeNode None [] 0 d 0 0 0]> hp).
Proof.
  intros H0 b z Hb. destruct (decide (b = c)) as [->|Hne].
  - rewrite lookup_insert_eq in Hb. injection Hb as <-. reflexivity.
  - rewrite lookup_insert_ne in Hb by auto. eauto.
Qed.

(** [tree_insert_child] in a state the operations built, on a node [n]
    whose parent chain ends at a root, with [1 <= k <= outDegree n].  With
    enough fuel the call returns, and it returns NULL whatever happened.
    Either the allocator failed and the memory is exactly as before, so the
    node that may have been allocated was released again; or a new leaf
    with the payload is the child in cell [k], with parent [n] and index
    [k], the cells before [k] are as before, each later child has moved one
    cell up with its index incremented, and every other node is as before.
    With an allocator that never fails the child is inserted. *)
Theorem tree_insert_child_links_a_new_leaf :
  forall (st : state) (n : addr) (x : TreeNode) (d : TreeNodeValue) (k : Z)
         (f : nat) (r0 : ptr),
    reachable st ->
    heap st !! n = Some x ->
    1 <= k <= outDegree x -> outDegree x < UINT_MAX ->
    tree_abs_root f (Some n) (heap st) = Ok r0 ->
    exists F : nat, forall fuel, (F <= fuel)%nat ->
    exists st',
      tree_insert_child fuel (Some n) d k st = Ok (None, st') /\
      ((plan st <> [] /\ heap st' = heap st) \/
       (exists c,
          heap st !! c = None /\
          heap st' !! c = Some (mkTreeNode (Some n) [] 0 d 0 k 0) /\
          fld outDegree (heap st') n = Some (outDegree x + 1) /\
          fld parent (heap st') n = Some (parent x) /\
          fld data (heap st') n = Some (data x) /\
          fld i (heap st') n = Some (i x) /\
          cell (heap st') n k = Some (Some c) /\
          (forall j, 0 <= j < k -> cell (heap st') n j = cell (heap st) n j) /\
          (forall j, k < j <= outDegree x ->
                     cell (heap st') n j = cell (heap st) n (j - 1)) /\
          (forall j m ym, k <= j < outDegree x ->
             cell (heap st) n j = Some (Some m) -> heap st !! m = Some ym ->
             heap st' !! m = Some (set_i ym (j + 1))) /\
          (forall b, b <> n -> b <> c ->
             (forall j, k <= j < outDegree x ->
                        cell (heap st) n j <> Some (Some b)) ->
             heap st' !! b = heap st !! b))).
Proof.
  intros [hp pl] n x d k f r0 Hr Hx Hk Hsmall Habs. simpl in Hx, Habs.
  pose proof (reachable_index_inv _ Hr) as Hinv.
  pose proof (reachable_h_zero _ Hr) as H0. simpl in Hinv, H0.
  destruct (tree_alloc_total d (mkState hp pl)) as (c & [hp1 pl1] & Hc & Hcp).
  pose proof (tree_alloc_spec _ _ _ _ Hc Hinv) as [Hinv1 Hc1].
  simpl in Hinv1, Hc1, Hcp.
  assert (Hgt : (k >? outDegree x) = false)
    by (rewrite Z.gtb_ltb; apply Z.ltb_ge; lia).
  destruct c as [c|].
  { destruct Hc1 as [Hfresh ->].
    assert (Hnc : n <> c) by (intros ->; congruence).
    destruct (tree_insert_subtree_full
                (mkState (<[c := mkTreeNode None [] 0 d 0 0 0]> hp) pl1)
                n c x (mkTreeNode None [] 0 d 0 0 0) k (S f))
      as [F HF]; simpl; auto.
    { apply nodes_h_zero_alloc. exact H0. }
    { rewrite lookup_insert_ne by auto. exact Hx. }
    { apply lookup_insert_eq. }
    { eapply fresh_node_off_chain; eauto. }
    exists F. intros fuel Hfuel.
    destruct (HF fuel Hfuel) as (r & [hp2 pl2] & Hins & Hnull & Hcase).
    simpl in Hnull, Hcase.
    unfold tree_insert_child. rewrite (bind_load _ _ _ _ _ Hx), Hgt.
    rewrite (bind_ok _ _ _ _ _ Hc), (bind_ok _ _ _ _ _ Hins).
    destruct Hcase as [[-> ->]|(-> & Hnew & Hod & Hp & Hdat & Hi & Hcell & Hlo
                                 & Hhi & Hsib & Hoth)].
    - rewrite (bind_free _ _ _ _ _ (lookup_insert_eq _ _ _)).
      eexists. split; [reflexivity|]. left. simpl.
      split.
      + intros Hp. destruct (Hcp Hp) as [_ Hp1]. specialize (Hnull Hp1).
        discriminate.
      + rewrite delete_insert_eq. apply delete_id. exact Hfresh.
    - eexists. split; [reflexivity|]. right. simpl. exists c.
      split; [exact Hfresh|]. split; [exact Hnew|].
      split; [exact Hod|]. split; [exact Hp|]. split; [exact Hdat|].
      split; [exact Hi|]. split; [exact Hcell|].
      split.
      { intros j Hj. rewrite Hlo by exact Hj.
        rewrite cell_insert, decide_False by auto. reflexivity. }
      split.
      { intros j Hj. rewrite Hhi by exact Hj.
        rewrite cell_insert, decide_False by auto. reflexivity. }
      split.
      { intros j m ym Hj Hm Hym.
        assert (Hmc : m <> c) by (intros ->; congruence).
        apply (Hsib j m ym Hj).
        - rewrite cell_insert, decide_False by auto. exact Hm.
        - rewrite lookup_insert_ne by auto. exact Hym. }
      intros b Hbn Hbc Hnot. rewrite Hoth; auto.
      + rewrite lookup_insert_ne by auto. reflexivity.
      + intros j Hj. rewrite cell_insert, decide_False by auto.
        apply Hnot. exact Hj. }
  subst hp1. exists 0%nat. intros fuel _.
  unfold tree_insert_child. rewrite (bind_load _ _ _ _ _ Hx), Hgt.
  rewrite (bind_ok _ _ _ _ _ Hc).
  assert (Hins : tree_insert_subtree fuel (Some n) None k (mkState hp pl1)
                 = Ok (None, mkState hp pl1)) by reflexivity.
  rewrite (bind_ok _ _ _ _ _ Hins).
  eexists. split; [reflexivity|]. left. simpl. split; [|reflexivity].
  intros Hp. destruct (Hcp Hp) as [Hbad _]. congruence.
Qed.

Lemma tree_insert_child_links_a_new_leaf_witness :
  exists F : nat, forall fuel, (F <= fuel)%nat ->
  exists c st',
    tree_insert_child fuel (Some 1%positive) 77 1 ex_forest = Ok (None, st') /\
    heap ex_forest !! c = None /\
    heap st' !! c = Some (mkTreeNode (Some 1%positive) [] 0 77 0 1 0) /\
    cell (heap st') 1%positive 0 = Some (Some 2%positive) /\
    cell (heap st') 1%positive 1 = Some (Some c) /\
    cell (heap st') 1%positive 2 = Some (Some 3%positive) /\
    heap st' !! 3%positive
      = Some (mkTreeNode (Some 1%positive) [] 0 20 0 2 0).
Proof.
  destruct (tree_insert_child_links_a_new_leaf ex_forest 1%positive
              (mkTreeNode None [Some 2; Some 3]%positive 2 100 2 0 0)
              77 1 3 (Some 1%positive)) as [F H].
  - exists 8%nat,
      [OpAlloc 100; OpAddChild (Some 1%positive) 10;
       OpAddChild (Some 1%positive) 20; OpAlloc 200], [].
    split; [repeat constructor|vm_compute; reflexivity].
  - vm_compute. reflexivity.
  - simpl. lia.
  - unfold UINT_MAX. simpl. lia.
  - vm_compute. reflexivity.
  - exists F. intros fuel Hf.
    destruct (H fuel Hf) as (st' & Hrun & Hcase).
    destruct Hcase as [[Hbad _]|(c & Hfresh & Hnew & _ & _ & _ & _ & Hcell
                                 & Hlo & Hhi & Hsib & _)];
      [exfalso; apply Hbad; reflexivity|].
    exists c, st'. split; [exact Hrun|]. split; [exact Hfresh|].
    split; [exact Hnew|].
    split; [rewrite Hlo by lia; vm_compute; reflexivity|].
    split; [exact Hcell|].
    split; [rewrite Hhi by (simpl; lia); vm_compute; reflexivity|].
    apply (Hsib 1 3%positive (mkTreeNode (Some 1%positive) [] 0 20 0 1 0));
      [simpl; lia|vm_compute; reflexivity|vm_compute; reflexivity].
Defined.

(** [tree_set_child] in a state the operations built, on a node [n] whose
    parent chain ends at a root, with [0 <= k <= outDegree n].  With enough
    fuel the call returns, and it returns NULL whatever happened.  Either
    the allocator failed and the memory is exactly as before; or a new leaf
    with the payload is the child in cell [k], with parent [n] and index
    [k], and the other cells of [n] are as before: with [k = outDegree n]
    the node has one child more, with [k < outDegree n] the node that was
    in cell [k] is released while its children stay allocated.  Every
    other node is as before. *)
Theorem tree_set_child_puts_a_new_leaf :
  forall (st : state) (n : addr) (x : TreeNode) (d : TreeNodeValue) (k : Z)
         (f : nat) (r0 : ptr),
    reachable st ->
    heap st !! n = Some x ->
    0 <= k <= outDegree x -> outDegree x < UINT_MAX ->
    tree_abs_root f (Some n) (heap st) = Ok r0 ->
    exists F : nat, forall fuel, (F <= fuel)%nat ->
    exists st',
      tree_set_child fuel (Some n) d k st = Ok (None, st') /\
      ((plan st <> [] /\ heap st' = heap st) \/
       (exists c,
          heap st !! c = None /\
          heap st' !! c = Some (mkTreeNode (Some n) [] 0 d 0 k 0) /\
          cell (heap st') n k = Some (Some c) /\
          fld parent (heap st') n = Some (parent x) /\
          fld data (heap st') n = Some (data x) /\
          fld i (heap st') n = Some (i x) /\
          (forall j, 0 <= j < outDegree x -> j <> k ->
                     cell (heap st') n j = cell (heap st) n j) /\
          (k = outDegree x ->
             fld outDegree (heap st') n = Some (outDegree x + 1) /\
             forall b, b <> n -> b <> c -> heap st' !! b = heap st !! b) /\
          (k < outDegree x ->
             fld outDegree (heap st') n = Some (outDegree x) /\
             exists c0, cell (heap st) n k = Some (Some c0) /\
                        heap st' !! c0 = None /\
                        forall b, b <> n -> b <> c -> b <> c0 ->
                                  heap st' !! b = heap st !! b))).
Proof.
  intros [hp pl] n x d k f r0 Hr Hx Hk Hsmall Habs. simpl in Hx, Habs.
  pose proof (reachable_index_inv _ Hr) as Hinv.
  pose proof (reachable_h_zero _ Hr) as H0. simpl in Hinv, H0.
  destruct (tree_alloc_total d (mkState hp pl)) as (c & [hp1 pl1] & Hc & Hcp).
  pose proof (tree_alloc_spec _ _ _ _ Hc Hinv) as [Hinv1 Hc1].
  simpl in Hinv1, Hc1, Hcp.
  assert (Hgt : (k >? outDegree x) = false)
    by (rewrite Z.gtb_ltb; apply Z.ltb_ge; lia).
  destruct c as [c|].
  { destruct Hc1 as [Hfresh ->].
    assert (Hnc : n <> c) by (intros ->; congruence).
    destruct (tree_set_subtree_full
                (mkState (<[c := mkTreeNode None [] 0 d 0 0 0]> hp) pl1)
                n c x (mkTreeNode None [] 0 d 0 0 0) k (S f))
      as [F HF]; simpl; auto.
    { apply nodes_h_zero_alloc. exact H0. }
    { rewrite lookup_insert_ne by auto. exact Hx. }
    { apply lookup_insert_eq. }
    { eapply fresh_node_off_chain; eauto. }
    exists F. intros fuel Hfuel.
    destruct (HF fuel Hfuel) as (r & [hp2 pl2] & Hins & Hnull & Hcase).
    simpl in Hnull, Hcase.
    unfold tree_set_child. rewrite (bind_load _ _ _ _ _ Hx), Hgt.
    rewrite (bind_ok _ _ _ _ _ Hc), (bind_ok _ _ _ _ _ Hins).
    destruct Hcase as [[-> ->]|(-> & Hnew & Hcell & Hp & Hdat & Hi & Hcells
                                 & Happ & Hrep)].
    - rewrite (bind_free _ _ _ _ _ (lookup_insert_eq _ _ _)).
      eexists. split; [reflexivity|]. left. simpl.
      split.
      + intros Hp. destruct (Hcp Hp) as [_ Hp1]. specialize (Hnull Hp1).
        discriminate.
      + rewrite delete_insert_eq. apply delete_id. exact Hfresh.
    - eexists. split; [reflexivity|]. right. simpl. exists c.
      split; [exact Hfresh|]. split; [exact Hnew|].
      split; [exact Hcell|]. split; [exact Hp|]. split; [exact Hdat|].
      split; [exact Hi|].
      split.
      { intros j Hj Hjk. rewrite Hcells by auto.
        rewrite cell_insert, decide_False by auto. reflexivity. }
      split.
      { intros E. destruct (Happ E) as [Hod Hoth]. split; [exact Hod|].
        intros b Hbn Hbc. rewrite Hoth by auto.
        rewrite lookup_insert_ne by auto. reflexivity. }
      intros E. destruct (Hrep E) as (Hod & c0 & Hc0 & Hgone & Hoth).
      split; [exact Hod|]. exists c0.
      rewrite cell_insert, decide_False in Hc0 by auto.
      split; [exact Hc0|]. split; [exact Hgone|].
      intros b Hbn Hbc Hb0. rewrite Hoth by auto.
      rewrite lookup_insert_ne by auto. reflexivity. }
  subst hp1. exists 0%nat. intros fuel _.
  unfold tree_set_child. rewrite (bind_load _ _ _ _ _ Hx), Hgt.
  rewrite (bind_ok _ _ _ _ _ Hc).
  assert (Hins : tree_set_subtree fuel (Some n) None k (mkState hp pl1)
                 = Ok (None, mkState hp pl1)) by reflexivity.
  rewrite (bind_ok _ _ _ _ _ Hins).
  eexists. split; [reflexivity|]. left. simpl. split; [|reflexivity].
  intros Hp. destruct (Hcp Hp) as [Hbad _]. congruence.
Qed.

Lemma tree_set_child_puts_a_new_leaf_witness :
  exists F : nat, forall fuel, (F <= fuel)%nat ->
  exists c st',
    tree_set_child fuel (Some 1%positive) 77 0 ex_forest = Ok (None, st') /\
    heap ex_forest !! c = None /\
    heap st' !! c = Some (mkTreeNode (Some 1%positive) [] 0 77 0 0 0) /\
    cell (heap st') 1%positive 0 = Some (Some c) /\
    cell (heap st') 1%positive 1 = Some (Some 3%positive) /\
    fld outDegree (heap st') 1%positive = Some 2 /\
    heap st' !! 2%positive = None.
Proof.
  destruct (tree_set_child_puts_a_new_leaf ex_forest 1%positive
              (mkTreeNode None [Some 2; Some 3]%positive 2 100 2 0 0)
              77 0 3 (Some 1%positive)) as [F H].
  - exists 8%nat,
      [OpAlloc 100; OpAddChild (Some 1%positive) 10;
       OpAddChild (Some 1%positive) 20; OpAlloc 200], [].
    split; [repeat constructor|vm_compute; reflexivity].
  - vm_compute. reflexivity.
  - simpl. lia.
  - unfold UINT_MAX. simpl. lia.
  - vm_compute. reflexivity.
  - exists F. intros fuel Hf.
    destruct (H fuel Hf) as (st' & Hrun & Hcase).
    destruct Hcase as [[Hbad _]|(c & Hfresh & Hnew & Hcell & _ & _ & _ & Hcells
                                 & _ & Hrep)];
      [exfalso; apply Hbad; reflexivity|].
    destruct Hrep as (Hod & c0 & Hc0 & Hgone & _); [simpl; lia|].
    assert (E : c0 = 2%positive) by (vm_compute in Hc0; congruence).
    subst c0.
    exists c, st'. split; [exact Hrun|]. split; [exact Hfresh|].
    split; [exact Hnew|]. split; [exact Hcell|].
    split; [rewrite Hcells by (simpl; lia); vm_compute; reflexivity|].
    split; [exact Hod|exact Hgone].
Defined.

(** ** Rejected calls *)

(** An index beyond the out-degree of [n], a subtree that is [NULL] and a
    subtree that has a parent are rejected before anything is written or
    allocated, with any fuel: [tree_insert_subtree] and [tree_set_subtree]
    hand the subtree back, [tree_insert_child] and [tree_set_child] return
    NULL without asking the allocator, and the state is the one before
    the call. *)
Theorem rejected_calls_change_nothing :
  forall (st : state) (n : addr) (x : TreeNode) (fuel : nat) (k : Z),
    heap st !! n = Some x ->
    (outDegree x < k ->
       forall t d,
         tree_insert_subtree fuel (Some n) t k st = Ok (t, st) /\
         tree_set_subtree fuel (Some n) t k st = Ok (t, st) /\
         tree_insert_child fuel (Some n) d k st = Ok (None, st) /\
         tree_set_child fuel (Some n) d k st = Ok (None, st)) /\
    (forall a y q,
       heap st !! a = Some y -> parent y = Some q ->
       tree_insert_subtree fuel (Some n) (Some a) k st = Ok (Some a, st) /\
       tree_set_subtree fuel (Some n) (Some a) k st = Ok (Some a, st)) /\
    tree_insert_subtree fuel (Some n) None k st = Ok (None, st) /\
    tree_set_subtree fuel (Some n) None k st = Ok (None, st).
Proof.
  intros [hp pl] n x fuel k Hx. simpl in Hx.
  split; [|split; [|split; reflexivity]].
  - intros Hk t d.
    assert (Hgt : (k >? outDegree x) = true) by (apply Z.gtb_lt; lia).
    unfold tree_insert_subtree, tree_set_subtree, tree_insert_child,
      tree_set_child.
    destruct t; rewrite !(bind_load _ _ _ _ _ Hx), ?Hgt; auto.
  - intros a y q Hy Hq.
    unfold tree_insert_subtree, tree_set_subtree.
    rewrite !(bind_load _ _ _ _ _ Hx).
    destruct (k >? outDegree x); [auto|].
    rewrite !(bind_load _ _ _ _ _ Hy), Hq. auto.
Qed.

Lemma rejected_calls_change_nothing_witness :
  tree_insert_subtree 0 (Some 1%positive) (Some 4%positive) 3 ex_forest
    = Ok (Some 4%positive, ex_forest) /\
  tree_set_child 0 (Some 1%positive) 77 3 ex_forest = Ok (None, ex_forest) /\
  tree_set_subtree 0 (Some 1%positive) (Some 2%positive) 0 ex_forest
    = Ok (Some 2%positive, ex_forest).
Proof.
  destruct (rejected_calls_change_nothing ex_forest 1%positive
              (mkTreeNode None [Some 2; Some 3]%positive 2 100 2 0 0) 0 3)
    as (Hbig & _); [vm_compute; reflexivity|].
  destruct (rejected_calls_change_nothing ex_forest 1%positive
              (mkTreeNode None [Some 2; Some 3]%positive 2 100 2 0 0) 0 0)
    as (_ & Hpar & _); [vm_compute; reflexivity|].
  destruct (Hbig ltac:(simpl; lia) (Some 4%positive) 77) as (H1 & _ & _ & H4).
  destruct (Hpar 2%positive (mkTreeNode (Some 1%positive) [] 0 10 0 0 0)
              1%positive) as [_ H2]; [vm_compute; reflexivity|reflexivity|].
  auto.
Defined.

(** ** The leaves-only traversal, backwards *)

Lemma kids_at_app (hp : gmap addr TreeNode) (P : rose -> Prop) a l1 :
  forall j l2,
    kids_at hp P a j (l1 ++ l2) <->
    kids_at hp P a j l1 /\ kids_at hp P a (j + Z.of_nat (length l1)) l2.
Proof.
  induction l1 as [|k l1 IH]; intros j l2.
  - simpl app. simpl length. change (Z.of_nat 0) with 0. rewrite Z.add_0_r.
    simpl. tauto.
  - change ((k :: l1) ++ l2) with (k :: (l1 ++ l2)).
    change (kids_at hp P a j (k :: l1 ++ l2))
      with (cell hp a j = Some (Some (root k)) /\
            fld parent hp (root k) = Some (Some a) /\
            fld i hp (root k) = Some j /\
            P k /\ kids_at hp P a (j + 1) (l1 ++ l2)).
    change (kids_at hp P a j (k :: l1))
      with (cell hp a j = Some (Some (root k)) /\
            fld parent hp (root k) = Some (Some a) /\
            fld i hp (root k) = Some j /\
            P k /\ kids_at hp P a (j + 1) l1).
    rewrite IH.
    replace (j + Z.of_nat (length (k :: l1)))
      with (j + 1 + Z.of_nat (length l1)) by (simpl length; lia).
    tauto.
Qed.

Lemma sum_list_app (l1 l2 : list nat) :
  sum_list (l1 ++ l2) = (sum_list l1 + sum_list l2)%nat.
Proof. induction l1 as [|n l1 IH]; simpl; [reflexivity|]. rewrite IH. lia. Qed.

Lemma last_leaf_snoc a pre k :
  last_leaf (Node a (pre ++ [k])) = last_leaf k.
Proof. simpl. rewrite map_app. simpl. apply List.last_last. Qed.

Lemma leaves_node a kids :
  kids <> [] -> leaves (Node a kids) = concat (map leaves kids).
Proof. destruct kids; [congruence|reflexivity]. Qed.

Lemma snoc_not_nil {A} (l : list A) (x : A) : l ++ [x] <> [].
Proof. destruct l; discriminate. Qed.

Lemma kids_at_last (hp : gmap addr TreeNode) a pre k :
  kids_at hp (is_tree hp) a 0 (pre ++ [k]) ->
  cell hp a (Z.of_nat (length pre)) = Some (Some (root k)) /\
  fld parent hp (root k) = Some (Some a) /\
  fld i hp (root k) = Some (Z.of_nat (length pre)) /\ is_tree hp k.
Proof.
  intros H. apply kids_at_app in H as [_ H]. simpl in H.
  destruct H as (Hc & Hp & Hi & Ht & _). auto.
Qed.

(** The descent to the rightmost leaf. *)
Lemma descend_last_spec (hp : gmap addr TreeNode) T :
  forall f, is_tree hp T -> (size T <= f)%nat ->
            descend_last f (Some (root T)) hp = Ok (Some (last_leaf T)).
Proof.
  induction T as [a kids IH] using rose_ind'. intros f (Hd & Hn & Hk) Hf.
  destruct f as [|f]; [simpl in Hf; lia|].
  apply fld_Some in Hd as (x & Hx & Hd).
  simpl descend_last. simpl root.
  rewrite (bindR_Ok _ _ _ _ (loadR_Some _ _ _ Hx)).
  destruct kids as [|k pre _] using rev_ind.
  - simpl in Hd. rewrite Hd. reflexivity.
  - rewrite length_app in Hd, Hn. simpl length in Hd, Hn.
    replace (outDegree x >? 0) with true
      by (symmetry; apply Z.gtb_lt; rewrite Hd; lia).
    apply kids_at_last in Hk as (Hc & _ & _ & Hkt).
    rewrite Hd. replace (Z.of_nat (length pre + 1) - 1)
      with (Z.of_nat (length pre)) by lia.
    rewrite uint_small by lia.
    rewrite (bindR_Ok _ _ _ _ (read_childR_cell _ _ _ _ Hc)).
    apply Forall_app in IH as [_ IH]. apply Forall_cons in IH as [IHk _].
    rewrite last_leaf_snoc. apply IHk; [exact Hkt|].
    simpl in Hf. rewrite map_app, sum_list_app in Hf. simpl in Hf. lia.
Qed.

Lemma leaves_last_loop_spec (hp : gmap addr TreeNode) T :
  forall f cc, is_tree hp T -> (size T < f)%nat ->
    leaves_last_loop f cc (Some (root T)) hp = Ok (Some (last_leaf T)).
Proof.
  induction T as [a kids IH] using rose_ind'. intros f cc (Hd & Hn & Hk) Hf.
  destruct f as [|f]; [lia|].
  apply fld_Some in Hd as (x & Hx & Hd).
  simpl leaves_last_loop. simpl root.
  rewrite (bindR_Ok _ _ _ _ (loadR_Some _ _ _ Hx)).
  destruct kids as [|k pre _] using rev_ind.
  - simpl in Hd. rewrite Hd. simpl.
    destruct f as [|f]; [simpl in Hf; lia|]. reflexivity.
  - rewrite length_app in Hd, Hn. simpl length in Hd, Hn.
    replace (outDegree x >? 0) with true
      by (symmetry; apply Z.gtb_lt; rewrite Hd; lia).
    apply kids_at_last in Hk as (Hc & _ & _ & Hkt).
    rewrite Hd. replace (Z.of_nat (length pre + 1) - 1)
      with (Z.of_nat (length pre)) by lia.
    rewrite uint_small by lia.
    rewrite (bindR_Ok _ _ _ _ (read_childR_cell _ _ _ _ Hc)).
    apply Forall_app in IH as [_ IH]. apply Forall_cons in IH as [IHk _].
    rewrite last_leaf_snoc. apply IHk; [exact Hkt|].
    simpl in Hf. rewrite map_app, sum_list_app in Hf. simpl in Hf. lia.
Qed.

(** One turn of the climb. *)
Lemma leaves_prev_slot_root fc fd r (hp : gmap addr TreeNode) :
  leaves_prev_slot (S fc) fd (Some r) (Some r) hp = Ok None.
Proof.
  unfold leaves_prev_slot. simpl leaves_prev_climb.
  destruct (decide (Some r = Some r)) as [_|Hne]; [|congruence].
  unfold bindR, retR.
  destruct (decide (Some r = Some r)) as [_|Hne]; [|congruence]. reflexivity.
Qed.

Lemma leaves_prev_climb_up fc r c q (hp : gmap addr TreeNode) :
  c <> r ->
  fld parent hp c = Some (Some q) -> fld i hp c = Some 0 ->
  leaves_prev_climb (S fc) (Some r) (Some c) hp
  = leaves_prev_climb fc (Some r) (Some q) hp.
Proof.
  intros Hne Hp Hi.
  apply fld_Some in Hp as (y & Hy & Hp).
  rewrite (fld_lookup _ _ _ _ Hy) in Hi. injection Hi as Hi.
  simpl leaves_prev_climb.
  destruct (decide (Some c = Some r)) as [E|_]; [congruence|].
  rewrite (bindR_Ok _ _ _ _ (loadR_Some _ _ _ Hy)). rewrite Hi, Hp.
  reflexivity.
Qed.

Lemma leaves_prev_climb_break fc r c j (hp : gmap addr TreeNode) :
  c <> r -> fld i hp c = Some j -> 0 < j ->
  leaves_prev_climb (S fc) (Some r) (Some c) hp = Ok (Some c).
Proof.
  intros Hne Hi Hj.
  apply fld_Some in Hi as (y & Hy & Hi).
  simpl leaves_prev_climb.
  destruct (decide (Some c = Some r)) as [E|_]; [congruence|].
  rewrite (bindR_Ok _ _ _ _ (loadR_Some _ _ _ Hy)). rewrite Hi.
  replace (j >? 0) with true by (symmetry; apply Z.gtb_lt; lia).
  reflexivity.
Qed.

Lemma leaves_prev_slot_first fc fd r c q (hp : gmap addr TreeNode) :
  c <> r ->
  fld parent hp c = Some (Some q) -> fld i hp c = Some 0 ->
  leaves_prev_slot (S fc) fd (Some r) (Some c) hp
  = leaves_prev_slot fc fd (Some r) (Some q) hp.
Proof.
  intros Hne Hp Hi. unfold leaves_prev_slot, bindR at 1 3.
  erewrite leaves_prev_climb_up by eauto. reflexivity.
Qed.

Lemma leaves_prev_slot_sibling fc fd r c q j c' l (hp : gmap addr TreeNode) :
  c <> r ->
  fld parent hp c = Some (Some q) -> fld i hp c = Some j ->
  0 < j <= UINT_MAX ->
  cell hp q (j - 1) = Some c' ->
  descend_last fd c' hp = Ok l ->
  leaves_prev_slot (S fc) fd (Some r) (Some c) hp = Ok l.
Proof.
  intros Hne Hp Hi Hj Hc Hl. unfold leaves_prev_slot.
  erewrite bindR_Ok by (eapply leaves_prev_climb_break; eauto; lia).
  destruct (decide (Some c = Some r)) as [E|_]; [congruence|].
  apply fld_Some in Hp as (y & Hy & Hp).
  rewrite (fld_lookup _ _ _ _ Hy) in Hi. injection Hi as Hi.
  rewrite (bindR_Ok _ _ _ _ (loadR_Some _ _ _ Hy)).
  rewrite Hp, Hi, uint_small by lia.
  rewrite (bindR_Ok _ _ _ _ (read_childR_cell _ _ _ _ Hc)). exact Hl.
Qed.

Lemma tree_iter_leaves_prev_slot fuel it (hp : gmap addr TreeNode) l :
  leaves_prev_slot fuel fuel (t it) (prev it) hp = Ok l ->
  tree_iter_leaves_prev fuel it hp
  = Ok (prev it, mkTreeIterator (t it) l (prev it) (current it)).
Proof.
  unfold leaves_prev_slot, tree_iter_leaves_prev, bindR, retR. simpl.
  destruct (leaves_prev_climb fuel (t it) (prev it) hp) as [q| |];
    [|discriminate|discriminate].
  destruct q as [q|].
  - destruct (decide (Some q = t it)) as [E|Hne].
    + intros [= <-]. reflexivity.
    + destruct (loadR (Some q) hp) as [x| |]; [|discriminate|discriminate].
      destruct (read_childR (parent x) (uint (i x - 1)) hp) as [s| |];
        [|discriminate|discriminate].
      intros ->. reflexivity.
  - intros [= <-]. reflexivity.
Qed.

Lemma walks_back_from_step (hp : gmap addr TreeNode) r fs a K fw rest :
  leaves_prev_slot fs fs (Some r) (Some a) hp = Ok K ->
  walks_back_from hp r fs K fw rest ->
  walks_back_from hp r fs (Some a) (S fw) (Some a :: rest).
Proof.
  intros HK Hw cu nx. simpl walk_backward.
  erewrite bindR_Ok by (apply tree_iter_leaves_prev_slot; exact HK).
  simpl. erewrite bindR_Ok by apply Hw. reflexivity.
Qed.

Lemma walks_back_kids (hp : gmap addr TreeNode) r fs s (d : nat) K fw rest :
  (forall fc, (d < fc)%nat ->
              leaves_prev_slot fc fs (Some r) (Some s) hp = Ok K) ->
  walks_back_from hp r fs K fw rest ->
  forall pre k,
    Forall (walks_back_subtree hp r fs) (pre ++ [k]) ->
    kids_at hp (is_tree hp) s 0 (pre ++ [k]) ->
    Z.of_nat (length (pre ++ [k])) <= UINT_MAX ->
    r ∉ concat (map addrs (pre ++ [k])) ->
    (d + 1 + sum_list (map size (pre ++ [k])) <= fs)%nat ->
    walks_back_from hp r fs (Some (last_leaf k))
      (length (concat (map leaves (pre ++ [k]))) + fw)
      ((Some <$> reverse (concat (map leaves (pre ++ [k])))) ++ rest).
Proof.
  intros HK Hrest pre.
  induction pre as [|k' pre IH] using rev_ind; intros k HP Hk Hlen Hr Hsz.
  - (* the first child *)
    simpl app in *. apply Forall_cons in HP as [HPk _].
    destruct Hk as (Hc & Hp & Hi & Hkt & _).
    simpl in Hr, Hsz. rewrite app_nil_r in Hr.
    simpl concat. rewrite app_nil_r.
    destruct k as [c ks] eqn:Ek. simpl in Hr.
    apply not_elem_of_cons in Hr as [Hne Hr]. rewrite <- Ek in *.
    apply (HPk (S d) K); auto.
    + rewrite Ek. exact Hr.
    + lia.
    + intros fc Hfc. destruct fc as [|fc]; [lia|].
      erewrite leaves_prev_slot_first; [apply HK; lia|..]; eauto.
      rewrite Ek. simpl. auto.
  - (* a child with a left sibling *)
    apply Forall_app in HP as [HP' HPk].
    apply Forall_cons in HPk as [HPk _].
    pose proof (kids_at_last _ _ _ _ Hk) as (Hc & Hp & Hi & Hkt).
    apply kids_at_app in Hk as [Hk' _].
    pose proof (kids_at_last _ _ _ _ Hk') as (Hc' & _ & _ & Hkt').
    rewrite map_app, concat_app in Hr. simpl in Hr. rewrite app_nil_r in Hr.
    apply not_elem_of_app in Hr as [Hr' Hrk].
    rewrite (map_app size), sum_list_app in Hsz. simpl in Hsz.
    rewrite (length_app (pre ++ [k'])) in Hlen. simpl length in Hlen.
    specialize (IH k' HP' Hk' ltac:(lia) Hr' ltac:(lia)).
    rewrite length_app in Hlen. simpl length in Hlen.
    rewrite (map_app leaves (pre ++ [k']) [k]), concat_app.
    change (concat (map leaves [k])) with (leaves k ++ []).
    rewrite app_nil_r.
    set (A := concat (map leaves (pre ++ [k']))) in *.
    rewrite reverse_app, (fmap_app Some), <- app_assoc, length_app.
    rewrite (Nat.add_comm (length A)), <- Nat.add_assoc.
    destruct k as [c ks] eqn:Ek. simpl in Hrk.
    apply not_elem_of_cons in Hrk as [Hne Hrk]. rewrite <- Ek in *.
    apply (HPk (S d) (Some (last_leaf k'))); auto.
    + rewrite Ek. exact Hrk.
    + lia.
    + intros fc Hfc. destruct fc as [|fc]; [lia|].
      eapply leaves_prev_slot_sibling; eauto.
      * rewrite Ek. simpl. auto.
      * rewrite length_app. simpl length. lia.
      * rewrite length_app. simpl length.
        replace (Z.of_nat (length pre + 1) - 1)
          with (Z.of_nat (length pre)) by lia.
        exact Hc'.
      * apply descend_last_spec; [exact Hkt'|].
        rewrite (map_app size), sum_list_app in Hsz. simpl in Hsz. lia.
Qed.

Lemma walks_back_subtree_all (hp : gmap addr TreeNode) r fs S :
  walks_back_subtree hp r fs S.
Proof.
  induction S as [s kids IH] using rose_ind'.
  intros d K fw rest (Hd & Hn & Hk) Hr Hsz HK Hrest.
  destruct kids as [|k pre _] using rev_ind.
  - simpl. apply walks_back_from_step with (K := K); [|exact Hrest].
    apply HK. simpl in Hsz. lia.
  - rewrite leaves_node by apply snoc_not_nil. rewrite last_leaf_snoc.
    eapply (walks_back_kids hp r fs s d K fw rest HK Hrest pre k); auto.
    simpl in Hsz. lia.
Qed.

(** Let the heap hold a tree of shape [T] (its root may hang in a larger
    tree).  With fuel above the number of nodes, the backward leaves-only
    traversal -- [tree_iter_leaves_last] on a fresh iterator, then
    [tree_iter_leaves_prev] as long as [tree_iter_has_prev] holds --
    returns, and the nodes it yields are the leaves of [T] from right to
    left: the forward traversal's nodes in the opposite order.  On the
    empty tree ([NULL]) it yields nothing. *)
Theorem leaves_traversal_back_yields_leaves_reversed :
  forall (hp : gmap addr TreeNode) (T : rose) (fuel : nat),
    is_tree hp T -> (size T < fuel)%nat ->
    leaves_traversal_back fuel (Some (root T)) hp
      = Ok (Some <$> reverse (leaves T)) /\
    (forall out, leaves_traversal fuel (Some (root T)) hp = Ok out ->
                 leaves_traversal_back fuel (Some (root T)) hp
                 = Ok (reverse out)) /\
    leaves_traversal_back fuel None hp = Ok [].
Proof.
  intros hp T fuel HT Hf.
  assert (Hback : leaves_traversal_back fuel (Some (root T)) hp
                  = Ok (Some <$> reverse (leaves T))).
  { unfold leaves_traversal_back, tree_iter_leaves_last.
    erewrite bindR_Ok
      by (erewrite bindR_Ok by (apply leaves_last_loop_spec; eauto);
          reflexivity).
    pose proof (leaves_le_size T) as HL.
    pose proof (walks_back_subtree_all hp (root T) fuel T) as H.
    unfold walks_back_subtree in H.
    specialize (H 0%nat None (fuel - length (leaves T))%nat []).
    replace (length (leaves T) + (fuel - length (leaves T)))%nat with fuel
      in H by lia.
    rewrite app_nil_r in H. apply H.
    - exact HT.
    - apply root_not_inner with (hp := hp). exact HT.
    - lia.
    - intros fc Hfc. destruct fc as [|fc]; [lia|].
      apply leaves_prev_slot_root.
    - intros cu nx. destruct (fuel - length (leaves T))%nat as [|fw] eqn:E;
        [lia|]. reflexivity. }
  split; [exact Hback|]. split.
  - intros out Hout. rewrite Hback. f_equal.
    assert (E : leaves_traversal fuel (Some (root T)) hp
                = Ok (Some <$> leaves T)).
    { unfold leaves_traversal, tree_iter_leaves_first.
      erewrite bindR_Ok
        by (erewrite bindR_Ok by (apply leaves_first_loop_spec; eauto);
            reflexivity).
      pose proof (leaves_le_size T) as HL.
      pose proof (walks_subtree_all hp (root T) fuel T) as H.
      unfold walks_subtree in H.
      specialize (H 0%nat None (fuel - length (leaves T))%nat []).
      replace (length (leaves T) + (fuel - length (leaves T)))%nat with fuel
        in H by lia.
      rewrite app_nil_r in H. apply H.
      - exact HT.
      - apply root_not_inner with (hp := hp). exact HT.
      - lia.
      - intros fc Hfc. destruct fc as [|fc]; [lia|].
        apply leaves_next_slot_root.
      - intros pv cu. destruct (fuel - length (leaves T))%nat as [|fw] eqn:E;
          [lia|]. reflexivity. }
    rewrite E in Hout. injection Hout as <-. apply fmap_reverse.
  - destruct fuel as [|fuel]; [lia|reflexivity].
Qed.

Lemma leaves_traversal_back_yields_leaves_reversed_witness :
  leaves_traversal_back 8 (Some 1%positive) (heap ex_bushy)
  = Ok [Some 4; Some 3; Some 6; Some 5]%positive /\
  (forall out, leaves_traversal 8 (Some 1%positive) (heap ex_bushy) = Ok out ->
               leaves_traversal_back 8 (Some 1%positive) (heap ex_bushy)
               = Ok (reverse out)) /\
  leaves_traversal_back 8 None (heap ex_bushy) = Ok [].
Proof.
  apply (leaves_traversal_back_yields_leaves_reversed
           (heap ex_bushy) ex_bushy_shape 8).
  - repeat split; try (vm_compute; reflexivity); vm_compute; discriminate.
  - simpl. lia.
Defined.

(** ** The preorder walk, backwards *)

Lemma tree_preorder_walk_prev_slot fuel it (hp : gmap addr TreeNode) l :
  preorder_prev_slot fuel (t it) (prev it) hp = Ok l ->
  tree_preorder_walk_prev fuel it hp
  = Ok (prev it, mkTreeIterator (t it) l (prev it) (current it)).
Proof.
  unfold preorder_prev_slot, tree_preorder_walk_prev, bindR, retR. simpl.
  destruct (decide (prev it = t it \/ prev it = None)) as [E|Hne].
  - intros [= <-]. reflexivity.
  - destruct (loadR (prev it) hp) as [x| |]; [|discriminate|discriminate].
    destruct (i x >? 0).
    + destruct (read_childR (parent x) (uint (i x - 1)) hp) as [s| |];
        [|discriminate|discriminate].
      intros ->. reflexivity.
    + intros [= <-]. reflexivity.
Qed.

Lemma walks_back_pre_step (hp : gmap addr TreeNode) r fs a K fw rest :
  preorder_prev_slot fs (Some r) (Some a) hp = Ok K ->
  walks_back_pre hp r fs K fw rest ->
  walks_back_pre hp r fs (Some a) (S fw) (Some a :: rest).
Proof.
  intros HK Hw cu nx. simpl walk_backward.
  erewrite bindR_Ok by (apply tree_preorder_walk_prev_slot; exact HK).
  simpl. erewrite bindR_Ok by apply Hw. reflexivity.
Qed.

Lemma preorder_prev_slot_first fd r c q (hp : gmap addr TreeNode) :
  c <> r ->
  fld parent hp c = Some (Some q) -> fld i hp c = Some 0 ->
  preorder_prev_slot fd (Some r) (Some c) hp = Ok (Some q).
Proof.
  intros Hne Hp Hi.
  apply fld_Some in Hp as (y & Hy & Hp).
  rewrite (fld_lookup _ _ _ _ Hy) in Hi. injection Hi as Hi.
  unfold preorder_prev_slot.
  destruct (decide (Some c = Some r \/ Some c = None)) as [[E|E]|_];
    [congruence|discriminate|].
  rewrite (bindR_Ok _ _ _ _ (loadR_Some _ _ _ Hy)). rewrite Hi, Hp.
  reflexivity.
Qed.

Lemma preorder_prev_slot_sibling fd r c q j c' l (hp : gmap addr TreeNode) :
  c <> r ->
  fld parent hp c = Some (Some q) -> fld i hp c = Some j ->
  0 < j <= UINT_MAX ->
  cell hp q (j - 1) = Some c' ->
  descend_last fd c' hp = Ok l ->
  preorder_prev_slot fd (Some r) (Some c) hp = Ok l.
Proof.
  intros Hne Hp Hi Hj Hc Hl.
  apply fld_Some in Hp as (y & Hy & Hp).
  rewrite (fld_lookup _ _ _ _ Hy) in Hi. injection Hi as Hi.
  unfold preorder_prev_slot.
  destruct (decide (Some c = Some r \/ Some c = None)) as [[E|E]|_];
    [congruence|discriminate|].
  rewrite (bindR_Ok _ _ _ _ (loadR_Some _ _ _ Hy)). rewrite Hi.
  replace (j >? 0) with true by (symmetry; apply Z.gtb_lt; lia).
  rewrite Hp, uint_small by lia.
  rewrite (bindR_Ok _ _ _ _ (read_childR_cell _ _ _ _ Hc)). exact Hl.
Qed.

Lemma preorder_prev_slot_root fd r (hp : gmap addr TreeNode) :
  preorder_prev_slot fd (Some r) (Some r) hp = Ok None.
Proof.
  unfold preorder_prev_slot.
  destruct (decide (Some r = Some r \/ Some r = None)) as [_|Hne];
    [reflexivity|tauto].
Qed.

(** The slot value computed at the root of the last of the children
    [pre ++ [k]] of [s]. *)
Lemma preorder_prev_slot_kid (hp : gmap addr TreeNode) r fs s pre k :
  kids_at hp (is_tree hp) s 0 (pre ++ [k]) ->
  Z.of_nat (length (pre ++ [k])) <= UINT_MAX ->
  root k <> r ->
  (sum_list (map size pre) <= fs)%nat ->
  preorder_prev_slot fs (Some r) (Some (root k)) hp
  = Ok (Some (last_leaf (Node s pre))).
Proof.
  intros Hk Hlen Hne Hsz.
  pose proof (kids_at_last _ _ _ _ Hk) as (Hc & Hp & Hi & Hkt).
  rewrite length_app in Hlen. simpl length in Hlen.
  destruct pre as [|k' pre _] using rev_ind.
  - simpl in Hi. eapply preorder_prev_slot_first; eauto.
  - apply kids_at_app in Hk as [Hk' _].
    pose proof (kids_at_last _ _ _ _ Hk') as (Hc' & _ & _ & Hkt').
    rewrite length_app in Hi, Hlen. simpl length in Hi, Hlen.
    rewrite last_leaf_snoc.
    eapply preorder_prev_slot_sibling; eauto.
    + lia.
    + replace (Z.of_nat (length pre + 1) - 1)
        with (Z.of_nat (length pre)) by lia.
      exact Hc'.
    + apply descend_last_spec; [exact Hkt'|].
      rewrite map_app, sum_list_app in Hsz. simpl in Hsz. lia.
Qed.

Lemma preorder_back_kids (hp : gmap addr TreeNode) r fs s K fw rest :
  preorder_prev_slot fs (Some r) (Some s) hp = Ok K ->
  walks_back_pre hp r fs K fw rest ->
  forall pre k,
    Forall (preorder_back_subtree hp r fs) (pre ++ [k]) ->
    kids_at hp (is_tree hp) s 0 (pre ++ [k]) ->
    Z.of_nat (length (pre ++ [k])) <= UINT_MAX ->
    r ∉ concat (map addrs (pre ++ [k])) ->
    (sum_list (map size (pre ++ [k])) <= fs)%nat ->
    walks_back_pre hp r fs (Some (last_leaf k))
      (sum_list (map size (pre ++ [k])) + S fw)
      ((Some <$> reverse (concat (map addrs (pre ++ [k]))))
         ++ Some s :: rest).
Proof.
  intros HK Hrest pre.
  induction pre as [|k' pre IH] using rev_ind; intros k HP Hk Hlen Hr Hsz.
  - (* the first child *)
    pose proof (preorder_prev_slot_kid hp r fs s [] k Hk Hlen) as Hslot.
    simpl app in *. apply Forall_cons in HP as [HPk _].
    destruct Hk as (Hc & Hp & Hi & Hkt & _).
    simpl in Hr, Hsz. rewrite app_nil_r in Hr.
    simpl concat. rewrite app_nil_r. simpl sum_list. rewrite Nat.add_0_r.
    destruct k as [c ks] eqn:Ek. simpl in Hr.
    apply not_elem_of_cons in Hr as [Hne Hr]. rewrite <- Ek in *.
    apply (HPk (Some s)); auto.
    + rewrite Ek. exact Hr.
    + apply Hslot; [rewrite Ek; simpl; auto|simpl; lia].
    + apply walks_back_pre_step with (K := K); assumption.
  - (* a child with a left sibling *)
    pose proof (preorder_prev_slot_kid hp r fs s (pre ++ [k']) k Hk Hlen)
      as Hslot.
    apply Forall_app in HP as [HP' HPk].
    apply Forall_cons in HPk as [HPk _].
    pose proof (kids_at_last _ _ _ _ Hk) as (Hc & Hp & Hi & Hkt).
    apply kids_at_app in Hk as [Hk' _].
    rewrite map_app, concat_app in Hr. simpl in Hr. rewrite app_nil_r in Hr.
    apply not_elem_of_app in Hr as [Hr' Hrk].
    rewrite (map_app size), sum_list_app in Hsz. simpl in Hsz.
    rewrite (length_app (pre ++ [k'])) in Hlen. simpl length in Hlen.
    specialize (IH k' HP' Hk' ltac:(lia) Hr' ltac:(lia)).
    rewrite (map_app addrs (pre ++ [k']) [k]), concat_app.
    change (concat (map addrs [k])) with (addrs k ++ []).
    rewrite app_nil_r.
    rewrite (map_app size (pre ++ [k']) [k]), sum_list_app.
    change (sum_list (map size [k])) with (size k + 0)%nat.
    rewrite Nat.add_0_r.
    set (A := concat (map addrs (pre ++ [k']))) in *.
    set (n := sum_list (map size (pre ++ [k']))) in *.
    rewrite reverse_app, (fmap_app Some), <- app_assoc.
    rewrite (Nat.add_comm n), <- Nat.add_assoc.
    destruct k as [c ks] eqn:Ek. simpl in Hrk.
    apply not_elem_of_cons in Hrk as [Hne Hrk]. rewrite <- Ek in *.
    apply (HPk (Some (last_leaf k'))); auto.
    + rewrite Ek. exact Hrk.
    + rewrite Hslot; [|rewrite Ek; simpl; auto|unfold n; lia].
      rewrite last_leaf_snoc. reflexivity.
Qed.

Lemma preorder_back_subtree_all (hp : gmap addr TreeNode) r fs S :
  (size S <= fs)%nat -> preorder_back_subtree hp r fs S.
Proof.
  induction S as [s kids IH] using rose_ind'.
  intros Hsz K fw rest (Hd & Hn & Hk) Hr HK Hrest.
  destruct kids as [|k pre _] using rev_ind.
  - simpl. apply walks_back_pre_step with (K := K); assumption.
  - rewrite last_leaf_snoc.
    change (addrs (Node s (pre ++ [k])))
      with (s :: concat (map addrs (pre ++ [k]))).
    change (size (Node s (pre ++ [k])))
      with (S (sum_list (map size (pre ++ [k])))).
    rewrite reverse_cons, (fmap_app Some), <- app_assoc.
    change ((Some <$> [s]) ++ rest) with (Some s :: rest).
    replace (S (sum_list (map size (pre ++ [k]))) + fw)%nat
      with (sum_list (map size (pre ++ [k])) + S fw)%nat by lia.
    simpl in Hsz.
    eapply (preorder_back_kids hp r fs s K fw rest HK Hrest pre k); auto.
    + apply Forall_forall. intros k0 Hk0.
      rewrite Forall_forall in IH. apply IH; [exact Hk0|].
      assert (size k0 <= sum_list (map size (pre ++ [k])))%nat; [|lia].
      clear -Hk0. induction (pre ++ [k]) as [|k1 l IHl]; [inversion Hk0|].
      apply elem_of_cons in Hk0 as [->|Hk0]; simpl; [lia|].
      specialize (IHl Hk0). lia.
    + lia.
Qed.

Lemma concat_split {A} (ls : list (list A)) :
  forall pre a post,
    concat ls = pre ++ a :: post ->
    exists l1 p q l2,
      ls = l1 ++ (p ++ a :: q) :: l2 /\
      pre = concat l1 ++ p /\ post = q ++ concat l2.
Proof.
  induction ls as [|l ls IH]; intros pre a post H; simpl in H.
  - destruct pre; discriminate.
  - apply app_eq_inv in H as [(k & Hl & Hk)|(k & Hpre & Hk)].
    + destruct k as [|a' k].
      * simpl in Hk. symmetry in Hk.
        destruct (IH [] a post Hk) as (l1 & p & q & l2 & -> & Hp & ->).
        exists (l :: l1), p, q, l2. split; [reflexivity|].
        split; [|reflexivity]. simpl.
        rewrite <- app_assoc, <- Hp, Hl, !app_nil_r. reflexivity.
      * injection Hk as <- ->. exists [], pre, k, ls.
        split; [simpl; rewrite Hl; reflexivity|]. split; reflexivity.
    + destruct (IH k a post Hk) as (l1 & p & q & l2 & -> & -> & ->).
      exists (l :: l1), p, q, l2. split; [reflexivity|].
      split; [|reflexivity]. simpl. rewrite Hpre, app_assoc. reflexivity.
Qed.

Lemma map_split {A B} (f : A -> B) (l : list A) l1 y l2 :
  map f l = l1 ++ y :: l2 ->
  exists k1 x k2, l = k1 ++ x :: k2 /\ l1 = map f k1 /\ y = f x /\
                  l2 = map f k2.
Proof.
  revert l1. induction l as [|x l IH]; intros l1 H.
  - destruct l1; discriminate.
  - destruct l1 as [|y1 l1]; simpl in H.
    + injection H as <- <-. exists [], x, l. auto.
    + injection H as <- H. destruct (IH l1 H) as (k1 & x' & k2 & -> & -> & -> & ->).
      exists (x :: k1), x', k2. auto.
Qed.

(** Retreating from any node [a] of the tree yields [a] and the nodes
    before it in preorder, latest first. *)
Lemma preorder_back_from_node (hp : gmap addr TreeNode) r fs T :
  (size T <= fs)%nat ->
  forall pre a post K fw rest,
    is_tree hp T -> r ∉ inner T ->
    addrs T = pre ++ a :: post ->
    preorder_prev_slot fs (Some r) (Some (root T)) hp = Ok K ->
    walks_back_pre hp r fs K fw rest ->
    walks_back_pre hp r fs (Some a) (length pre + S fw)
                   ((Some <$> reverse (pre ++ [a])) ++ rest).
Proof.
  induction T as [s kids IH] using rose_ind'.
  intros Hsz pre a post K fw rest HT Hr Ha HK Hrest.
  change (addrs (Node s kids)) with (s :: concat (map addrs kids)) in Ha.
  destruct pre as [|s' pre].
  { injection Ha as <- _. simpl.
    apply walks_back_pre_step with (K := K); assumption. }
  injection Ha as <- Ha.
  apply concat_split in Ha as (l1 & p & q & l2 & Hkids & -> & ->).
  apply map_split in Hkids as (ks1 & km & ks2 & -> & -> & Hkm & ->).
  destruct HT as (Hd & Hn & Hk).
  assert (Hsplit : ks1 ++ km :: ks2 = (ks1 ++ [km]) ++ ks2)
    by (rewrite <- app_assoc; reflexivity).
  rewrite Hsplit in Hk, Hn, Hr, Hsz, IH.
  apply kids_at_app in Hk as [Hk _].
  apply Forall_app in IH as [IH _].
  rewrite length_app in Hn.
  unfold inner in Hr. simpl kids_of in Hr.
  rewrite map_app, concat_app in Hr. apply not_elem_of_app in Hr as [Hr _].
  simpl size in Hsz. rewrite map_app, sum_list_app in Hsz.
  pose proof (kids_at_last _ _ _ _ Hk) as (_ & _ & _ & Hkt).
  assert (Hrk : r ∉ addrs km).
  { rewrite map_app, concat_app in Hr. apply not_elem_of_app in Hr as [_ Hr].
    simpl in Hr. rewrite app_nil_r in Hr. exact Hr. }
  assert (Hrne : root km <> r).
  { intros <-. apply Hrk. apply addrs_root. }
  assert (Hrin : r ∉ inner km).
  { intros Hin. apply Hrk. destruct km as [c cs]. simpl.
    apply elem_of_cons. right. exact Hin. }
  assert (Hszk : (size km <= fs)%nat).
  { rewrite map_app, sum_list_app in Hsz. simpl in Hsz. lia. }
  pose proof (preorder_prev_slot_kid hp r fs s ks1 km Hk ltac:(lia) Hrne)
    as Hslot.
  rewrite map_app, sum_list_app in Hsz. simpl in Hsz.
  specialize (Hslot ltac:(lia)).
  apply Forall_app in IH as [IH1 IHm]. apply Forall_cons in IHm as [IHm _].
  replace (Some <$> reverse ((s :: concat (map addrs ks1) ++ p) ++ [a]))
    with ((Some <$> reverse (p ++ [a]))
            ++ (Some <$> reverse (concat (map addrs ks1))) ++ [Some s]).
  2:{ change ((s :: concat (map addrs ks1) ++ p) ++ [a])
        with (s :: ((concat (map addrs ks1) ++ p) ++ [a])).
      rewrite reverse_cons, <- (app_assoc _ p [a]).
      rewrite (reverse_app _ (p ++ [a])), !(fmap_app Some), <- app_assoc.
      reflexivity. }
  rewrite <- !app_assoc.
  change ([Some s] ++ rest) with (Some s :: rest).
  replace (length (s :: concat (map addrs ks1) ++ p) + S fw)%nat
    with (length p + S (length (concat (map addrs ks1)) + S fw))%nat
    by (simpl; rewrite length_app; lia).
  eapply (IHm Hszk p a q); eauto.
  destruct ks1 as [|k' pre' _] using rev_ind.
  - simpl. apply walks_back_pre_step with (K := K); assumption.
  - rewrite last_leaf_snoc.
    apply kids_at_app in Hk as [Hk' _].
    replace (length (concat (map addrs (pre' ++ [k']))))
      with (sum_list (map size (pre' ++ [k']))).
    2:{ clear. induction (pre' ++ [k']) as [|k1 l IHl]; [reflexivity|].
        simpl. rewrite length_app, addrs_length, IHl. reflexivity. }
    eapply (preorder_back_kids hp r fs s K fw rest HK Hrest pre' k'); auto.
    + apply Forall_forall. intros k0 Hk0.
      apply preorder_back_subtree_all.
      assert (size k0 <= sum_list (map size (pre' ++ [k'])))%nat; [|lia].
      clear -Hk0. induction (pre' ++ [k']) as [|k1 l IHl]; [inversion Hk0|].
      apply elem_of_cons in Hk0 as [->|Hk0]; simpl; [lia|].
      specialize (IHl Hk0). lia.
    + rewrite length_app in Hn. lia.
    + rewrite map_app, concat_app in Hr. apply not_elem_of_app in Hr as [Hr _].
      exact Hr.
    + lia.
Qed.

(** Let the heap hold a tree of shape [T].  With fuel above the number of
    nodes, retreating with [tree_preorder_walk_prev] as long as
    [tree_iter_has_prev] holds, from an iterator on [T] whose [prev] slot
    holds a node [a] of the tree, returns; it yields [a] and then the nodes
    that precede [a] in preorder, latest first, and ends on the root. *)
Theorem preorder_walk_back_yields_the_nodes_before :
  forall (hp : gmap addr TreeNode) (T : rose) (fuel : nat)
         (pre post : list addr) (a : addr) (cu nx : ptr),
    is_tree hp T -> (size T < fuel)%nat ->
    addrs T = pre ++ a :: post ->
    walk_backward fuel (tree_preorder_walk_prev fuel)
                  (mkTreeIterator (Some (root T)) (Some a) cu nx) hp
    = Ok (Some <$> reverse (pre ++ [a])).
Proof.
  intros hp T fuel pre post a cu nx HT Hf Ha.
  assert (Hlen : (length pre + 1 + length post = size T)%nat).
  { rewrite <- addrs_length, Ha, length_app. simpl. lia. }
  pose proof (preorder_back_from_node hp (root T) fuel T ltac:(lia)
                pre a post None (fuel - length pre - 1)%nat [] HT
                (root_not_inner hp T HT) Ha
                (preorder_prev_slot_root _ _ _)) as H.
  replace (length pre + S (fuel - length pre - 1))%nat with fuel in H by lia.
  rewrite app_nil_r in H. apply H.
  intros cu' nx'. destruct (fuel - length pre - 1)%nat as [|fw] eqn:E; [lia|].
  reflexivity.
Qed.

Lemma preorder_walk_back_yields_the_nodes_before_witness :
  walk_backward 8 (tree_preorder_walk_prev 8)
                (mkTreeIterator (Some 1%positive) (Some 3%positive) None None)
                (heap ex_bushy)
  = Ok [Some 3; Some 6; Some 5; Some 2; Some 1]%positive.
Proof.
  apply (preorder_walk_back_yields_the_nodes_before
           (heap ex_bushy) ex_bushy_shape 8 [1; 2; 5; 6]%positive
           [4%positive] 3%positive None None).
  - repeat split; try (vm_compute; reflexivity); vm_compute; discriminate.
  - simpl. lia.
  - reflexivity.
Defined.
